(** * Expression compilation and cast evaluation: a shallow embedding

    The development follows two translation units of the engine:

    - [velox/expression/CastExpr-inl.h]: the per-row cast kernels and the
      error policy wrapped around them;
    - [velox/expression/ExprCompiler.cpp]: the lexically scoped compiler
      (flattening, common-subexpression elimination, lambda captures,
      cast short-circuit and constant folding).

    Code the two files call but do not define (hooks, converters, the
    evaluation context, registries, the vectorised runtime) is taken as a
    record of functions or modelled from the specification; every such
    definition says so in its comment. *)

From Stdlib Require Import ZArith Lia.
From stdpp Require Import base option list gmap strings.

Set Default Proof Using "Type".
Open Scope string_scope.
Open Scope nat_scope.
Open Scope list_scope.

(** ** Exceptions and results *)

(** What a C++ [throw] carries, as far as the [catch] clauses of the two
    files tell exceptions apart. *)
Inductive Thrown :=
| VeloxUserError (message : string)     (* a VeloxException with isUserError() *)
| VeloxRuntimeError (message : string)  (* any other VeloxException *)
| StdException (what : string).         (* a std::exception that is no VeloxException *)

Definition isUserError (e : Thrown) : bool :=
  match e with VeloxUserError _ => true | _ => false end.

Definition message (e : Thrown) : string :=
  match e with
  | VeloxUserError m | VeloxRuntimeError m | StdException m => m
  end.

(** A call either returns or throws. *)
Inductive Outcome (A : Type) :=
| Returns (a : A)
| Throws (e : Thrown).
Arguments Returns {A} a.
Arguments Throws {A} e.

(** [Expected<T>]: a value or a structured error status (its message). *)
Inductive Expected (A : Type) :=
| HasValue (value : A)
| HasError (errorMessage : string).
Arguments HasValue {A} value.
Arguments HasError {A} errorMessage.

(** Statements that run over a mutable state [S] and may throw. The state
    reached when an exception leaves is kept, as in C++. *)
Definition Exec (S A : Type) : Type := S → Outcome A * S.

#[export] Instance Exec_ret {S} : MRet (Exec S) :=
  λ A a s, (Returns a, s).
#[export] Instance Exec_bind {S} : MBind (Exec S) :=
  λ A B f m s,
    match m s with
    | (Returns a, s') => f a s'
    | (Throws e, s') => (Throws e, s')
    end.

Definition throw {S A} (e : Thrown) : Exec S A := λ s, (Throws e, s).

(** The result of a call into code that has no access to the state. *)
Definition call {S A} (r : Outcome A) : Exec S A := λ s, (r, s).

(** [try { body } catch (...) { handler }]. *)
Definition tryCatch {S A} (body : Exec S A) (handler : Thrown → Exec S A)
  : Exec S A :=
  λ s, match body s with
       | (Returns a, s') => (Returns a, s')
       | (Throws e, s') => handler e s'
       end.

Definition modifyState {S} (f : S → S) : Exec S unit := λ s, (Returns tt, f s).

(** ** Vectors, selection and the evaluation context *)

(** The scalar type kinds the cast kernels are instantiated with. *)
Inductive TypeKind :=
| BOOLEAN | TINYINT | SMALLINT | INTEGER | BIGINT | HUGEINT
| REAL | DOUBLE | VARCHAR | VARBINARY | TIMESTAMP.

#[export] Instance TypeKind_eq_dec : EqDecision TypeKind.
Proof. solve_decision. Defined.

Record Timestamp := { seconds : Z; nanos : Z }.

(** Floating point values are carried by their bit pattern: the kernels
    only hand them to hooks and converters. *)
Record Floating := { bits : Z }.

(** [TypeTraits<Kind>::NativeType]. *)
Definition NativeType (k : TypeKind) : Type :=
  match k with
  | BOOLEAN => bool
  | TINYINT | SMALLINT | INTEGER | BIGINT | HUGEINT => Z
  | REAL | DOUBLE => Floating
  | VARCHAR | VARBINARY => string
  | TIMESTAMP => Timestamp
  end.

(** Modelled from the spec: [TypeTraits<Kind>::isPrimitiveType] and
    [isFixedWidth] are declared outside these files; the spec speaks of the
    "fixed-width primitive" kinds, which are all scalar kinds but the two
    string kinds. *)
Definition isPrimitiveType (k : TypeKind) : bool := true.

Definition isFixedWidth (k : TypeKind) : bool :=
  match k with
  | VARCHAR | VARBINARY => false
  | _ => true
  end.

(** Width in bits of the integral kinds ([std::numeric_limits<To>]). *)
Definition bitWidth (k : TypeKind) : Z :=
  match k with
  | TINYINT => 8
  | SMALLINT => 16
  | INTEGER => 32
  | BIGINT => 64
  | HUGEINT => 128
  | _ => 0
  end.

Definition numeric_limits_max (k : TypeKind) : Z := 2 ^ (bitWidth k - 1) - 1.
Definition numeric_limits_min (k : TypeKind) : Z := - 2 ^ (bitWidth k - 1).

(** [static_cast<To>(z)] for a signed integral [To]: two's complement
    wrap-around to [bitWidth To] bits. *)
Definition static_cast (k : TypeKind) (z : Z) : Z :=
  (z + 2 ^ (bitWidth k - 1)) mod 2 ^ bitWidth k - 2 ^ (bitWidth k - 1).

(** Row numbers ([vector_size_t]). *)
Abbreviation vector_size_t := nat (only parsing).

(** A [SelectivityVector] as the increasing list of its selected rows;
    [applyToSelected] visits them in that order. *)
Abbreviation SelectivityVector := (list nat) (only parsing).

(** The input of a kernel: [type()->toString()], [valueAt(row)] and
    [toString(row)] of a [SimpleVector<T>]. *)
Record SimpleVector (T : Type) := {
  typeString : string;
  valueAt : vector_size_t → T;
  toString : vector_size_t → string;
}.
Arguments typeString {T} _.
Arguments valueAt {T} _ _.
Arguments toString {T} _ _.

(** The output of a kernel, a [FlatVector<T>]: its type (rendered), the raw
    values buffer and the set of rows whose null bit is set. *)
Record FlatVector (T : Type) := {
  flatType : string;
  rawValues : gmap nat T;
  nulls : gset nat;
}.
Arguments flatType {T} _.
Arguments rawValues {T} _.
Arguments nulls {T} _.

(** [result->setNull(row, true)]. *)
Definition setNull {T} (row : vector_size_t) (v : FlatVector T) : FlatVector T :=
  {| flatType := flatType v; rawValues := rawValues v; nulls := {[row]} ∪ nulls v |}.

(** [result->set(row, value)]: stores the value and clears the null bit. *)
Definition set {T} (row : vector_size_t) (value : T) (v : FlatVector T) : FlatVector T :=
  {| flatType := flatType v;
     rawValues := <[row := value]> (rawValues v);
     nulls := nulls v ∖ {[row]} |}.

(** [mutableRawValues()[row] = value]: the null bit is left as it is. *)
Definition setRaw {T} (row : vector_size_t) (value : T) (v : FlatVector T) : FlatVector T :=
  {| flatType := flatType v;
     rawValues := <[row := value]> (rawValues v);
     nulls := nulls v |}.

(** [result->clearNulls(rows)]. *)
Definition clearNulls {T} (rows : SelectivityVector) (v : FlatVector T) : FlatVector T :=
  {| flatType := flatType v;
     rawValues := rawValues v;
     nulls := nulls v ∖ list_to_set rows |}.

(** An entry of the context's error column. *)
Inductive ErrorRecord :=
| StatusUserError (details : option string)  (* Status::UserError("{}", m) / Status::UserError() *)
| ExceptionError (e : Thrown).               (* an exception_ptr *)

(** Modelled from the spec: [EvalCtx] is declared outside these files. The
    spec lists [setError(row, payload)], [setStatus(row, status)],
    [setVeloxExceptionError(row, ptr)] and [captureErrorDetails()], and says
    that a strict cast "records the error into the context and continues":
    the context is its details flag and the error column. *)
Record EvalCtx := {
  captureErrorDetails : bool;
  errors : gmap nat ErrorRecord;
}.

Definition recordError (row : vector_size_t) (r : ErrorRecord) (ctx : EvalCtx) : EvalCtx :=
  {| captureErrorDetails := captureErrorDetails ctx;
     errors := <[row := r]> (errors ctx) |}.

(** The state a kernel works on: the context, the output vector, and the
    locals of the enclosing function that its per-row lambda captures by
    reference ([unit] when it captures nothing it writes to). *)
Record CastState (T L : Type) := {
  context : EvalCtx;
  result : FlatVector T;
  captured : L;
}.
Arguments context {T L} _.
Arguments result {T L} _.
Arguments captured {T L} _.

Definition onResult {T L} (f : FlatVector T → FlatVector T) (s : CastState T L) : CastState T L :=
  {| context := context s; result := f (result s); captured := captured s |}.

Definition onContext {T L} (f : EvalCtx → EvalCtx) (s : CastState T L) : CastState T L :=
  {| context := f (context s); result := result s; captured := captured s |}.

Definition onCaptured {T L} (f : L → L) (s : CastState T L) : CastState T L :=
  {| context := context s; result := result s; captured := f (captured s) |}.

(** Modelled from the spec: [ensureWritable(rows, type, outVector)]
    "allocates/resizes output"; called on a null [VectorPtr] it hands back
    a new vector of that type, with no row written yet. *)
Definition ensureWritable {T} (rows : SelectivityVector) (type : string) : FlatVector T :=
  {| flatType := type; rawValues := ∅; nulls := ∅ |}.

Definition setStatus {T L} (row : vector_size_t) (details : option string) : Exec (CastState T L) unit :=
  modifyState (onContext (recordError row (StatusUserError details))).

Definition setVeloxExceptionError {T L} (row : vector_size_t) (e : Thrown) : Exec (CastState T L) unit :=
  modifyState (onContext (recordError row (ExceptionError e))).

Definition setContextError {T L} (row : vector_size_t) (e : Thrown) : Exec (CastState T L) unit :=
  modifyState (onContext (recordError row (ExceptionError e))).

(** ** Hooks, policies and converters *)

Inductive CastPolicy :=
| LegacyCastPolicy | PrestoCastPolicy | SparkCastPolicy | SparkTryCastPolicy.

#[export] Instance CastPolicy_eq_dec : EqDecision CastPolicy.
Proof. solve_decision. Defined.

(** Modelled from the spec: the policy structs are declared outside these
    files; the policy table gives "Unicode to int: rejected" with
    [throwOnUnicode = true] for the two Spark policies only. *)
Definition throwOnUnicode (p : CastPolicy) : bool :=
  match p with
  | SparkCastPolicy | SparkTryCastPolicy => true
  | LegacyCastPolicy | PrestoCastPolicy => false
  end.

(** The [CastHooks] interface. A hook returns an [Expected] and, like any
    call, may throw instead. *)
Record CastHooks := {
  getPolicy : CastPolicy;
  truncate : bool;
  removeWhiteSpaces : string → string;
  castStringToTimestamp : string → Outcome (Expected Timestamp);
  castStringToReal : string → Outcome (Expected Floating);
  castStringToDouble : string → Outcome (Expected Floating);
  castIntToTimestamp : Z → Outcome (Expected Timestamp);
  castBooleanToTimestamp : bool → Outcome (Expected Timestamp);
  castDoubleToTimestamp : Floating → Outcome (Expected (option Timestamp));
  castTimestampToInt : Timestamp → Outcome (Expected Z);
}.

(** [util::Converter<ToKind, void, TPolicy>::tryCast], for every source
    kind. *)
Definition Converter : Type :=
  ∀ (ToKind : TypeKind) (TPolicy : CastPolicy) (FromKind : TypeKind),
    NativeType FromKind → Outcome (Expected (NativeType ToKind)).

(** The part of a [CastExpr] the kernels read. *)
Record CastExpr := {
  hooks_ : CastHooks;
  setNullInResultAtError : bool;
}.

(** [functions::stringCore::isAscii]: no byte has its high bit set. *)
Fixpoint isAscii (s : string) : bool :=
  match s with
  | EmptyString => true
  | String c s' => Nat.ltb (Ascii.nat_of_ascii c) 128 && isAscii s'
  end.

(** ** CastExpr-inl.h *)

Definition makeErrorMessage {T} (input : SimpleVector T) (row : vector_size_t)
    (toType : string) (details : string) : string :=
  "Cannot cast " +:+ typeString input +:+ " '" +:+ toString input row
    +:+ "' to " +:+ toType +:+ ". " +:+ details.

Definition makeBadCastException {T} (resultType : string) (input : SimpleVector T)
    (row : vector_size_t) (errorDetails : string) : Thrown :=
  VeloxUserError (makeErrorMessage input row resultType errorDetails).

(** [rows.applyToSelected(func)]. *)
Fixpoint applyToSelected {S} (rows : SelectivityVector)
    (func : vector_size_t → Exec S unit) : Exec S unit :=
  match rows with
  | [] => mret tt
  | row :: rows' => func row ;; applyToSelected rows' func
  end.

Definition applyToSelectedNoThrowLocal {T L} (self : CastExpr)
    (rows : SelectivityVector)
    (func : vector_size_t → Exec (CastState T L) unit) : Exec (CastState T L) unit :=
  if setNullInResultAtError self then
    applyToSelected rows (λ row,
      tryCatch (func row) (λ e,
        match e with
        | VeloxUserError _ => modifyState (onResult (setNull row))
        | VeloxRuntimeError _ => throw e
        | StdException _ => modifyState (onResult (setNull row))
        end))
  else
    applyToSelected rows (λ row,
      tryCatch (func row) (λ e,
        match e with
        | VeloxUserError _ => setVeloxExceptionError row e
        | VeloxRuntimeError _ => throw e
        | StdException _ => setContextError row e
        end)).

(** The state of one [applyCastKernel] call: the kernel's state together
    with the local [wrapException]. *)
Definition KernelState (T L : Type) : Type := (CastState T L * bool)%type.

Definition onCastState {T L A} (m : Exec (CastState T L) A) : Exec (KernelState T L) A :=
  λ '(s, wrapException),
    let '(r, s') := m s in (r, (s', wrapException)).

(** The [setError] lambda of [applyCastKernel]. *)
Definition setError {T L F} (self : CastExpr) (row : vector_size_t)
    (input : SimpleVector F) (details : string) : Exec (KernelState T L) unit :=
  λ '(s, wrapException),
    if setNullInResultAtError self then
      (Returns tt, (onResult (setNull row) s, wrapException))
    else
      let wrapException := false in
      if captureErrorDetails (context s) then
        let errorDetails := makeErrorMessage input row (flatType (result s)) details in
        onCastState (setStatus row (Some errorDetails)) (s, wrapException)
      else
        onCastState (setStatus row None) (s, wrapException).

(** The [setResultOrError] lambda of [applyCastKernel]. *)
Definition setResultOrError {T L F} (self : CastExpr) (input : SimpleVector F)
    (castResult : Expected T) (row : vector_size_t) : Exec (KernelState T L) unit :=
  match castResult with
  | HasError m => setError self row input m
  | HasValue v => onCastState (modifyState (onResult (set row v)))
  end.

(** Lines 219-236: the policy's converter, then the store. For a string
    target the value is copied by a [StringWriter]; for the others it is
    [result->set(row, output)]. Both leave the value at [row]. *)
Definition convertAndStore {T L F} (self : CastExpr) (input : SimpleVector F)
    (row : vector_size_t) (tryCast : Outcome (Expected T)) : Exec (KernelState T L) unit :=
  castResult ← call tryCast;
  match castResult with
  | HasError m => setError self row input m
  | HasValue output => onCastState (modifyState (onResult (set row output)))
  end.

(** Lines 177-217: a VARCHAR or VARBINARY source. [tryCast] is the
    converter of the instantiation. *)
Definition castFromString {L} (self : CastExpr) (TPolicy : CastPolicy)
    (ToKind : TypeKind) (row : vector_size_t) (input : SimpleVector string)
    (tryCast : string → Outcome (Expected (NativeType ToKind)))
    (inputRowValue : string) : Exec (KernelState (NativeType ToKind) L) unit :=
  let stripped := isPrimitiveType ToKind && isFixedWidth ToKind in
  let inputRowValue :=
    if stripped then removeWhiteSpaces (hooks_ self) inputRowValue else inputRowValue in
  if stripped && Nat.eqb (String.length inputRowValue) 0 then
    setError self row input "Empty string"
  else
    match ToKind
      return (string → Outcome (Expected (NativeType ToKind))) →
             Exec (KernelState (NativeType ToKind) L) unit
    with
    | TIMESTAMP => λ _,
        castResult ← call (castStringToTimestamp (hooks_ self) inputRowValue);
        setResultOrError self input castResult row
    | REAL => λ _,
        castResult ← call (castStringToReal (hooks_ self) inputRowValue);
        setResultOrError self input castResult row
    | DOUBLE => λ _,
        castResult ← call (castStringToDouble (hooks_ self) inputRowValue);
        setResultOrError self input castResult row
    | TINYINT | SMALLINT | INTEGER | BIGINT | HUGEINT => λ tryCast,
        (if throwOnUnicode TPolicy && negb (isAscii inputRowValue) then
           throw (VeloxUserError
             "Unicode characters are not supported for conversion to integer types")
         else mret tt) ;;
        convertAndStore self input row (tryCast inputRowValue)
    | BOOLEAN | VARCHAR | VARBINARY => λ tryCast,
        convertAndStore self input row (tryCast inputRowValue)
    end tryCast.

(** The [try] block of [applyCastKernel], one case per [if constexpr]
    in the order of the source. *)
Definition castRow {L} (self : CastExpr) (converter : Converter)
    (ToKind FromKind : TypeKind) (TPolicy : CastPolicy) (row : vector_size_t)
    (input : SimpleVector (NativeType FromKind))
  : Exec (KernelState (NativeType ToKind) L) unit :=
  match FromKind as f, ToKind as t
    return SimpleVector (NativeType f) → Exec (KernelState (NativeType t) L) unit
  with
  | (TINYINT | SMALLINT | INTEGER | BIGINT), TIMESTAMP => λ input,
      let inputRowValue := valueAt input row in
      castResult ← call (castIntToTimestamp (hooks_ self) inputRowValue);
      setResultOrError self input castResult row
  | BOOLEAN, TIMESTAMP => λ input,
      let inputRowValue := valueAt input row in
      castResult ← call (castBooleanToTimestamp (hooks_ self) inputRowValue);
      setResultOrError self input castResult row
  | TIMESTAMP, (TINYINT | SMALLINT | INTEGER | BIGINT) as t => λ input,
      let inputRowValue := valueAt input row in
      castResult ← call (castTimestampToInt (hooks_ self) inputRowValue);
      match castResult with
      | HasError m => setError self row input m
      | HasValue v => onCastState (modifyState (onResult (set row (static_cast t v))))
      end
  | (DOUBLE | REAL), TIMESTAMP => λ input,
      let inputRowValue := valueAt input row in
      castResult ← call (castDoubleToTimestamp (hooks_ self) inputRowValue);
      match castResult with
      | HasError m => setError self row input m
      | HasValue (Some v) => onCastState (modifyState (onResult (set row v)))
      | HasValue None => onCastState (modifyState (onResult (setNull row)))
      end
  | VARCHAR, t => λ input,
      castFromString self TPolicy t row input (converter t TPolicy VARCHAR)
        (valueAt input row)
  | VARBINARY, t => λ input,
      castFromString self TPolicy t row input (converter t TPolicy VARBINARY)
        (valueAt input row)
  | f, t => λ input,
      convertAndStore self input row (converter t TPolicy f (valueAt input row))
  end input.

(** The per-row kernel: the [try] block and its two [catch] clauses. *)
Definition applyCastKernel {L} (self : CastExpr) (converter : Converter)
    (ToKind FromKind : TypeKind) (TPolicy : CastPolicy) (row : vector_size_t)
    (input : SimpleVector (NativeType FromKind))
  : Exec (CastState (NativeType ToKind) L) unit :=
  λ s,
    let wrapException := true in
    let '(r, (s', _)) :=
      tryCatch (castRow self converter ToKind FromKind TPolicy row input)
        (λ e '(s, wrapException),
          match e with
          | VeloxUserError _ | VeloxRuntimeError _ =>
              if negb (isUserError e) || negb wrapException then
                throw e (s, wrapException)
              else setError self row input (message e) (s, wrapException)
          | StdException what => setError self row input what (s, wrapException)
          end)
        (s, wrapException) in
    (r, s').

Definition applyCastPrimitives {L} (self : CastExpr) (converter : Converter)
    (ToKind FromKind : TypeKind) (rows : SelectivityVector)
    (input : SimpleVector (NativeType FromKind))
  : Exec (CastState (NativeType ToKind) L) unit :=
  match getPolicy (hooks_ self) with
  | LegacyCastPolicy =>
      applyToSelectedNoThrowLocal self rows (λ row,
        applyCastKernel self converter ToKind FromKind LegacyCastPolicy row input)
  | PrestoCastPolicy =>
      applyToSelectedNoThrowLocal self rows (λ row,
        applyCastKernel self converter ToKind FromKind PrestoCastPolicy row input)
  | SparkCastPolicy =>
      applyToSelectedNoThrowLocal self rows (λ row,
        applyCastKernel self converter ToKind FromKind SparkCastPolicy row input)
  | SparkTryCastPolicy =>
      applyToSelectedNoThrowLocal self rows (λ row,
        applyCastKernel self converter ToKind FromKind SparkTryCastPolicy row input)
  end.

(** *** Decimal kernels *)

(** Modelled from the spec: [DecimalUtil::kPowersOfTen] is declared outside
    these files; the spec writes the scale factor as [10^scale]. *)
Definition kPowersOfTen (scale : Z) : Z := 10 ^ scale.

(** [applyDecimalToIntegralCast<FromNativeType, ToKind>]. The unscaled
    values are 64 or 128 bits wide and the arithmetic before the final
    [static_cast] is done in 128 bits, where it cannot overflow; [÷] and
    [Z.rem] are C++'s truncating [/] and [%]. [scale] is the scale of
    [fromType]. The two per-row lambdas come first. *)
Definition truncatingRow (ToKind : TypeKind) (input : SimpleVector Z)
    (scaleFactor : Z) (row : vector_size_t) : Exec (CastState Z unit) unit :=
  modifyState (onResult
    (setRaw row (static_cast ToKind (valueAt input row ÷ scaleFactor)))).

Definition roundingRow (self : CastExpr) (ToKind : TypeKind)
    (input : SimpleVector Z) (scaleFactor : Z) (toType : string)
    (row : vector_size_t) : Exec (CastState Z unit) unit :=
  (let value := valueAt input row in
   let integralPart := value ÷ scaleFactor in
   let integralPart :=
     if decide (getPolicy (hooks_ self) ≠ SparkTryCastPolicy) then
       let fractionPart := Z.rem value scaleFactor in
       let sign := if value >=? 0 then 1 else -1 in
       let needsRoundUp :=
         negb (scaleFactor =? 1)
         && (sign * fractionPart >=? Z.shiftr scaleFactor 1) in
       integralPart + (if needsRoundUp then sign else 0)
     else integralPart in
   if (integralPart >? numeric_limits_max ToKind)
      || (integralPart <? numeric_limits_min ToKind) then
     if setNullInResultAtError self then
       modifyState (onResult (setNull row))
     else
       λ s, setVeloxExceptionError row
              (makeBadCastException (flatType (result s)) input row
                 (makeErrorMessage input row toType "" +:+ "Out of bounds.")) s
   else
     modifyState (onResult (setRaw row (static_cast ToKind integralPart))))%Z.

Definition applyDecimalToIntegralCast (self : CastExpr) (ToKind : TypeKind)
    (rows : SelectivityVector) (input : SimpleVector Z) (scale : Z)
    (toType : string) : Exec EvalCtx (FlatVector Z) :=
  λ ctx,
    let fresh : FlatVector Z := ensureWritable rows toType in
    let fresh := clearNulls rows fresh in
    let scaleFactor := kPowersOfTen scale in
    let '(r, s) :=
      (if truncate (hooks_ self) then
         applyToSelectedNoThrowLocal self rows (truncatingRow ToKind input scaleFactor)
       else
         applyToSelectedNoThrowLocal self rows
           (roundingRow self ToKind input scaleFactor toType))
        {| context := ctx; result := fresh; captured := tt |} in
    (match r with
     | Returns _ => Returns (result s)
     | Throws e => Throws e
     end, context s).

(** [applyDecimalToBooleanCast]. *)
Definition applyDecimalToBooleanCast (self : CastExpr)
    (rows : SelectivityVector) (input : SimpleVector Z)
  : Exec EvalCtx (FlatVector bool) :=
  λ ctx,
    let fresh : FlatVector bool := ensureWritable rows "BOOLEAN" in
    let fresh := clearNulls rows fresh in
    let '(r, s) :=
      applyToSelectedNoThrowLocal self rows (λ row,
        let value := valueAt input row in
        modifyState (onResult (setRaw row (negb (value =? 0)%Z))))
        {| context := ctx; result := fresh; captured := tt |} in
    (match r with
     | Returns _ => Returns (result s)
     | Throws e => Throws e
     end, context s).

(** A [StringView]: up to [kInlineSize] characters are held in the view
    itself; a longer string is a pointer (an offset into the string buffer)
    and a size. *)
Inductive StringView :=
| InlineView (data : string)
| ExternalView (offset : nat) (size : nat).

Definition viewSize (v : StringView) : nat :=
  match v with
  | InlineView data => String.length data
  | ExternalView _ size => size
  end.

(** The string buffer of the output vector and the write pointer into it:
    [buffer->size()], [buffer->capacity()], the bytes, and the local
    [rawBuffer] as an offset from [buffer->asMutable<char>()]. *)
Record Arena := {
  bufferSize : nat;
  bufferCapacity : nat;
  bufferBytes : gmap nat Ascii.ascii;
  rawBuffer : nat;
}.

(** Characters stored from [offset] on. *)
Fixpoint writeBytes (offset : nat) (s : string) (bytes : gmap nat Ascii.ascii)
  : gmap nat Ascii.ascii :=
  match s with
  | EmptyString => bytes
  | String c s' => writeBytes (S offset) s' (<[offset := c]> bytes)
  end.

Definition onBytes (f : gmap nat Ascii.ascii → gmap nat Ascii.ascii) (a : Arena) : Arena :=
  {| bufferSize := bufferSize a;
     bufferCapacity := bufferCapacity a;
     bufferBytes := f (bufferBytes a);
     rawBuffer := rawBuffer a |}.

Definition setRawBuffer (p : nat) (a : Arena) : Arena :=
  {| bufferSize := bufferSize a;
     bufferCapacity := bufferCapacity a;
     bufferBytes := bufferBytes a;
     rawBuffer := p |}.

(** [buffer->setSize(n)]. *)
Definition setSize (n : nat) (a : Arena) : Arena :=
  {| bufferSize := n;
     bufferCapacity := bufferCapacity a;
     bufferBytes := bufferBytes a;
     rawBuffer := rawBuffer a |}.

Section DecimalToVarchar.

(** [StringView::kInlineSize], [DecimalUtil::maxStringViewSize] and
    [DecimalUtil::castToString] are declared outside these files.
    [castToString value scale maxSize] is the text the call writes at the
    position it is given; its length is the size the call returns. *)
Context (kInlineSize : nat).
Context (maxStringViewSize : nat → nat → nat).
Context (castToString : Z → nat → nat → string).

Definition isInline (size : nat) : bool := Nat.leb size kInlineSize.

(** [StringView(data, size)] for characters that lie at [offset]. *)
Definition makeStringView (offset : nat) (data : string) : StringView :=
  if isInline (String.length data) then InlineView data
  else ExternalView offset (String.length data).

(** The per-row lambda of the inline case: the text goes to the local
    array [inlined], from which the view copies it. *)
Definition inlineRow (input : SimpleVector Z) (scale rowSize : nat)
    (row : vector_size_t) : Exec (CastState StringView Arena) unit :=
  let inlined := castToString (valueAt input row) scale rowSize in
  modifyState (onResult (setRaw row (makeStringView 0 inlined))).

(** The per-row lambda of the buffer case: the text is written at
    [rawBuffer], which moves on only past a text too long for an inline
    view. *)
Definition arenaRow (input : SimpleVector Z) (scale rowSize : nat)
    (row : vector_size_t) : Exec (CastState StringView Arena) unit :=
  λ s,
    let written := castToString (valueAt input row) scale rowSize in
    let actualSize := String.length written in
    let s := onCaptured (onBytes (writeBytes (rawBuffer (captured s)) written)) s in
    let s := onResult (setRaw row (makeStringView (rawBuffer (captured s)) written)) s in
    if negb (isInline actualSize) then
      (Returns tt, onCaptured (setRawBuffer (rawBuffer (captured s) + actualSize)) s)
    else (Returns tt, s).

(** The bytes of the buffer a row uses up: the length of its text when
    that is too long for an inline view, and none otherwise. *)
Definition consumedBy (input : SimpleVector Z) (scale rowSize : nat)
    (row : vector_size_t) : nat :=
  let actualSize := String.length (castToString (valueAt input row) scale rowSize) in
  if isInline actualSize then 0 else actualSize.

(** [applyDecimalToVarcharCast<FromNativeType>]. [buffer] is what
    [flatResult->getBufferWithSpace(rows.countSelected() * rowSize)] hands
    back; in the inline case no buffer is asked for. *)
Definition applyDecimalToVarcharCast (self : CastExpr)
    (rows : SelectivityVector) (input : SimpleVector Z)
    (precision scale : nat) (buffer : Arena)
  : Exec EvalCtx (FlatVector StringView * Arena) :=
  λ ctx,
    let fresh : FlatVector StringView := ensureWritable rows "VARCHAR" in
    let fresh := clearNulls rows fresh in
    let rowSize := maxStringViewSize precision scale in
    if isInline rowSize then
      let '(r, s) :=
        applyToSelectedNoThrowLocal self rows (inlineRow input scale rowSize)
          {| context := ctx; result := fresh; captured := buffer |} in
      (match r with
       | Returns _ => Returns (result s, captured s)
       | Throws e => Throws e
       end, context s)
    else
      let '(r, s) :=
        applyToSelectedNoThrowLocal self rows (arenaRow input scale rowSize)
          {| context := ctx; result := fresh;
             captured := setRawBuffer (bufferSize buffer) buffer |} in
      (match r with
       | Returns _ =>
           Returns (result s, setSize (rawBuffer (captured s)) (captured s))
       | Throws e => Throws e
       end, context s).

(** The two per-row lambdas as state transformers (neither throws). *)
Definition inlineStep (input : SimpleVector Z) (scale rowSize : nat)
    (r : vector_size_t) (s : CastState StringView Arena) : CastState StringView Arena :=
  (inlineRow input scale rowSize r s).2.

Definition arenaStep (input : SimpleVector Z) (scale rowSize : nat)
    (r : vector_size_t) (s : CastState StringView Arena) : CastState StringView Arena :=
  (arenaRow input scale rowSize r s).2.

End DecimalToVarchar.

(** *** The per-row state machine of the specification *)

(** The specification describes a row as [Reading → Converted | Failed]:
    the value is read, the configured whitespace is stripped where it
    applies, and one hook or converter is consulted. [rowConversion] is
    that one consultation for an instantiation of the kernel, without any
    of the error handling; [None] is the null a hook may answer. *)
Definition stringConversion (hooks : CastHooks) (TPolicy : CastPolicy)
    (ToKind : TypeKind) (tryCast : string → Outcome (Expected (NativeType ToKind)))
    (inputRowValue : string) : Outcome (Expected (NativeType ToKind)) :=
  let stripped := isPrimitiveType ToKind && isFixedWidth ToKind in
  let inputRowValue :=
    if stripped then removeWhiteSpaces hooks inputRowValue else inputRowValue in
  if stripped && Nat.eqb (String.length inputRowValue) 0 then
    Returns (HasError "Empty string")
  else
    match ToKind
      return (string → Outcome (Expected (NativeType ToKind))) →
             Outcome (Expected (NativeType ToKind))
    with
    | TIMESTAMP => λ _, castStringToTimestamp hooks inputRowValue
    | REAL => λ _, castStringToReal hooks inputRowValue
    | DOUBLE => λ _, castStringToDouble hooks inputRowValue
    | TINYINT | SMALLINT | INTEGER | BIGINT | HUGEINT => λ tryCast,
        if throwOnUnicode TPolicy && negb (isAscii inputRowValue) then
          Throws (VeloxUserError
            "Unicode characters are not supported for conversion to integer types")
        else tryCast inputRowValue
    | BOOLEAN | VARCHAR | VARBINARY => λ tryCast, tryCast inputRowValue
    end tryCast.

Definition withValue {A B} (f : A → B) (r : Outcome (Expected A)) : Outcome (Expected B) :=
  match r with
  | Returns (HasValue v) => Returns (HasValue (f v))
  | Returns (HasError m) => Returns (HasError m)
  | Throws e => Throws e
  end.

Definition rowConversion (hooks : CastHooks) (converter : Converter)
    (ToKind FromKind : TypeKind) (TPolicy : CastPolicy)
  : NativeType FromKind → Outcome (Expected (option (NativeType ToKind))) :=
  match FromKind as f, ToKind as t
    return NativeType f → Outcome (Expected (option (NativeType t)))
  with
  | (TINYINT | SMALLINT | INTEGER | BIGINT), TIMESTAMP => λ v,
      withValue Some (castIntToTimestamp hooks v)
  | BOOLEAN, TIMESTAMP => λ v,
      withValue Some (castBooleanToTimestamp hooks v)
  | TIMESTAMP, (TINYINT | SMALLINT | INTEGER | BIGINT) as t => λ v,
      withValue (λ z, Some (static_cast t z)) (castTimestampToInt hooks v)
  | (DOUBLE | REAL), TIMESTAMP => λ v, castDoubleToTimestamp hooks v
  | VARCHAR, t => λ v,
      withValue Some (stringConversion hooks TPolicy t (converter t TPolicy VARCHAR) v)
  | VARBINARY, t => λ v,
      withValue Some (stringConversion hooks TPolicy t (converter t TPolicy VARBINARY) v)
  | f, t => λ v, withValue Some (converter t TPolicy f v)
  end.

(** Where the conversion of a row ends. A structured error, a user
    exception and a foreign [std::exception] are the failures the error
    policy decides on; any other engine exception is a system error. *)
Inductive RowOutcome (T : Type) :=
| Converted (v : T)
| ConvertedNull
| Failed (detail : string)
| SystemError (e : Thrown).
Arguments Converted {T} v.
Arguments ConvertedNull {T}.
Arguments Failed {T} detail.
Arguments SystemError {T} e.

Definition classify {T} (r : Outcome (Expected (option T))) : RowOutcome T :=
  match r with
  | Returns (HasValue (Some v)) => Converted v
  | Returns (HasValue None) => ConvertedNull
  | Returns (HasError m) => Failed m
  | Throws (VeloxUserError m) => Failed m
  | Throws (StdException m) => Failed m
  | Throws (VeloxRuntimeError m) => SystemError (VeloxRuntimeError m)
  end.

(** The error record a strict cast leaves for a failed row. *)
Definition strictError {T L F} (input : SimpleVector F) (row : vector_size_t)
    (s : CastState T L) (detail : string) : ErrorRecord :=
  StatusUserError
    (if captureErrorDetails (context s)
     then Some (makeErrorMessage input row (flatType (result s)) detail)
     else None).

(** The error policy of the specification: "From Failed: if
    setNullInResultAtError() is true, mark null; else if
    captureErrorDetails() is true, record a user error with
    makeErrorMessage(source, row, toType, detail); else record a user error
    without formatted details. Non-user errors always propagate." *)
Definition errorPolicy {T L F} (self : CastExpr) (input : SimpleVector F)
    (row : vector_size_t) (o : RowOutcome T) : Exec (CastState T L) unit :=
  match o with
  | Converted v => modifyState (onResult (set row v))
  | ConvertedNull => modifyState (onResult (setNull row))
  | Failed detail =>
      if setNullInResultAtError self then modifyState (onResult (setNull row))
      else λ s, modifyState (onContext (recordError row (strictError input row s detail))) s
  | SystemError e => throw e
  end.

(** The input a kernel sees once the hooks have stripped it. *)
Definition strippedInput (hooks : CastHooks) (input : SimpleVector string)
  : SimpleVector string :=
  {| typeString := typeString input;
     valueAt := λ row, removeWhiteSpaces hooks (valueAt input row);
     toString := toString input |}.

(** Hooks that strip nothing. *)
Definition withoutStripping (self : CastExpr) : CastExpr :=
  {| hooks_ :=
       {| getPolicy := getPolicy (hooks_ self);
          truncate := truncate (hooks_ self);
          removeWhiteSpaces := λ s, s;
          castStringToTimestamp := castStringToTimestamp (hooks_ self);
          castStringToReal := castStringToReal (hooks_ self);
          castStringToDouble := castStringToDouble (hooks_ self);
          castIntToTimestamp := castIntToTimestamp (hooks_ self);
          castBooleanToTimestamp := castBooleanToTimestamp (hooks_ self);
          castDoubleToTimestamp := castDoubleToTimestamp (hooks_ self);
          castTimestampToInt := castTimestampToInt (hooks_ self) |};
     setNullInResultAtError := setNullInResultAtError self |}.

(** *** A concrete dialect, for the examples *)

Fixpoint dropLeadingSpaces (s : string) : string :=
  match s with
  | String (Ascii.Ascii false false false false false true false false) s' => dropLeadingSpaces s'
  | _ => s
  end.

Definition reverseString (s : string) : string :=
  String.string_of_list_ascii (rev (String.list_ascii_of_string s)).

(** Strips the spaces at both ends. *)
Definition trimSpaces (s : string) : string :=
  reverseString (dropLeadingSpaces (reverseString (dropLeadingSpaces s))).

Definition digitValue (c : Ascii.ascii) : option Z :=
  let n := Ascii.nat_of_ascii c in
  if Nat.leb 48 n && Nat.leb n 57 then Some (Z.of_nat (n - 48)) else None.

Fixpoint parseDigits (acc : Z) (s : string) : option Z :=
  match s with
  | EmptyString => Some acc
  | String c s' =>
      match digitValue c with
      | Some d => parseDigits (10 * acc + d) s'
      | None => None
      end
  end.

(** Hooks in the manner of the Presto dialect: spaces are trimmed, a bigint
    is a count of seconds, and a floating point value that is no number
    gives a null timestamp. *)
Definition exampleHooks (policy : CastPolicy) (truncates : bool) : CastHooks :=
  {| getPolicy := policy;
     truncate := truncates;
     removeWhiteSpaces := trimSpaces;
     castStringToTimestamp := λ _, Returns (HasError "Unable to parse timestamp value");
     castStringToReal := λ _, Returns (HasError "Non-numeric value");
     castStringToDouble := λ _, Throws (VeloxRuntimeError "Out of memory");
     castIntToTimestamp := λ z, Returns (HasValue {| seconds := z; nanos := 0 |});
     castBooleanToTimestamp := λ _, Throws (VeloxUserError "Conversion to Timestamp is not supported");
     castDoubleToTimestamp := λ _, Returns (HasValue None);
     castTimestampToInt := λ t, Returns (HasValue (seconds t)) |}.

(** A converter that reads unsigned decimal integers and knows nothing
    else. *)
Definition exampleConverter : Converter :=
  λ ToKind TPolicy FromKind,
    match FromKind as f, ToKind as t
      return NativeType f → Outcome (Expected (NativeType t))
    with
    | VARCHAR, INTEGER => λ s,
        match parseDigits 0 s with
        | Some z => Returns (HasValue z)
        | None => Returns (HasError "Non-digit character")
        end
    | _, _ => λ _, Returns (HasError "Conversion is not supported")
    end.

Definition exampleStrings (values : list string) : SimpleVector string :=
  {| typeString := "VARCHAR";
     valueAt := λ row, default "" (values !! row);
     toString := λ row, default "" (values !! row) |}.

Definition emptyState {T} (type : string) (details : bool) : CastState T unit :=
  {| context := {| captureErrorDetails := details; errors := ∅ |};
     result := ensureWritable [] type;
     captured := tt |}.

(** A decimal column: unscaled values with their renderings. *)
Definition exampleDecimals (type : string) (values : list (Z * string))
  : SimpleVector Z :=
  {| typeString := type;
     valueAt := λ row, default 0%Z (fst <$> values !! row);
     toString := λ row, default "" (snd <$> values !! row) |}.

Definition emptyContext (details : bool) : EvalCtx :=
  {| captureErrorDetails := details; errors := ∅ |}.

(** A rendering of decimals for the examples: the digits of the unscaled
    value with a dot before the last [scale] of them. *)
Fixpoint digitsOf (fuel : nat) (n : Z) (acc : string) : string :=
  match fuel with
  | 0 => acc
  | S fuel' =>
      let acc' := String (Ascii.ascii_of_nat (48 + Z.to_nat (n mod 10))) acc in
      if (n / 10 =? 0)%Z then acc' else digitsOf fuel' (n / 10) acc'
  end.

Fixpoint zeros (n : nat) : string :=
  match n with
  | 0 => ""
  | S n' => String (Ascii.ascii_of_nat 48) (zeros n')
  end.

Definition exampleCastToString (value : Z) (scale maxSize : nat) : string :=
  let digits := digitsOf 39 (Z.abs value) "" in
  let digits := zeros (S scale - String.length digits) +:+ digits in
  let whole := String.length digits - scale in
  let text :=
    if Nat.eqb scale 0 then digits
    else String.substring 0 whole digits +:+ "." +:+ String.substring whole scale digits in
  if (value <? 0)%Z then "-" +:+ text else text.

Definition exampleMaxStringViewSize (precision scale : nat) : nat :=
  precision + 1 + (if Nat.eqb scale 0 then 0 else 1)
  + (if Nat.eqb precision scale then 1 else 0).

Definition emptyArena (capacity : nat) : Arena :=
  {| bufferSize := 0; bufferCapacity := capacity; bufferBytes := ∅; rawBuffer := 0 |}.

(** *** Reading a kernel's per-row lambda as a state transformer *)

(** The [catch] clauses of [applyCastKernel] and the kernel around a
    [try] block, named so that lemmas can speak of them. *)
Definition kernelCatch {T L F} (self : CastExpr) (row : vector_size_t)
    (input : SimpleVector F) (e : Thrown) : Exec (KernelState T L) unit :=
  λ '(s, wrapException),
    match e with
    | VeloxUserError _ | VeloxRuntimeError _ =>
        if negb (isUserError e) || negb wrapException then
          throw e (s, wrapException)
        else setError self row input (message e) (s, wrapException)
    | StdException what => setError self row input what (s, wrapException)
    end.

Definition kernelOf {T L F} (self : CastExpr) (row : vector_size_t)
    (input : SimpleVector F) (body : Exec (KernelState T L) unit)
  : Exec (CastState T L) unit :=
  λ s, let '(r, (s', _)) := tryCatch body (kernelCatch self row input) (s, true) in
       (r, s').

(** What a kernel leaves for one row: its raw value, its null bit and its
    entry in the error column (and the type of the vector, which no row
    changes). *)
Definition rowView {T L} (row : vector_size_t) (s : CastState T L)
  : string * option T * bool * option ErrorRecord :=
  (flatType (result s),
   rawValues (result s) !! row,
   bool_decide (row ∈ nulls (result s)),
   errors (context s) !! row).

(** Rounding to the nearest integer, halves away from zero: [n] is within
    half a unit of [value / scaleFactor], and on a tie it is the one of
    greater magnitude. *)
Definition roundsHalfAwayFromZero (value scaleFactor n : Z) : Prop :=
  (2 * Z.abs (value - n * scaleFactor) ≤ scaleFactor
   ∧ (2 * Z.abs (value - n * scaleFactor) = scaleFactor →
      Z.abs value < Z.abs n * scaleFactor))%Z.

(** The same for the outcome of a whole kernel: the cells of [row] in the
    vector it returns and in the context it leaves. *)
Definition cellAt {T} (row : vector_size_t) (run : Outcome (FlatVector T) * EvalCtx)
  : option (option T * bool * option ErrorRecord) :=
  match run with
  | (Returns v, ctx) =>
      Some (rawValues v !! row, bool_decide (row ∈ nulls v), errors ctx !! row)
  | (Throws _, _) => None
  end.

(** ** Types and the typed-expression tree *)

(** A logical type ([TypePtr]). *)
Inductive TypePtr :=
| Scalar (kind : TypeKind)
| DECIMAL (precision scale : nat)
| ARRAY (element : TypePtr)
| MAP (key value : TypePtr)
| ROW (names : list string) (children : list TypePtr)
| FUNCTION (arguments : list TypePtr) (returnType : TypePtr)
| UNKNOWN.

(** [*a == *b] on types. *)
Lemma TypePtr_eq_dec : ∀ a b : TypePtr, {a = b} + {a ≠ b}.
Proof.
  fix IH 1. intros a b.
  destruct a, b; try (right; discriminate).
  - destruct (decide (kind = kind0)) as [->|]; [left|right]; congruence.
  - destruct (decide (precision = precision0)) as [->|]; [|right; congruence].
    destruct (decide (scale = scale0)) as [->|]; [left|right]; congruence.
  - destruct (IH a b) as [->|]; [left|right]; congruence.
  - destruct (IH a1 b1) as [->|]; [|right; congruence].
    destruct (IH a2 b2) as [->|]; [left|right]; congruence.
  - destruct (List.list_eq_dec String.string_dec names names0) as [->|]; [|right; congruence].
    destruct (List.list_eq_dec IH children children0) as [->|]; [left|right]; congruence.
  - destruct (List.list_eq_dec IH arguments arguments0) as [->|]; [|right; congruence].
    destruct (IH a b) as [->|]; [left|right]; congruence.
  - by left.
Defined.

#[export] Instance TypePtr_EqDecision : EqDecision TypePtr := TypePtr_eq_dec.

(** The value of a constant (a [variant] or a one-row constant vector). *)
Inductive Variant :=
| VNull
| VBoolean (b : bool)
| VInteger (z : Z)
| VVarchar (s : string).

#[export] Instance Variant_EqDecision : EqDecision Variant.
Proof. solve_decision. Defined.

(** The typed-expression tree ([core::ITypedExpr] and its subclasses).
    A lambda has no inputs: its body is a member of its own. *)
Inductive ITypedExpr :=
| ConstantTypedExpr (type : TypePtr) (value : Variant)
| InputTypedExpr (type : TypePtr)
| FieldAccessTypedExpr (type : TypePtr) (name : string) (inputs : list ITypedExpr)
| DereferenceTypedExpr (type : TypePtr) (index : nat) (inputs : list ITypedExpr)
| CallTypedExpr (type : TypePtr) (name : string) (inputs : list ITypedExpr)
| CastTypedExpr (type : TypePtr) (inputs : list ITypedExpr) (isTryCast : bool)
| ConcatTypedExpr (type : TypePtr) (inputs : list ITypedExpr)
| LambdaTypedExpr (signature : list (string * TypePtr)) (body : ITypedExpr).

(** [*lhs == *rhs] on expressions: structural equality. *)
Lemma ITypedExpr_eq_dec : ∀ a b : ITypedExpr, {a = b} + {a ≠ b}.
Proof.
  fix IH 1. intros a b.
  destruct a, b; try (right; discriminate).
  - destruct (decide (type = type0)) as [->|]; [|right; congruence].
    destruct (decide (value = value0)) as [->|]; [left|right]; congruence.
  - destruct (decide (type = type0)) as [->|]; [left|right]; congruence.
  - destruct (decide (type = type0)) as [->|]; [|right; congruence].
    destruct (String.string_dec name name0) as [->|]; [|right; congruence].
    destruct (List.list_eq_dec IH inputs inputs0) as [->|]; [left|right]; congruence.
  - destruct (decide (type = type0)) as [->|]; [|right; congruence].
    destruct (decide (index = index0)) as [->|]; [|right; congruence].
    destruct (List.list_eq_dec IH inputs inputs0) as [->|]; [left|right]; congruence.
  - destruct (decide (type = type0)) as [->|]; [|right; congruence].
    destruct (String.string_dec name name0) as [->|]; [|right; congruence].
    destruct (List.list_eq_dec IH inputs inputs0) as [->|]; [left|right]; congruence.
  - destruct (decide (type = type0)) as [->|]; [|right; congruence].
    destruct (decide (isTryCast = isTryCast0)) as [->|]; [|right; congruence].
    destruct (List.list_eq_dec IH inputs inputs0) as [->|]; [left|right]; congruence.
  - destruct (decide (type = type0)) as [->|]; [|right; congruence].
    destruct (List.list_eq_dec IH inputs inputs0) as [->|]; [left|right]; congruence.
  - destruct (decide (signature = signature0)) as [->|]; [|right; congruence].
    destruct (IH a b) as [->|]; [left|right]; congruence.
Defined.

#[export] Instance ITypedExpr_EqDecision : EqDecision ITypedExpr := ITypedExpr_eq_dec.

Inductive ExprKind :=
| kInput | kFieldAccess | kDereference | kCall | kCast | kConstant | kConcat | kLambda.

#[export] Instance ExprKind_EqDecision : EqDecision ExprKind.
Proof. solve_decision. Defined.

Definition kind (expr : ITypedExpr) : ExprKind :=
  match expr with
  | ConstantTypedExpr _ _ => kConstant
  | InputTypedExpr _ => kInput
  | FieldAccessTypedExpr _ _ _ => kFieldAccess
  | DereferenceTypedExpr _ _ _ => kDereference
  | CallTypedExpr _ _ _ => kCall
  | CastTypedExpr _ _ _ => kCast
  | ConcatTypedExpr _ _ => kConcat
  | LambdaTypedExpr _ _ => kLambda
  end.

Fixpoint type (expr : ITypedExpr) : TypePtr :=
  match expr with
  | ConstantTypedExpr t _ | InputTypedExpr t | FieldAccessTypedExpr t _ _
  | DereferenceTypedExpr t _ _ | CallTypedExpr t _ _ | CastTypedExpr t _ _
  | ConcatTypedExpr t _ => t
  | LambdaTypedExpr signature body => FUNCTION (signature.*2) (type body)
  end.

Definition inputs (expr : ITypedExpr) : list ITypedExpr :=
  match expr with
  | ConstantTypedExpr _ _ | InputTypedExpr _ | LambdaTypedExpr _ _ => []
  | FieldAccessTypedExpr _ _ inputs | DereferenceTypedExpr _ _ inputs
  | CallTypedExpr _ _ inputs | CastTypedExpr _ inputs _
  | ConcatTypedExpr _ inputs => inputs
  end.

Definition isCallKind (expr : ITypedExpr) : bool := bool_decide (kind expr = kCall).
Definition isInputKind (expr : ITypedExpr) : bool := bool_decide (kind expr = kInput).
Definition isFieldAccessKind (expr : ITypedExpr) : bool :=
  bool_decide (kind expr = kFieldAccess).


(** ** The compiled graph, scopes and the compiler's state *)

(** A [shared_ptr<Expr>]: the identity of a compiled node. *)
Abbreviation ExprPtr := nat (only parsing).

(** An instantiated vector function, by its identity. *)
Abbreviation VectorFunction := nat (only parsing).

Record VectorFunctionMetadata := {
  supportsFlattening : bool;
  deterministic : bool;
  defaultNullBehavior : bool;
}.

(** The classes of compiled node. *)
Inductive ExprNode :=
| ConstantExpr (value : Variant)
| FieldReference (field : string)
| FieldReferenceByIndex (index : nat)
| LambdaExpr (signature : list (string * TypePtr)) (captures : list ExprPtr) (body : ExprPtr)
| SpecialForm (name : string)
| FunctionCall (name : string) (vectorFunction : VectorFunction)
    (metadata : VectorFunctionMetadata).

(** A compiled node: what its constructor is given, and the members the
    compiler and the metadata pass write. *)
Record Expr := {
  node : ExprNode;
  type_ : TypePtr;
  inputs_ : list ExprPtr;
  trackCpuUsage_ : bool;
  isMultiplyReferenced_ : bool;
  metaDataComputed_ : bool;
  deterministic_ : bool;
  defaultNullRowsSkipped : bool;
}.

Definition makeExpr (node : ExprNode) (type : TypePtr) (inputs : list ExprPtr)
    (trackCpuUsage : bool) : Expr :=
  {| node := node; type_ := type; inputs_ := inputs; trackCpuUsage_ := trackCpuUsage;
     isMultiplyReferenced_ := false; metaDataComputed_ := false;
     deterministic_ := false;
     defaultNullRowsSkipped := false |}.

Definition setMultiplyReferenced (e : Expr) : Expr :=
  {| node := node e; type_ := type_ e; inputs_ := inputs_ e;
     trackCpuUsage_ := trackCpuUsage_ e;
     isMultiplyReferenced_ := true; metaDataComputed_ := metaDataComputed_ e;
     deterministic_ := deterministic_ e;
     defaultNullRowsSkipped := defaultNullRowsSkipped e |}.

Definition setDefaultNullRowsSkipped (b : bool) (e : Expr) : Expr :=
  {| node := node e; type_ := type_ e; inputs_ := inputs_ e;
     trackCpuUsage_ := trackCpuUsage_ e;
     isMultiplyReferenced_ := isMultiplyReferenced_ e;
     metaDataComputed_ := metaDataComputed_ e;
     deterministic_ := deterministic_ e;
     defaultNullRowsSkipped := b |}.

(** [Expr::isConstant()]: the node is a [ConstantExpr]. *)
Definition isConstant (e : Expr) : bool :=
  match node e with
  | ConstantExpr _ => true
  | _ => false
  end.

(** Map for deduplicating ITypedExpr trees: keys are compared by structural
    equality. *)
Abbreviation ExprDedupMap := (list (ITypedExpr * ExprPtr)) (only parsing).

(** [visited->find(expr)], with [None] for [nullptr]. *)
Definition getAlreadyCompiled (expr : ITypedExpr) (visited : ExprDedupMap)
  : option ExprPtr :=
  snd <$> List.find (λ entry, bool_decide (entry.1 = expr)) visited.

(** [visited[expr] = compiled]. *)
Fixpoint assign (expr : ITypedExpr) (compiled : ExprPtr) (visited : ExprDedupMap)
  : ExprDedupMap :=
  match visited with
  | [] => [(expr, compiled)]
  | entry :: visited' =>
      if bool_decide (entry.1 = expr) then (entry.1, compiled) :: visited'
      else entry :: assign expr compiled visited'
  end.

(** A lexical scope. The enclosing scope ([parent]) is the next scope of
    the compiler's scope stack; the top level scope is the last one. *)
Record Scope := {
  locals : list string;
  capture : list string;
  captureReferences : list ExprPtr;
  captureFieldAccesses : list ITypedExpr;
  visited : ExprDedupMap;
  rewrittenExpressions : list ITypedExpr;
}.

Definition newScope (locals : list string) : Scope :=
  {| locals := locals; capture := []; captureReferences := [];
     captureFieldAccesses := []; visited := []; rewrittenExpressions := [] |}.

(** [Scope::addCapture]; [field] is [reference->field()]. *)
Definition addCapture (field : string) (reference : ExprPtr)
    (fieldAccess : ITypedExpr) (scope : Scope) : Scope :=
  {| locals := locals scope;
     capture := capture scope ++ [field];
     captureReferences := captureReferences scope ++ [reference];
     captureFieldAccesses := captureFieldAccesses scope ++ [fieldAccess];
     visited := visited scope;
     rewrittenExpressions := rewrittenExpressions scope |}.

Definition setVisited (visited : ExprDedupMap) (scope : Scope) : Scope :=
  {| locals := locals scope;
     capture := capture scope;
     captureReferences := captureReferences scope;
     captureFieldAccesses := captureFieldAccesses scope;
     visited := visited;
     rewrittenExpressions := rewrittenExpressions scope |}.

Definition addRewritten (rewritten : ITypedExpr) (scope : Scope) : Scope :=
  {| locals := locals scope;
     capture := capture scope;
     captureReferences := captureReferences scope;
     captureFieldAccesses := captureFieldAccesses scope;
     visited := visited scope;
     rewrittenExpressions := rewrittenExpressions scope ++ [rewritten] |}.

Record QueryConfig := { exprTrackCpuUsage : bool }.

Record ExecCtx := { queryConfig : QueryConfig }.

(** Modelled from the spec: [ExprSet] is declared outside these files. The
    compiler reads its [execCtx()], registers nodes "for per-batch reset"
    with [addToReset], and calls [clear()], which "clears the ExprSet's
    evaluation state": the nodes an evaluation has registered with it
    ([memoizingExprs_]). *)
Record ExprSet := {
  execCtx : option ExecCtx;
  toReset : list ExprPtr;
  memoizingExprs : list ExprPtr;
}.

Definition addToReset (p : ExprPtr) (set : ExprSet) : ExprSet :=
  {| execCtx := execCtx set; toReset := toReset set ++ [p];
     memoizingExprs := memoizingExprs set |}.

Definition clear (set : ExprSet) : ExprSet :=
  {| execCtx := execCtx set; toReset := toReset set; memoizingExprs := [] |}.

Definition addMemoizing (ps : list ExprPtr) (set : ExprSet) : ExprSet :=
  {| execCtx := execCtx set; toReset := toReset set;
     memoizingExprs := memoizingExprs set ++ ps |}.

(** The state the compiler works on: the compiled nodes by identity, the
    next identity [make_shared] hands out, the stack of scopes from the
    current one out to the top level one, and the expression set. *)
Record CompilerState := {
  heap : gmap ExprPtr Expr;
  nextPtr : ExprPtr;
  scopes : list Scope;
  exprSet : ExprSet;
}.

Definition setHeap (h : gmap ExprPtr Expr) (s : CompilerState) : CompilerState :=
  {| heap := h; nextPtr := nextPtr s; scopes := scopes s; exprSet := exprSet s |}.

Definition setScopes (scs : list Scope) (s : CompilerState) : CompilerState :=
  {| heap := heap s; nextPtr := nextPtr s; scopes := scs; exprSet := exprSet s |}.

Definition setExprSet (set : ExprSet) (s : CompilerState) : CompilerState :=
  {| heap := heap s; nextPtr := nextPtr s; scopes := scopes s; exprSet := set |}.

(** ** What the compiler consults *)

Record SimpleFunctionEntry := {
  entryType : TypePtr;
  entryMetadata : VectorFunctionMetadata;
  createVectorFunction : list TypePtr → list (option Variant) → VectorFunction;
}.

(** What one evaluation of a node over a one-row batch does: it returns a
    value or throws, marks the nodes whose default-null rows it skipped
    ([stats().defaultNullRowsSkipped]) and registers nodes with the
    expression set. *)
Record Evaluation := {
  evaluated : Outcome Variant;
  skippedDefaultNullRows : list ExprPtr;
  memoized : list ExprPtr;
}.

(** The registries and the runtime, all declared outside these files:
    type equivalence and printing, whether a field access reads a top
    level input column ([FieldAccessTypedExpr::isInputColumn]), the
    registered rewrites, the special
    form registry, the vector and simple function registries with their
    signatures, the evaluation of a compiled node, and the metadata pass of
    the [Expr] class ([Expr::isConstantExpr], [Expr::computeMetadata] and
    [Expr::clearMetaData], each on the node behind the pointer and reaching
    the graph through it). *)
Record Registry := {
  equivalent : TypePtr → TypePtr → bool;
  typeToString : TypePtr → string;
  isInputColumn : ITypedExpr → bool;
  expressionRewrites : list (ITypedExpr → option ITypedExpr);
  isFunctionCallToSpecialFormRegistered : string → bool;
  vectorFunctionFactories : string → option VectorFunctionMetadata;
  getVectorFunctionWithMetadata :
    string → list TypePtr → list (option Variant) →
    option (VectorFunction * VectorFunctionMetadata);
  resolveSimpleFunction : string → list TypePtr → option SimpleFunctionEntry;
  getVectorFunctionSignatures : string → option (list string);
  getSimpleFunctionSignatures : string → list string;
  eval : gmap ExprPtr Expr → ExprPtr → Evaluation;
  isConstantExpr : gmap ExprPtr Expr → ExprPtr → bool;
  computeMetadata : ExprPtr → gmap ExprPtr Expr → gmap ExprPtr Expr;
  clearMetaData : ExprPtr → gmap ExprPtr Expr → gmap ExprPtr Expr;
}.

(** ** The compiler's statements *)

(** A statement of the compiler: [None] when the recursion budget of the
    model ran out, else how the call ended and the state it left. *)
Definition Compile (A : Type) : Type :=
  CompilerState → option (Outcome A * CompilerState).

#[export] Instance Compile_ret : MRet Compile :=
  λ A a s, Some (Returns a, s).
#[export] Instance Compile_bind : MBind Compile :=
  λ A B f m s,
    match m s with
    | Some (Returns a, s') => f a s'
    | Some (Throws e, s') => Some (Throws e, s')
    | None => None
    end.

Definition raise {A} (e : Thrown) : Compile A := λ s, Some (Throws e, s).

Definition get : Compile CompilerState := λ s, Some (Returns s, s).

Definition modify (f : CompilerState → CompilerState) : Compile unit :=
  λ s, Some (Returns tt, f s).

(** [try { body } catch (const VeloxUserError&) { }], with [fallback] the
    value the code goes on with. *)
Definition catchUserError {A} (body : Compile A) (fallback : A) : Compile A :=
  λ s, match body s with
       | Some (Throws (VeloxUserError _), s') => Some (Returns fallback, s')
       | r => r
       end.

(** [std::make_shared<...>(...)]. *)
Definition newExpr (e : Expr) : Compile ExprPtr :=
  λ s, Some (Returns (nextPtr s),
             {| heap := <[nextPtr s := e]> (heap s); nextPtr := S (nextPtr s);
                scopes := scopes s; exprSet := exprSet s |}).

(** Reading through a node pointer; the pointers the compiler holds are
    those it made, so the lookup cannot fail in a run. *)
Definition getExpr (p : ExprPtr) : Compile Expr :=
  λ s, match heap s !! p with
       | Some e => Some (Returns e, s)
       | None => Some (Throws (VeloxRuntimeError "dangling expression pointer"), s)
       end.

(** A call that writes to the graph only. *)
Definition onHeap (f : gmap ExprPtr Expr → gmap ExprPtr Expr) : Compile unit :=
  modify (λ s, setHeap (f (heap s)) s).

Definition updateExpr (p : ExprPtr) (f : Expr → Expr) : Compile unit :=
  onHeap (alter f p).

(** The scope a compile function is given, [scope]: the top of the stack. *)
Definition currentScope : Compile Scope :=
  λ s, match scopes s with
       | scope :: _ => Some (Returns scope, s)
       | [] => Some (Throws (VeloxRuntimeError "no scope"), s)
       end.

Definition updateScope (f : Scope → Scope) : Compile unit :=
  modify (λ s, match scopes s with
               | scope :: parents => setScopes (f scope :: parents) s
               | [] => s
               end).


(** ** ExprCompiler.cpp *)

Definition kAnd : string := "and".
Definition kOr : string := "or".

(** [RowConstructorCallToSpecialForm::kRowConstructor], declared outside
    these files: the name the ROW special form is registered under. *)
Definition kRowConstructor : string := "row_constructor".

Section ExprCompiler.

Context (registry : Registry).

(** Utility method to check eligibility for flattening. *)
Definition allInputTypesEquivalent (expr : ITypedExpr) : bool :=
  match inputs expr with
  | [] => true
  | first :: rest =>
      forallb (λ input, equivalent registry (type first) (type input)) rest
  end.

Definition callName (expr : ITypedExpr) : option string :=
  match expr with
  | CallTypedExpr _ name _ => Some name
  | _ => None
  end.

Definition shouldFlatten (expr : ITypedExpr) (flatteningCandidates : gset string)
  : option string :=
  match callName expr with
  | Some name =>
      if bool_decide (name = kAnd) || bool_decide (name = kOr)
         || (bool_decide (name ∈ flatteningCandidates)
             && allInputTypesEquivalent expr)
      then Some name
      else None
  | None => None
  end.

Definition isCall (expr : ITypedExpr) (name : string) : bool :=
  match callName expr with
  | Some name' => bool_decide (name' = name)
  | None => false
  end.

(** Recursively flattens nested ANDs, ORs or eligible callable expressions
    into a vector of their inputs; [flat] is the vector being filled. *)
Fixpoint flattenInput (input : ITypedExpr) (flattenCall : string)
    (flat : list ITypedExpr) : list ITypedExpr :=
  if isCall input flattenCall && allInputTypesEquivalent input then
    match input with
    | CallTypedExpr _ _ children =>
        (fix each (children : list ITypedExpr) (flat : list ITypedExpr) :=
           match children with
           | [] => flat
           | child :: children' =>
               each children' (flattenInput child flattenCall flat)
           end) children flat
    | _ => flat
    end
  else flat ++ [input].

Definition VELOX_CHECK (condition : bool) (message : string) : Compile unit :=
  if condition then mret tt else raise (VeloxRuntimeError message).

Definition VELOX_USER_CHECK (condition : bool) (message : string) : Compile unit :=
  if condition then mret tt else raise (VeloxUserError message).

(** [compileInputs]; [compileExpression] is the function it calls back. *)
Definition compileInputs (compileExpression : ITypedExpr → Compile ExprPtr)
    (expr : ITypedExpr) (flatteningCandidates : gset string)
  : Compile (list ExprPtr) :=
  let flattenIf := shouldFlatten expr flatteningCandidates in
  (fix each (inputs : list ITypedExpr) (compiledInputs : list ExprPtr)
     : Compile (list ExprPtr) :=
     match inputs with
     | [] => mret compiledInputs
     | input :: inputs' =>
         if isInputKind input then
           VELOX_CHECK (isFieldAccessKind expr)
             "An InputReference can only occur under a FieldReference" ;;
           each inputs' compiledInputs
         else
           match flattenIf with
           | Some name =>
               let flat := flattenInput input name [] in
               compiled ← mapM compileExpression flat;
               each inputs' (compiledInputs ++ compiled)
           | None =>
               compiled ← compileExpression input;
               each inputs' (compiledInputs ++ [compiled])
           end
     end) (inputs expr) [].

Definition getTypes (exprs : list ExprPtr) : Compile (list TypePtr) :=
  mapM (λ expr, e ← getExpr expr; mret (type_ e)) exprs.

(** [getSpecialForm]: the special form when [name] is registered as one,
    and [nullptr] ([None]) otherwise. *)
Definition getSpecialForm (config : QueryConfig) (name : string) (type : TypePtr)
    (compiledChildren : list ExprPtr) (trackCpuUsage : bool)
  : Compile (option ExprPtr) :=
  if isFunctionCallToSpecialFormRegistered registry name then
    p ← newExpr (makeExpr (SpecialForm name) type compiledChildren trackCpuUsage);
    mret (Some p)
  else mret None.

(** [captureFieldReference] on the scope stack: from the reference's
    scope outwards, while the scope has a parent. *)
Fixpoint captureFieldReference (field : string) (reference : ExprPtr)
    (fieldAccess : ITypedExpr) (scopes : list Scope) : list Scope :=
  match scopes with
  | scope :: ((_ :: _) as parents) =>
      if bool_decide (field ∈ locals scope) || bool_decide (field ∈ capture scope)
      then
        (* Return if the field is defined or captured in this scope. *)
        scopes
      else
        addCapture field reference fieldAccess scope
          :: captureFieldReference field reference fieldAccess parents
  | _ => scopes
  end.

(** The loop of [compileLambda] over the captures of the lambda's scope,
    run in the enclosing scope. *)
Fixpoint compileCaptures (captures : list (ITypedExpr * ExprPtr))
  : Compile (list ExprPtr) :=
  match captures with
  | [] => mret []
  | (expr, inner) :: captures' =>
      scope ← currentScope;
      reference ←
        match getAlreadyCompiled expr (visited scope) with
        | Some reference => mret reference
        | None =>
            innerExpr ← getExpr inner;
            reference ← newExpr (makeExpr (node innerExpr) (type_ innerExpr) [] false);
            updateScope (λ scope, setVisited (assign expr reference (visited scope)) scope) ;;
            mret reference
        end;
      references ← compileCaptures captures';
      mret (reference :: references)
  end.

(** [compileLambda]. The lambda's scope is pushed for the compilation of
    the body and gone when that ends, however it ends. *)
Definition compileLambda (compileExpression : ITypedExpr → Compile ExprPtr)
    (signature : list (string * TypePtr)) (lambdaBody : ITypedExpr)
    (config : QueryConfig) : Compile ExprPtr :=
  let parameterNames := signature.*1 in
  modify (λ s, setScopes (newScope parameterNames :: scopes s) s) ;;
  (λ s, match compileExpression lambdaBody s with
        | Some (r, s') =>
            match scopes s' with
            | lambdaScope :: parents =>
                match r with
                | Returns body =>
                    Some (Returns (body, lambdaScope), setScopes parents s')
                | Throws e => Some (Throws e, setScopes parents s')
                end
            | [] => Some (Throws (VeloxRuntimeError "no scope"), s')
            end
        | None => None
        end) ≫= λ '(body, lambdaScope),
  (* The lambda depends on the captures. *)
  captureReferences ←
    compileCaptures
      (zip (take (length (capture lambdaScope)) (captureFieldAccesses lambdaScope))
           (captureReferences lambdaScope));
  bodyExpr ← getExpr body;
  let functionType := FUNCTION (signature.*2) (type_ bodyExpr) in
  newExpr (makeExpr (LambdaExpr signature captureReferences body) functionType []
             (exprTrackCpuUsage config)).

(** The nodes after an evaluation has set [stats().defaultNullRowsSkipped]
    where it skipped rows. *)
Definition markSkipped (evaluation : Evaluation) (heap : gmap ExprPtr Expr)
  : gmap ExprPtr Expr :=
  foldr (alter (setDefaultNullRowsSkipped true)) heap
    (skippedDefaultNullRows evaluation).

(** [tryFoldIfConstant]. *)
Definition tryFoldIfConstant (expr : ExprPtr) : Compile ExprPtr :=
  s ← get;
  if isConstantExpr registry (heap s) expr && bool_decide (is_Some (execCtx (exprSet s))) then
    catchUserError
      (let evaluation := eval registry (heap s) expr in
       modify (λ s,
         setExprSet (addMemoizing (memoized evaluation) (exprSet s))
           (setHeap (markSkipped evaluation (heap s)) s)) ;;
       match evaluated evaluation with
       | Throws e => raise e
       | Returns constantVector =>
           e ← getExpr expr;
           resultExpr ← newExpr (makeExpr (ConstantExpr constantVector) (type_ e) [] false);
           inputs ← mapM getExpr (inputs_ e);
           (if defaultNullRowsSkipped e || existsb defaultNullRowsSkipped inputs then
              updateExpr resultExpr (setDefaultNullRowsSkipped true)
            else mret tt) ;;
           mret resultExpr
       end)
      expr
  else mret expr.

(** Returns a vector aligned with exprs vector where elements that
    correspond to constant expressions are set to constant values of these
    expressions. *)
Definition getConstantInputs (exprs : list ExprPtr) : Compile (list (option Variant)) :=
  mapM (λ expr,
    e ← getExpr expr;
    mret (match node e with
          | ConstantExpr value => Some value
          | _ => None
          end)) exprs.

Definition rewriteExpression (expr : ITypedExpr) : option ITypedExpr :=
  (fix each (rewrites : list (ITypedExpr → option ITypedExpr)) :=
     match rewrites with
     | [] => None
     | rewrite :: rewrites' =>
         match rewrite expr with
         | Some rewritten => Some rewritten
         | None => each rewrites'
         end
     end) (expressionRewrites registry).

Definition join (separator : string) (parts : list string) : string :=
  match parts with
  | [] => ""
  | part :: parts' => foldl (λ acc p, acc +:+ separator +:+ p) part parts'
  end.

(** [compileCall]. *)
Definition compileCall (expr : ITypedExpr) (name : string) (inputs : list ExprPtr)
    (trackCpuUsage : bool) (config : QueryConfig) : Compile ExprPtr :=
  let resultType := type expr in
  inputTypes ← getTypes inputs;
  if isFunctionCallToSpecialFormRegistered registry name then
    newExpr (makeExpr (SpecialForm name) resultType inputs trackCpuUsage)
  else
    constantInputs ← getConstantInputs inputs;
    match getVectorFunctionWithMetadata registry name inputTypes constantInputs with
    | Some functionWithMetadata =>
        newExpr (makeExpr
          (FunctionCall name functionWithMetadata.1 functionWithMetadata.2)
          resultType inputs trackCpuUsage)
    | None =>
        match resolveSimpleFunction registry name inputTypes with
        | Some simpleFunctionEntry =>
            VELOX_USER_CHECK
              (equivalent registry resultType (entryType simpleFunctionEntry))
              ("Found incompatible return types for '" +:+ name +:+ "' ("
               +:+ typeToString registry (entryType simpleFunctionEntry) +:+ " vs. "
               +:+ typeToString registry resultType +:+ ") for input types ("
               +:+ join ", " (typeToString registry <$> inputTypes) +:+ ").") ;;
            let func :=
              createVectorFunction simpleFunctionEntry inputTypes constantInputs in
            newExpr (makeExpr
              (FunctionCall name func (entryMetadata simpleFunctionEntry))
              resultType inputs trackCpuUsage)
        | None =>
            let signatures :=
              (λ signature, "(" +:+ signature +:+ ")") <$>
                (default [] (getVectorFunctionSignatures registry name)
                 ++ getSimpleFunctionSignatures registry name) in
            match signatures with
            | [] =>
                raise (VeloxUserError
                  ("Scalar function name not registered: " +:+ name
                   +:+ ", called with arguments: ("
                   +:+ join ", " (typeToString registry <$> inputTypes) +:+ ")."))
            | _ =>
                raise (VeloxUserError
                  ("Scalar function " +:+ name +:+ " not registered with arguments: ("
                   +:+ join ", " (typeToString registry <$> inputTypes)
                   +:+ "). Found function registered with the following signatures:"
                   +:+ String (Ascii.ascii_of_nat 10) (join (String (Ascii.ascii_of_nat 10) "") signatures)))
            end
        end
    end.

(** [compileCast]. The result is [nullptr] ([None]) when the special form
    is not registered. *)
Definition compileCast (expr : ITypedExpr) (isTryCast : bool) (inputs : list ExprPtr)
    (trackCpuUsage : bool) (config : QueryConfig) : Compile (option ExprPtr) :=
  VELOX_CHECK (bool_decide (1 = length inputs)) "(1 vs. inputs.size())" ;;
  let resultType := type expr in
  match inputs with
  | input :: _ =>
      inputExpr ← getExpr input;
      if bool_decide (resultType = type_ inputExpr) then mret (Some input)
      else
        getSpecialForm config (if isTryCast then "try_cast" else "cast")
          resultType inputs trackCpuUsage
  | [] => raise (VeloxRuntimeError "(1 vs. inputs.size())")
  end.

(** Dereferencing the result of the switch: a null result ends the run. *)
Definition nonNull (p : option ExprPtr) : Compile ExprPtr :=
  match p with
  | Some p => mret p
  | None => raise (VeloxRuntimeError "nullptr")
  end.

(** Lines 473-484 of [compileRewrittenExpression]: the expression has a
    compiled node in this scope already. *)
Definition reuseCompiled (alreadyCompiled : ExprPtr) : Compile ExprPtr :=
  e ← getExpr alreadyCompiled;
  (if negb (isMultiplyReferenced_ e) then
     modify (λ s, setExprSet (addToReset alreadyCompiled (exprSet s)) s) ;;
     updateExpr alreadyCompiled setMultiplyReferenced ;;
     (* A property of this expression changed, namely isMultiplyReferenced_,
        that affects metadata, so we re-compute it. *)
     onHeap (clearMetaData registry alreadyCompiled) ;;
     onHeap (computeMetadata registry alreadyCompiled)
   else mret tt) ;;
  mret alreadyCompiled.

(** Lines 552-568 of [compileRewrittenExpression]: metadata, constant
    folding and the entry in [scope->visited]. *)
Definition finishCompilation (expr : ITypedExpr) (result : ExprPtr)
    (enableConstantFolding : bool) : Compile ExprPtr :=
  onHeap (computeMetadata registry result) ;;
  resultExpr ← getExpr result;
  compiled ←
    (* If the expression is constant folding it is redundant. *)
    (if enableConstantFolding && negb (isConstant resultExpr) then
       compiled ← tryFoldIfConstant result;
       modify (λ s, setExprSet (clear (exprSet s)) s) ;;
       mret compiled
     else mret result);
  updateScope (λ scope, setVisited (assign expr compiled (visited scope)) scope) ;;
  mret compiled.

(** The switch over [expr->kind()] of [compileRewrittenExpression], lines
    494-550. *)
Definition compileByKind (compileExpression : ITypedExpr → Compile ExprPtr)
    (expr : ITypedExpr) (compiledInputs : list ExprPtr) (config : QueryConfig)
  : Compile ExprPtr :=
  let trackCpuUsage := exprTrackCpuUsage config in
  let resultType := type expr in
  match expr with
  | ConcatTypedExpr _ _ =>
      getSpecialForm config kRowConstructor resultType compiledInputs
        trackCpuUsage ≫= nonNull
  | CastTypedExpr _ _ isTryCast =>
      compileCast expr isTryCast compiledInputs trackCpuUsage config ≫= nonNull
  | CallTypedExpr _ name _ =>
      compileCall expr name compiledInputs trackCpuUsage config
  | FieldAccessTypedExpr _ name _ =>
      fieldReference ←
        newExpr (makeExpr (FieldReference name) (type expr) compiledInputs false);
      (if isInputColumn registry expr then
         (* We only want to capture references to top level fields,
            not struct fields. *)
         modify (λ s,
           setScopes (captureFieldReference name fieldReference expr (scopes s)) s)
       else mret tt) ;;
      mret fieldReference
  | DereferenceTypedExpr _ index _ =>
      newExpr (makeExpr (FieldReferenceByIndex index) (type expr) compiledInputs false)
  | InputTypedExpr _ =>
      raise (VeloxUserError "InputTypedExpr is not supported")
  | ConstantTypedExpr _ value =>
      newExpr (makeExpr (ConstantExpr value) (type expr) [] false)
  | LambdaTypedExpr signature lambdaBody =>
      compileLambda compileExpression signature lambdaBody config
  end.

(** [compileRewrittenExpression]. *)
Definition compileRewrittenExpression
    (compileExpression : ITypedExpr → Compile ExprPtr)
    (expr : ITypedExpr) (config : QueryConfig)
    (flatteningCandidates : gset string) (enableConstantFolding : bool)
  : Compile ExprPtr :=
  scope ← currentScope;
  match getAlreadyCompiled expr (visited scope) with
  | Some alreadyCompiled => reuseCompiled alreadyCompiled
  | None =>
      compiledInputs ← compileInputs compileExpression expr flatteningCandidates;
      result ← compileByKind compileExpression expr compiledInputs config;
      finishCompilation expr result enableConstantFolding
  end.

(** [compileExpression]. The recursion of the compiler goes through the
    registered rewrites, which may hand back anything: the model counts the
    nested calls down from [depth]. *)
Fixpoint compileExpression (depth : nat) (expr : ITypedExpr) (config : QueryConfig)
    (flatteningCandidates : gset string) (enableConstantFolding : bool)
  : Compile ExprPtr :=
  match depth with
  | 0 => λ _, None
  | S depth' =>
      let rewritten := rewriteExpression expr in
      (match rewritten with
       | Some rewritten => updateScope (addRewritten rewritten)
       | None => mret tt
       end) ;;
      compileRewrittenExpression
        (λ e, compileExpression depth' e config flatteningCandidates enableConstantFolding)
        (default expr rewritten) config flatteningCandidates enableConstantFolding
  end.

(** Walk expression tree and collect names of functions used in
    CallTypedExpr into provided 'names' set. *)
Fixpoint collectCallNames (expr : ITypedExpr) (names : gset string) : gset string :=
  let names :=
    match expr with
    | CallTypedExpr _ name _ => {[name]} ∪ names
    | _ => names
    end in
  match expr with
  | FieldAccessTypedExpr _ _ inputs | DereferenceTypedExpr _ _ inputs
  | CallTypedExpr _ _ inputs | CastTypedExpr _ inputs _ | ConcatTypedExpr _ inputs =>
      (fix each (inputs : list ITypedExpr) (names : gset string) :=
         match inputs with
         | [] => names
         | input :: inputs' => each inputs' (collectCallNames input names)
         end) inputs names
  | ConstantTypedExpr _ _ | InputTypedExpr _ | LambdaTypedExpr _ _ => names
  end.

(** Walk expression trees and collection function calls that support
    flattening. *)
Definition collectFlatteningCandidates (exprs : list ITypedExpr) : gset string :=
  let names := foldl (λ names expr, collectCallNames expr names) ∅ exprs in
  filter (λ name,
    default false (supportsFlattening <$> vectorFunctionFactories registry name) = true)
    names.

(** [compileExpressions]: the state it starts from has the fresh top level
    scope and the expression set it is given. *)
Definition initialState (exprSet : ExprSet) : CompilerState :=
  {| heap := ∅; nextPtr := 0; scopes := [newScope []]; exprSet := exprSet |}.

Definition compileExpressions (depth : nat) (sources : list ITypedExpr)
    (execCtx : ExecCtx) (enableConstantFolding : bool) : Compile (list ExprPtr) :=
  let flatteningCandidates := collectFlatteningCandidates sources in
  mapM (λ source,
    compileExpression depth source (queryConfig execCtx) flatteningCandidates
      enableConstantFolding) sources.

End ExprCompiler.

(** ** Flattening and captures as the specification words them *)

(** "Each child that is itself a call with the same name and whose inputs
    are mutually type-equivalent is spliced in, recursively. Flattening
    stops as soon as either condition fails": the inputs [input] stands for
    under a flattened call named [name], from left to right. *)
Fixpoint splicedInputs (registry : Registry) (name : string) (input : ITypedExpr)
  : list ITypedExpr :=
  match input with
  | CallTypedExpr _ name' children =>
      if bool_decide (name' = name) && allInputTypesEquivalent registry input
      then concat (List.map (splicedInputs registry name) children)
      else [input]
  | _ => [input]
  end.

(** "In every scope whose locals do not contain the referenced name and
    whose existing captures do not contain it, append it to that scope's
    captures", from the scope of the reference out to the scope that
    defines the name, the top level scope at the latest. *)
Fixpoint captureInEveryScope (field : string) (reference : ExprPtr)
    (fieldAccess : ITypedExpr) (scopes : list Scope) : list Scope :=
  match scopes with
  | scope :: ((_ :: _) as parents) =>
      if bool_decide (field ∈ locals scope) then scopes
      else
        (if bool_decide (field ∈ capture scope) then scope
         else addCapture field reference fieldAccess scope)
          :: captureInEveryScope field reference fieldAccess parents
  | _ => scopes
  end.

(** The scope stacks a compilation can reach: a scope that captures a name
    has an enclosing scope that defines, captures or, being the top level
    scope, provides it; and no scope lists a capture twice. *)
Fixpoint capturesClosed (scopes : list Scope) : Prop :=
  match scopes with
  | scope :: ((parent :: grandparents) as parents) =>
      NoDup (capture scope)
      ∧ (grandparents ≠ [] →
         ∀ field, field ∈ capture scope →
                  field ∈ locals parent ∨ field ∈ capture parent)
      ∧ capturesClosed parents
  | _ => True
  end.

(** The names an expression refers to are those of the lambdas around it:
    [bound] lists the parameter names of the enclosing lambdas, innermost
    first. Only accesses to input columns count; a lambda inside binds its
    own parameters. *)
Fixpoint refersOnlyTo (registry : Registry) (bound : list (list string))
    (expr : ITypedExpr) : Prop :=
  match expr with
  | ConstantTypedExpr _ _ | InputTypedExpr _ => True
  | FieldAccessTypedExpr _ name inputs =>
      (isInputColumn registry expr = true → ∃ names, names ∈ bound ∧ name ∈ names)
      ∧ (fix each (inputs : list ITypedExpr) : Prop :=
           match inputs with
           | [] => True
           | input :: inputs' => refersOnlyTo registry bound input ∧ each inputs'
           end) inputs
  | DereferenceTypedExpr _ _ inputs | CallTypedExpr _ _ inputs
  | CastTypedExpr _ inputs _ | ConcatTypedExpr _ inputs =>
      (fix each (inputs : list ITypedExpr) : Prop :=
         match inputs with
         | [] => True
         | input :: inputs' => refersOnlyTo registry bound input ∧ each inputs'
         end) inputs
  | LambdaTypedExpr signature body => refersOnlyTo registry (signature.*1 :: bound) body
  end.

(** ** A small registry, for the examples *)

Definition exampleMetadata (flattens isDeterministic : bool) : VectorFunctionMetadata :=
  {| supportsFlattening := flattens; deterministic := isDeterministic;
     defaultNullBehavior := true |}.

(** Evaluation of the example functions over a one-row batch with no
    columns: [plus] adds, [divide] divides and fails on a zero divisor as a
    user error, a function given a null skips the row (default null
    behaviour) and marks the node, a column is not found in the batch (a
    user error), and anything else is beyond this runtime (a system
    error). *)
Definition exampleEval (heap : gmap ExprPtr Expr) (p : ExprPtr) : Evaluation :=
  let constants :=
    (λ i, match node <$> heap !! i with
          | Some (ConstantExpr v) => Some v
          | _ => None
          end) <$> default [] (inputs_ <$> heap !! p) in
  match node <$> heap !! p, constants with
  | Some (FieldReference name), _ =>
      {| evaluated := Throws (VeloxUserError ("Field not found: " +:+ name));
         skippedDefaultNullRows := []; memoized := [] |}
  | Some (FunctionCall "plus" _ _), [Some (VInteger a); Some (VInteger b)] =>
      {| evaluated := Returns (VInteger (a + b));
         skippedDefaultNullRows := []; memoized := [p] |}
  | Some (FunctionCall "divide" _ _), [Some (VInteger a); Some (VInteger b)] =>
      {| evaluated :=
           if (b =? 0)%Z then Throws (VeloxUserError "Division by zero")
           else Returns (VInteger (a ÷ b));
         skippedDefaultNullRows := []; memoized := [p] |}
  | Some (FunctionCall _ _ _), [Some VNull; _] | Some (FunctionCall _ _ _), [_; Some VNull] =>
      {| evaluated := Returns VNull;
         skippedDefaultNullRows := [p]; memoized := [p] |}
  | _, _ =>
      {| evaluated := Throws (VeloxRuntimeError "not implemented");
         skippedDefaultNullRows := []; memoized := [p] |}
  end.

(** A metadata pass for the examples: a node is deterministic when its own
    function is (a special form is) and every input is; it is a constant
    expression when it is deterministic, neither a column nor a lambda, and
    all its inputs are constants; clearing makes the next [computeMetadata]
    compute again. *)
Definition ownDeterministic (n : ExprNode) : bool :=
  match n with
  | FunctionCall _ _ metadata => deterministic metadata
  | _ => true
  end.

Definition setMetadata (isDeterministic : bool) (e : Expr) : Expr :=
  {| node := node e; type_ := type_ e; inputs_ := inputs_ e;
     trackCpuUsage_ := trackCpuUsage_ e;
     isMultiplyReferenced_ := isMultiplyReferenced_ e;
     metaDataComputed_ := true;
     deterministic_ := isDeterministic;
     defaultNullRowsSkipped := defaultNullRowsSkipped e |}.

Definition exampleComputeMetadata (p : ExprPtr) (heap : gmap ExprPtr Expr)
  : gmap ExprPtr Expr :=
  match heap !! p with
  | Some e =>
      if metaDataComputed_ e then heap
      else
        let inputs := omap (λ i, heap !! i) (inputs_ e) in
        <[p := setMetadata (ownDeterministic (node e)
                            && forallb deterministic_ inputs) e]> heap
  | None => heap
  end.

Definition exampleClearMetaData (p : ExprPtr) (heap : gmap ExprPtr Expr)
  : gmap ExprPtr Expr :=
  alter (λ e,
    {| node := node e; type_ := type_ e; inputs_ := inputs_ e;
       trackCpuUsage_ := trackCpuUsage_ e;
       isMultiplyReferenced_ := isMultiplyReferenced_ e;
       metaDataComputed_ := false;
       deterministic_ := deterministic_ e;
       defaultNullRowsSkipped := defaultNullRowsSkipped e |}) p heap.

Definition exampleIsConstantExpr (heap : gmap ExprPtr Expr) (p : ExprPtr) : bool :=
  match heap !! p with
  | Some e =>
      match node e with
      | FieldReference _ | FieldReferenceByIndex _ | LambdaExpr _ _ _ => false
      | _ =>
          deterministic_ e
          && forallb isConstant (omap (λ i, heap !! i) (inputs_ e))
      end
  | None => false
  end.

(** A field access is a top level input column when it projects from the
    input row: it has no input, or its input is the input reference. *)
Definition exampleIsInputColumn (expr : ITypedExpr) : bool :=
  match expr with
  | FieldAccessTypedExpr _ _ [] => true
  | FieldAccessTypedExpr _ _ (input :: _) => isInputKind input
  | _ => false
  end.

Definition exampleRegistry : Registry :=
  {| equivalent := λ a b, bool_decide (a = b);
     typeToString := λ t,
       match t with
       | Scalar BIGINT => "BIGINT"
       | Scalar BOOLEAN => "BOOLEAN"
       | _ => "OTHER"
       end;
     isInputColumn := exampleIsInputColumn;
     expressionRewrites := [];
     isFunctionCallToSpecialFormRegistered := λ name,
       bool_decide (name ∈ ["and"; "or"; "cast"; "try_cast"; "row_constructor"; "if"]);
     vectorFunctionFactories := λ name,
       if bool_decide (name = "concat") then Some (exampleMetadata true true)
       else if bool_decide (name ∈ ["plus"; "divide"]) then Some (exampleMetadata false true)
       else if bool_decide (name = "rand") then Some (exampleMetadata false false)
       else None;
     getVectorFunctionWithMetadata := λ name _ _,
       if bool_decide (name = "concat") then Some (1, exampleMetadata true true)
       else if bool_decide (name = "plus") then Some (2, exampleMetadata false true)
       else if bool_decide (name = "divide") then Some (3, exampleMetadata false true)
       else if bool_decide (name = "rand") then Some (4, exampleMetadata false false)
       else None;
     resolveSimpleFunction := λ _ _, None;
     getVectorFunctionSignatures := λ _, None;
     getSimpleFunctionSignatures := λ _, [];
     eval := exampleEval;
     isConstantExpr := exampleIsConstantExpr;
     computeMetadata := exampleComputeMetadata;
     clearMetaData := exampleClearMetaData |}.

Definition exampleConfig : QueryConfig := {| exprTrackCpuUsage := false |}.

Definition exampleExprSet (withExecCtx : bool) : ExprSet :=
  {| execCtx := if withExecCtx then Some {| queryConfig := exampleConfig |} else None;
     toReset := []; memoizingExprs := [] |}.

(** An input column, a constant and calls, as the planner builds them. *)
Definition column (t : TypePtr) (name : string) : ITypedExpr :=
  FieldAccessTypedExpr t name [].

Definition bigint (z : Z) : ITypedExpr :=
  ConstantTypedExpr (Scalar BIGINT) (VInteger z).

Definition boolColumn (name : string) : ITypedExpr := column (Scalar BOOLEAN) name.

Definition AND (inputs : list ITypedExpr) : ITypedExpr :=
  CallTypedExpr (Scalar BOOLEAN) "and" inputs.

Definition OR (inputs : list ITypedExpr) : ITypedExpr :=
  CallTypedExpr (Scalar BOOLEAN) "or" inputs.

(** A compiled node with everything below it. *)
Inductive CompiledTree :=
| Compiled (node : ExprNode) (type : TypePtr) (multiplyReferenced : bool)
    (inputs : list CompiledTree).

Fixpoint treeOf (depth : nat) (heap : gmap ExprPtr Expr) (p : ExprPtr)
  : option CompiledTree :=
  match depth with
  | 0 => None
  | S depth' =>
      e ← heap !! p;
      children ← mapM (M := option) (treeOf depth' heap) (inputs_ e);
      Some (Compiled (node e) (type_ e) (isMultiplyReferenced_ e) children)
  end.

(** The trees of what a run of the compiler returns. *)
Definition compiledTrees (run : option (Outcome (list ExprPtr) * CompilerState))
  : option (list CompiledTree) :=
  match run with
  | Some (Returns ps, s) => mapM (M := option) (treeOf 8 (heap s)) ps
  | _ => None
  end.

(** A run of [compileExpressions] with the example registry, from the
    state it starts from. *)
Definition exampleRun (sources : list ITypedExpr) (withExecCtx fold : bool)
  : option (Outcome (list ExprPtr) * CompilerState) :=
  compileExpressions exampleRegistry 6 sources {| queryConfig := exampleConfig |} fold
    (initialState (exampleExprSet withExecCtx)).

Definition arrayColumn (name : string) : ITypedExpr :=
  column (ARRAY (Scalar BIGINT)) name.

Definition concatCall (inputs : list ITypedExpr) : ITypedExpr :=
  CallTypedExpr (ARRAY (Scalar BIGINT)) "concat" inputs.

(** The column x of type BIGINT, compiled, and nothing else. *)
Definition columnState : CompilerState :=
  {| heap := {[0 := makeExpr (FieldReference "x") (Scalar BIGINT) [] false]};
     nextPtr := 1; scopes := [newScope []]; exprSet := exampleExprSet true |}.


(** ** What a folding attempt leaves *)

(** The state in which the evaluation of [tryFoldIfConstant] ends. *)
Definition evaluatedState (registry : Registry) (expr : ExprPtr) (s : CompilerState)
  : CompilerState :=
  let evaluation := eval registry (heap s) expr in
  setExprSet (addMemoizing (memoized evaluation) (exprSet s))
    (setHeap (markSkipped evaluation (heap s)) s).

(** The constant [tryFoldIfConstant] builds from the evaluated node. *)
Definition foldedConstant (value : Variant) (marked : gmap ExprPtr Expr)
    (expr : ExprPtr) (e : Expr) : Expr :=
  let inputs := omap (λ i, marked !! i) (inputs_ e) in
  (if defaultNullRowsSkipped e || existsb defaultNullRowsSkipped inputs
   then setDefaultNullRowsSkipped true else id)
    (makeExpr (ConstantExpr value) (type_ e) [] false).

(** Two compiled constants, 1 and [second], and over them a call of the
    example function [name], just built: the state in which
    [compileRewrittenExpression] reaches its last lines for the call. *)
Definition callState (name : string) (vectorFunction : VectorFunction)
    (second : Variant) (withExecCtx : bool) : CompilerState :=
  {| heap :=
       {[0 := setMetadata true (makeExpr (ConstantExpr (VInteger 1)) (Scalar BIGINT) [] false);
         1 := setMetadata true (makeExpr (ConstantExpr second) (Scalar BIGINT) [] false);
         2 := makeExpr (FunctionCall name vectorFunction (exampleMetadata false true))
                (Scalar BIGINT) [0; 1] false]};
     nextPtr := 3; scopes := [newScope []]; exprSet := exampleExprSet withExecCtx |}.

Definition exampleCall (name : string) (second : Variant) : ITypedExpr :=
  CallTypedExpr (Scalar BIGINT) name [bigint 1; ConstantTypedExpr (Scalar BIGINT) second].

(** The fields a compiled lambda captures, and those the lambdas its body
    is made of capture, outermost first. *)
Fixpoint capturesOf (depth : nat) (heap : gmap ExprPtr Expr) (p : ExprPtr)
  : list (list string) :=
  match depth with
  | 0 => []
  | S depth' =>
      match node <$> heap !! p with
      | Some (LambdaExpr _ captures body) =>
          omap (λ reference,
                  match node <$> heap !! reference with
                  | Some (FieldReference field) => Some field
                  | _ => None
                  end) captures
          :: capturesOf depth' heap body
      | _ => []
      end
  end.

Definition lambda (parameter : string) (body : ITypedExpr) : ITypedExpr :=
  LambdaTypedExpr [(parameter, Scalar BIGINT)] body.

Definition plus (a b : ITypedExpr) : ITypedExpr :=
  CallTypedExpr (Scalar BIGINT) "plus" [a; b].

(** ** The scope stack along a run *)

(** What a run of the compiler does to the stack of scopes, as a relation
    between the stack it starts with and a stack it reaches: it writes to
    the current scope's [visited] and [rewrittenExpressions], it captures a
    field reference from the current scope outwards, and it compiles a
    lambda in a scope of the lambda's own that is gone afterwards. [P]
    tells which fields are captured, under which locals. *)
Inductive ScopeTrace (P : list (list string) → string → Prop)
  : list Scope → list Scope → Prop :=
| trace_refl scopes : ScopeTrace P scopes scopes
| trace_trans scopes1 scopes2 scopes3 :
    ScopeTrace P scopes1 scopes2 → ScopeTrace P scopes2 scopes3 →
    ScopeTrace P scopes1 scopes3
| trace_head scope scope' parents :
    locals scope' = locals scope → capture scope' = capture scope →
    ScopeTrace P (scope :: parents) (scope' :: parents)
| trace_capture field reference fieldAccess scopes :
    P (locals <$> scopes) field →
    ScopeTrace P scopes (captureFieldReference field reference fieldAccess scopes)
| trace_lambda names scopes lambdaScope parents :
    ScopeTrace P (newScope names :: scopes) (lambdaScope :: parents) →
    ScopeTrace P scopes parents.

(** A statement of the compiler all of whose runs are within [R]. *)
Definition preserves (R : relation CompilerState) {A} (m : Compile A) : Prop :=
  ∀ s r s', m s = Some (r, s') → R s s'.

(** Runs that start under the locals [ls] and follow [ScopeTrace]. *)
Definition tracesScopes (P : list (list string) → string → Prop)
    (ls : list (list string)) : relation CompilerState :=
  λ s s', locals <$> scopes s = ls → ScopeTrace P (scopes s) (scopes s').

(** The field is a parameter of one of the lambdas around the reference,
    the outermost [outer] scopes set aside. *)
Definition boundWithin (outer : nat) (ls : list (list string)) (field : string) : Prop :=
  ∃ names, names ∈ take (length ls - outer) ls ∧ field ∈ names.

(** The registered rewrites introduce no reference to a name that is not
    bound around the expression. *)
Definition rewritesKeepReferences (registry : Registry) : Prop :=
  ∀ rewrite, rewrite ∈ expressionRewrites registry →
    ∀ bound expr rewritten,
      rewrite expr = Some rewritten →
      refersOnlyTo registry bound expr → refersOnlyTo registry bound rewritten.

(** The expression refers only to parameters of the lambdas around it, the
    outermost [outer] scopes set aside. *)
Definition referencesWithin (registry : Registry) (outer : nat)
    (ls : list (list string)) (expr : ITypedExpr) : Prop :=
  outer ≤ length ls ∧ refersOnlyTo registry (take (length ls - outer) ls) expr.

(** ** Reuse of a compiled node *)

(** The state lines 473-484 leave when the node found in [visited] was not
    multiply referenced before. *)
Definition reusedState (registry : Registry) (alreadyCompiled : ExprPtr)
    (s : CompilerState) : CompilerState :=
  setHeap
    (computeMetadata registry alreadyCompiled
       (clearMetaData registry alreadyCompiled
          (alter setMultiplyReferenced alreadyCompiled (heap s))))
    (setExprSet (addToReset alreadyCompiled (exprSet s)) s).

(** A node but for the members the metadata pass computes. *)
Definition withoutMetadata (e : Expr) : Expr :=
  {| node := node e; type_ := type_ e; inputs_ := inputs_ e;
     trackCpuUsage_ := trackCpuUsage_ e;
     isMultiplyReferenced_ := isMultiplyReferenced_ e;
     metaDataComputed_ := false; deterministic_ := false;
     defaultNullRowsSkipped := defaultNullRowsSkipped e |}.

(** The metadata pass writes metadata and nothing else. *)
Definition metadataOnly (registry : Registry) : Prop :=
  ∀ p heap,
    withoutMetadata <$> computeMetadata registry p heap = withoutMetadata <$> heap
    ∧ withoutMetadata <$> clearMetaData registry p heap = withoutMetadata <$> heap.

(** Runs that delete no node of the graph, and runs that leave the stack
    of scopes alone. *)
Definition nodesKept : relation CompilerState :=
  λ s s', ∀ p, is_Some (heap s !! p) → is_Some (heap s' !! p).

Definition scopesKept : relation CompilerState :=
  λ s s', scopes s' = scopes s.

(** The writes of the compiler to the graph and to the expression set, one
    at a time: a new node, a write to a node, the metadata pass over a
    node, a write to the expression set, and what an evaluation leaves. *)
Inductive graphStep (registry : Registry) : relation CompilerState :=
| step_new s e :
    graphStep registry s
      {| heap := <[nextPtr s := e]> (heap s); nextPtr := S (nextPtr s);
         scopes := scopes s; exprSet := exprSet s |}
| step_alter s p f :
    graphStep registry s (setHeap (alter f p (heap s)) s)
| step_computeMetadata s p :
    graphStep registry s (setHeap (computeMetadata registry p (heap s)) s)
| step_clearMetaData s p :
    graphStep registry s (setHeap (clearMetaData registry p (heap s)) s)
| step_exprSet s set :
    graphStep registry s (setExprSet set s)
| step_evaluated s evaluation :
    graphStep registry s
      (setExprSet (addMemoizing (memoized evaluation) (exprSet s))
         (setHeap (markSkipped evaluation (heap s)) s)).

(** ** The visited maps along a run *)

(** The expressions an expression is made of, itself included. *)
Inductive subterm : ITypedExpr → ITypedExpr → Prop :=
| subterm_refl expr : subterm expr expr
| subterm_input part input expr :
    input ∈ inputs expr → subterm part input → subterm part expr
| subterm_body part signature body :
    subterm part body → subterm part (LambdaTypedExpr signature body).

Definition properSubterm (part expr : ITypedExpr) : Prop :=
  (∃ input, input ∈ inputs expr ∧ subterm part input)
  ∨ (∃ signature body, expr = LambdaTypedExpr signature body ∧ subterm part body).

Fixpoint size (expr : ITypedExpr) : nat :=
  match expr with
  | ConstantTypedExpr _ _ | InputTypedExpr _ => 1
  | FieldAccessTypedExpr _ _ inputs | DereferenceTypedExpr _ _ inputs
  | CallTypedExpr _ _ inputs | CastTypedExpr _ inputs _ | ConcatTypedExpr _ inputs =>
      S ((fix sum (inputs : list ITypedExpr) : nat :=
            match inputs with
            | [] => 0
            | input :: inputs' => size input + sum inputs'
            end) inputs)
  | LambdaTypedExpr _ body => S (size body)
  end.

(** A visited map keeps its entries and gains entries under keys in [K]
    only. *)
Definition visitedGrows (K : ITypedExpr → Prop) (visited visited' : ExprDedupMap)
  : Prop :=
  ∀ key,
    match getAlreadyCompiled key visited with
    | Some compiled => getAlreadyCompiled key visited' = Some compiled
    | None => is_Some (getAlreadyCompiled key visited') → K key
    end.

(** A scope keeps the entries of its visited map, with new keys in [Kv],
    and the field accesses it has captured, with new ones in [Kc]. *)
Definition scopeGrows (Kv Kc : ITypedExpr → Prop) (scope scope' : Scope) : Prop :=
  visitedGrows Kv (visited scope) (visited scope')
  ∧ ∃ accesses,
      captureFieldAccesses scope' = captureFieldAccesses scope ++ accesses
      ∧ Forall Kc accesses.

Definition stackGrows (Kv Kc : ITypedExpr → Prop) : relation CompilerState :=
  λ s s', Forall2 (scopeGrows Kv Kc) (scopes s) (scopes s') ∧ nodesKept s s'.

(** Runs that write to the graph and to the expression set only, and
    delete no node. *)
Definition graphGrows : relation CompilerState :=
  λ s s', scopes s' = scopes s ∧ nodesKept s s'.

(** ** The kernels to decimals *)

Section DecimalKernels.

(** [getDecimalPrecisionScale] and the conversions of [DecimalUtil] are
    declared outside these files. A conversion reports a failure in what it
    returns: a [Status] whose message stands beside the output it would
    have written ([Expected]), or an empty [std::optional]. The last one is
    [DecimalUtil::castFromString]. *)
Context (getDecimalPrecisionScale : string → nat * nat).
Context (rescaleWithRoundUp : Z → nat → nat → nat → nat → Expected Z).
Context (rescaleInt : Z → nat → nat → option Z).
Context (rescaleFloatingPoint : Floating → nat → nat → Expected Z).
Context (decimalFromString : string → nat → nat → Expected Z).

(** [applyDecimalCastKernel<TInput, TOutput>]: a decimal to a decimal of
    another precision and scale. *)
Definition applyDecimalCastKernel (self : CastExpr) (rows : SelectivityVector)
    (input : SimpleVector Z) (fromType toType : string)
  : Exec (CastState Z unit) unit :=
  let fromPrecisionScale := getDecimalPrecisionScale fromType in
  let toPrecisionScale := getDecimalPrecisionScale toType in
  applyToSelectedNoThrowLocal self rows (λ row,
    let status :=
      rescaleWithRoundUp (valueAt input row)
        fromPrecisionScale.1 fromPrecisionScale.2
        toPrecisionScale.1 toPrecisionScale.2 in
    match status with
    | HasValue rescaledValue => modifyState (onResult (setRaw row rescaledValue))
    | HasError statusMessage =>
        if setNullInResultAtError self then modifyState (onResult (setNull row))
        else setVeloxExceptionError row (VeloxUserError statusMessage)
    end).

(** [applyIntToDecimalCastKernel<TInput, TOutput>]. *)
Definition applyIntToDecimalCastKernel (self : CastExpr) (rows : SelectivityVector)
    (input : SimpleVector Z) (toType : string)
  : Exec (CastState Z unit) unit :=
  let toPrecisionScale := getDecimalPrecisionScale toType in
  applyToSelectedNoThrowLocal self rows (λ row,
    let rescaledValue :=
      rescaleInt (valueAt input row) toPrecisionScale.1 toPrecisionScale.2 in
    match rescaledValue with
    | Some value => modifyState (onResult (setRaw row value))
    | None => modifyState (onResult (setNull row))
    end).

(** [applyFloatingPointToDecimalCastKernel<TInput, TOutput>]. *)
Definition applyFloatingPointToDecimalCastKernel (self : CastExpr)
    (rows : SelectivityVector) (input : SimpleVector Floating) (toType : string)
  : Exec (CastState Z unit) unit :=
  let toPrecisionScale := getDecimalPrecisionScale toType in
  applyToSelectedNoThrowLocal self rows (λ row,
    let status :=
      rescaleFloatingPoint (valueAt input row)
        toPrecisionScale.1 toPrecisionScale.2 in
    match status with
    | HasValue output => modifyState (onResult (setRaw row output))
    | HasError statusMessage =>
        if setNullInResultAtError self then modifyState (onResult (setNull row))
        else setVeloxExceptionError row
               (makeBadCastException toType input row statusMessage)
    end).

(** [applyVarcharToDecimalCastKernel<T>]: the rows are visited by
    [rows.applyToSelected] itself. *)
Definition applyVarcharToDecimalCastKernel (self : CastExpr)
    (rows : SelectivityVector) (input : SimpleVector string) (toType : string)
  : Exec (CastState Z unit) unit :=
  let toPrecisionScale := getDecimalPrecisionScale toType in
  applyToSelected rows (λ row,
    let status :=
      decimalFromString (removeWhiteSpaces (hooks_ self) (valueAt input row))
        toPrecisionScale.1 toPrecisionScale.2 in
    match status with
    | HasValue decimalValue => modifyState (onResult (setRaw row decimalValue))
    | HasError statusMessage =>
        if setNullInResultAtError self then modifyState (onResult (setNull row))
        else setVeloxExceptionError row
               (makeBadCastException toType input row statusMessage)
    end).

End DecimalKernels.

(** *** Conversions for the examples *)

(** DECIMAL(p, s) rendered the usual way has its precision and scale read
    back by the examples from a table. *)
Definition examplePrecisionScale (type : string) : nat * nat :=
  if bool_decide (type = "DECIMAL(5, 2)") then (5, 2)
  else if bool_decide (type = "DECIMAL(4, 1)") then (4, 1)
  else if bool_decide (type = "DECIMAL(3, 0)") then (3, 0)
  else (18, 0).

Definition fitsPrecision (value : Z) (precision : nat) : bool :=
  (Z.abs value <? 10 ^ Z.of_nat precision)%Z.

(** An integer at a scale: overflow of the precision gives no value. *)
Definition exampleRescaleInt (value : Z) (precision scale : nat) : option Z :=
  let rescaled := (value * 10 ^ Z.of_nat scale)%Z in
  if fitsPrecision rescaled precision then Some rescaled else None.

(** A decimal at another scale, digits that are cut off rounding half away
    from zero. *)
Definition exampleRescale (value : Z) (fromPrecision fromScale toPrecision toScale : nat)
  : Expected Z :=
  let rescaled :=
    if Nat.leb fromScale toScale
    then (value * 10 ^ Z.of_nat (toScale - fromScale))%Z
    else
      let factor := (10 ^ Z.of_nat (fromScale - toScale))%Z in
      let sign := (if value >=? 0 then 1 else -1)%Z in
      ((value + sign * (factor ÷ 2)) ÷ factor)%Z in
  if fitsPrecision rescaled toPrecision then HasValue rescaled
  else HasError "Decimal overflow".

(** Floating point values are met by their bits only: the example
    conversion tells the infinities and the values that are no numbers
    (all exponent bits set) from the rest, which it takes for zero. *)
Definition exampleRescaleFloatingPoint (value : Floating) (precision scale : nat)
  : Expected Z :=
  if (Z.land (bits value) 0x7FF0000000000000 =? 0x7FF0000000000000)%Z
  then HasError "The input value should be finite."
  else HasValue 0%Z.

(** Unsigned whole numbers, read at the scale. *)
Definition exampleDecimalFromString (text : string) (precision scale : nat)
  : Expected Z :=
  match parseDigits 0 text with
  | Some z =>
      let rescaled := (z * 10 ^ Z.of_nat scale)%Z in
      if fitsPrecision rescaled precision then HasValue rescaled
      else HasError "Value too large."
  | None => HasError "Value is not a number."
  end.

Definition exampleFloats (values : list (Z * string)) : SimpleVector Floating :=
  {| typeString := "DOUBLE";
     valueAt := λ row, {| bits := default 0%Z (fst <$> values !! row) |};
     toString := λ row, default "" (snd <$> values !! row) |}.

(** *** The loops of the kernels, row by row *)

(** What [applyToSelectedNoThrowLocal] runs for a row: the kernel's lambda
    inside the [try] block of the loop. *)
Definition guardedRow {T L} (self : CastExpr)
    (func : vector_size_t → Exec (CastState T L) unit) (row : vector_size_t)
  : Exec (CastState T L) unit :=
  tryCatch (func row) (λ e,
    match e with
    | VeloxUserError _ =>
        if setNullInResultAtError self then modifyState (onResult (setNull row))
        else setVeloxExceptionError row e
    | VeloxRuntimeError _ => throw e
    | StdException _ =>
        if setNullInResultAtError self then modifyState (onResult (setNull row))
        else setContextError row e
    end).

(** What the error policy does with the conversion of a row. *)
Definition policyRow {L} (self : CastExpr) (converter : Converter)
    (ToKind FromKind : TypeKind) (input : SimpleVector (NativeType FromKind))
    (row : vector_size_t) : Exec (CastState (NativeType ToKind) L) unit :=
  errorPolicy self input row
    (classify (rowConversion (hooks_ self) converter ToKind FromKind
                 (getPolicy (hooks_ self)) (valueAt input row))).

(** What the kernels to decimals do with the status of a conversion: the
    output goes to the values buffer; a failure nulls the row when the cast
    nulls on error and else records the exception [exn] makes of the
    message. *)
Definition storeOrFail {T L} (self : CastExpr) (row : vector_size_t)
    (status : Expected T) (exn : string → Thrown) (s : CastState T L)
  : CastState T L :=
  match status with
  | HasValue output => onResult (setRaw row output) s
  | HasError statusMessage =>
      if setNullInResultAtError self then onResult (setNull row) s
      else onContext (recordError row (ExceptionError (exn statusMessage))) s
  end.

(** ** Calls, and the types of compiled nodes *)

(** The expression has a call of [name] in it that is reached through
    [inputs()]: it is such a call, or one of its inputs has one. *)
Inductive calls (name : string) : ITypedExpr → Prop :=
| calls_here type inputs : calls name (CallTypedExpr type name inputs)
| calls_input expr input :
    input ∈ inputs expr → calls name input → calls name expr.

(** The node behind a pointer has the type [t]. *)
Definition typedAt (s : CompilerState) (p : ExprPtr) (t : TypePtr) : Prop :=
  type_ <$> heap s !! p = Some t.

(** Runs that keep the type of every node. *)
Definition typesKept : relation CompilerState :=
  λ s s', ∀ p t, typedAt s p t → typedAt s' p t.

(** What a scope holds is typed: the node recorded for an expression has
    the type of the expression, and so has the reference recorded for a
    captured field access; the two vectors of a capture are aligned. *)
Definition scopeTyped (s : CompilerState) (scope : Scope) : Prop :=
  (∀ key compiled,
     getAlreadyCompiled key (visited scope) = Some compiled →
     typedAt s compiled (type key))
  ∧ length (captureFieldAccesses scope) = length (captureReferences scope)
  ∧ length (capture scope) = length (captureReferences scope)
  ∧ ∀ i fieldAccess reference,
      captureFieldAccesses scope !! i = Some fieldAccess →
      captureReferences scope !! i = Some reference →
      typedAt s reference (type fieldAccess).

(** The states of the compiler in which pointers are those [make_shared]
    has handed out so far, and every scope is typed. *)
Definition wellTyped (s : CompilerState) : Prop :=
  (∀ p, is_Some (heap s !! p) → p < nextPtr s)
  ∧ Forall (scopeTyped s) (scopes s).

(** The registered rewrites keep the type of the expression. *)
Definition rewritesKeepTypes (registry : Registry) : Prop :=
  ∀ rewrite, rewrite ∈ expressionRewrites registry →
    ∀ expr rewritten, rewrite expr = Some rewritten → type rewritten = type expr.

(** Runs from a typed state end in a typed state and keep the type of
    every node. *)
Definition typedRun : relation CompilerState :=
  λ s s', wellTyped s → wellTyped s' ∧ typesKept s s'.

(** A statement whose runs from a typed state in which [pre] holds are
    typed runs, and return a value for which [post] holds in the state
    they end in. *)
Definition typedFrom {A} (pre : CompilerState → Prop) (m : Compile A)
    (post : A → CompilerState → Prop) : Prop :=
  ∀ s r s', m s = Some (r, s') → wellTyped s → pre s →
    (wellTyped s' ∧ typesKept s s') ∧ ∀ a, r = Returns a → post a s'.

(** A property of states that typed runs keep. *)
Definition stable (P : CompilerState → Prop) : Prop :=
  ∀ s s', typesKept s s' → P s → P s'.

(** The loop of [compileInputs] over the inputs that are left, with the
    vector it has filled so far. *)
Definition compileInputsFrom (registry : Registry)
    (compileExpression : ITypedExpr → Compile ExprPtr)
    (expr : ITypedExpr) (flatteningCandidates : gset string)
  : list ITypedExpr → list ExprPtr → Compile (list ExprPtr) :=
  fix each (inputs : list ITypedExpr) (compiledInputs : list ExprPtr)
    : Compile (list ExprPtr) :=
    match inputs with
    | [] => mret compiledInputs
    | input :: inputs' =>
        if isInputKind input then
          VELOX_CHECK (isFieldAccessKind expr)
            "An InputReference can only occur under a FieldReference" ;;
          each inputs' compiledInputs
        else
          match shouldFlatten registry expr flatteningCandidates with
          | Some name =>
              let flat := flattenInput registry input name [] in
              compiled ← mapM compileExpression flat;
              each inputs' (compiledInputs ++ compiled)
          | None =>
              compiled ← compileExpression input;
              each inputs' (compiledInputs ++ [compiled])
          end
    end.

(** ** What a scope has recorded *)

(** The current scope has the node [compiled] in [visited] under [key], and
    the node is in the graph. *)
Definition records (s : CompilerState) (key : ITypedExpr) (compiled : ExprPtr) : Prop :=
  ∃ scope parents,
    scopes s = scope :: parents
    ∧ getAlreadyCompiled key (visited scope) = Some compiled
    ∧ is_Some (heap s !! compiled).

(** Runs that keep what every scope has recorded and captured, and delete
    no node. *)
Abbreviation recordsKept := (stackGrows (λ _, True) (λ _, True)).

(** The expression [compileExpression] hands to
    [compileRewrittenExpression]: what the first rewrite that applies makes
    of it, and the expression itself when none does. *)
Definition rewritten (registry : Registry) (expr : ITypedExpr) : ITypedExpr :=
  default expr (rewriteExpression registry expr).

(** The state after [compileExpression] has put the rewritten expression
    into [scope->rewrittenExpressions]. *)
Definition rewriteNoted (registry : Registry) (expr : ITypedExpr) (s : CompilerState)
  : CompilerState :=
  match rewriteExpression registry expr, scopes s with
  | Some rewritten, scope :: parents => setScopes (addRewritten rewritten scope :: parents) s
  | _, _ => s
  end.

(** The expressions the loop of [compileInputs] hands to
    [compileExpression], in its order: an input that is an
    [InputTypedExpr] is passed over, any other input stands for what
    [flattenInput] makes of it when the expression is flattened, and for
    itself when it is not. *)
Definition compiledParts (registry : Registry) (expr : ITypedExpr)
    (flatteningCandidates : gset string) : list ITypedExpr :=
  let flattenIf := shouldFlatten registry expr flatteningCandidates in
  concat ((λ input,
             if isInputKind input then []
             else
               match flattenIf with
               | Some name => flattenInput registry input name []
               | None => [input]
               end) <$> inputs expr).

(** * Properties of the cast kernels *)

(** Unfolds the statement monad and the state updates of the kernels. *)
Ltac exec_unfold :=
  unfold applyToSelectedNoThrowLocal, applyToSelected, errorPolicy, strictError,
    convertAndStore, setResultOrError, setError, onCastState, setStatus,
    setVeloxExceptionError, setContextError, tryCatch, modifyState, throw, call,
    mbind, Exec_bind, mret, Exec_ret, classify, withValue in *.

Ltac exec_simpl := exec_unfold; cbn.

Section CastKernelFacts.

Context {L : Type}.

Lemma castFromString_refines (self : CastExpr) TPolicy ToKind row
    (input : SimpleVector string) tryCast v func
    (s : CastState (NativeType ToKind) L) :
  func row = kernelOf self row input
               (castFromString self TPolicy ToKind row input tryCast v) →
  applyToSelectedNoThrowLocal self [row] func s
  = errorPolicy self input row
      (classify (withValue Some (stringConversion (hooks_ self) TPolicy ToKind tryCast v))) s.
Proof.
  intros Hfunc.
  unfold applyToSelectedNoThrowLocal; cbn [applyToSelected]; rewrite Hfunc.
  clear Hfunc func.
  unfold kernelOf, kernelCatch, castFromString, stringConversion.
  destruct self as [hooks nullOnError]; cbn [hooks_ setNullInResultAtError].
  destruct s as [[capture errs] res cap].
  destruct (isPrimitiveType ToKind && isFixedWidth ToKind
            && Nat.eqb (String.length _) 0) eqn:Hempty.
  - destruct nullOnError, capture; reflexivity.
  - destruct nullOnError, capture, ToKind; exec_simpl;
      repeat match goal with
      | |- context [castStringToTimestamp ?h ?x] => destruct (castStringToTimestamp h x) as [[?|?]|[?|?|?]]
      | |- context [castStringToReal ?h ?x] => destruct (castStringToReal h x) as [[?|?]|[?|?|?]]
      | |- context [castStringToDouble ?h ?x] => destruct (castStringToDouble h x) as [[?|?]|[?|?|?]]
      | |- context [throwOnUnicode ?p && ?b] => destruct (throwOnUnicode p && b)
      | |- context [tryCast ?x] => destruct (tryCast x) as [[?|?]|[?|?|?]]
      end; reflexivity.
Qed.

Lemma applyCastKernel_refines (self : CastExpr) (converter : Converter)
    ToKind FromKind TPolicy row (input : SimpleVector (NativeType FromKind)) func
    (s : CastState (NativeType ToKind) L) :
  func row = applyCastKernel self converter ToKind FromKind TPolicy row input →
  applyToSelectedNoThrowLocal self [row] func s
  = errorPolicy self input row
      (classify (rowConversion (hooks_ self) converter ToKind FromKind TPolicy
                   (valueAt input row))) s.
Proof.
  intros Hfunc.
  destruct FromKind eqn:HF;
    first
      [ unfold rowConversion; destruct ToKind;
        apply castFromString_refines; rewrite Hfunc; reflexivity
      | idtac ];
    unfold applyToSelectedNoThrowLocal; cbn [applyToSelected]; rewrite Hfunc;
    clear Hfunc func; unfold applyCastKernel, castRow, rowConversion;
    destruct self as [hooks nullOnError]; cbn [hooks_ setNullInResultAtError];
    destruct s as [[capture errs] res cap];
    destruct nullOnError, capture, ToKind; exec_simpl;
    repeat match goal with
    | |- context [castIntToTimestamp ?h ?x] =>
        destruct (castIntToTimestamp h x) as [[?|?]|[?|?|?]]
    | |- context [castBooleanToTimestamp ?h ?x] =>
        destruct (castBooleanToTimestamp h x) as [[?|?]|[?|?|?]]
    | |- context [castTimestampToInt ?h ?x] =>
        destruct (castTimestampToInt h x) as [[?|?]|[?|?|?]]
    | |- context [castDoubleToTimestamp ?h ?x] =>
        destruct (castDoubleToTimestamp h x) as [[[?|]|?]|[?|?|?]]
    | |- context [converter ?t ?p ?f ?x] =>
        destruct (converter t p f x) as [[?|?]|[?|?|?]]
    end; reflexivity.
Qed.

Lemma applyCastPrimitives_refines (self : CastExpr) (converter : Converter)
    ToKind FromKind row (input : SimpleVector (NativeType FromKind))
    (s : CastState (NativeType ToKind) L) :
  applyCastPrimitives self converter ToKind FromKind [row] input s
  = errorPolicy self input row
      (classify (rowConversion (hooks_ self) converter ToKind FromKind
                   (getPolicy (hooks_ self)) (valueAt input row))) s.
Proof.
  unfold applyCastPrimitives.
  destruct (getPolicy (hooks_ self)); by apply applyCastKernel_refines.
Qed.

(** C2. A row that fails to convert is handled by the error policy. With
    the same hooks, converter and input, run once as a try-cast
    ([setNullInResultAtError] true) and once as a strict cast:
    - when the conversion fails with a structured error, a user exception or
      a foreign exception, the try-cast sets the row to null and touches
      nothing else, and the strict cast records a user error for the row,
      with the formatted message exactly when [captureErrorDetails()] holds;
    - a system error leaves both casts as the same exception, with the state
      as it was;
    - when a hook answers null itself (lines 168-172), both casts set the
      row to null and neither records an error: here a row is nulled under
      the try-cast although the strict cast has no error for it;
    - a converted value is stored by both casts;
    - for a row that is neither null nor in error beforehand, and except
      where a hook answers null itself, the try-cast nulls the row if and
      only if the strict cast records a user error for it;
    - the guard around the per-row function (lines 54-88), whatever that
      function is: when it returns, the guard adds nothing; an engine
      exception that is no user error leaves the guard under both casts; a
      user exception or a foreign exception is caught, the try-cast setting
      the row to null and the strict cast recording the exception for the
      row, both on the state the function had reached. *)
Theorem cast_error_policy (hooks : CastHooks) (converter : Converter)
    (ToKind FromKind : TypeKind) (row : vector_size_t)
    (input : SimpleVector (NativeType FromKind))
    (s : CastState (NativeType ToKind) L) :
  let tryCast := {| hooks_ := hooks; setNullInResultAtError := true |} in
  let strictCast := {| hooks_ := hooks; setNullInResultAtError := false |} in
  let conversion :=
    classify (rowConversion hooks converter ToKind FromKind (getPolicy hooks)
                (valueAt input row)) in
  let underTry := applyCastPrimitives tryCast converter ToKind FromKind [row] input s in
  let underStrict := applyCastPrimitives strictCast converter ToKind FromKind [row] input s in
  (∀ detail, conversion = Failed detail →
     underTry = (Returns tt, onResult (setNull row) s) ∧
     underStrict =
       (Returns tt,
        onContext (recordError row
          (StatusUserError
             (if captureErrorDetails (context s)
              then Some (makeErrorMessage input row (flatType (result s)) detail)
              else None))) s)) ∧
  (∀ e, conversion = SystemError e →
     isUserError e = false ∧ underTry = (Throws e, s) ∧ underStrict = (Throws e, s)) ∧
  (conversion = ConvertedNull →
     underTry = (Returns tt, onResult (setNull row) s) ∧
     underStrict = (Returns tt, onResult (setNull row) s)) ∧
  (∀ v, conversion = Converted v →
     underTry = (Returns tt, onResult (set row v) s) ∧
     underStrict = (Returns tt, onResult (set row v) s)) ∧
  (row ∉ nulls (result s) → errors (context s) !! row = None →
   conversion ≠ ConvertedNull →
     (row ∈ nulls (result underTry.2) ↔
      ∃ details, errors (context underStrict.2) !! row = Some (StatusUserError details))) ∧
  (∀ (func : vector_size_t → Exec (CastState (NativeType ToKind) L) unit) outcome s1,
     func row s = (outcome, s1) →
     applyToSelectedNoThrowLocal tryCast [row] func s
     = match outcome with
       | Returns _ => (Returns tt, s1)
       | Throws (VeloxRuntimeError m) => (Throws (VeloxRuntimeError m), s1)
       | Throws _ => (Returns tt, onResult (setNull row) s1)
       end
     ∧ applyToSelectedNoThrowLocal strictCast [row] func s
       = match outcome with
         | Returns _ => (Returns tt, s1)
         | Throws (VeloxRuntimeError m) => (Throws (VeloxRuntimeError m), s1)
         | Throws e => (Returns tt, onContext (recordError row (ExceptionError e)) s1)
         end).
Proof.
  intros tryCast strictCast conversion underTry underStrict.
  subst underTry underStrict.
  rewrite !applyCastPrimitives_refines.
  cbn [hooks_ tryCast strictCast]. fold conversion.
  split_and!.
  - intros detail ->. split; reflexivity.
  - intros e He. unfold conversion in *.
    destruct (rowConversion _ _ _ _ _ _) as [[[v|]|m]|[m|m|m]];
      cbn in He; simplify_eq; done.
  - intros ->. split; reflexivity.
  - intros v ->. split; reflexivity.
  - intros Hnull Herr Hconv.
    destruct conversion as [v| |detail|e]; [| done | |]; cbn.
    + rewrite Herr. split; [set_solver | by intros [? ?]].
    + rewrite lookup_insert_eq. split; [eauto | set_solver].
    + rewrite Herr. split; [done | by intros [? ?]].
  - intros func outcome s1 Hfunc.
    unfold applyToSelectedNoThrowLocal; cbn [setNullInResultAtError tryCast strictCast applyToSelected].
    unfold mbind, Exec_bind, tryCatch. rewrite Hfunc.
    destruct outcome as [[]|[m|m|m]]; split; reflexivity.
Qed.

(** A string source and a fixed-width target: the kernel acts as a kernel
    whose hooks strip nothing, run on the stripped input. *)
Lemma castFromString_strips (self : CastExpr) TPolicy ToKind row
    (input : SimpleVector string) tryCast :
  isPrimitiveType ToKind && isFixedWidth ToKind = true →
  castFromString (L := L) self TPolicy ToKind row input tryCast (valueAt input row)
  = castFromString (withoutStripping self) TPolicy ToKind row
      (strippedInput (hooks_ self) input) tryCast
      (valueAt (strippedInput (hooks_ self) input) row).
Proof.
  intros Hfixed. unfold castFromString. rewrite Hfixed. cbn.
  destruct ToKind; try discriminate; reflexivity.
Qed.

Lemma castFromString_empty (self : CastExpr) TPolicy ToKind row
    (input : SimpleVector string) tryCast :
  isPrimitiveType ToKind && isFixedWidth ToKind = true →
  String.length (removeWhiteSpaces (hooks_ self) (valueAt input row)) = 0 →
  castFromString (L := L) self TPolicy ToKind row input tryCast (valueAt input row)
  = setError self row input "Empty string".
Proof.
  intros Hfixed Hempty. unfold castFromString. rewrite Hfixed. cbn.
  by rewrite Hempty.
Qed.

Lemma setError_kernel {T F} (self : CastExpr) row (input : SimpleVector F)
    detail (s : CastState T L) :
  kernelOf self row input (setError self row input detail) s
  = errorPolicy self input row (Failed detail) s.
Proof.
  destruct self as [hooks []], s as [[[] errs] res cap]; reflexivity.
Qed.

(** C8. A VARCHAR or VARBINARY source cast to a fixed-width primitive other
    than TIMESTAMP: the hooks strip the input before anything is converted
    (the kernel acts as a kernel that strips nothing, run on the stripped
    input), and when the stripped input is empty the row fails with
    "Empty string" under the error policy, whatever the converter and the
    hooks would have answered. *)
Theorem string_source_is_stripped (self : CastExpr) (converter : Converter)
    (TPolicy : CastPolicy) (ToKind : TypeKind) (row : vector_size_t)
    (input : SimpleVector string) (s : CastState (NativeType ToKind) L) :
  isPrimitiveType ToKind && isFixedWidth ToKind = true →
  ToKind ≠ TIMESTAMP →
  let stripped := strippedInput (hooks_ self) input in
  (applyCastKernel self converter ToKind VARCHAR TPolicy row input s
   = applyCastKernel (withoutStripping self) converter ToKind VARCHAR TPolicy row stripped s
   ∧ applyCastKernel self converter ToKind VARBINARY TPolicy row input s
   = applyCastKernel (withoutStripping self) converter ToKind VARBINARY TPolicy row stripped s)
  ∧ (String.length (valueAt stripped row) = 0 →
     ∀ converter' : Converter,
       applyCastKernel self converter' ToKind VARCHAR TPolicy row input s
       = errorPolicy self input row (Failed "Empty string") s
       ∧ applyCastKernel self converter' ToKind VARBINARY TPolicy row input s
       = errorPolicy self input row (Failed "Empty string") s).
Proof.
  intros Hfixed _ stripped. split; [split|].
  - unfold applyCastKernel, castRow.
    rewrite (castFromString_strips _ _ _ _ _ _ Hfixed).
    destruct self as [hooks []], s as [[[] errs] res cap]; reflexivity.
  - unfold applyCastKernel, castRow.
    rewrite (castFromString_strips _ _ _ _ _ _ Hfixed).
    destruct self as [hooks []], s as [[[] errs] res cap]; reflexivity.
  - intros Hempty converter'. unfold applyCastKernel, castRow.
    rewrite !(castFromString_empty _ _ _ _ _ _ Hfixed Hempty).
    split; apply setError_kernel.
Qed.

(** A per-row lambda that never throws makes the selection a fold. *)
Lemma applyToSelected_total {S} rows (func : vector_size_t → Exec S unit)
    (step : vector_size_t → S → S) s :
  (∀ r s, func r s = (Returns tt, step r s)) →
  applyToSelected rows func s = (Returns tt, foldl (λ s r, step r s) s rows).
Proof.
  intros Hfunc. revert s. induction rows as [|r rows IH]; intros s; [done|].
  cbn. unfold mbind, Exec_bind. rewrite Hfunc. apply IH.
Qed.

Lemma applyToSelectedNoThrowLocal_total {T} self rows
    (func : vector_size_t → Exec (CastState T L) unit) step s :
  (∀ r s, func r s = (Returns tt, step r s)) →
  applyToSelectedNoThrowLocal self rows func s
  = (Returns tt, foldl (λ s r, step r s) s rows).
Proof.
  intros Hfunc. unfold applyToSelectedNoThrowLocal.
  destruct (setNullInResultAtError self);
    apply applyToSelected_total; intros r s'; unfold tryCatch; by rewrite Hfunc.
Qed.

Lemma foldl_rowView_other {T} (step : vector_size_t → CastState T L → CastState T L)
    row rows s :
  (∀ r s, r ≠ row → rowView row (step r s) = rowView row s) →
  row ∉ rows →
  rowView row (foldl (λ s r, step r s) s rows) = rowView row s.
Proof.
  intros Hother. revert s. induction rows as [|r rows IH]; intros s Hnotin; [done|].
  cbn. rewrite IH by set_solver. apply Hother. set_solver.
Qed.

(** When every row touches its own cells only, the cells of a selected row
    end as its lambda alone leaves them. *)
Lemma foldl_rowView {T} (step : vector_size_t → CastState T L → CastState T L)
    row rows s :
  (∀ r s, r ≠ row → rowView row (step r s) = rowView row s) →
  (∀ s1 s2, rowView row s1 = rowView row s2 →
            rowView row (step row s1) = rowView row (step row s2)) →
  NoDup rows → row ∈ rows →
  rowView row (foldl (λ s r, step r s) s rows) = rowView row (step row s).
Proof.
  intros Hother Hlocal. revert s.
  induction rows as [|r rows IH]; intros s Hnodup Hin; [by apply elem_of_nil in Hin|].
  apply NoDup_cons in Hnodup as [Hr Hnodup]. cbn.
  destruct (decide (r = row)) as [->|Hne].
  - by apply foldl_rowView_other.
  - rewrite IH; [|done|set_solver]. apply Hlocal. by apply Hother.
Qed.

Lemma rowView_setRaw {T} row r (v : T) (s : CastState T L) :
  rowView row (onResult (setRaw r v) s)
  = if decide (r = row)
    then (flatType (result s), Some v, bool_decide (row ∈ nulls (result s)),
          errors (context s) !! row)
    else rowView row s.
Proof.
  unfold rowView; cbn. case_decide as Hr; [subst; by rewrite lookup_insert_eq|].
  by rewrite lookup_insert_ne.
Qed.

Lemma rowView_setNull {T} row r (s : CastState T L) :
  rowView row (onResult (setNull r) s)
  = if decide (r = row)
    then (flatType (result s), rawValues (result s) !! row, true,
          errors (context s) !! row)
    else rowView row s.
Proof.
  unfold rowView; cbn. case_decide as Hr.
  - subst. by rewrite bool_decide_eq_true_2 by set_solver.
  - do 2 f_equal. apply bool_decide_ext. set_solver.
Qed.

Lemma rowView_recordError {T} row r e (s : CastState T L) :
  rowView row (onContext (recordError r e) s)
  = if decide (r = row)
    then (flatType (result s), rawValues (result s) !! row,
          bool_decide (row ∈ nulls (result s)), Some e)
    else rowView row s.
Proof.
  unfold rowView; cbn. case_decide as Hr; [subst; by rewrite lookup_insert_eq|].
  by rewrite lookup_insert_ne.
Qed.

End CastKernelFacts.

(** C2 as stated fails where a hook answers null itself. A DOUBLE that is
    no number is cast to TIMESTAMP and the hook returns no value, which is
    no error: the row is neither null nor in error beforehand, the try-cast
    sets it to null, and the strict cast returns with the same null and
    without an error for the row, so the row is nulled under the try-cast
    while the strict cast neither records nor raises anything. *)
Lemma null_answer_is_no_error :
  let hooks := exampleHooks PrestoCastPolicy false in
  let input := exampleFloats [(0x7FF8000000000000%Z, "NaN")] in
  let s : CastState Timestamp unit := emptyState "TIMESTAMP" true in
  let underTry :=
    applyCastPrimitives {| hooks_ := hooks; setNullInResultAtError := true |}
      exampleConverter TIMESTAMP DOUBLE [0] input s in
  let underStrict :=
    applyCastPrimitives {| hooks_ := hooks; setNullInResultAtError := false |}
      exampleConverter TIMESTAMP DOUBLE [0] input s in
  (0 ∉ nulls (result s)) ∧ errors (context s) !! 0 = None
  ∧ underTry = (Returns tt, onResult (setNull 0) s)
  ∧ underStrict = (Returns tt, onResult (setNull 0) s)
  ∧ 0 ∈ nulls (result underTry.2)
  ∧ errors (context underStrict.2) !! 0 = None
  ∧ ¬ (0 ∈ nulls (result underTry.2)
       ↔ (∃ record, errors (context underStrict.2) !! 0 = Some record)
         ∨ ∃ e, underStrict.1 = Throws e).
Proof.
  cbv zeta. split_and!; try reflexivity.
  - cbn. set_solver.
  - intros [Hnulled _].
    destruct Hnulled as [[record Hrecord]|[e He]]; [reflexivity| |]; discriminate.
Qed.

Lemma cast_error_policy_witness :
  let hooks := exampleHooks PrestoCastPolicy false in
  let input := exampleStrings ["12a"; "1.5"] in
  (applyCastPrimitives {| hooks_ := hooks; setNullInResultAtError := true |}
     exampleConverter INTEGER VARCHAR [0] input (emptyState "INTEGER" true)
   = (Returns tt, onResult (setNull 0) (emptyState "INTEGER" true))
   ∧ applyCastPrimitives {| hooks_ := hooks; setNullInResultAtError := false |}
       exampleConverter INTEGER VARCHAR [0] input (emptyState "INTEGER" true)
     = (Returns tt,
        onContext (recordError 0
          (StatusUserError
             (Some "Cannot cast VARCHAR '12a' to INTEGER. Non-digit character")))
          (emptyState "INTEGER" true)))
  ∧ (applyCastPrimitives {| hooks_ := hooks; setNullInResultAtError := true |}
       exampleConverter DOUBLE VARCHAR [1] input (emptyState "DOUBLE" true)
     = (Throws (VeloxRuntimeError "Out of memory"), emptyState "DOUBLE" true))
  ∧ (applyToSelectedNoThrowLocal {| hooks_ := hooks; setNullInResultAtError := false |} [0]
       (λ row, modifyState (onResult (set row 7%Z)) ;; throw (VeloxUserError "late"))
       (emptyState (T := Z) "INTEGER" true)
     = (Returns tt,
        onContext (recordError 0 (ExceptionError (VeloxUserError "late")))
          (onResult (set 0 7%Z) (emptyState "INTEGER" true)))).
Proof.
  intros hooks input. split_and!.
  - apply (proj1 (cast_error_policy (L := unit) hooks exampleConverter
                    INTEGER VARCHAR 0 input (emptyState "INTEGER" true))
             "Non-digit character").
    reflexivity.
  - apply (proj1 (cast_error_policy (L := unit) hooks exampleConverter
                    INTEGER VARCHAR 0 input (emptyState "INTEGER" true))
             "Non-digit character").
    reflexivity.
  - apply (proj1 (proj2 (cast_error_policy (L := unit) hooks exampleConverter
                    DOUBLE VARCHAR 1 input (emptyState "DOUBLE" true)))
             (VeloxRuntimeError "Out of memory")).
    reflexivity.
  - apply (proj2 (proj2 (proj2 (proj2 (proj2 (cast_error_policy (L := unit) hooks
                    exampleConverter INTEGER VARCHAR 0 input (emptyState "INTEGER" true))))))
             _ (Throws (VeloxUserError "late"))
             (onResult (set 0 7%Z) (emptyState "INTEGER" true))).
    reflexivity.
Defined.

Lemma string_source_is_stripped_witness :
  let self := {| hooks_ := exampleHooks SparkCastPolicy false; setNullInResultAtError := false |} in
  let input := exampleStrings [" 12 "; "   "] in
  applyCastKernel self exampleConverter INTEGER VARCHAR SparkCastPolicy 0 input
    (emptyState "INTEGER" true)
  = (Returns tt, onResult (set 0 12%Z) (emptyState "INTEGER" true))
  ∧ applyCastKernel self exampleConverter INTEGER VARCHAR SparkCastPolicy 1 input
      (emptyState "INTEGER" true)
    = (Returns tt,
       onContext (recordError 1
         (StatusUserError (Some "Cannot cast VARCHAR '   ' to INTEGER. Empty string")))
         (emptyState "INTEGER" true)).
Proof.
  intros self input. split.
  - rewrite (proj1 (proj1 (string_source_is_stripped (L := unit) self exampleConverter
               SparkCastPolicy INTEGER 0 input (emptyState "INTEGER" true)
               eq_refl ltac:(discriminate)))).
    reflexivity.
  - apply (proj2 (string_source_is_stripped (L := unit) self exampleConverter
               SparkCastPolicy INTEGER 1 input (emptyState "INTEGER" true)
               eq_refl ltac:(discriminate)) eq_refl exampleConverter).
Defined.


(** ** Decimal to integral *)

Lemma pow10_even (scale : Z) : (0 < scale → ∃ h, 10 ^ scale = 2 * h)%Z.
Proof.
  intros Hs. exists (5 * 10 ^ (scale - 1))%Z.
  replace scale with (1 + (scale - 1))%Z at 1 by lia.
  rewrite Z.pow_add_r by lia. lia.
Qed.

Lemma needsRoundUp_rounds (value scale : Z) :
  (0 ≤ scale)%Z →
  let scaleFactor := kPowersOfTen scale in
  let sign := (if value >=? 0 then 1 else -1)%Z in
  let needsRoundUp :=
    negb (scaleFactor =? 1)%Z
    && (sign * Z.rem value scaleFactor >=? Z.shiftr scaleFactor 1)%Z in
  roundsHalfAwayFromZero value scaleFactor
    (value ÷ scaleFactor + (if needsRoundUp then sign else 0)).
Proof.
  intros Hscale scaleFactor sign needsRoundUp.
  assert (Hf : (0 < scaleFactor)%Z) by (apply Z.pow_pos_nonneg; lia).
  assert (Hshift : Z.shiftr scaleFactor 1 = (scaleFactor / 2)%Z)
    by (rewrite Z.shiftr_div_pow2 by lia; reflexivity).
  assert (Hhalf : scaleFactor = 1%Z ∨ ∃ h, scaleFactor = (2 * h)%Z).
  { destruct (decide (scale = 0%Z)) as [->|]; [by left|].
    right. apply pow10_even. lia. }
  pose proof (Z.quot_rem' value scaleFactor) as Hqr.
  unfold roundsHalfAwayFromZero. subst needsRoundUp sign. rewrite Hshift.
  clearbody scaleFactor. clear Hshift.
  destruct Hhalf as [H1|[h Hh]].
  - subst scaleFactor. rewrite Z.quot_1_r. change (1 =? 1)%Z with true. cbn [negb andb]. lia.
  - assert (Hdiv : (scaleFactor / 2 = h)%Z)
      by (rewrite Hh, Z.mul_comm, Z.div_mul; lia).
    rewrite Hdiv.
    assert (Hne : (scaleFactor =? 1)%Z = false) by (apply Z.eqb_neq; lia).
    rewrite Hne. cbn [negb andb]. 
    destruct (Z.geb_spec value 0) as [Hpos|Hneg].
    + pose proof (Z.rem_bound_pos value scaleFactor ltac:(lia) Hf) as Hr.
      assert (Hq : (0 ≤ value ÷ scaleFactor)%Z) by (apply Z.quot_pos; lia).
      destruct (Z.geb_spec (1 * Z.rem value scaleFactor) h); nia.
    + pose proof (Z.rem_bound_pos (- value) scaleFactor ltac:(lia) Hf) as Hr.
      rewrite Z.rem_opp_l in Hr by lia.
      assert (Hq : (value ÷ scaleFactor ≤ 0)%Z).
      { rewrite <- (Z.opp_involutive value), Z.quot_opp_l by lia.
        pose proof (Z.quot_pos (- value) scaleFactor ltac:(lia) Hf). lia. }
      destruct (Z.geb_spec (-1 * Z.rem value scaleFactor) h); nia.
Qed.

Lemma truncatingRow_total ToKind input scaleFactor r (s : CastState Z unit) :
  truncatingRow ToKind input scaleFactor r s
  = (Returns tt, (truncatingRow ToKind input scaleFactor r s).2).
Proof. reflexivity. Qed.

Lemma roundingRow_total self ToKind input scaleFactor toType r (s : CastState Z unit) :
  roundingRow self ToKind input scaleFactor toType r s
  = (Returns tt, (roundingRow self ToKind input scaleFactor toType r s).2).
Proof.
  unfold roundingRow. repeat case_match; reflexivity.
Qed.

Lemma cellAt_rowView {T L} row (s : CastState T L) (r : Outcome unit) :
  r = Returns tt →
  cellAt row (match r with Returns _ => Returns (result s) | Throws e => Throws e end,
              context s)
  = Some (snd (fst (fst (rowView row s))), snd (fst (rowView row s)), snd (rowView row s)).
Proof. by intros ->. Qed.

Lemma in_range_static_cast k n :
  (0 < bitWidth k → numeric_limits_min k ≤ n ≤ numeric_limits_max k →
   static_cast k n = n)%Z.
Proof.
  unfold numeric_limits_min, numeric_limits_max, static_cast. intros Hw Hn.
  assert (H2 : (2 ^ bitWidth k = 2 * 2 ^ (bitWidth k - 1))%Z).
  { replace (bitWidth k) with (1 + (bitWidth k - 1))%Z at 1 by lia.
    rewrite Z.pow_add_r by lia. lia. }
  assert (0 < 2 ^ (bitWidth k - 1))%Z by (apply Z.pow_pos_nonneg; lia).
  rewrite Z.mod_small; lia.
Qed.

(** The cells of every selected row after the kernel has run. *)
Lemma decimal_to_integral_rows (self : CastExpr) (ToKind : TypeKind)
    (rows : SelectivityVector) (input : SimpleVector Z) (scale : Z)
    (toType : string) (ctx : EvalCtx) (row : vector_size_t) :
  (0 < bitWidth ToKind)%Z → (0 ≤ scale)%Z → NoDup rows → row ∈ rows →
  let value := valueAt input row in
  let scaleFactor := (10 ^ scale)%Z in
  let cell := cellAt row (applyDecimalToIntegralCast self ToKind rows input scale toType ctx) in
  if truncate (hooks_ self) then
    cell = Some (Some (static_cast ToKind (value ÷ scaleFactor)), false, errors ctx !! row)
  else
    ∃ integralPart,
      (getPolicy (hooks_ self) ≠ SparkTryCastPolicy →
         roundsHalfAwayFromZero value scaleFactor integralPart)
      ∧ (getPolicy (hooks_ self) = SparkTryCastPolicy →
           integralPart = (value ÷ scaleFactor)%Z)
      ∧ if decide (numeric_limits_min ToKind ≤ integralPart ≤ numeric_limits_max ToKind)%Z
        then cell = Some (Some integralPart, false, errors ctx !! row)
        else if setNullInResultAtError self
        then cell = Some (None, true, errors ctx !! row)
        else cell = Some (None, false,
               Some (ExceptionError (VeloxUserError
                 (makeErrorMessage input row toType
                    (makeErrorMessage input row toType "" +:+ "Out of bounds."))))).
Proof.
  intros Hwidth Hscale Hnodup Hin value scaleFactor cell.
  subst cell. unfold applyDecimalToIntegralCast.
  destruct (truncate (hooks_ self)).
  - rewrite (applyToSelectedNoThrowLocal_total _ _ _ _ _ (truncatingRow_total _ _ _)).
    rewrite (cellAt_rowView row _ _ eq_refl).
    rewrite foldl_rowView; [| | |done..].
    + unfold truncatingRow, modifyState. cbn [snd].
      rewrite rowView_setRaw, decide_True by done. cbn.
      rewrite bool_decide_eq_false_2 by set_solver. done.
    + intros r s Hr. unfold truncatingRow, modifyState. cbn [snd].
      by rewrite rowView_setRaw, decide_False.
    + intros s1 s2 Hs. unfold truncatingRow, modifyState. cbn [snd].
      rewrite !rowView_setRaw, !decide_True by done.
      unfold rowView in Hs. congruence.
  - rewrite (applyToSelectedNoThrowLocal_total _ _ _ _ _ (roundingRow_total _ _ _ _ _)).
    rewrite (cellAt_rowView row _ _ eq_refl).
    rewrite foldl_rowView; [| | |done..].
    + unfold roundingRow. cbv zeta. fold value. change (kPowersOfTen scale) with scaleFactor.
      set (n := if decide (getPolicy (hooks_ self) ≠ SparkTryCastPolicy) then _ else _).
      exists n. split; [|split].
      * intros Hp. subst n. rewrite decide_True by done.
        by apply needsRoundUp_rounds.
      * intros Hp. subst n. by rewrite decide_False by (by intros ?).
      * clearbody n. destruct (decide (_ ≤ n ≤ _)%Z) as [Hr|Hr].
        -- replace ((n >? numeric_limits_max ToKind)%Z || (n <? numeric_limits_min ToKind)%Z)
             with false by (symmetry; apply orb_false_intro; lia).
           unfold modifyState. cbn [snd].
           rewrite rowView_setRaw, decide_True by done. cbn.
           rewrite bool_decide_eq_false_2 by set_solver.
           by rewrite in_range_static_cast.
        -- replace ((n >? numeric_limits_max ToKind)%Z || (n <? numeric_limits_min ToKind)%Z)
             with true by (symmetry; apply orb_true_iff; lia).
           destruct (setNullInResultAtError self).
           ++ unfold modifyState. cbn [snd].
              by rewrite rowView_setNull, decide_True by done.
           ++ unfold setVeloxExceptionError, modifyState. cbn [snd].
              rewrite rowView_recordError, decide_True by done. cbn.
              by rewrite bool_decide_eq_false_2 by set_solver.
    + intros r s Hr. unfold roundingRow. cbv zeta.
      repeat case_match; unfold setVeloxExceptionError, modifyState; cbn [snd];
        by rewrite ?rowView_setRaw, ?rowView_setNull, ?rowView_recordError, decide_False.
    + intros s1 s2 Hs. unfold roundingRow. cbv zeta.
      repeat case_match; unfold setVeloxExceptionError, modifyState; cbn [snd];
        rewrite ?rowView_setRaw, ?rowView_setNull, ?rowView_recordError, !decide_True by done;
        unfold rowView in Hs; congruence.
Qed.

(** C3, amended. For a decimal value of scale [s] cast to an integral type:
    - when [hooks.truncate()] holds, under every policy, the row receives
      [value / 10^s] (truncated toward zero) converted to the target type by
      wrap-around, with no rounding and no bounds check;
    - otherwise the integral part is [value / 10^s], rounded half away from
      zero under every policy but SparkTryCastPolicy and left truncated
      under SparkTryCastPolicy; it is then checked against the range of the
      target type: in range it is stored, out of range the row is set to
      null when the cast nulls on error and else gets a user error whose
      message ends in "Out of bounds.".
    The scenarios: 12345.00 of DECIMAL(10,2) to TINYINT without truncation
    is an "Out of bounds." error, and null under SparkTryCastPolicy when the
    cast nulls on error; 100.50 of DECIMAL(5,2) to INTEGER is 101 under
    PrestoCastPolicy and 100 under SparkTryCastPolicy. *)
Theorem decimal_to_integral :
  (∀ (self : CastExpr) (ToKind : TypeKind) (rows : SelectivityVector)
     (input : SimpleVector Z) (scale : Z) (toType : string) (ctx : EvalCtx)
     (row : vector_size_t),
     (0 < bitWidth ToKind)%Z → (0 ≤ scale)%Z → NoDup rows → row ∈ rows →
     let value := valueAt input row in
     let scaleFactor := (10 ^ scale)%Z in
     let cell :=
       cellAt row (applyDecimalToIntegralCast self ToKind rows input scale toType ctx) in
     if truncate (hooks_ self) then
       cell = Some (Some (static_cast ToKind (value ÷ scaleFactor)), false,
                    errors ctx !! row)
     else
       ∃ integralPart,
         (getPolicy (hooks_ self) ≠ SparkTryCastPolicy →
            roundsHalfAwayFromZero value scaleFactor integralPart)
         ∧ (getPolicy (hooks_ self) = SparkTryCastPolicy →
              integralPart = (value ÷ scaleFactor)%Z)
         ∧ if decide (numeric_limits_min ToKind ≤ integralPart
                      ≤ numeric_limits_max ToKind)%Z
           then cell = Some (Some integralPart, false, errors ctx !! row)
           else if setNullInResultAtError self
           then cell = Some (None, true, errors ctx !! row)
           else cell = Some (None, false,
                  Some (ExceptionError (VeloxUserError
                    (makeErrorMessage input row toType
                       (makeErrorMessage input row toType "" +:+ "Out of bounds."))))))
  ∧ (let big := exampleDecimals "DECIMAL(10, 2)" [(1234500%Z, "12345.00")] in
     let half := exampleDecimals "DECIMAL(5, 2)" [(10050%Z, "100.50")] in
     let cast policy nullOnError :=
       {| hooks_ := exampleHooks policy false; setNullInResultAtError := nullOnError |} in
     cellAt 0 (applyDecimalToIntegralCast (cast PrestoCastPolicy false) TINYINT [0]
                 big 2 "TINYINT" (emptyContext true))
     = Some (None, false,
             Some (ExceptionError (VeloxUserError
               ("Cannot cast DECIMAL(10, 2) '12345.00' to TINYINT. "
                +:+ "Cannot cast DECIMAL(10, 2) '12345.00' to TINYINT. Out of bounds."))))
     ∧ cellAt 0 (applyDecimalToIntegralCast (cast SparkTryCastPolicy true) TINYINT [0]
                   big 2 "TINYINT" (emptyContext true))
       = Some (None, true, None)
     ∧ cellAt 0 (applyDecimalToIntegralCast (cast PrestoCastPolicy false) INTEGER [0]
                   half 2 "INTEGER" (emptyContext true))
       = Some (Some 101%Z, false, None)
     ∧ cellAt 0 (applyDecimalToIntegralCast (cast SparkTryCastPolicy true) INTEGER [0]
                   half 2 "INTEGER" (emptyContext true))
       = Some (Some 100%Z, false, None)).
Proof.
  split; [exact decimal_to_integral_rows|].
  repeat split; vm_compute; reflexivity.
Qed.

(** C3 as stated fails where the hooks truncate: under SparkCastPolicy,
    which is not SparkTryCastPolicy, 100.50 becomes 100 and not 101, and
    12345.00 cast to TINYINT is neither an error nor null but wraps to 57. *)
Lemma decimal_to_integral_truncating_hooks :
  let self :=
    {| hooks_ := exampleHooks SparkCastPolicy true; setNullInResultAtError := false |} in
  getPolicy (hooks_ self) ≠ SparkTryCastPolicy
  ∧ cellAt 0 (applyDecimalToIntegralCast self INTEGER [0]
                (exampleDecimals "DECIMAL(5, 2)" [(10050%Z, "100.50")])
                2 "INTEGER" (emptyContext true))
    = Some (Some 100%Z, false, None)
  ∧ ¬ roundsHalfAwayFromZero 10050 (10 ^ 2) 100
  ∧ cellAt 0 (applyDecimalToIntegralCast self TINYINT [0]
                (exampleDecimals "DECIMAL(10, 2)" [(1234500%Z, "12345.00")])
                2 "TINYINT" (emptyContext true))
    = Some (Some 57%Z, false, None)
  ∧ (numeric_limits_max TINYINT < 1234500 ÷ 10 ^ 2)%Z.
Proof.
  cbv zeta. split; [discriminate|]. split; [vm_compute; reflexivity|].
  split; [unfold roundsHalfAwayFromZero; lia|].
  split; [vm_compute; reflexivity|]. vm_compute. reflexivity.
Qed.

Lemma decimal_to_integral_witness :
  let self :=
    {| hooks_ := exampleHooks PrestoCastPolicy false; setNullInResultAtError := false |} in
  let input := exampleDecimals "DECIMAL(5, 2)" [(10050%Z, "100.50"); ((-10050)%Z, "-100.50")] in
  ∃ integralPart,
    roundsHalfAwayFromZero (-10050) (10 ^ 2) integralPart
    ∧ integralPart = (-101)%Z
    ∧ cellAt 1 (applyDecimalToIntegralCast self INTEGER [0; 1] input 2 "INTEGER"
                  (emptyContext true))
      = Some (Some integralPart, false, None).
Proof.
  intros self input.
  destruct (proj1 decimal_to_integral self INTEGER [0; 1] input 2%Z "INTEGER"
              (emptyContext true) 1)
    as (n & Hround & _ & Hcell).
  - reflexivity.
  - lia.
  - repeat constructor; set_solver.
  - set_solver.
  - specialize (Hround ltac:(discriminate)).
    assert (Hn : n = (-101)%Z).
    { unfold roundsHalfAwayFromZero in Hround. cbn in Hround. lia. }
    exists n. split; [exact Hround|]. split; [exact Hn|].
    subst n. rewrite decide_True in Hcell by (vm_compute; split; discriminate).
    exact Hcell.
Defined.

(** ** Decimal to VARCHAR *)

Lemma writeBytes_lookup_outside (offset : nat) (text : string)
    (bytes : gmap nat Ascii.ascii) (k : nat) :
  k < offset ∨ offset + String.length text ≤ k →
  writeBytes offset text bytes !! k = bytes !! k.
Proof.
  revert offset bytes. induction text as [|c text IH]; intros offset bytes Hk; [done|].
  cbn in *. rewrite IH by lia. apply lookup_insert_ne. lia.
Qed.

Lemma viewSize_makeStringView (kInlineSize offset : nat) (text : string) :
  viewSize (makeStringView kInlineSize offset text) = String.length text.
Proof. unfold makeStringView. by case_match. Qed.

Lemma foldl_rawValues_other {T L} (step : vector_size_t → CastState T L → CastState T L)
    (view : vector_size_t → CastState T L → T) rows row s :
  (∀ r s, rawValues (result (step r s)) = <[r := view r s]> (rawValues (result s))) →
  row ∉ rows →
  rawValues (result (foldl (λ s r, step r s) s rows)) !! row = rawValues (result s) !! row.
Proof.
  intros Hstep. revert s. induction rows as [|r rows IH]; intros s Hnotin; [done|].
  cbn. rewrite IH by set_solver. rewrite Hstep. apply lookup_insert_ne. set_solver.
Qed.

Lemma foldl_rawValues {T L} (step : vector_size_t → CastState T L → CastState T L)
    (view : vector_size_t → CastState T L → T) rows row s :
  (∀ r s, rawValues (result (step r s)) = <[r := view r s]> (rawValues (result s))) →
  NoDup rows → row ∈ rows →
  ∃ s0, rawValues (result (foldl (λ s r, step r s) s rows)) !! row = Some (view row s0).
Proof.
  intros Hstep. revert s. induction rows as [|r rows IH]; intros s Hnodup Hin;
    [by apply elem_of_nil in Hin|].
  apply NoDup_cons in Hnodup as [Hr Hnodup]. cbn.
  destruct (decide (r = row)) as [->|Hne]; [|apply IH; [done|set_solver]].
  exists s. rewrite (foldl_rawValues_other step view) by done.
  by rewrite Hstep, lookup_insert_eq.
Qed.

Section DecimalToVarcharFacts.

Context (kInlineSize : nat).
Context (maxStringViewSize : nat → nat → nat).
Context (castToString : Z → nat → nat → string).
Context (input : SimpleVector Z) (scale rowSize : nat).

Local Abbreviation text row := (castToString (valueAt input row) scale rowSize).
Local Abbreviation aStep :=
  (arenaStep kInlineSize castToString input scale rowSize).
Local Abbreviation iStep :=
  (inlineStep kInlineSize castToString input scale rowSize).
Local Abbreviation consumed rows :=
  (sum_list (consumedBy kInlineSize castToString input scale rowSize <$> rows)).

Lemma arenaRow_total r s :
  arenaRow kInlineSize castToString input scale rowSize r s = (Returns tt, aStep r s).
Proof. unfold arenaStep, arenaRow. cbv zeta. by case_match. Qed.

Lemma arena_fold rows (s : CastState StringView Arena) :
  Forall (λ row, String.length (text row) ≤ rowSize) rows →
  let s' := foldl (λ s r, aStep r s) s rows in
  rawBuffer (captured s') = rawBuffer (captured s) + consumed rows
  ∧ bufferSize (captured s') = bufferSize (captured s)
  ∧ bufferCapacity (captured s') = bufferCapacity (captured s)
  ∧ context s' = context s
  ∧ consumed rows ≤ length rows * rowSize
  ∧ ∀ k, bufferBytes (captured s') !! k ≠ bufferBytes (captured s) !! k →
         rawBuffer (captured s) ≤ k < rawBuffer (captured s) + length rows * rowSize.
Proof.
  revert s. induction rows as [|r rows IH]; intros s Hbound.
  - cbn. split_and!; try done; try lia.
  - apply Forall_cons in Hbound as [Hr Hbound].
    specialize (IH (aStep r s) Hbound). cbn zeta in IH.
    destruct IH as (Hptr & Hsize & Hcap & Hctx & Hsum & Hbytes).
    cbn [foldl fmap list_fmap sum_list length]. cbn zeta.
    assert (Hstep : rawBuffer (captured (aStep r s))
                    = rawBuffer (captured s)
                      + consumedBy kInlineSize castToString input scale rowSize r
                    ∧ bufferSize (captured (aStep r s)) = bufferSize (captured s)
                    ∧ bufferCapacity (captured (aStep r s)) = bufferCapacity (captured s)
                    ∧ context (aStep r s) = context s
                    ∧ bufferBytes (captured (aStep r s))
                      = writeBytes (rawBuffer (captured s)) (text r) (bufferBytes (captured s))).
    { unfold arenaStep, arenaRow, consumedBy. cbv zeta.
      destruct (isInline _ _); cbn; split_and!; try done; lia. }
    destruct Hstep as (Hp1 & Hs1 & Hc1 & Hx1 & Hb1).
    assert (Hle : consumedBy kInlineSize castToString input scale rowSize r ≤ rowSize).
    { unfold consumedBy. cbv zeta. destruct (isInline _ _); lia. }
    rewrite Hptr, Hsize, Hcap, Hctx, Hp1, Hs1, Hc1, Hx1.
    unfold id in *. cbn [Nat.mul]. split_and!; try done; try lia.
    intros k Hk.
    destruct (decide (bufferBytes (captured (aStep r s)) !! k
                      = bufferBytes (captured s) !! k)) as [Heq|Hne].
    + rewrite <- Heq in Hk. apply Hbytes in Hk. lia.
    + rewrite Hb1 in Hne.
      destruct (decide (k < rawBuffer (captured s)
                        ∨ rawBuffer (captured s) + String.length (text r) ≤ k)) as [Hout|Hin].
      * by rewrite writeBytes_lookup_outside in Hne.
      * lia.
Qed.

Lemma inline_fold rows (s : CastState StringView Arena) :
  captured (foldl (λ s r, iStep r s) s rows) = captured s
  ∧ context (foldl (λ s r, iStep r s) s rows) = context s.
Proof.
  revert s. induction rows as [|r rows IH]; intros s; [done|].
  cbn [foldl]. by destruct (IH (iStep r s)) as [-> ->].
Qed.

Lemma inlineStep_rawValues r s :
  rawValues (result (iStep r s))
  = <[r := makeStringView kInlineSize 0 (text r)]> (rawValues (result s)).
Proof. reflexivity. Qed.

Lemma arenaStep_rawValues r s :
  rawValues (result (aStep r s))
  = <[r := makeStringView kInlineSize (rawBuffer (captured s)) (text r)]>
      (rawValues (result s)).
Proof. unfold arenaStep, arenaRow. cbv zeta. by destruct (negb _). Qed.

End DecimalToVarcharFacts.

(** C10. A decimal-to-VARCHAR cast over a selection of rows, given that
    [castToString] keeps to the size it is told ([maxStringViewSize]):
    every selected row receives a view of its text, no longer than
    [maxStringViewSize(precision, scale)]; when that size fits an inline
    view the string buffer is left as it was; otherwise every byte written
    lies within the [countSelected * rowSize] bytes reserved past the
    buffer's size, the write pointer has moved by the lengths of the texts
    too long for an inline view and by nothing else, and the size recorded
    at the end is the size at the start plus exactly those bytes. *)
Theorem decimal_to_varchar_arena (kInlineSize : nat)
    (maxStringViewSize : nat → nat → nat) (castToString : Z → nat → nat → string)
    (self : CastExpr) (rows : SelectivityVector) (input : SimpleVector Z)
    (precision scale : nat) (buffer : Arena) (ctx : EvalCtx) :
  let rowSize := maxStringViewSize precision scale in
  let text row := castToString (valueAt input row) scale rowSize in
  let consumed :=
    sum_list (consumedBy kInlineSize castToString input scale rowSize <$> rows) in
  NoDup rows →
  Forall (λ row, String.length (text row) ≤ rowSize) rows →
  ∃ result arena,
    applyDecimalToVarcharCast kInlineSize maxStringViewSize castToString
      self rows input precision scale buffer ctx
    = (Returns (result, arena), ctx)
    ∧ (∀ row, row ∈ rows →
         ∃ view, rawValues result !! row = Some view
                 ∧ viewSize view = String.length (text row)
                 ∧ viewSize view ≤ rowSize)
    ∧ (isInline kInlineSize rowSize = true → arena = buffer)
    ∧ (isInline kInlineSize rowSize = false →
         bufferSize arena = bufferSize buffer + consumed
         ∧ rawBuffer arena = bufferSize arena
         ∧ consumed ≤ length rows * rowSize
         ∧ ∀ k, bufferBytes arena !! k ≠ bufferBytes buffer !! k →
                bufferSize buffer ≤ k < bufferSize buffer + length rows * rowSize).
Proof.
  intros rowSize text consumed Hnodup Hbound.
  assert (Hsize : ∀ row offset, row ∈ rows →
            viewSize (makeStringView kInlineSize offset (text row))
            = String.length (text row)
            ∧ viewSize (makeStringView kInlineSize offset (text row)) ≤ rowSize).
  { intros row offset Hrow. rewrite viewSize_makeStringView. split; [done|].
    by apply (proj1 (Forall_forall _ _) Hbound). }
  unfold applyDecimalToVarcharCast. fold rowSize.
  destruct (isInline kInlineSize rowSize) eqn:Hinline.
  - rewrite (applyToSelectedNoThrowLocal_total _ _ _
               (inlineStep kInlineSize castToString input scale rowSize)) by done.
    match goal with |- context [foldl ?f ?s0 rows] =>
      destruct (inline_fold kInlineSize castToString input scale rowSize rows s0)
        as [Hcap Hctx];
      pose proof (λ row, @foldl_rawValues _ _ _ _ rows row s0
             (inlineStep_rawValues kInlineSize castToString input scale rowSize)
             Hnodup) as Hrows
    end.
    rewrite Hcap, Hctx.
    eexists _, _. split; [reflexivity|]. split_and!; [|done|done].
    intros row Hrow. destruct (Hrows row Hrow) as [s0 Hs0].
    eexists. split; [exact Hs0|]. by apply Hsize.
  - rewrite (applyToSelectedNoThrowLocal_total _ _ _
               (arenaStep kInlineSize castToString input scale rowSize))
      by (intros; apply arenaRow_total).
    match goal with |- context [foldl ?f ?s0 rows] =>
      destruct (arena_fold kInlineSize castToString input scale rowSize rows s0 Hbound)
        as (Hptr & Hbsize & Hcap & Hctx & Hsum & Hbytes);
      pose proof (λ row, @foldl_rawValues _ _ _ _ rows row s0
             (arenaStep_rawValues kInlineSize castToString input scale rowSize)
             Hnodup) as Hrows
    end.
    cbn zeta in Hctx. rewrite Hctx.
    eexists _, _. split; [reflexivity|]. split_and!; [|done|].
    + intros row Hrow. destruct (Hrows row Hrow) as [s0 Hs0].
      eexists. split; [exact Hs0|]. by apply Hsize.
    + intros _. cbn. split_and!; [exact Hptr|done|exact Hsum|exact Hbytes].
Qed.

Lemma decimal_to_varchar_arena_witness :
  let self :=
    {| hooks_ := exampleHooks PrestoCastPolicy false; setNullInResultAtError := false |} in
  let input :=
    exampleDecimals "DECIMAL(20, 2)"
      [(12345678901234%Z, "123456789012.34"); (5%Z, "0.05");
       ((-98765432109876)%Z, "-987654321098.76")] in
  ∃ result arena,
    applyDecimalToVarcharCast 12 exampleMaxStringViewSize exampleCastToString
      self [0; 1; 2] input 20 2 (emptyArena 66) (emptyContext true)
    = (Returns (result, arena), emptyContext true)
    ∧ rawValues result !! 0 = Some (ExternalView 0 15)
    ∧ rawValues result !! 1 = Some (InlineView "0.05")
    ∧ rawValues result !! 2 = Some (ExternalView 15 16)
    ∧ bufferSize arena = 31.
Proof.
  intros self input.
  destruct (decimal_to_varchar_arena 12 exampleMaxStringViewSize exampleCastToString
              self [0; 1; 2] input 20 2 (emptyArena 66) (emptyContext true))
    as (result & arena & Hrun & _ & _ & Harena).
  - repeat constructor; set_solver.
  - repeat constructor; vm_compute; lia.
  - exists result, arena. split; [exact Hrun|].
    destruct (Harena eq_refl) as (Hsize & _).
    vm_compute in Hrun. injection Hrun as <- <-.
    repeat split; vm_compute; reflexivity.
Defined.

(** * Properties of the compiler *)

(** An induction principle for expressions that reaches the inputs. *)
Lemma ITypedExpr_ind' (P : ITypedExpr → Prop) :
  (∀ t v, P (ConstantTypedExpr t v)) →
  (∀ t, P (InputTypedExpr t)) →
  (∀ t name ins, Forall P ins → P (FieldAccessTypedExpr t name ins)) →
  (∀ t index ins, Forall P ins → P (DereferenceTypedExpr t index ins)) →
  (∀ t name ins, Forall P ins → P (CallTypedExpr t name ins)) →
  (∀ t ins isTry, Forall P ins → P (CastTypedExpr t ins isTry)) →
  (∀ t ins, Forall P ins → P (ConcatTypedExpr t ins)) →
  (∀ signature body, P body → P (LambdaTypedExpr signature body)) →
  ∀ expr, P expr.
Proof.
  intros Hconst Hinput Hfield Hderef Hcall Hcast Hconcat Hlambda.
  fix IH 1. intros [t v|t|t name ins|t index ins|t name ins|t ins isTry|t ins|sig body].
  - apply Hconst.
  - apply Hinput.
  - apply Hfield. induction ins; constructor; [apply IH | assumption].
  - apply Hderef. induction ins; constructor; [apply IH | assumption].
  - apply Hcall. induction ins; constructor; [apply IH | assumption].
  - apply Hcast. induction ins; constructor; [apply IH | assumption].
  - apply Hconcat. induction ins; constructor; [apply IH | assumption].
  - apply Hlambda. apply IH.
Qed.

Section Flattening.

Context (registry : Registry).

Lemma flattenInput_spliced (name : string) (input : ITypedExpr) :
  ∀ flat, flattenInput registry input name flat
          = flat ++ splicedInputs registry name input.
Proof.
  induction input as [| | | |t name' ins IH| | |] using ITypedExpr_ind';
    intros flat; try reflexivity.
  cbn [flattenInput splicedInputs]. unfold isCall. cbn [callName].
  destruct (bool_decide (name' = name) && allInputTypesEquivalent registry _); [|done].
  revert flat. induction IH as [|child ins Hchild _ IHins]; intros flat.
  - cbn. by rewrite app_nil_r.
  - cbn [List.map concat]. rewrite IHins, Hchild. by rewrite app_assoc.
Qed.

Lemma mapM_app {A B} (f : A → Compile B) (l1 l2 : list A) (s : CompilerState) :
  mapM f (l1 ++ l2) s
  = (ys1 ← mapM f l1; ys2 ← mapM f l2; mret (ys1 ++ ys2)) s.
Proof.
  revert s. induction l1 as [|x l1 IH]; intros s; cbn [mapM app];
    unfold mbind, Compile_bind, mret, Compile_ret in *.
  - destruct (mapM (M := Compile) f l2 s) as [[[ys|e] s']|]; reflexivity.
  - destruct (f x s) as [[[y|e] s1]|]; [|reflexivity..].
    rewrite IH.
    destruct (mapM (M := Compile) f l1 s1) as [[[ys1|e] s2]|]; [|reflexivity..].
    destruct (mapM (M := Compile) f l2 s2) as [[[ys2|e] s3]|]; reflexivity.
Qed.

Lemma shouldFlatten_call t name ins candidates :
  name = kAnd ∨ name = kOr
  ∨ (name ∈ candidates ∧ allInputTypesEquivalent registry (CallTypedExpr t name ins) = true) →
  shouldFlatten registry (CallTypedExpr t name ins) candidates = Some name.
Proof.
  intros H. unfold shouldFlatten. cbn [callName].
  destruct H as [->|[->|[Hin Heq]]].
  - by rewrite bool_decide_eq_true_2.
  - rewrite (bool_decide_eq_true_2 (kOr = kOr)) by done.
    by destruct (bool_decide (kOr = kAnd)).
  - rewrite Heq, (bool_decide_eq_true_2 _ Hin).
    by destruct (bool_decide _), (bool_decide _).
Qed.

Lemma compileInputs_flattened (compileExpression : ITypedExpr → Compile ExprPtr)
    t name ins candidates s :
  shouldFlatten registry (CallTypedExpr t name ins) candidates = Some name →
  Forall (λ input, isInputKind input = false) ins →
  compileInputs registry compileExpression (CallTypedExpr t name ins) candidates s
  = mapM compileExpression (concat (List.map (splicedInputs registry name) ins)) s.
Proof.
  intros Hflat Hins. unfold compileInputs. rewrite Hflat. cbn [inputs].
  clear Hflat. generalize (isFieldAccessKind (CallTypedExpr t name ins)). intros b.
  enough (∀ acc s,
    (fix each (inputs : list ITypedExpr) (compiledInputs : list ExprPtr)
       : Compile (list ExprPtr) :=
       match inputs with
       | [] => mret compiledInputs
       | input :: inputs' =>
           if isInputKind input then
             VELOX_CHECK b
               "An InputReference can only occur under a FieldReference" ;;
             each inputs' compiledInputs
           else
             let flat := flattenInput registry input name [] in
             compiled ← mapM compileExpression flat;
             each inputs' (compiledInputs ++ compiled)
       end) ins acc s
    = (ys ← mapM compileExpression (concat (List.map (splicedInputs registry name) ins));
       mret (acc ++ ys)) s) as Hgen.
  { rewrite Hgen. unfold mbind, Compile_bind, mret, Compile_ret.
    by destruct (mapM (M := Compile) _ _ s) as [[[ys|e] s']|]. }
  clear s. induction Hins as [|input ins' Hinput _ IH]; intros acc s.
  - cbn. unfold mbind, Compile_bind, mret, Compile_ret. cbn. by rewrite app_nil_r.
  - rewrite Hinput. cbv zeta. rewrite flattenInput_spliced. cbn [app List.map concat].
    unfold mbind, Compile_bind, mret, Compile_ret in *. rewrite mapM_app.
    unfold mbind, Compile_bind, mret, Compile_ret in *.
    destruct (mapM (M := Compile) compileExpression (splicedInputs registry name input) s)
      as [[[ys1|e] s1]|]; [|reflexivity..].
    rewrite IH.
    destruct (mapM (M := Compile) compileExpression _ s1) as [[[ys2|e] s2]|]; [|reflexivity..].
    by rewrite app_assoc.
Qed.

End Flattening.

(** ** The compiler's statements, step by step *)

Ltac compile_unfold :=
  unfold getExpr, updateExpr, onHeap, newExpr, currentScope, updateScope, modify,
    get, raise, catchUserError, VELOX_CHECK, VELOX_USER_CHECK, nonNull,
    mbind, Compile_bind, mret, Compile_ret in *.

Lemma bind_Returns {A B} (m : Compile A) (f : A → Compile B) s a s' :
  m s = Some (Returns a, s') → (m ≫= f) s = f a s'.
Proof. intros H. unfold mbind, Compile_bind. by rewrite H. Qed.

Lemma bind_Throws {A B} (m : Compile A) (f : A → Compile B) s e s' :
  m s = Some (Throws e, s') → (m ≫= f) s = Some (Throws e, s').
Proof. intros H. unfold mbind, Compile_bind. by rewrite H. Qed.

Lemma bind_inv {A B} (m : Compile A) (f : A → Compile B) s r s' :
  (m ≫= f) s = Some (r, s') →
  (∃ a s1, m s = Some (Returns a, s1) ∧ f a s1 = Some (r, s'))
  ∨ (∃ e, m s = Some (Throws e, s') ∧ r = Throws e).
Proof.
  unfold mbind, Compile_bind. destruct (m s) as [[[a|e] s1]|]; intros H; [|simplify_eq..].
  - left. eauto.
  - right. eauto.
Qed.

(** Reading the nodes behind pointers that are all in the graph. *)
Lemma mapM_getExpr_Some (ps : list ExprPtr) (es : list Expr) (s : CompilerState) :
  Forall2 (λ p e, heap s !! p = Some e) ps es →
  mapM (M := Compile) getExpr ps s = Some (Returns es, s).
Proof.
  induction 1 as [|p e ps es Hp _ IH]; [done|].
  cbn [mapM]. rewrite (bind_Returns _ _ s e s) by (unfold getExpr; by rewrite Hp).
  by rewrite (bind_Returns _ _ s es s).
Qed.

Lemma mapM_getExpr_state (ps : list ExprPtr) (s s' : CompilerState) r :
  mapM (M := Compile) getExpr ps s = Some (r, s') → s' = s.
Proof.
  revert r s'. induction ps as [|p ps IH]; intros r s' Hes.
  - cbn in Hes. compile_unfold. by simplify_eq.
  - cbn [mapM] in Hes.
    apply bind_inv in Hes as [(node & s1 & Hp & Hes)|(e & Hp & _)]; cycle 1.
    { unfold getExpr in Hp. destruct (heap s !! p); by simplify_eq. }
    assert (s1 = s) as -> by (unfold getExpr in Hp; destruct (heap s !! p); by simplify_eq).
    apply bind_inv in Hes as [(es & s1 & Hps & Hes)|(e & Hps & _)].
    + apply IH in Hps as ->. compile_unfold. by simplify_eq.
    + by apply IH in Hps.
Qed.

Lemma lookups_exist (h : gmap ExprPtr Expr) (ps : list ExprPtr) :
  Forall (λ p, is_Some (h !! p)) ps →
  ∃ es, Forall2 (λ p e, h !! p = Some e) ps es.
Proof.
  induction 1 as [|p ps [e He] _ [es Hes]].
  - by exists [].
  - exists (e :: es). by constructor.
Qed.

Lemma markSkipped_lookup (evaluation : Evaluation) (h : gmap ExprPtr Expr) (p : ExprPtr) :
  markSkipped evaluation h !! p
  = (if bool_decide (p ∈ skippedDefaultNullRows evaluation)
     then setDefaultNullRowsSkipped true <$> h !! p else h !! p).
Proof.
  unfold markSkipped. induction (skippedDefaultNullRows evaluation) as [|q qs IH]; [done|].
  cbn [foldr]. destruct (decide (q = p)) as [->|Hne].
  - rewrite lookup_alter_eq, IH.
    rewrite (bool_decide_eq_true_2 (p ∈ p :: qs)) by (apply elem_of_cons; by left).
    case_bool_decide; [|done]. by destruct (h !! p).
  - rewrite lookup_alter_ne by done. rewrite IH.
    rewrite (bool_decide_ext (p ∈ q :: qs) (p ∈ qs)); [done|].
    rewrite elem_of_cons. split; [intros [?|?]; [congruence|done] | by right].
Qed.

(** ** Casts to the type the input has *)

Section CompileCast.

Context (registry : Registry).

(** C7. Compiling a Cast node whose one compiled input is [input]: when the
    target type equals the type of the input, [compileCast] returns the
    input itself and builds nothing (the state is untouched); otherwise it
    returns a fresh special form over the input, named try_cast when the
    try flag is set and cast when it is not, of the target type. *)
Theorem cast_of_same_type_is_the_child (expr : ITypedExpr) (isTryCast : bool)
    (input : ExprPtr) (inputExpr : Expr) (trackCpuUsage : bool)
    (config : QueryConfig) (s : CompilerState) :
  heap s !! input = Some inputExpr →
  let name := if isTryCast then "try_cast" else "cast" in
  (type expr = type_ inputExpr →
     compileCast registry expr isTryCast [input] trackCpuUsage config s
     = Some (Returns (Some input), s))
  ∧ (type expr ≠ type_ inputExpr →
     isFunctionCallToSpecialFormRegistered registry name = true →
     compileCast registry expr isTryCast [input] trackCpuUsage config s
     = Some (Returns (Some (nextPtr s)),
             {| heap := <[nextPtr s :=
                            makeExpr (SpecialForm name) (type expr) [input] trackCpuUsage]>
                          (heap s);
                nextPtr := S (nextPtr s); scopes := scopes s; exprSet := exprSet s |})).
Proof.
  intros Hinput name. unfold compileCast, getSpecialForm. compile_unfold.
  cbn [length]. rewrite (bool_decide_eq_true_2 (1 = 1)) by done.
  rewrite Hinput. split.
  - intros Htype. by rewrite bool_decide_eq_true_2.
  - intros Htype Hregistered. rewrite bool_decide_eq_false_2 by done.
    fold name. by rewrite Hregistered.
Qed.

End CompileCast.

Lemma cast_of_same_type_is_the_child_witness :
  compileCast exampleRegistry
    (CastTypedExpr (Scalar BIGINT) [column (Scalar BIGINT) "x"] false) false [0] false
    exampleConfig columnState
  = Some (Returns (Some 0), columnState)
  ∧ compileCast exampleRegistry
      (CastTypedExpr (Scalar INTEGER) [column (Scalar BIGINT) "x"] true) true [0] false
      exampleConfig columnState
    = Some (Returns (Some 1),
            {| heap := <[1 := makeExpr (SpecialForm "try_cast") (Scalar INTEGER) [0] false]>
                         (heap columnState);
               nextPtr := 2; scopes := scopes columnState;
               exprSet := exprSet columnState |}).
Proof.
  split.
  - apply (cast_of_same_type_is_the_child exampleRegistry
             (CastTypedExpr (Scalar BIGINT) [column (Scalar BIGINT) "x"] false) false 0
             (makeExpr (FieldReference "x") (Scalar BIGINT) [] false) false
             exampleConfig columnState); reflexivity.
  - apply (cast_of_same_type_is_the_child exampleRegistry
             (CastTypedExpr (Scalar INTEGER) [column (Scalar BIGINT) "x"] true) true 0
             (makeExpr (FieldReference "x") (Scalar BIGINT) [] false) false
             exampleConfig columnState); [reflexivity|discriminate|reflexivity].
Defined.

(** Casts from end to end: a cast of the BIGINT column x to BIGINT compiles
    to the reference to x, which the try-cast to INTEGER compiled next finds
    in the visited map and shares. *)
Example cast_end_to_end :
  compiledTrees
    (exampleRun [CastTypedExpr (Scalar BIGINT) [column (Scalar BIGINT) "x"] false;
                 CastTypedExpr (Scalar INTEGER) [column (Scalar BIGINT) "x"] true]
       true false)
  = Some [Compiled (FieldReference "x") (Scalar BIGINT) true [];
          Compiled (SpecialForm "try_cast") (Scalar INTEGER) false
            [Compiled (FieldReference "x") (Scalar BIGINT) true []]].
Proof. vm_compute. reflexivity. Qed.

(** ** Constant folding *)

Section Folding.

Context (registry : Registry).

Lemma tryFoldIfConstant_skips (expr : ExprPtr) (s : CompilerState) :
  isConstantExpr registry (heap s) expr && bool_decide (is_Some (execCtx (exprSet s))) = false →
  tryFoldIfConstant registry expr s = Some (Returns expr, s).
Proof. intros H. unfold tryFoldIfConstant. compile_unfold. by rewrite H. Qed.

Lemma tryFoldIfConstant_throws (expr : ExprPtr) (s : CompilerState) (e : Thrown) :
  isConstantExpr registry (heap s) expr = true →
  is_Some (execCtx (exprSet s)) →
  evaluated (eval registry (heap s) expr) = Throws e →
  tryFoldIfConstant registry expr s
  = Some (if isUserError e then Returns expr else Throws e, evaluatedState registry expr s).
Proof.
  intros Hconstant Hctx Heval. unfold tryFoldIfConstant. compile_unfold.
  rewrite Hconstant, bool_decide_eq_true_2 by done. cbn [andb].
  rewrite Heval. by destruct e.
Qed.

Lemma omap_lookups (h : gmap ExprPtr Expr) ps es :
  Forall2 (λ p e, h !! p = Some e) ps es → omap (λ i, h !! i) ps = es.
Proof. induction 1 as [|p e ps es Hp _ IH]; [done|]. cbn. by rewrite Hp, IH. Qed.

Lemma tryFoldIfConstant_folds (expr : ExprPtr) (s : CompilerState) (value : Variant)
    (e : Expr) :
  let marked := markSkipped (eval registry (heap s) expr) (heap s) in
  isConstantExpr registry (heap s) expr = true →
  is_Some (execCtx (exprSet s)) →
  evaluated (eval registry (heap s) expr) = Returns value →
  marked !! expr = Some e →
  Forall (λ i, is_Some (heap s !! i)) (inputs_ e) →
  heap s !! nextPtr s = None →
  tryFoldIfConstant registry expr s
  = Some (Returns (nextPtr s),
          {| heap := <[nextPtr s := foldedConstant value marked expr e]> marked;
             nextPtr := S (nextPtr s); scopes := scopes s;
             exprSet := addMemoizing (memoized (eval registry (heap s) expr)) (exprSet s) |}).
Proof.
  intros marked Hconstant Hctx Heval He Hinputs Hfresh.
  assert (Forall (λ i, is_Some (marked !! i)) (inputs_ e)) as Hmarked.
  { eapply Forall_impl; [exact Hinputs|]. intros i Hi. unfold marked.
    rewrite markSkipped_lookup. case_bool_decide; [|done]. by apply fmap_is_Some. }
  destruct (lookups_exist _ _ Hmarked) as [es Hes].
  assert (marked !! nextPtr s = None) as Hfresh'.
  { unfold marked. rewrite markSkipped_lookup, Hfresh. by case_bool_decide. }
  pose proof (mapM_getExpr_Some (inputs_ e) es
    {| heap := <[nextPtr s := makeExpr (ConstantExpr value) (type_ e) [] false]> marked;
       nextPtr := S (nextPtr s); scopes := scopes s;
       exprSet := addMemoizing (memoized (eval registry (heap s) expr)) (exprSet s) |})
    as Hmap.
  cbn [heap] in Hmap. unfold tryFoldIfConstant. compile_unfold.
  rewrite Hconstant, bool_decide_eq_true_2 by done. cbn [andb].
  rewrite Heval. cbn. fold marked. rewrite He. cbn.
  rewrite Hmap; cycle 1.
  { eapply Forall2_impl; [exact Hes|]. intros i ei Hi. cbn in Hi.
    rewrite lookup_insert_ne; [done|]. intros <-. congruence. }
  unfold foldedConstant. rewrite (omap_lookups _ _ _ Hes).
  destruct (_ || _); cbn; [|done].
  unfold setHeap; cbn. by rewrite alter_insert_eq.
Qed.


Lemma finishCompilation_unfold (expr : ITypedExpr) (result : ExprPtr)
    (resultExpr : Expr) (s : CompilerState) :
  let s1 := setHeap (computeMetadata registry result (heap s)) s in
  heap s1 !! result = Some resultExpr →
  isConstant resultExpr = false →
  finishCompilation registry expr result true s
  = match tryFoldIfConstant registry result s1 with
    | Some (Returns compiled, s2) =>
        Some (Returns compiled,
              match scopes s2 with
              | scope :: parents =>
                  setScopes (setVisited (assign expr compiled (visited scope)) scope :: parents)
                    (setExprSet (clear (exprSet s2)) s2)
              | [] => setExprSet (clear (exprSet s2)) s2
              end)
    | Some (Throws e, s2) => Some (Throws e, s2)
    | None => None
    end.
Proof.
  intros s1 Hresult Hconstant. subst s1. cbn in Hresult.
  unfold finishCompilation. compile_unfold.
  cbn -[tryFoldIfConstant]. rewrite Hresult, Hconstant. cbn -[tryFoldIfConstant].
  destruct (tryFoldIfConstant registry result _) as [[[compiled|e] s2]|]; [|done..].
  cbn. by destruct (scopes s2).
Qed.


Lemma finishCompilation_folds (expr : ITypedExpr) (result : ExprPtr) (resultExpr : Expr)
    (value : Variant) (s : CompilerState) :
  let computed := computeMetadata registry result (heap s) in
  let evaluation := eval registry computed result in
  let marked := markSkipped evaluation computed in
  computed !! result = Some resultExpr →
  isConstant resultExpr = false →
  isConstantExpr registry computed result = true →
  is_Some (execCtx (exprSet s)) →
  evaluated evaluation = Returns value →
  Forall (λ i, is_Some (computed !! i)) (inputs_ resultExpr) →
  computed !! nextPtr s = None →
  ∃ s' constant,
    finishCompilation registry expr result true s = Some (Returns (nextPtr s), s')
    ∧ heap s' !! nextPtr s = Some constant
    ∧ node constant = ConstantExpr value
    ∧ type_ constant = type_ resultExpr
    ∧ inputs_ constant = []
    ∧ (defaultNullRowsSkipped constant = true ↔
       ∃ p n, p ∈ result :: inputs_ resultExpr ∧ marked !! p = Some n
              ∧ defaultNullRowsSkipped n = true).
Proof.
  intros computed evaluation marked Hresult Hnode Hconstant Hctx Heval Hinputs Hfresh.
  assert (∃ e, marked !! result = Some e ∧ type_ e = type_ resultExpr
               ∧ inputs_ e = inputs_ resultExpr) as (e & He & Htype & Hins).
  { unfold marked. rewrite markSkipped_lookup, Hresult.
    case_bool_decide; eexists; (split; [done|]); done. }
  rewrite (finishCompilation_unfold expr result resultExpr s) by done.
  erewrite (tryFoldIfConstant_folds result _ value e); cbn [heap setHeap exprSet scopes nextPtr];
    [|done..|by rewrite Hins|done].
  fold computed evaluation marked.
  eexists _, (foldedConstant value marked result e). split; [done|].
  split.
  { destruct (scopes s); cbn; by rewrite lookup_insert_eq. }
  unfold foldedConstant.
  assert (Forall (λ i, is_Some (marked !! i)) (inputs_ e)) as Hmarked.
  { rewrite Hins. eapply Forall_impl; [exact Hinputs|]. intros i Hi. unfold marked.
    rewrite markSkipped_lookup. case_bool_decide; [|done]. by apply fmap_is_Some. }
  destruct (lookups_exist _ _ Hmarked) as [es Hes].
  rewrite (omap_lookups _ _ _ Hes).
  assert ((defaultNullRowsSkipped e || existsb defaultNullRowsSkipped es) = true ↔
          ∃ p n, p ∈ result :: inputs_ resultExpr ∧ marked !! p = Some n
                 ∧ defaultNullRowsSkipped n = true) as Hflag.
  { rewrite orb_true_iff, existsb_exists. split.
    - intros [Hself|(n & Hn & Hskipped)].
      + exists result, e. split_and!; [by left|done..].
      + apply list_elem_of_In, list_elem_of_lookup in Hn as [k Hk].
        destruct (Forall2_lookup_r _ _ _ _ _ Hes Hk) as (p & Hp & Hpn).
        exists p, n. split_and!; [|done..]. right. rewrite <- Hins.
        by eapply list_elem_of_lookup_2.
    - intros (p & n & [->|Hp]%elem_of_cons & Hn & Hskipped).
      + left. congruence.
      + right. rewrite <- Hins in Hp. apply list_elem_of_lookup in Hp as [k Hk].
        destruct (Forall2_lookup_l _ _ _ _ _ Hes Hk) as (n' & Hn' & Hpn).
        exists n'. split; [by apply list_elem_of_In; eapply list_elem_of_lookup_2|].
        congruence. }
  rewrite <- Hflag. destruct (_ || _); cbn; split_and!; try done.
Qed.


(** C1. An expression compiled with constant folding enabled, at the last
    lines of [compileRewrittenExpression], the node just built not being a
    constant. When [isConstantExpr] holds of the node once its metadata is
    computed, the expression set has an execution context and the
    evaluation of the node over the one-row batch returns [value], the
    compiler returns a fresh [ConstantExpr] that holds [value], of the type
    of the node and without inputs, and that constant has
    [defaultNullRowsSkipped] set exactly when the node or one of its inputs
    has it set after the evaluation. When the expression set has no
    execution context, the compiler returns the node itself. *)
Theorem constant_folding (expr : ITypedExpr) (result : ExprPtr) (resultExpr : Expr)
    (s : CompilerState) :
  let computed := computeMetadata registry result (heap s) in
  let evaluation := eval registry computed result in
  let marked := markSkipped evaluation computed in
  computed !! result = Some resultExpr →
  isConstant resultExpr = false →
  (∀ value,
     isConstantExpr registry computed result = true →
     is_Some (execCtx (exprSet s)) →
     evaluated evaluation = Returns value →
     Forall (λ i, is_Some (computed !! i)) (inputs_ resultExpr) →
     computed !! nextPtr s = None →
     ∃ s' constant,
       finishCompilation registry expr result true s = Some (Returns (nextPtr s), s')
       ∧ heap s' !! nextPtr s = Some constant
       ∧ node constant = ConstantExpr value
       ∧ type_ constant = type_ resultExpr
       ∧ inputs_ constant = []
       ∧ (defaultNullRowsSkipped constant = true ↔
          ∃ p n, p ∈ result :: inputs_ resultExpr ∧ marked !! p = Some n
                 ∧ defaultNullRowsSkipped n = true))
  ∧ (execCtx (exprSet s) = None →
     ∃ s', finishCompilation registry expr result true s = Some (Returns result, s')
           ∧ heap s' = computed).
Proof.
  intros computed evaluation marked Hresult Hnode. split.
  - intros value Hconstant Hctx Heval Hinputs Hfresh. by eapply finishCompilation_folds.
  - intros Hnone.
    rewrite (finishCompilation_unfold expr result resultExpr s) by done.
    rewrite tryFoldIfConstant_skips; cycle 1.
    { cbn. rewrite Hnone, bool_decide_eq_false_2; [apply andb_false_r|].
      by intros [? ?]. }
    eexists. split; [done|]. cbn. by destruct (scopes s).
Qed.

(** C9. A folding attempt on a node that is not a constant: when the one-row
    evaluation raises a user error the compiler returns the node itself,
    the graph being what the evaluation left, and compilation goes on;
    when it raises anything else the exception leaves the compiler; and
    whenever the attempt returns, with the node or with a constant,
    [clear()] is the last the expression set sees, so that its memoizing
    state is empty. *)
Theorem folding_errors (expr : ITypedExpr) (result : ExprPtr) (resultExpr : Expr)
    (s : CompilerState) :
  let computed := computeMetadata registry result (heap s) in
  let evaluation := eval registry computed result in
  computed !! result = Some resultExpr →
  isConstant resultExpr = false →
  (∀ message,
     isConstantExpr registry computed result = true →
     is_Some (execCtx (exprSet s)) →
     evaluated evaluation = Throws (VeloxUserError message) →
     ∃ s', finishCompilation registry expr result true s = Some (Returns result, s')
           ∧ heap s' = markSkipped evaluation computed
           ∧ memoizingExprs (exprSet s') = [])
  ∧ (∀ e,
       isConstantExpr registry computed result = true →
       is_Some (execCtx (exprSet s)) →
       evaluated evaluation = Throws e →
       isUserError e = false →
       ∃ s', finishCompilation registry expr result true s = Some (Throws e, s'))
  ∧ (∀ compiled s',
       finishCompilation registry expr result true s = Some (Returns compiled, s') →
       ∃ s2, tryFoldIfConstant registry result (setHeap computed s)
             = Some (Returns compiled, s2)
             ∧ exprSet s' = clear (exprSet s2)
             ∧ memoizingExprs (exprSet s') = []).
Proof.
  intros computed evaluation Hresult Hnode.
  rewrite (finishCompilation_unfold expr result resultExpr s) by done.
  split_and!.
  - intros message Hconstant Hctx Heval.
    rewrite (tryFoldIfConstant_throws result _ (VeloxUserError message)) by done.
    cbn [isUserError]. eexists. split; [done|].
    unfold evaluatedState; cbn. by destruct (scopes s).
  - intros e Hconstant Hctx Heval Huser.
    rewrite (tryFoldIfConstant_throws result _ e) by done.
    rewrite Huser. by eexists.
  - intros compiled s' Hrun.
    destruct (tryFoldIfConstant registry result _) as [[[compiled'|e] s2]|]; [|done..].
    simplify_eq. exists s2. by destruct (scopes s2).
Qed.

End Folding.

Lemma constant_folding_witness :
  ∃ s' constant,
    finishCompilation exampleRegistry (exampleCall "plus" VNull) 2 true
      (callState "plus" 2 VNull true) = Some (Returns 3, s')
    ∧ heap s' !! 3 = Some constant
    ∧ node constant = ConstantExpr VNull
    ∧ defaultNullRowsSkipped constant = true.
Proof.
  destruct (constant_folding exampleRegistry (exampleCall "plus" VNull) 2
              (setMetadata true
                 (makeExpr (FunctionCall "plus" 2 (exampleMetadata false true))
                    (Scalar BIGINT) [0; 1] false))
              (callState "plus" 2 VNull true)) as [Hfolds _]; [reflexivity..|].
  destruct (Hfolds VNull)
    as (s' & constant & Hrun & Hconstant & Hnode & _ & _ & Hskipped).
  - reflexivity.
  - by eexists.
  - reflexivity.
  - repeat constructor; by eexists.
  - reflexivity.
  - exists s', constant. split_and!; [done..|].
    apply Hskipped. eexists 2, _. split_and!; [by left|reflexivity|reflexivity].
Defined.

(** Without an execution context, and when the evaluation raises a user
    error, the node is returned as it was built, although [isConstantExpr]
    holds of it: 1 + 2 compiled by an expression set that has no execution
    context, and 1 / 0 compiled by one that has. *)
Lemma constant_folding_keeps_the_node :
  match exampleRun [exampleCall "plus" (VInteger 2)] false true,
        exampleRun [exampleCall "divide" (VInteger 0)] true true with
  | Some (Returns [p], s), Some (Returns [q], t) =>
      isConstantExpr exampleRegistry (heap s) p = true
      ∧ isConstant <$> heap s !! p = Some false
      ∧ isConstantExpr exampleRegistry (heap t) q = true
      ∧ isConstant <$> heap t !! q = Some false
  | _, _ => False
  end.
Proof. vm_compute. done. Qed.

Lemma folding_errors_witness :
  ∃ s',
    finishCompilation exampleRegistry (exampleCall "divide" (VInteger 0)) 2 true
      (callState "divide" 3 (VInteger 0) true) = Some (Returns 2, s')
    ∧ memoizingExprs (exprSet s') = [].
Proof.
  destruct (folding_errors exampleRegistry (exampleCall "divide" (VInteger 0)) 2
              (setMetadata true
                 (makeExpr (FunctionCall "divide" 3 (exampleMetadata false true))
                    (Scalar BIGINT) [0; 1] false))
              (callState "divide" 3 (VInteger 0) true))
    as (Huser & _ & _); [reflexivity..|].
  destruct (Huser "Division by zero") as (s' & Hrun & _ & Hcleared);
    [reflexivity|by eexists|reflexivity|].
  by exists s'.
Defined.

(** Folding from end to end: 1 + 2 compiles to the constant 3; 1 / 0 raises
    a user error when evaluated and compiles to the call; a call this
    runtime cannot evaluate raises a system error, which ends the
    compilation. *)
Example folding_end_to_end :
  compiledTrees (exampleRun [exampleCall "plus" (VInteger 2)] true true)
  = Some [Compiled (ConstantExpr (VInteger 3)) (Scalar BIGINT) false []]
  ∧ compiledTrees (exampleRun [exampleCall "divide" (VInteger 0)] true true)
    = Some [Compiled (FunctionCall "divide" 3 (exampleMetadata false true))
              (Scalar BIGINT) false
              [Compiled (ConstantExpr (VInteger 1)) (Scalar BIGINT) false [];
               Compiled (ConstantExpr (VInteger 0)) (Scalar BIGINT) false []]]
  ∧ fst <$> exampleRun [exampleCall "concat" (VInteger 2)] true true
    = Some (Throws (VeloxRuntimeError "not implemented")).
Proof. split_and!; vm_compute; reflexivity. Qed.

(** ** Captures *)

Lemma captureFieldReference_cons field reference fieldAccess scope parent grandparents :
  captureFieldReference field reference fieldAccess (scope :: parent :: grandparents)
  = if bool_decide (field ∈ locals scope) || bool_decide (field ∈ capture scope)
    then scope :: parent :: grandparents
    else addCapture field reference fieldAccess scope
           :: captureFieldReference field reference fieldAccess (parent :: grandparents).
Proof. done. Qed.

Lemma captureInEveryScope_cons field reference fieldAccess scope parent grandparents :
  captureInEveryScope field reference fieldAccess (scope :: parent :: grandparents)
  = if bool_decide (field ∈ locals scope) then scope :: parent :: grandparents
    else (if bool_decide (field ∈ capture scope) then scope
          else addCapture field reference fieldAccess scope)
           :: captureInEveryScope field reference fieldAccess (parent :: grandparents).
Proof. done. Qed.

Lemma captureFieldReference_locals field reference fieldAccess scopes :
  locals <$> captureFieldReference field reference fieldAccess scopes = locals <$> scopes.
Proof.
  induction scopes as [|scope [|parent grandparents] IH]; [done..|].
  rewrite captureFieldReference_cons. destruct (_ || _); [done|].
  rewrite fmap_cons, IH. done.
Qed.

Lemma captureFieldReference_length field reference fieldAccess scopes :
  length (captureFieldReference field reference fieldAccess scopes) = length scopes.
Proof.
  rewrite <- (length_fmap locals), captureFieldReference_locals. by rewrite length_fmap.
Qed.

(** The scopes from the one that declares the field on are left alone. *)
Lemma captureFieldReference_drop field reference fieldAccess scopes j scope :
  scopes !! j = Some scope → field ∈ locals scope →
  drop j (captureFieldReference field reference fieldAccess scopes) = drop j scopes.
Proof.
  revert j. induction scopes as [|first [|parent grandparents] IH]; intros j Hj Hfield;
    [done..|].
  rewrite captureFieldReference_cons.
  destruct (bool_decide (field ∈ locals first)) eqn:Hlocal; [done|].
  destruct (bool_decide (field ∈ capture first)); [done|]. cbn [orb].
  destruct j as [|j]; cbn in Hj.
  - simplify_eq. apply bool_decide_eq_false in Hlocal. done.
  - cbn [drop]. by apply IH.
Qed.

Lemma captureFieldReference_refines field reference fieldAccess scopes :
  capturesClosed scopes →
  captureFieldReference field reference fieldAccess scopes
  = captureInEveryScope field reference fieldAccess scopes.
Proof.
  assert (∀ stack scope, capturesClosed (scope :: stack) → field ∈ capture scope →
            captureInEveryScope field reference fieldAccess stack = stack) as Hinert.
  { clear. induction stack as [|parent [|grandparent ancestors] IH]; intros scope Hclosed Hfield;
      [done..|].
    rewrite captureInEveryScope_cons. destruct Hclosed as (_ & Hup & Hclosed).
    case_bool_decide; [done|].
    destruct (Hup ltac:(done) field Hfield) as [?|Hcaptured]; [done|].
    rewrite bool_decide_eq_true_2 by done. f_equal. by eapply IH. }
  induction scopes as [|scope [|parent grandparents] IH]; intros Hclosed; [done..|].
  rewrite captureFieldReference_cons, captureInEveryScope_cons.
  case_bool_decide as Hlocal; [done|]. cbn [orb].
  case_bool_decide as Hcaptured.
  - f_equal. symmetry. by eapply Hinert.
  - f_equal. apply IH. apply Hclosed.
Qed.

Lemma captureFieldReference_closed field reference fieldAccess scopes :
  capturesClosed scopes →
  capturesClosed (captureFieldReference field reference fieldAccess scopes).
Proof.
  induction scopes as [|scope [|parent grandparents] IH]; intros Hclosed; [done..|].
  rewrite captureFieldReference_cons.
  destruct (bool_decide (field ∈ locals scope)) eqn:Hlocal; [done|].
  destruct (bool_decide (field ∈ capture scope)) eqn:Hcaptured; [done|]. cbn [orb].
  apply bool_decide_eq_false in Hcaptured.
  destruct Hclosed as (Hnodup & Hup & Hclosed). specialize (IH Hclosed).
  remember (captureFieldReference field reference fieldAccess (parent :: grandparents))
    as parents' eqn:Hparents.
  assert (length parents' = S (length grandparents)) as Hlength
    by (rewrite Hparents, captureFieldReference_length; done).
  destruct parents' as [|parent' grandparents']; [done|].
  cbn [capturesClosed]. split_and!; [|intros Hmore field' Hfield'|done].
  - cbn. apply NoDup_app. split_and!; [done| |apply NoDup_singleton].
    intros x Hx Heq%list_elem_of_singleton. by subst.
  - assert (grandparents ≠ []) as Hgrandparents.
    { destruct grandparents; [|done]. by destruct grandparents'. }
    destruct grandparents as [|grandparent ancestors]; [done|].
    rewrite captureFieldReference_cons in Hparents.
    cbn [addCapture capture] in Hfield'.
    destruct (bool_decide (field ∈ locals parent)) eqn:Hlocal'.
    { cbn [orb] in Hparents. simplify_eq. apply bool_decide_eq_true in Hlocal'.
      apply elem_of_app in Hfield' as [?|Heq%list_elem_of_singleton];
        [by apply Hup|subst; by left]. }
    destruct (bool_decide (field ∈ capture parent)) eqn:Hcaptured'.
    { cbn [orb] in Hparents. simplify_eq. apply bool_decide_eq_true in Hcaptured'.
      apply elem_of_app in Hfield' as [?|Heq%list_elem_of_singleton];
        [by apply Hup|subst; by right]. }
    cbn [orb] in Hparents. simplify_eq. cbn [addCapture locals capture].
    apply elem_of_app in Hfield' as [Hfield'|Heq%list_elem_of_singleton]; [|subst field'].
    + destruct (Hup ltac:(done) field' Hfield') as [?|?]; [by left|right].
      apply elem_of_app. by left.
    + right. apply elem_of_app. right. by apply list_elem_of_singleton.
Qed.

(** ** What the stack keeps along a run *)

Section ScopeTraces.

Context (P : list (list string) → string → Prop).

Lemma ScopeTrace_locals scopes scopes' :
  ScopeTrace P scopes scopes' → locals <$> scopes' = locals <$> scopes.
Proof.
  induction 1 as [| ? ? ? _ IH1 _ IH2 | ? ? ? Hlocals _ | |names ? ? ? _ IH].
  - done.
  - by rewrite IH2.
  - cbn. by rewrite Hlocals.
  - apply captureFieldReference_locals.
  - by injection IH.
Qed.

Lemma ScopeTrace_length scopes scopes' :
  ScopeTrace P scopes scopes' → length scopes' = length scopes.
Proof.
  intros Htrace%ScopeTrace_locals.
  by rewrite <- (length_fmap locals), Htrace, length_fmap.
Qed.

Lemma capturesClosed_head scope scope' parents :
  locals scope' = locals scope → capture scope' = capture scope →
  capturesClosed (scope :: parents) → capturesClosed (scope' :: parents).
Proof.
  intros Hlocals Hcapture. destruct parents as [|parent grandparents]; [done|].
  cbn. by rewrite Hcapture.
Qed.

Lemma capturesClosed_push names scopes :
  capturesClosed scopes → capturesClosed (newScope names :: scopes).
Proof.
  intros Hclosed. destruct scopes as [|parent grandparents]; [done|].
  cbn [capturesClosed newScope capture]. split_and!; [apply NoDup_nil_2| |done].
  intros _ field Hfield. by apply elem_of_nil in Hfield.
Qed.

Lemma capturesClosed_pop scope scopes :
  capturesClosed (scope :: scopes) → capturesClosed scopes.
Proof. destruct scopes as [|parent grandparents]; [done|]. by intros (_ & _ & ?). Qed.

(** The stacks a run reaches from a closed one are closed. *)
Lemma ScopeTrace_closed scopes scopes' :
  ScopeTrace P scopes scopes' → capturesClosed scopes → capturesClosed scopes'.
Proof.
  induction 1 as [| ? ? ? _ IH1 _ IH2 | ? ? ? Hlocals Hcapture | |names ? ? ? _ IH];
    intros Hclosed.
  - done.
  - auto.
  - by eapply capturesClosed_head.
  - by apply captureFieldReference_closed.
  - eapply capturesClosed_pop, IH. by apply capturesClosed_push.
Qed.

End ScopeTraces.

(** When every captured field is a parameter of a lambda inside the
    outermost [outer] scopes, those scopes and the innermost scope around
    them capture nothing new. *)
Lemma ScopeTrace_outer (outer : nat) scopes scopes' :
  ScopeTrace (boundWithin outer) scopes scopes' →
  drop (length scopes - outer - 1) (capture <$> scopes')
  = drop (length scopes - outer - 1) (capture <$> scopes).
Proof.
  induction 1 as [| s1 s2 s3 H1 IH1 _ IH2 | ? ? ? _ Hcapture
                  | field reference fieldAccess scopes Hbound
                  | names scopes lambdaScope parents Htrace IH].
  - done.
  - rewrite <- IH1. by rewrite (ScopeTrace_length _ _ _ H1) in IH2.
  - cbn. by rewrite Hcapture.
  - destruct Hbound as (names & Hnames & Hfield). rewrite length_fmap in Hnames.
    apply list_elem_of_lookup in Hnames as [j Hj].
    apply lookup_take_Some in Hj as [Hj Hlt].
    apply list_lookup_fmap_Some in Hj as (scope & -> & Hscope).
    rewrite <- !fmap_drop. f_equal.
    replace (length scopes - outer - 1) with (j + (length scopes - outer - 1 - j)) by lia.
    rewrite <- !drop_drop. f_equal. by eapply captureFieldReference_drop.
  - cbn [length] in IH.
    destruct (decide (outer < length scopes)) as [Hlt|Hge].
    + replace (S (length scopes) - outer - 1) with (S (length scopes - outer - 1)) in IH by lia.
      apply ScopeTrace_length in Htrace. cbn in Htrace.
      by replace (length scopes) with (length parents) in * by lia.
    + replace (S (length scopes) - outer - 1) with 0 in IH by lia.
      replace (length scopes - outer - 1) with 0 by lia.
      rewrite !drop_0 in *. by injection IH.
Qed.

(** ** Statements whose runs stay within a relation *)

Section Preserves.

Context (R : relation CompilerState) `{!Reflexive R, !Transitive R}.

#[local] Unset Default Proof Using.

Lemma preserves_ret {A} (a : A) : preserves R (mret a).
Proof. intros s r s' Hrun. compile_unfold. by simplify_eq. Qed.

Lemma preserves_raise {A} (e : Thrown) : preserves R (raise (A := A) e).
Proof. intros s r s' Hrun. compile_unfold. by simplify_eq. Qed.

Lemma preserves_get : preserves R get.
Proof. intros s r s' Hrun. compile_unfold. by simplify_eq. Qed.

Lemma preserves_getExpr p : preserves R (getExpr p).
Proof.
  intros s r s' Hrun. unfold getExpr in Hrun. destruct (heap s !! p); by simplify_eq.
Qed.

Lemma preserves_currentScope : preserves R currentScope.
Proof.
  intros s r s' Hrun. unfold currentScope in Hrun. destruct (scopes s); by simplify_eq.
Qed.

Lemma preserves_modify f : (∀ s, R s (f s)) → preserves R (modify f).
Proof. intros Hf s r s' Hrun. unfold modify in Hrun. by simplify_eq. Qed.

Lemma preserves_bind {A B} (m : Compile A) (f : A → Compile B) :
  preserves R m → (∀ a, preserves R (f a)) → preserves R (m ≫= f).
Proof.
  intros Hm Hf s r s' Hrun.
  apply bind_inv in Hrun as [(a & s1 & Hrun1 & Hrun2)|(e & Hrun & _)].
  - etrans; [by eapply Hm|by eapply Hf].
  - by eapply Hm.
Qed.

Lemma preserves_mapM {A B} (f : A → Compile B) (l : list A) :
  Forall (λ x, preserves R (f x)) l → preserves R (mapM f l).
Proof.
  induction 1 as [|x l Hx _ IH]; cbn [mapM].
  - apply preserves_ret.
  - apply preserves_bind; [done|]. intros y.
    apply preserves_bind; [done|]. intros ys. apply preserves_ret.
Qed.

Lemma preserves_catchUserError {A} (m : Compile A) (fallback : A) :
  preserves R m → preserves R (catchUserError m fallback).
Proof.
  intros Hm s r s' Hrun. unfold catchUserError in Hrun.
  destruct (m s) as [[[a|[]] s1]|] eqn:Hrun1; simplify_eq; by eapply Hm.
Qed.

Lemma preserves_VELOX_CHECK condition message :
  preserves R (VELOX_CHECK condition message).
Proof. destruct condition; [apply preserves_ret|apply preserves_raise]. Qed.

Lemma preserves_VELOX_USER_CHECK condition message :
  preserves R (VELOX_USER_CHECK condition message).
Proof. destruct condition; [apply preserves_ret|apply preserves_raise]. Qed.

Lemma preserves_nonNull p : preserves R (nonNull p).
Proof. destruct p; [apply preserves_ret|apply preserves_raise]. Qed.

(** *** Statements that write to the graph and the expression set *)

Context (registry : Registry).
Context (R_graph : ∀ s s', graphStep registry s s' → R s s').

Lemma preserves_newExpr e : preserves R (newExpr e).
Proof.
  intros s r s' Hrun. unfold newExpr in Hrun. simplify_eq. apply R_graph, step_new.
Qed.

Lemma preserves_updateExpr p f : preserves R (updateExpr p f).
Proof. apply preserves_modify. intros s. apply R_graph, step_alter. Qed.

Lemma preserves_computeMetadata p : preserves R (onHeap (computeMetadata registry p)).
Proof. apply preserves_modify. intros s. apply R_graph, step_computeMetadata. Qed.

Lemma preserves_clearMetaData p : preserves R (onHeap (clearMetaData registry p)).
Proof. apply preserves_modify. intros s. apply R_graph, step_clearMetaData. Qed.

Lemma preserves_exprSet f : preserves R (modify (λ s, setExprSet (f (exprSet s)) s)).
Proof. apply preserves_modify. intros s. apply R_graph, step_exprSet. Qed.

Lemma preserves_getTypes exprs : preserves R (getTypes exprs).
Proof.
  apply preserves_mapM, Forall_forall. intros p _.
  apply preserves_bind; [apply preserves_getExpr|]. intros e. apply preserves_ret.
Qed.

Lemma preserves_getConstantInputs exprs : preserves R (getConstantInputs exprs).
Proof.
  apply preserves_mapM, Forall_forall. intros p _.
  apply preserves_bind; [apply preserves_getExpr|]. intros e. apply preserves_ret.
Qed.

Lemma preserves_getSpecialForm config name type compiledChildren trackCpuUsage :
  preserves R (getSpecialForm registry config name type compiledChildren trackCpuUsage).
Proof.
  unfold getSpecialForm. destruct (isFunctionCallToSpecialFormRegistered _ _).
  - apply preserves_bind; [apply preserves_newExpr|]. intros p. apply preserves_ret.
  - apply preserves_ret.
Qed.

Lemma preserves_compileCall expr name inputs trackCpuUsage config :
  preserves R (compileCall registry expr name inputs trackCpuUsage config).
Proof.
  unfold compileCall. apply preserves_bind; [apply preserves_getTypes|]. intros inputTypes.
  destruct (isFunctionCallToSpecialFormRegistered _ _); [apply preserves_newExpr|].
  apply preserves_bind; [apply preserves_getConstantInputs|]. intros constantInputs.
  destruct (getVectorFunctionWithMetadata _ _ _ _); [apply preserves_newExpr|].
  destruct (resolveSimpleFunction _ _ _).
  - apply preserves_bind; [apply preserves_VELOX_USER_CHECK|]. intros _.
    apply preserves_newExpr.
  - destruct (_ <$> _); apply preserves_raise.
Qed.

Lemma preserves_compileCast expr isTryCast inputs trackCpuUsage config :
  preserves R (compileCast registry expr isTryCast inputs trackCpuUsage config).
Proof.
  unfold compileCast. apply preserves_bind; [apply preserves_VELOX_CHECK|]. intros _.
  destruct inputs as [|input inputs]; [apply preserves_raise|].
  apply preserves_bind; [apply preserves_getExpr|]. intros inputExpr.
  case_bool_decide; [apply preserves_ret|apply preserves_getSpecialForm].
Qed.

Lemma preserves_tryFoldIfConstant expr : preserves R (tryFoldIfConstant registry expr).
Proof.
  unfold tryFoldIfConstant. apply preserves_bind; [apply preserves_get|]. intros s.
  destruct (_ && _); [|apply preserves_ret].
  apply preserves_catchUserError.
  apply preserves_bind; [apply preserves_modify; intros ?; apply R_graph, step_evaluated|].
  intros _.
  destruct (evaluated _); [|apply preserves_raise].
  apply preserves_bind; [apply preserves_getExpr|]. intros e.
  apply preserves_bind; [apply preserves_newExpr|]. intros resultExpr.
  apply preserves_bind; [apply preserves_mapM, Forall_forall; intros; apply preserves_getExpr|].
  intros inputs.
  apply preserves_bind; [|intros; apply preserves_ret].
  destruct (_ || _); [apply preserves_updateExpr|apply preserves_ret].
Qed.

Lemma preserves_reuseCompiled alreadyCompiled :
  preserves R (reuseCompiled registry alreadyCompiled).
Proof.
  unfold reuseCompiled. apply preserves_bind; [apply preserves_getExpr|]. intros e.
  apply preserves_bind; [|intros; apply preserves_ret].
  destruct (negb _); [|apply preserves_ret].
  apply preserves_bind; [apply (preserves_exprSet (addToReset alreadyCompiled))|]. intros _.
  apply preserves_bind; [apply preserves_updateExpr|]. intros _.
  apply preserves_bind; [apply preserves_clearMetaData|]. intros _.
  apply preserves_computeMetadata.
Qed.

(** *** Statements that write to the current scope *)

Context (R_head : ∀ s scope scope' parents,
           scopes s = scope :: parents →
           locals scope' = locals scope → capture scope' = capture scope →
           R s (setScopes (scope' :: parents) s)).

Lemma preserves_updateScope f :
  (∀ scope, locals (f scope) = locals scope ∧ capture (f scope) = capture scope) →
  preserves R (updateScope f).
Proof.
  intros Hf. apply preserves_modify. intros s.
  destruct (scopes s) as [|scope parents] eqn:Hscopes; [done|].
  apply (R_head s scope (f scope) parents); [done|apply Hf..].
Qed.

Lemma preserves_finishCompilation expr result enableConstantFolding :
  preserves R (finishCompilation registry expr result enableConstantFolding).
Proof.
  unfold finishCompilation. apply preserves_bind; [apply preserves_computeMetadata|].
  intros _.
  apply preserves_bind; [apply preserves_getExpr|]. intros resultExpr.
  apply preserves_bind.
  - destruct (_ && _); [|apply preserves_ret].
    apply preserves_bind; [apply preserves_tryFoldIfConstant|]. intros compiled.
    apply preserves_bind; [apply (preserves_exprSet clear)|]. intros _.
    apply preserves_ret.
  - intros compiled.
    apply preserves_bind; [by apply preserves_updateScope|]. intros _. apply preserves_ret.
Qed.

Lemma preserves_compileCaptures captures : preserves R (compileCaptures captures).
Proof.
  induction captures as [|[expr inner] captures IH]; cbn [compileCaptures];
    [apply preserves_ret|].
  apply preserves_bind; [apply preserves_currentScope|]. intros scope.
  apply preserves_bind.
  - destruct (getAlreadyCompiled _ _); [apply preserves_ret|].
    apply preserves_bind; [apply preserves_getExpr|]. intros innerExpr.
    apply preserves_bind; [apply preserves_newExpr|]. intros reference.
    apply preserves_bind; [by apply preserves_updateScope|]. intros _. apply preserves_ret.
  - intros reference. apply preserves_bind; [done|]. intros references.
    apply preserves_ret.
Qed.

End Preserves.

(** ** The scope stack along a compilation *)

Section Walk.

Context (registry : Registry).
Context (P : list (list string) → string → Prop).
Context (Good : list (list string) → ITypedExpr → Prop).
Context (Good_rewrite : ∀ ls expr rewritten,
           Good ls expr → rewriteExpression registry expr = Some rewritten →
           Good ls rewritten).
Context (Good_inputs : ∀ ls expr, Good ls expr → Forall (Good ls) (inputs expr)).
Context (Good_lambda : ∀ ls signature body,
           Good ls (LambdaTypedExpr signature body) → Good (signature.*1 :: ls) body).
Context (Good_access : ∀ ls t name ins,
           Good ls (FieldAccessTypedExpr t name ins) →
           isInputColumn registry (FieldAccessTypedExpr t name ins) = true →
           P ls name).

#[local] Unset Default Proof Using.

#[local] Instance tracesScopes_reflexive ls : Reflexive (tracesScopes P ls).
Proof. intros s _. apply trace_refl. Qed.

#[local] Instance tracesScopes_transitive ls : Transitive (tracesScopes P ls).
Proof.
  intros s1 s2 s3 H12 H23 Hlocals. specialize (H12 Hlocals).
  eapply trace_trans; [done|]. apply H23.
  by rewrite (ScopeTrace_locals _ _ _ H12).
Qed.

Lemma tracesScopes_graph ls s s' : graphStep registry s s' → tracesScopes P ls s s'.
Proof. intros Hstep _. destruct Hstep; apply trace_refl. Qed.

Lemma tracesScopes_head ls s scope scope' parents :
  scopes s = scope :: parents →
  locals scope' = locals scope → capture scope' = capture scope →
  tracesScopes P ls s (setScopes (scope' :: parents) s).
Proof. intros Hscopes Hlocals Hcapture _. rewrite Hscopes. by apply trace_head. Qed.

(** The side conditions of the lemmas on [preserves], for [tracesScopes]. *)
Ltac traces_side :=
  lazymatch goal with
  | |- Reflexive _ => apply _
  | |- Transitive _ => apply _
  | |- ∀ s s', graphStep _ s s' → _ => apply tracesScopes_graph
  | |- ∀ s scope scope' parents, scopes s = scope :: parents → _ =>
      apply tracesScopes_head
  | |- _ => idtac
  end.

Lemma Good_spliced ls name input :
  Good ls input → Forall (Good ls) (splicedInputs registry name input).
Proof.
  induction input as [| | | |t name' ins IH| | |] using ITypedExpr_ind';
    intros Hgood; try by repeat constructor.
  cbn [splicedInputs]. destruct (_ && _); [|by repeat constructor].
  apply Good_inputs in Hgood. cbn [inputs] in Hgood.
  induction IH as [|child ins Hchild _ IHins]; [constructor|].
  cbn [List.map concat]. apply Forall_cons in Hgood as [Hgood1 Hgood2].
  apply Forall_app. split; [by apply Hchild|by apply IHins].
Qed.

Section Recursion.

Context (config : QueryConfig) (flatteningCandidates : gset string)
  (enableConstantFolding : bool).
Context (compileExpression : ITypedExpr → Compile ExprPtr).
Context (IH : ∀ ls expr, Good ls expr → preserves (tracesScopes P ls) (compileExpression expr)).

Lemma compileInputs_traces ls expr :
  Good ls expr →
  preserves (tracesScopes P ls) (compileInputs registry compileExpression expr flatteningCandidates).
Proof.
  intros Hgood%Good_inputs. unfold compileInputs.
  destruct (shouldFlatten registry expr flatteningCandidates) as [name|].
  all: match goal with
       | |- preserves _ (?each _ []) =>
           cut (∀ ins acc, Forall (Good ls) ins → preserves (tracesScopes P ls) (each ins acc));
             [intros Heach; by apply Heach|]
       end.
  all: intros ins acc Hins; revert acc;
    induction Hins as [|input ins Hinput _ IHins]; intros acc;
    [eapply preserves_ret; traces_side|].
  all: destruct (isInputKind input);
    [eapply preserves_bind; traces_side; [eapply preserves_VELOX_CHECK; traces_side|];
     intros _; apply IHins|].
  - eapply preserves_bind; traces_side; [ |intros compiled; apply IHins].
    eapply preserves_mapM; traces_side.
    rewrite flattenInput_spliced. cbn [app].
    eapply Forall_impl; [by apply Good_spliced|]. intros e He. by apply IH.
  - eapply preserves_bind; traces_side; [by apply IH|intros compiled; apply IHins].
Qed.

Lemma compileLambda_traces ls signature lambdaBody :
  Good (signature.*1 :: ls) lambdaBody →
  preserves (tracesScopes P ls) (compileLambda compileExpression signature lambdaBody config).
Proof.
  intros Hgood s r s' Hrun. unfold compileLambda in Hrun.
  apply bind_inv in Hrun as [([] & s0 & Hpush & Hrun)|(e & Hpush & _)];
    [|by unfold modify in Hpush].
  unfold modify in Hpush. injection Hpush as <-.
  assert (∀ r1 s1,
            match compileExpression lambdaBody (setScopes (newScope signature.*1 :: scopes s) s) with
            | Some (r, s') =>
                match scopes s' with
                | lambdaScope :: parents =>
                    match r with
                    | Returns body => Some (Returns (body, lambdaScope), setScopes parents s')
                    | Throws e => Some (Throws e, setScopes parents s')
                    end
                | [] => Some (Throws (VeloxRuntimeError "no scope"), s')
                end
            | None => None
            end = Some (r1, s1) → tracesScopes P ls s s1) as Hbody.
  { intros r1 s1 Hbody Hlocals.
    destruct (compileExpression lambdaBody _) as [[r2 s2]|] eqn:Hcompile; [|done].
    apply (IH (signature.*1 :: ls)) in Hcompile; [|done].
    specialize (Hcompile ltac:(cbn; by rewrite Hlocals)). cbn [scopes setScopes] in Hcompile.
    pose proof (ScopeTrace_length _ _ _ Hcompile) as Hlength.
    destruct (scopes s2) as [|lambdaScope parents] eqn:Hscopes; [done|].
    assert (scopes s1 = parents) as -> by (destruct r2; by simplify_eq).
    by eapply trace_lambda. }
  apply bind_inv in Hrun as [([body lambdaScope] & s1 & Hrun1 & Hrun)|(e & Hrun & _)];
    [|by eapply Hbody].
  etrans; [by eapply Hbody|].
  assert (preserves (tracesScopes P ls)
    (compileCaptures (zip (take (length (capture lambdaScope)) (captureFieldAccesses lambdaScope))
                          (captureReferences lambdaScope))
     ≫= λ captureReferences, getExpr body
     ≫= λ bodyExpr, newExpr (makeExpr (LambdaExpr signature captureReferences body)
                               (FUNCTION (signature.*2) (type_ bodyExpr)) []
                               (exprTrackCpuUsage config)))) as Hrest.
  { eapply preserves_bind; traces_side; [ |intros captureReferences].
    { eapply preserves_compileCaptures; traces_side. }
    eapply preserves_bind; traces_side; [eapply preserves_getExpr; traces_side|intros bodyExpr].
    eapply preserves_newExpr; traces_side. }
  exact (Hrest _ _ _ Hrun).
Qed.

Lemma compileByKind_traces ls expr compiledInputs :
  Good ls expr →
  preserves (tracesScopes P ls)
    (compileByKind registry compileExpression expr compiledInputs config).
Proof.
  intros Hgood. unfold compileByKind.
  destruct expr as [t v|t|t name ins|t index ins|t name ins|t ins isTry|t ins|signature body].
  - eapply preserves_newExpr; traces_side.
  - eapply preserves_raise; traces_side.
  - eapply preserves_bind; traces_side; [ |intros fieldReference].
    { eapply preserves_newExpr; traces_side. }
    eapply preserves_bind; traces_side; [ |intros _; eapply preserves_ret; traces_side].
    destruct (isInputColumn _ _) eqn:Hcolumn; [|eapply preserves_ret; traces_side].
    eapply preserves_modify; traces_side. intros s Hlocals. cbn [scopes setScopes].
    apply trace_capture. rewrite Hlocals. by eapply Good_access.
  - eapply preserves_newExpr; traces_side.
  - eapply preserves_compileCall; traces_side.
  - eapply preserves_bind; traces_side; [ |intros p; eapply preserves_nonNull; traces_side].
    eapply preserves_compileCast; traces_side.
  - eapply preserves_bind; traces_side; [ |intros p; eapply preserves_nonNull; traces_side].
    eapply preserves_getSpecialForm; traces_side.
  - apply compileLambda_traces. by apply Good_lambda.
Qed.

Lemma compileRewrittenExpression_traces ls expr :
  Good ls expr →
  preserves (tracesScopes P ls)
    (compileRewrittenExpression registry compileExpression expr config
       flatteningCandidates enableConstantFolding).
Proof.
  intros Hgood. unfold compileRewrittenExpression.
  eapply preserves_bind; traces_side; [eapply preserves_currentScope; traces_side|intros scope].
  destruct (getAlreadyCompiled _ _) as [alreadyCompiled|].
  { eapply preserves_reuseCompiled; traces_side. }
  eapply preserves_bind; traces_side; [by apply compileInputs_traces|intros compiledInputs].
  eapply preserves_bind; traces_side; [by apply compileByKind_traces|intros result].
  eapply preserves_finishCompilation; traces_side.
Qed.

End Recursion.

Lemma compileExpression_traces depth config flatteningCandidates enableConstantFolding :
  ∀ ls expr, Good ls expr →
    preserves (tracesScopes P ls)
      (compileExpression registry depth expr config flatteningCandidates
         enableConstantFolding).
Proof.
  induction depth as [|depth IH]; intros ls expr Hgood; [by intros s r s' Hrun|].
  cbn [compileExpression].
  eapply preserves_bind; traces_side; [ |intros _].
  - destruct (rewriteExpression registry expr); [|eapply preserves_ret; traces_side].
    eapply preserves_updateScope; traces_side; done.
  - apply compileRewrittenExpression_traces; [done|].
    destruct (rewriteExpression registry expr) eqn:Hrewrite; [|done].
    by eapply Good_rewrite.
Qed.

End Walk.

(** ** Lambdas and their captures *)

Section Captures.

Context (registry : Registry).

Lemma rewriteExpression_elem expr rewritten :
  rewriteExpression registry expr = Some rewritten →
  ∃ rewrite, rewrite ∈ expressionRewrites registry ∧ rewrite expr = Some rewritten.
Proof.
  unfold rewriteExpression.
  induction (expressionRewrites registry) as [|rewrite rewrites IH]; [done|].
  destruct (rewrite expr) as [rewritten'|] eqn:Hrewrite.
  - intros [= <-]. exists rewrite. split; [by left|done].
  - intros (rewrite' & Helem & Hrewrite')%IH. exists rewrite'. split; [by right|done].
Qed.

Lemma refersOnlyTo_inputs bound expr :
  refersOnlyTo registry bound expr → Forall (refersOnlyTo registry bound) (inputs expr).
Proof.
  assert (∀ ins,
    (fix each (inputs : list ITypedExpr) : Prop :=
       match inputs with
       | [] => True
       | input :: inputs' => refersOnlyTo registry bound input ∧ each inputs'
       end) ins → Forall (refersOnlyTo registry bound) ins) as Heach.
  { induction ins as [|input ins IH]; [constructor|]. intros [? ?]. constructor; auto. }
  destruct expr as [t v|t|t name ins|t index ins|t name ins|t ins isTry|t ins|signature body];
    cbn [refersOnlyTo inputs]; try (intros; constructor; fail); try apply Heach.
  intros [_ ?]. by apply Heach.
Qed.

Lemma referencesWithin_lambda outer ls signature body :
  referencesWithin registry outer ls (LambdaTypedExpr signature body) →
  referencesWithin registry outer (signature.*1 :: ls) body.
Proof.
  intros [Houter Hbody]. split; [cbn; lia|]. cbn [length].
  replace (S (length ls) - outer) with (S (length ls - outer)) by lia. done.
Qed.

(** While an expression that refers only to the parameters of the lambdas
    inside the outermost [outer] scopes is compiled, those scopes and the
    innermost scope around them capture nothing new. *)
Lemma compileExpression_outer_captures (outer depth : nat) (expr : ITypedExpr)
    config flatteningCandidates enableConstantFolding s r s' :
  rewritesKeepReferences registry →
  referencesWithin registry outer (locals <$> scopes s) expr →
  compileExpression registry depth expr config flatteningCandidates enableConstantFolding s
  = Some (r, s') →
  ScopeTrace (boundWithin outer) (scopes s) (scopes s').
Proof.
  intros Hrewrites Hexpr Hrun.
  eapply (compileExpression_traces registry (boundWithin outer) (referencesWithin registry outer));
    [..|exact Hexpr|exact Hrun|done].
  - intros ls e e' [Houter He] (rewrite & Helem & Hrewrite)%rewriteExpression_elem.
    split; [done|]. by eapply Hrewrites.
  - intros ls e [Houter He]. eapply Forall_impl; [by apply refersOnlyTo_inputs|].
    by intros e' He'.
  - intros ls signature body. apply referencesWithin_lambda.
  - intros ls t name ins [Houter He] Hcolumn. cbn [refersOnlyTo] in He.
    by apply He.
Qed.

(** Whatever is compiled, the stack of scopes follows [ScopeTrace]. *)
Lemma compileExpression_scopes (depth : nat) (expr : ITypedExpr)
    config flatteningCandidates enableConstantFolding s r s' :
  compileExpression registry depth expr config flatteningCandidates enableConstantFolding s
  = Some (r, s') →
  ScopeTrace (λ _ _, True) (scopes s) (scopes s').
Proof.
  intros Hrun.
  eapply (compileExpression_traces registry (λ _ _, True) (λ _ _, True));
    [..|exact Hrun|done]; try done.
  intros ls e _. by apply Forall_true.
Qed.

Lemma captureFieldReference_lookup field reference fieldAccess stack i scope :
  stack !! i = Some scope →
  ∃ scope', captureFieldReference field reference fieldAccess stack !! i = Some scope'
    ∧ (scope' = scope
       ∨ ((field ∉ locals scope) ∧ (field ∉ capture scope) ∧ i < length stack - 1
          ∧ scope' = addCapture field reference fieldAccess scope)).
Proof.
  revert i. induction stack as [|first [|parent grandparents] IH]; intros i Hi; [done|by eauto|].
  rewrite captureFieldReference_cons.
  destruct (bool_decide (field ∈ locals first)) eqn:Hlocal; [by eauto|].
  destruct (bool_decide (field ∈ capture first)) eqn:Hcaptured; [by eauto|]. cbn [orb].
  apply bool_decide_eq_false in Hlocal, Hcaptured.
  destruct i as [|i]; cbn in Hi.
  - simplify_eq. eexists. split; [done|]. right. split_and!; [done..|cbn; lia|done].
  - destruct (IH i Hi) as (scope' & Hscope' & Hcases). exists scope'. split; [done|].
    destruct Hcases as [?|(? & ? & ? & ?)]; [by left|right].
    split_and!; [done..|cbn in *; lia|done].
Qed.

Lemma compileLambda_closed depth signature body config flatteningCandidates
    enableConstantFolding s p s' :
  rewritesKeepReferences registry →
  refersOnlyTo registry [signature.*1] body →
  compileLambda
    (λ expr, compileExpression registry depth expr config flatteningCandidates
               enableConstantFolding)
    signature body config s = Some (Returns p, s') →
  ∃ bodyPtr, node <$> heap s' !! p = Some (LambdaExpr signature [] bodyPtr).
Proof.
  intros Hrewrites Hbody Hrun. unfold compileLambda in Hrun.
  apply bind_inv in Hrun as [([] & s0 & Hpush & Hrun)|(e & _ & ?)]; [|done].
  unfold modify in Hpush. injection Hpush as <-.
  apply bind_inv in Hrun as [([bodyPtr lambdaScope] & s1 & Hrun1 & Hrun)|(e & _ & ?)]; [|done].
  destruct (compileExpression _ _ _ _ _ _ _) as [[r2 s2]|] eqn:Hcompile; [|done].
  apply compileExpression_outer_captures with (outer := length (scopes s)) in Hcompile;
    [|done|]; cycle 1.
  { split; cbn; rewrite !length_fmap; [lia|].
    by replace (S (length (scopes s)) - length (scopes s)) with 1 by lia. }
  apply ScopeTrace_outer in Hcompile. cbn [scopes setScopes length] in Hcompile.
  replace (S (length (scopes s)) - length (scopes s) - 1) with 0 in Hcompile by lia.
  rewrite !drop_0 in Hcompile.
  destruct (scopes s2) as [|lambdaScope' parents]; [done|].
  injection Hcompile as Hcapture _. cbn in Hcapture.
  assert (lambdaScope' = lambdaScope) as -> by (destruct r2; by simplify_eq).
  rewrite Hcapture in Hrun. cbn [length] in Hrun. rewrite take_0 in Hrun.
  cbn [zip_with compileCaptures] in Hrun.
  exists bodyPtr. compile_unfold. destruct (heap s1 !! bodyPtr); simplify_eq.
  cbn. by rewrite lookup_insert_eq.
Qed.

End Captures.

(** The reference to a field is built and, for a top level input column,
    captured from the current scope outwards. *)
Lemma compileByKind_fieldAccess (registry : Registry)
    (compileExpression : ITypedExpr → Compile ExprPtr) t name ins compiledInputs
    config s :
  compileByKind registry compileExpression (FieldAccessTypedExpr t name ins)
    compiledInputs config s
  = Some (Returns (nextPtr s),
          {| heap := <[nextPtr s := makeExpr (FieldReference name) t compiledInputs false]>
                       (heap s);
             nextPtr := S (nextPtr s);
             scopes :=
               if isInputColumn registry (FieldAccessTypedExpr t name ins)
               then captureFieldReference name (nextPtr s)
                      (FieldAccessTypedExpr t name ins) (scopes s)
               else scopes s;
             exprSet := exprSet s |}).
Proof.
  unfold compileByKind. compile_unfold. cbn.
  by destruct (isInputColumn registry _).
Qed.

(** C5. A lambda whose body refers only to its own parameters, and to those
    of the lambdas inside it, is compiled to a [LambdaExpr] with an empty
    capture list (the registered rewrites introducing no reference). A
    reference to a top level input column, made under nested lambdas, is
    captured as the specification words it: on the scope stacks a
    compilation reaches, [captureFieldReference] appends the field to the
    captures of every lambda scope from the reference's own outwards, up to
    the scope that declares it, that neither declares nor already captures
    it, and that is what compiling the reference does to the stack; each
    scope is left as it was or has the field appended once at the
    end of its captures, so captures are in the order of first encounter
    and none is listed twice. In the example, c is a column of the input
    and x and y are parameters. *)
Theorem capture_discovery :
  (∀ registry depth signature body config flatteningCandidates enableConstantFolding
     s p s',
     rewritesKeepReferences registry →
     refersOnlyTo registry [signature.*1] body →
     compileLambda
       (λ expr, compileExpression registry depth expr config flatteningCandidates
                  enableConstantFolding)
       signature body config s = Some (Returns p, s') →
     ∃ bodyPtr, node <$> heap s' !! p = Some (LambdaExpr signature [] bodyPtr))
  ∧ (∀ field reference fieldAccess stack,
       capturesClosed stack →
       captureFieldReference field reference fieldAccess stack
       = captureInEveryScope field reference fieldAccess stack
       ∧ capturesClosed (captureFieldReference field reference fieldAccess stack))
  ∧ (∀ field reference fieldAccess stack i scope,
       stack !! i = Some scope →
       ∃ scope',
         captureFieldReference field reference fieldAccess stack !! i = Some scope'
         ∧ (scope' = scope
            ∨ ((field ∉ locals scope) ∧ (field ∉ capture scope) ∧ i < length stack - 1
               ∧ scope' = addCapture field reference fieldAccess scope)))
  ∧ (∀ registry compileExpression t name ins compiledInputs config s,
       isInputColumn registry (FieldAccessTypedExpr t name ins) = true →
       capturesClosed (scopes s) →
       compileByKind registry compileExpression (FieldAccessTypedExpr t name ins)
         compiledInputs config s
       = Some (Returns (nextPtr s),
               {| heap := <[nextPtr s :=
                              makeExpr (FieldReference name) t compiledInputs false]>
                            (heap s);
                  nextPtr := S (nextPtr s);
                  scopes := captureInEveryScope name (nextPtr s)
                              (FieldAccessTypedExpr t name ins) (scopes s);
                  exprSet := exprSet s |}))
  ∧ (∀ exprSet, capturesClosed (scopes (initialState exprSet)))
  ∧ (∀ registry depth expr config flatteningCandidates enableConstantFolding s r s',
       capturesClosed (scopes s) →
       compileExpression registry depth expr config flatteningCandidates
         enableConstantFolding s = Some (r, s') →
       capturesClosed (scopes s'))
  ∧ match exampleRun
            [lambda "x" (lambda "y"
               (plus (plus (column (Scalar BIGINT) "c") (column (Scalar BIGINT) "x"))
                     (plus (column (Scalar BIGINT) "c") (column (Scalar BIGINT) "y"))))]
            true true with
    | Some (Returns [p], s) => capturesOf 3 (heap s) p = [["c"]; ["c"; "x"]]
    | _ => False
    end.
Proof.
  split_and!.
  - intros. by eapply compileLambda_closed.
  - intros field reference fieldAccess stack Hclosed. split.
    + by apply captureFieldReference_refines.
    + by apply captureFieldReference_closed.
  - intros. by apply captureFieldReference_lookup.
  - intros registry compileExpression t name ins compiledInputs config s Hcolumn Hclosed.
    rewrite compileByKind_fieldAccess, Hcolumn.
    by rewrite captureFieldReference_refines.
  - done.
  - intros registry depth expr config flatteningCandidates enableConstantFolding s r s'
      Hclosed Hrun.
    eapply ScopeTrace_closed; [|done]. by eapply compileExpression_scopes.
  - vm_compute. done.
Qed.

Lemma capture_discovery_witness :
  match compileLambda
          (λ expr, compileExpression exampleRegistry 4 expr exampleConfig ∅ true)
          [("x", Scalar BIGINT)] (plus (column (Scalar BIGINT) "x") (bigint 1))
          exampleConfig (initialState (exampleExprSet true)) with
  | Some (Returns p, s') =>
      ∃ bodyPtr,
        node <$> heap s' !! p = Some (LambdaExpr [("x", Scalar BIGINT)] [] bodyPtr)
  | _ => False
  end.
Proof.
  destruct (compileLambda _ _ _ _ _) as [[[p|e] s']|] eqn:Hrun;
    [|by vm_compute in Hrun..].
  apply (proj1 capture_discovery exampleRegistry 4 [("x", Scalar BIGINT)]
           (plus (column (Scalar BIGINT) "x") (bigint 1)) exampleConfig ∅ true
           (initialState (exampleExprSet true)) p s'); [| |exact Hrun].
  - intros rewrite Hrewrite. by apply elem_of_nil in Hrewrite.
  - cbn. split_and!; try done. intros _. exists ["x"]. split; by left.
Defined.

(** ** Common subexpressions *)

Lemma getAlreadyCompiled_assign expr compiled visited :
  getAlreadyCompiled expr (assign expr compiled visited) = Some compiled.
Proof.
  unfold getAlreadyCompiled. induction visited as [|entry visited IH]; cbn.
  - by rewrite bool_decide_eq_true_2.
  - case_bool_decide as Hentry; cbn.
    + by rewrite bool_decide_eq_true_2.
    + by rewrite bool_decide_eq_false_2.
Qed.

Section Reuse.

Context (registry : Registry).

Lemma metadataOnly_lookup (f : ExprPtr → gmap ExprPtr Expr → gmap ExprPtr Expr) p h q :
  (∀ p h, withoutMetadata <$> f p h = withoutMetadata <$> h) →
  withoutMetadata <$> (f p h !! q) = withoutMetadata <$> (h !! q).
Proof. intros Hf. by rewrite <- !lookup_fmap, Hf. Qed.

Lemma reuseCompiled_run alreadyCompiled e s :
  heap s !! alreadyCompiled = Some e →
  reuseCompiled registry alreadyCompiled s
  = Some (Returns alreadyCompiled,
          if isMultiplyReferenced_ e then s else reusedState registry alreadyCompiled s).
Proof.
  intros He. unfold reuseCompiled. compile_unfold. rewrite He.
  destruct (isMultiplyReferenced_ e); cbn; [done|]. done.
Qed.

(** Lines 473-484: the expression has a compiled node in this scope. *)
Lemma compileRewrittenExpression_reuse compileExpression expr config flatteningCandidates
    enableConstantFolding s scope parents alreadyCompiled e :
  scopes s = scope :: parents →
  getAlreadyCompiled expr (visited scope) = Some alreadyCompiled →
  heap s !! alreadyCompiled = Some e →
  compileRewrittenExpression registry compileExpression expr config flatteningCandidates
    enableConstantFolding s
  = Some (Returns alreadyCompiled,
          if isMultiplyReferenced_ e then s else reusedState registry alreadyCompiled s).
Proof.
  intros Hscopes Hvisited He. unfold compileRewrittenExpression.
  erewrite bind_Returns; [|unfold currentScope; by rewrite Hscopes].
  rewrite Hvisited. by apply reuseCompiled_run.
Qed.

Lemma reusedState_lookup p s e :
  metadataOnly registry →
  heap s !! p = Some e →
  ∃ e', heap (reusedState registry p s) !! p = Some e' ∧ isMultiplyReferenced_ e' = true.
Proof.
  intros Hmetadata He. unfold reusedState. cbn [heap setHeap].
  pose proof (metadataOnly_lookup (computeMetadata registry) p
                (clearMetaData registry p (alter setMultiplyReferenced p (heap s))) p
                (λ p h, proj1 (Hmetadata p h))) as H1.
  pose proof (metadataOnly_lookup (clearMetaData registry) p
                (alter setMultiplyReferenced p (heap s)) p
                (λ p h, proj2 (Hmetadata p h))) as H2.
  rewrite H2, lookup_alter_eq, He in H1. cbn in H1.
  destruct (computeMetadata _ _ _ !! p) as [e'|]; [|done].
  exists e'. split; [done|]. cbn in H1. by injection H1.
Qed.

End Reuse.

Section Records.

Context (registry : Registry).

#[local] Instance nodesKept_reflexive : Reflexive nodesKept.
Proof. by intros s p. Qed.

#[local] Instance nodesKept_transitive : Transitive nodesKept.
Proof. intros s1 s2 s3 H12 H23 p Hp. by apply H23, H12. Qed.

#[local] Instance scopesKept_reflexive : Reflexive scopesKept.
Proof. by intros s. Qed.

#[local] Instance scopesKept_transitive : Transitive scopesKept.
Proof. intros s1 s2 s3 H12 H23. unfold scopesKept in *. congruence. Qed.

Lemma tryFoldIfConstant_nodesKept p : preserves nodesKept (tryFoldIfConstant registry p).
Proof.
  unfold tryFoldIfConstant. apply preserves_bind; [apply _..|apply preserves_get; apply _|].
  intros s. destruct (_ && _); [|apply preserves_ret; apply _].
  apply preserves_catchUserError; [apply _..|].
  apply preserves_bind; [apply _..| |intros _].
  { apply preserves_modify; [apply _..|]. intros s0 q Hq. cbn.
    rewrite markSkipped_lookup. case_bool_decide; [|done]. by apply fmap_is_Some. }
  destruct (evaluated _); [|apply preserves_raise; apply _].
  apply preserves_bind; [apply _..|apply preserves_getExpr; apply _|intros e].
  apply preserves_bind; [apply _..| |intros resultExpr].
  { intros s0 r s' Hrun q Hq. unfold newExpr in Hrun. simplify_eq. cbn.
    destruct (decide (nextPtr s0 = q)) as [->|]; [by rewrite lookup_insert_eq|].
    by rewrite lookup_insert_ne. }
  apply preserves_bind; [apply _..| |intros inputs].
  { apply preserves_mapM; [apply _..|]. apply Forall_forall. intros i _.
    apply preserves_getExpr; apply _. }
  apply preserves_bind; [apply _..| |intros _; apply preserves_ret; apply _].
  destruct (_ || _); [|apply preserves_ret; apply _].
  apply preserves_modify; [apply _..|]. intros s0 q Hq. cbn.
  destruct (decide (resultExpr = q)) as [->|]; [|by rewrite lookup_alter_ne].
  rewrite lookup_alter_eq. by apply fmap_is_Some.
Qed.

Lemma tryFoldIfConstant_result p s compiled s' :
  tryFoldIfConstant registry p s = Some (Returns compiled, s') →
  is_Some (heap s !! p) →
  scopes s' = scopes s ∧ is_Some (heap s' !! compiled).
Proof.
  intros Hrun Hp. split.
  { eapply (preserves_tryFoldIfConstant scopesKept); [apply _..| |exact Hrun].
    by intros ? ? []. }
  pose proof (tryFoldIfConstant_nodesKept p s _ _ Hrun) as Hkept.
  unfold tryFoldIfConstant in Hrun.
  apply bind_inv in Hrun as [(s0 & s0' & Hget & Hrun)|(? & ? & ?)]; [|done].
  unfold get in Hget. injection Hget as <- <-.
  destruct (_ && _); [|unfold mret, Compile_ret in Hrun; simplify_eq; done].
  unfold catchUserError in Hrun.
  match type of Hrun with
  | match ?body s with _ => _ end = _ => destruct (body s) as [[[a|e] s1]|] eqn:Hbody
  end; [|destruct e; simplify_eq; by apply Hkept|done].
  injection Hrun as -> ->.
  apply bind_inv in Hbody as [([] & s1 & Hmodify & Hbody)|(? & ? & ?)]; [|done].
  destruct (evaluated _); [|done].
  apply bind_inv in Hbody as [(e & s2 & _ & Hbody)|(? & ? & ?)]; [|done].
  apply bind_inv in Hbody as [(resultExpr & s3 & Hnew & Hbody)|(? & ? & ?)]; [|done].
  apply bind_inv in Hbody as [(inputs & s4 & Hinputs & Hbody)|(? & ? & ?)]; [|done].
  apply mapM_getExpr_state in Hinputs as ->.
  apply bind_inv in Hbody as [([] & s5 & Hflag & Hbody)|(? & ? & ?)]; [|done].
  unfold mret, Compile_ret in Hbody. injection Hbody as -> ->.
  unfold newExpr in Hnew. injection Hnew as <- <-.
  destruct (_ || _).
  - compile_unfold. injection Hflag as <-. cbn.
    rewrite lookup_alter_eq, lookup_insert_eq. by eexists.
  - unfold mret, Compile_ret in Hflag. injection Hflag as <-. cbn.
    rewrite lookup_insert_eq. by eexists.
Qed.

(** Lines 552-568 leave the compiled node in [visited], under the
    expression. *)
Lemma finishCompilation_records expr result enableConstantFolding s scope parents
    compiled s' :
  scopes s = scope :: parents →
  finishCompilation registry expr result enableConstantFolding s
  = Some (Returns compiled, s') →
  ∃ scope', scopes s' = scope' :: parents
    ∧ getAlreadyCompiled expr (visited scope') = Some compiled
    ∧ is_Some (heap s' !! compiled).
Proof.
  intros Hscopes Hrun. unfold finishCompilation in Hrun.
  apply bind_inv in Hrun as [([] & s1 & Hmetadata & Hrun)|(? & ? & ?)]; [|done].
  unfold onHeap, modify in Hmetadata. injection Hmetadata as <-.
  apply bind_inv in Hrun as [(resultExpr & s2 & Hresult & Hrun)|(? & ? & ?)]; [|done].
  unfold getExpr in Hresult. cbn [heap setHeap] in Hresult.
  destruct (computeMetadata registry result (heap s) !! result) as [resultExpr'|] eqn:Hlookup;
    [|done].
  injection Hresult as -> <-.
  apply bind_inv in Hrun as [(compiled' & s3 & Hfold & Hrun)|(? & ? & ?)]; [|done].
  assert (scopes s3 = scopes s ∧ is_Some (heap s3 !! compiled')) as [Hscopes3 Hcompiled].
  { destruct (_ && _).
    - apply bind_inv in Hfold as [(c & s4 & Hfold & Hclear)|(? & ? & ?)]; [|done].
      apply tryFoldIfConstant_result in Hfold as [Hscopes4 Hc]; [|by cbn; rewrite Hlookup].
      compile_unfold. injection Hclear as <- <-. by cbn.
    - unfold mret, Compile_ret in Hfold. injection Hfold as <- <-. cbn.
      by rewrite Hlookup. }
  compile_unfold. rewrite Hscopes3, Hscopes in Hrun. injection Hrun as <- <-.
  eexists. cbn. split_and!; [done| |done]. cbn. apply getAlreadyCompiled_assign.
Qed.

Lemma compileRewrittenExpression_records depth expr config flatteningCandidates
    enableConstantFolding s compiled s' :
  metadataOnly registry →
  compileRewrittenExpression registry
    (λ e, compileExpression registry depth e config flatteningCandidates
            enableConstantFolding)
    expr config flatteningCandidates enableConstantFolding s
  = Some (Returns compiled, s') →
  ∃ scope' parents, scopes s' = scope' :: parents
    ∧ getAlreadyCompiled expr (visited scope') = Some compiled
    ∧ is_Some (heap s' !! compiled).
Proof.
  intros Hmetadata Hrun. unfold compileRewrittenExpression in Hrun.
  apply bind_inv in Hrun as [(scope & s0 & Hscope & Hrun)|(? & ? & ?)]; [|done].
  unfold currentScope in Hscope.
  destruct (scopes s) as [|scope0 parents] eqn:Hscopes; [done|]. injection Hscope as <- <-.
  destruct (getAlreadyCompiled expr (visited scope0)) as [alreadyCompiled|] eqn:Hvisited.
  - destruct (heap s !! alreadyCompiled) as [e'|] eqn:Hlookup; cycle 1.
    { unfold reuseCompiled in Hrun.
      apply bind_inv in Hrun as [(e & s0 & He & Hrun)|(? & ? & ?)]; [|done].
      unfold getExpr in He. by rewrite Hlookup in He. }
    rewrite (reuseCompiled_run registry alreadyCompiled e' s Hlookup) in Hrun.
    injection Hrun as <- <-. exists scope0, parents.
    destruct (isMultiplyReferenced_ e'); [by rewrite Hlookup|].
    split_and!; [done..|].
    destruct (reusedState_lookup registry alreadyCompiled s e' Hmetadata Hlookup)
      as (e2 & He2 & _). by rewrite He2.
  - apply bind_inv in Hrun as [(compiledInputs & s1 & Hinputs & Hrun)|(? & ? & ?)]; [|done].
    apply bind_inv in Hrun as [(result & s2 & Hresult & Hrun)|(? & ? & ?)]; [|done].
    assert (∀ ls e, True →
              preserves (tracesScopes (λ _ _, True) ls)
                (compileExpression registry depth e config flatteningCandidates
                   enableConstantFolding)) as IH.
    { intros ls e _ s0 r0 s0' Hrun0 _. by eapply compileExpression_scopes. }
    apply (compileInputs_traces registry (λ _ _, True) (λ _ _, True)
             (λ _ _ _, Forall_true _ _ (λ _, I)) _ _ IH (locals <$> scopes s) expr I)
      in Hinputs.
    specialize (Hinputs eq_refl).
    apply (compileByKind_traces registry (λ _ _, True) (λ _ _, True)
             (λ _ _ _ _, I) (λ _ _ _ _ _ _, I) _ _ IH (locals <$> scopes s1) expr _ I)
      in Hresult.
    specialize (Hresult eq_refl).
    apply ScopeTrace_length in Hinputs, Hresult.
    destruct (scopes s2) as [|scope2 parents2] eqn:Hscopes2.
    { rewrite Hscopes in Hinputs. cbn in *. lia. }
    destruct (finishCompilation_records _ _ _ _ _ _ _ _ Hscopes2 Hrun)
      as (scope' & ? & ? & ?).
    by exists scope', parents2.
Qed.

(** Compiling again what has just been compiled. *)
Lemma compileExpression_again depth depth' expr config flatteningCandidates
    enableConstantFolding s compiled s1 :
  metadataOnly registry →
  compileExpression registry (S depth) expr config flatteningCandidates
    enableConstantFolding s = Some (Returns compiled, s1) →
  ∃ e s2,
    heap s1 !! compiled = Some e
    ∧ compileExpression registry (S depth') expr config flatteningCandidates
        enableConstantFolding s1 = Some (Returns compiled, s2)
    ∧ (if isMultiplyReferenced_ e
       then heap s2 = heap s1 ∧ exprSet s2 = exprSet s1
       else heap s2 = computeMetadata registry compiled
                        (clearMetaData registry compiled
                           (alter setMultiplyReferenced compiled (heap s1)))
            ∧ toReset (exprSet s2) = toReset (exprSet s1) ++ [compiled])
    ∧ ∃ e', heap s2 !! compiled = Some e' ∧ isMultiplyReferenced_ e' = true.
Proof.
  intros Hmetadata Hrun. cbn [compileExpression] in Hrun.
  apply bind_inv in Hrun as [([] & s0 & _ & Hrun)|(? & ? & ?)]; [|done].
  apply compileRewrittenExpression_records in Hrun
    as (scope1 & parents1 & Hscopes1 & Hvisited & [e He]); [|done].
  exists e. cbn [compileExpression].
  set (s1' := match rewriteExpression registry expr with
              | Some rewritten => setScopes (addRewritten rewritten scope1 :: parents1) s1
              | None => s1
              end).
  assert (∃ scope1', scopes s1' = scope1' :: parents1 ∧ visited scope1' = visited scope1
                     ∧ heap s1' = heap s1 ∧ exprSet s1' = exprSet s1)
    as (scope1' & Hscopes1' & Hvisited' & Hheap & HexprSet).
  { unfold s1'. destruct (rewriteExpression registry expr); by eexists. }
  exists (if isMultiplyReferenced_ e then s1' else reusedState registry compiled s1').
  split; [done|]. split.
  { erewrite bind_Returns; cycle 1.
    { instantiate (1 := s1'). instantiate (1 := tt). unfold s1'.
      destruct (rewriteExpression registry expr); [|done].
      compile_unfold. by rewrite Hscopes1. }
    eapply compileRewrittenExpression_reuse; [done| |by rewrite Hheap].
    by rewrite Hvisited'. }
  destruct (isMultiplyReferenced_ e) eqn:Hflag.
  - split; [done|]. exists e. by rewrite Hheap.
  - split.
    + unfold reusedState. cbn. by rewrite Hheap, HexprSet.
    + apply (reusedState_lookup registry compiled s1' e); [done|by rewrite Hheap].
Qed.

End Records.


(** ** The visited maps along a compilation *)

Lemma size_input input expr : input ∈ inputs expr → size input < size expr.
Proof.
  assert (∀ ins, input ∈ ins →
            size input ≤ (fix sum (inputs : list ITypedExpr) : nat :=
                            match inputs with
                            | [] => 0
                            | input :: inputs' => size input + sum inputs'
                            end) ins) as Hsum.
  { induction ins as [|first ins IH]; intros Hin; [by apply elem_of_nil in Hin|].
    apply elem_of_cons in Hin as [->|Hin]; [lia|]. specialize (IH Hin). lia. }
  destruct expr as [t v|t|t name ins|t index ins|t name ins|t ins isTry|t ins|signature body];
    cbn [inputs size]; intros Hin; try (by apply elem_of_nil in Hin);
    apply Hsum in Hin; lia.
Qed.

Lemma subterm_size part expr : subterm part expr → size part ≤ size expr.
Proof.
  induction 1 as [|part input expr Hin _ IH|part signature body _ IH]; [done| |cbn; lia].
  apply size_input in Hin. lia.
Qed.

Lemma properSubterm_size part expr : properSubterm part expr → size part < size expr.
Proof.
  intros [(input & Hin & Hpart)|(signature & body & -> & Hpart)].
  - apply size_input in Hin. apply subterm_size in Hpart. lia.
  - apply subterm_size in Hpart. cbn. lia.
Qed.

Lemma properSubterm_subterm part expr : properSubterm part expr → subterm part expr.
Proof.
  intros [(input & Hin & Hpart)|(signature & body & -> & Hpart)].
  - by eapply subterm_input.
  - by apply subterm_body.
Qed.

Lemma subterm_trans part middle expr :
  subterm part middle → subterm middle expr → subterm part expr.
Proof.
  intros Hpart. induction 1 as [|middle input expr Hin _ IH|middle signature body _ IH].
  - done.
  - eapply subterm_input; [done|by apply IH].
  - apply subterm_body. by apply IH.
Qed.

Lemma subterm_spliced registry name input part :
  part ∈ splicedInputs registry name input → subterm part input.
Proof.
  induction input as [| | | |t name' ins IH| | |] using ITypedExpr_ind';
    cbn [splicedInputs]; try (intros ->%list_elem_of_singleton; apply subterm_refl).
  destruct (_ && _); [|intros ->%list_elem_of_singleton; apply subterm_refl].
  intros Hpart. apply list_elem_of_In, in_concat in Hpart as (parts & Hparts & Hpart).
  apply in_map_iff in Hparts as (child & <- & Hchild%list_elem_of_In).
  apply list_elem_of_In in Hpart.
  eapply subterm_input; [exact Hchild|].
  rewrite Forall_forall in IH. by apply IH.
Qed.

Lemma getAlreadyCompiled_assign_ne key expr compiled visited :
  key ≠ expr →
  getAlreadyCompiled key (assign expr compiled visited) = getAlreadyCompiled key visited.
Proof.
  intros Hne. unfold getAlreadyCompiled.
  induction visited as [|entry visited IH]; cbn.
  - by rewrite bool_decide_eq_false_2.
  - destruct (decide (entry.1 = expr)) as [Hentry|Hentry].
    + rewrite (bool_decide_eq_true_2 _ Hentry). cbn.
      by rewrite !bool_decide_eq_false_2 by congruence.
    + rewrite (bool_decide_eq_false_2 _ Hentry). cbn.
      destruct (bool_decide (entry.1 = key)); [done|]. apply IH.
Qed.

Section Growth.

Context (Kv Kc : ITypedExpr → Prop).

Lemma visitedGrows_refl visited : visitedGrows Kv visited visited.
Proof. intros key. destruct (getAlreadyCompiled key visited) eqn:Hkey; [done|]. by intros []. Qed.

Lemma visitedGrows_trans v1 v2 v3 :
  visitedGrows Kv v1 v2 → visitedGrows Kv v2 v3 → visitedGrows Kv v1 v3.
Proof.
  intros H12 H23 key. specialize (H12 key). specialize (H23 key).
  destruct (getAlreadyCompiled key v1); [by rewrite H12 in H23|].
  destruct (getAlreadyCompiled key v2); [|done].
  intros _. apply H12. by eexists.
Qed.

Lemma visitedGrows_assign expr compiled visited :
  getAlreadyCompiled expr visited = None → Kv expr →
  visitedGrows Kv visited (assign expr compiled visited).
Proof.
  intros Habsent Hexpr key. destruct (decide (key = expr)) as [->|Hne].
  - by rewrite Habsent.
  - rewrite getAlreadyCompiled_assign_ne by done.
    destruct (getAlreadyCompiled key visited); [done|]. by intros [].
Qed.

Lemma scopeGrows_refl scope : scopeGrows Kv Kc scope scope.
Proof. split; [apply visitedGrows_refl|]. exists []. by rewrite app_nil_r. Qed.

Lemma scopeGrows_trans scope1 scope2 scope3 :
  scopeGrows Kv Kc scope1 scope2 → scopeGrows Kv Kc scope2 scope3 →
  scopeGrows Kv Kc scope1 scope3.
Proof.
  intros [Hv12 (l12 & Hc12 & Hl12)] [Hv23 (l23 & Hc23 & Hl23)]. split.
  - by eapply visitedGrows_trans.
  - exists (l12 ++ l23). split; [by rewrite Hc23, Hc12, app_assoc|by apply Forall_app].
Qed.

#[local] Instance stackGrows_reflexive : Reflexive (stackGrows Kv Kc).
Proof.
  intros s. split; [|by intros p]. apply Forall2_same_length_lookup. split; [done|].
  intros i scope scope' H1 H2. simplify_eq. apply scopeGrows_refl.
Qed.

#[local] Instance stackGrows_transitive : Transitive (stackGrows Kv Kc).
Proof.
  intros s1 s2 s3 [H12 Hn12] [H23 Hn23]. split; [|intros p Hp; by apply Hn23, Hn12].
  revert H23. generalize (scopes s3). induction H12 as [|a b l1 l2 Hab _ IH]; intros l3 H23.
  - by inversion H23.
  - inversion H23 as [|? c ? l3' Hbc Hl3]; subst. constructor; [|by apply IH].
    by eapply scopeGrows_trans.
Qed.

End Growth.

Lemma visitedGrows_mono (K K' : ITypedExpr → Prop) visited visited' :
  (∀ key, K key → K' key) → visitedGrows K visited visited' → visitedGrows K' visited visited'.
Proof.
  intros HK Hgrows key. specialize (Hgrows key).
  destruct (getAlreadyCompiled key visited); [done|]. auto.
Qed.

Lemma stackGrows_mono (Kv Kc Kv' Kc' : ITypedExpr → Prop) s s' :
  (∀ key, Kv key → Kv' key) → (∀ key, Kc key → Kc' key) →
  stackGrows Kv Kc s s' → stackGrows Kv' Kc' s s'.
Proof.
  intros Hv Hc [Hscopes Hnodes]. split; [|done].
  eapply Forall2_impl; [exact Hscopes|]. intros scope scope' [Hvisited (l & Hl & HK)].
  split; [by eapply visitedGrows_mono|]. exists l. split; [done|].
  eapply Forall_impl; [exact HK|done].
Qed.

Lemma stackGrows_proper expr (Kc : ITypedExpr → Prop) s s' :
  stackGrows (λ key, properSubterm key expr) Kc s s' →
  stackGrows (λ key, subterm key expr) Kc s s'.
Proof.
  apply stackGrows_mono; [|done]. intros key. apply properSubterm_subterm.
Qed.

Section GrowthWalk.

Context (registry : Registry).
Context (Hmetadata : metadataOnly registry).

#[local] Unset Default Proof Using.
#[local] Existing Instances stackGrows_reflexive stackGrows_transitive.

Lemma graphStep_scopes s s' : graphStep registry s s' → scopes s' = scopes s.
Proof. intros Hstep. destruct Hstep; reflexivity. Qed.

Lemma graphStep_nodesKept s s' : graphStep registry s s' → nodesKept s s'.
Proof.
  intros [s0 e|s0 p f|s0 p|s0 p|s0 set|s0 evaluation] q Hq; cbn.
  - destruct (decide (nextPtr s0 = q)) as [->|]; [by rewrite lookup_insert_eq|].
    by rewrite lookup_insert_ne.
  - destruct (decide (p = q)) as [->|]; [|by rewrite lookup_alter_ne].
    rewrite lookup_alter_eq. by apply fmap_is_Some.
  - apply (fmap_is_Some withoutMetadata).
    rewrite (metadataOnly_lookup (computeMetadata registry) p (heap s0) q
               (λ p h, proj1 (Hmetadata p h))).
    by apply fmap_is_Some.
  - apply (fmap_is_Some withoutMetadata).
    rewrite (metadataOnly_lookup (clearMetaData registry) p (heap s0) q
               (λ p h, proj2 (Hmetadata p h))).
    by apply fmap_is_Some.
  - done.
  - rewrite markSkipped_lookup. case_bool_decide; [|done]. by apply fmap_is_Some.
Qed.

#[local] Instance graphGrows_reflexive : Reflexive graphGrows.
Proof. intros s. split; [done|by intros p]. Qed.

#[local] Instance graphGrows_transitive : Transitive graphGrows.
Proof.
  intros s1 s2 s3 [H12 Hn12] [H23 Hn23]. split; [congruence|].
  intros p Hp. by apply Hn23, Hn12.
Qed.

Lemma graphGrows_graph s s' : graphStep registry s s' → graphGrows s s'.
Proof. intros Hstep. split; [by apply graphStep_scopes|by apply graphStep_nodesKept]. Qed.

Lemma graphGrows_stackGrows Kv Kc s s' : graphGrows s s' → stackGrows Kv Kc s s'.
Proof.
  intros [Hscopes Hnodes]. split; [|done]. rewrite Hscopes.
  apply Forall2_same_length_lookup. split; [done|].
  intros i scope scope' H1 H2. simplify_eq. apply scopeGrows_refl.
Qed.

Lemma stackGrows_graph Kv Kc s s' : graphStep registry s s' → stackGrows Kv Kc s s'.
Proof. intros Hstep. by apply graphGrows_stackGrows, graphGrows_graph. Qed.

(** The side conditions of the lemmas on [preserves], for both relations. *)
Ltac grows_side :=
  lazymatch goal with
  | |- Reflexive _ => apply _
  | |- Transitive _ => apply _
  | |- ∀ s s', graphStep _ s s' → graphGrows s s' => apply graphGrows_graph
  | |- ∀ s s', graphStep _ s s' → stackGrows _ _ s s' => apply stackGrows_graph
  | |- _ => idtac
  end.

Lemma captureFieldReference_grows Kv (Kc : ITypedExpr → Prop) field reference fieldAccess stack :
  Kc fieldAccess →
  Forall2 (scopeGrows Kv Kc) stack (captureFieldReference field reference fieldAccess stack).
Proof.
  intros Haccess. apply Forall2_same_length_lookup.
  split; [by rewrite captureFieldReference_length|].
  intros i scope scope' Hscope Hscope'.
  destruct (captureFieldReference_lookup field reference fieldAccess stack i scope Hscope)
    as (scope'' & Hlookup & Hcases).
  rewrite Hlookup in Hscope'. injection Hscope' as <-.
  destruct Hcases as [->|(_ & _ & _ & ->)]; [apply scopeGrows_refl|].
  split; [apply visitedGrows_refl|]. exists [fieldAccess]. split; [done|by constructor].
Qed.

Lemma compileCaptures_grows (Kv Kc : ITypedExpr → Prop) captures :
  Forall Kv captures.*1 → preserves (stackGrows Kv Kc) (compileCaptures captures).
Proof.
  induction captures as [|[expr inner] captures IH]; intros Hkeys; cbn [compileCaptures].
  { eapply preserves_ret; grows_side. }
  apply Forall_cons in Hkeys as [Hexpr Hkeys]. intros s r s' Hrun.
  apply bind_inv in Hrun as [(scope & s0 & Hscope & Hrun)|(e & Hscope & _)]; cycle 1.
  { unfold currentScope in Hscope. destruct (scopes s); by simplify_eq. }
  unfold currentScope in Hscope.
  destruct (scopes s) as [|scope0 parents] eqn:Hscopes; [done|]. injection Hscope as <- <-.
  assert (∀ reference : ExprPtr,
            preserves (stackGrows Kv Kc)
              (compileCaptures captures ≫= λ references, mret (reference :: references)))
    as Hrest.
  { intros reference. eapply preserves_bind; grows_side; [by apply IH|].
    intros references. eapply preserves_ret; grows_side. }
  destruct (getAlreadyCompiled expr (visited scope0)) as [reference|] eqn:Hvisited.
  { apply bind_inv in Hrun as [(reference' & s0 & Href & Hrun)|(e & Href & _)]; [|done].
    unfold mret, Compile_ret in Href. injection Href as <- <-.
    exact (Hrest reference _ _ _ Hrun). }
  apply bind_inv in Hrun as [(reference & s1 & Href & Hrun)|(e & Href & _)]; cycle 1.
  - apply bind_inv in Href as [(innerExpr & s0 & Hinner & Href)|(e' & Hinner & _)].
    + by compile_unfold.
    + unfold getExpr in Hinner. destruct (heap s !! inner); by simplify_eq.
  - apply bind_inv in Href as [(innerExpr & s0 & Hinner & Href)|(e' & _ & ?)]; [|done].
    unfold getExpr in Hinner. destruct (heap s !! inner) as [innerExpr'|]; [|done].
    injection Hinner as <- <-. compile_unfold. rewrite Hscopes in Href.
    injection Href as <- <-.
    etrans; [|exact (Hrest _ _ _ _ Hrun)].
    split; cycle 1.
    { intros p Hp. cbn. destruct (decide (nextPtr s = p)) as [->|];
        [by rewrite lookup_insert_eq|by rewrite lookup_insert_ne]. }
    cbn. rewrite Hscopes. constructor.
    + split; [by apply visitedGrows_assign|]. exists []. by rewrite app_nil_r.
    + apply Forall2_same_length_lookup. split; [done|].
      intros i sc sc' H1 H2. simplify_eq. apply scopeGrows_refl.
Qed.

Lemma finishCompilation_grows (Kv Kc : ITypedExpr → Prop) expr result
    enableConstantFolding s scope parents r s' :
  scopes s = scope :: parents →
  getAlreadyCompiled expr (visited scope) = None →
  Kv expr →
  finishCompilation registry expr result enableConstantFolding s = Some (r, s') →
  stackGrows Kv Kc s s'.
Proof.
  intros Hscopes Habsent Hexpr Hrun. unfold finishCompilation in Hrun.
  assert (preserves graphGrows
            (onHeap (computeMetadata registry result) ≫= λ _,
             getExpr result ≫= λ resultExpr,
             if enableConstantFolding && negb (isConstant resultExpr)
             then tryFoldIfConstant registry result ≫= λ compiled,
                  modify (λ s, setExprSet (clear (exprSet s)) s) ≫= λ _, mret compiled
             else mret result)) as Hprefix.
  { eapply preserves_bind; grows_side; [eapply preserves_computeMetadata; grows_side|].
    intros _. eapply preserves_bind; grows_side; [eapply preserves_getExpr; grows_side|].
    intros resultExpr. destruct (_ && _); [|eapply preserves_ret; grows_side].
    eapply preserves_bind; grows_side; [eapply preserves_tryFoldIfConstant; grows_side|].
    intros compiled.
    eapply preserves_bind; grows_side; [eapply preserves_exprSet with (f := clear); grows_side|].
    intros _. eapply preserves_ret; grows_side. }
  apply bind_inv in Hrun as [([] & s1 & Hmeta & Hrun)|(e & Hmeta & _)]; [|done].
  apply bind_inv in Hrun as [(resultExpr & s2 & Hresult & Hrun)|(e & Hresult & _)]; cycle 1.
  { apply graphGrows_stackGrows. eapply Hprefix.
    erewrite bind_Returns; [|exact Hmeta]. erewrite bind_Throws; [done|exact Hresult]. }
  apply bind_inv in Hrun as [(compiled & s3 & Hfold & Hrun)|(e & Hfold & _)]; cycle 1.
  { apply graphGrows_stackGrows. eapply Hprefix.
    erewrite bind_Returns; [|exact Hmeta]. erewrite bind_Returns; [|exact Hresult].
    exact Hfold. }
  assert (graphGrows s s3) as [Hscopes3 Hnodes3].
  { eapply Hprefix.
    erewrite bind_Returns; [|exact Hmeta]. erewrite bind_Returns; [|exact Hresult].
    exact Hfold. }
  compile_unfold. rewrite Hscopes3, Hscopes in Hrun. injection Hrun as <- <-.
  split; [|done]. cbn. rewrite Hscopes. constructor.
  - split; [by apply visitedGrows_assign|]. exists []. by rewrite app_nil_r.
  - apply Forall2_same_length_lookup. split; [done|].
    intros i sc sc' H1 H2. simplify_eq. apply scopeGrows_refl.
Qed.

Section Recursion.

Context (config : QueryConfig) (flatteningCandidates : gset string)
  (enableConstantFolding : bool).
Context (compileExpression : ITypedExpr → Compile ExprPtr).
Context (IH : ∀ expr,
           preserves (stackGrows (λ key, subterm key expr) (λ key, subterm key expr))
             (compileExpression expr)).

Lemma compileInputs_grows expr :
  preserves (stackGrows (λ key, properSubterm key expr) (λ key, subterm key expr))
    (compileInputs registry compileExpression expr flatteningCandidates).
Proof.
  unfold compileInputs.
  assert (∀ ins, ins ⊆ inputs expr → Forall (λ input, input ∈ inputs expr) ins) as Hall.
  { intros ins Hins. apply Forall_forall. intros input Hin. by apply Hins. }
  specialize (Hall (inputs expr) ltac:(done)). revert Hall.
  destruct (shouldFlatten registry expr flatteningCandidates) as [name|].
  all: match goal with
       | |- _ → preserves ?R (?each _ []) =>
           intros Hall;
           cut (∀ ins acc, Forall (λ input, input ∈ inputs expr) ins → preserves R (each ins acc));
             [intros Heach; by apply Heach|]
       end.
  all: intros ins acc Hins; revert acc;
    induction Hins as [|input ins Hinput _ IHins]; intros acc;
    [eapply preserves_ret; grows_side|].
  all: destruct (isInputKind input);
    [eapply preserves_bind; grows_side; [eapply preserves_VELOX_CHECK; grows_side|];
     intros _; apply IHins|].
  - eapply preserves_bind; grows_side; [|intros compiled; apply IHins].
    eapply preserves_mapM; grows_side.
    rewrite flattenInput_spliced. cbn [app]. apply Forall_forall.
    intros part Hpart%subterm_spliced s r s' Hrun.
    eapply stackGrows_mono; [..|by eapply IH]; cbn.
    + intros key Hkey. left. exists input. split; [done|by eapply subterm_trans].
    + intros key Hkey. eapply subterm_input; [done|by eapply subterm_trans].
  - eapply preserves_bind; grows_side; [|intros compiled; apply IHins].
    intros s r s' Hrun. eapply stackGrows_mono; [..|by eapply IH]; cbn.
    + intros key Hkey. left. by exists input.
    + intros key Hkey. by eapply subterm_input.
Qed.

Lemma compileLambda_grows (Kv Kc : ITypedExpr → Prop) signature lambdaBody :
  (∀ key, subterm key lambdaBody → Kv key) →
  (∀ key, subterm key lambdaBody → Kc key) →
  preserves (stackGrows Kv Kc)
    (compileLambda compileExpression signature lambdaBody config).
Proof.
  intros HKv HKc s r s' Hrun. unfold compileLambda in Hrun.
  apply bind_inv in Hrun as [([] & s0 & Hpush & Hrun)|(e & Hpush & _)];
    [|by unfold modify in Hpush].
  unfold modify in Hpush. injection Hpush as <-.
  assert (∀ r1 s1,
            match compileExpression lambdaBody (setScopes (newScope signature.*1 :: scopes s) s) with
            | Some (r, s') =>
                match scopes s' with
                | lambdaScope :: parents =>
                    match r with
                    | Returns body => Some (Returns (body, lambdaScope), setScopes parents s')
                    | Throws e => Some (Throws e, setScopes parents s')
                    end
                | [] => Some (Throws (VeloxRuntimeError "no scope"), s')
                end
            | None => None
            end = Some (r1, s1) →
            stackGrows Kv Kc s s1
            ∧ ∀ body lambdaScope, r1 = Returns (body, lambdaScope) →
                Forall Kv (captureFieldAccesses lambdaScope)) as Hbody.
  { intros r1 s1 Hbody.
    destruct (compileExpression lambdaBody _) as [[r2 s2]|] eqn:Hcompile; [|done].
    apply IH in Hcompile as [Hstack Hnodes]. cbn [scopes setScopes] in Hstack.
    inversion Hstack as [|new lambdaScope ? parents Hlambda Hparents Hnew Hscopes2].
    rewrite <- Hscopes2 in Hbody.
    assert (s1 = setScopes parents s2) as -> by (destruct r2; by simplify_eq).
    split.
    - eapply (stackGrows_mono (λ key, subterm key lambdaBody) (λ key, subterm key lambdaBody));
        [done..|]. by split.
    - intros body lambdaScope' ->. destruct r2; [|done]. injection Hbody as <- <-.
      destruct Hlambda as [_ (accesses & -> & Haccesses)]. cbn.
      eapply Forall_impl; [exact Haccesses|done]. }
  apply bind_inv in Hrun as [([body lambdaScope] & s1 & Hrun1 & Hrun)|(e & Hrun & _)];
    [|by eapply Hbody].
  destruct (Hbody _ _ Hrun1) as [Hgrows Haccesses]. specialize (Haccesses _ _ eq_refl).
  etrans; [exact Hgrows|].
  assert (preserves (stackGrows Kv Kc)
    (compileCaptures (zip (take (length (capture lambdaScope)) (captureFieldAccesses lambdaScope))
                          (captureReferences lambdaScope))
     ≫= λ captureReferences, getExpr body
     ≫= λ bodyExpr, newExpr (makeExpr (LambdaExpr signature captureReferences body)
                               (FUNCTION (signature.*2) (type_ bodyExpr)) []
                               (exprTrackCpuUsage config)))) as Hrest.
  { eapply preserves_bind; grows_side; [ |intros captureReferences].
    { apply compileCaptures_grows. apply Forall_forall. intros key Hkey.
      apply list_elem_of_fmap in Hkey as ([key' inner] & -> & Hpair).
      apply elem_of_zip_l in Hpair. cbn.
      rewrite Forall_forall in Haccesses. apply Haccesses.
      by eapply subseteq_take. }
    eapply preserves_bind; grows_side; [eapply preserves_getExpr; grows_side|intros bodyExpr].
    eapply preserves_newExpr; grows_side. }
  exact (Hrest _ _ _ Hrun).
Qed.

Lemma compileByKind_grows expr compiledInputs :
  preserves (stackGrows (λ key, properSubterm key expr) (λ key, subterm key expr))
    (compileByKind registry compileExpression expr compiledInputs config).
Proof.
  unfold compileByKind.
  destruct expr as [t v|t|t name ins|t index ins|t name ins|t ins isTry|t ins|signature body].
  - eapply preserves_newExpr; grows_side.
  - eapply preserves_raise; grows_side.
  - eapply preserves_bind; grows_side; [eapply preserves_newExpr; grows_side|].
    intros fieldReference.
    eapply preserves_bind; grows_side; [|intros _; eapply preserves_ret; grows_side].
    destruct (isInputColumn _ _); [|eapply preserves_ret; grows_side].
    eapply preserves_modify; grows_side. intros s. split; [|by intros p].
    cbn [scopes setScopes]. apply captureFieldReference_grows. apply subterm_refl.
  - eapply preserves_newExpr; grows_side.
  - eapply preserves_compileCall; grows_side.
  - eapply preserves_bind; grows_side; [|intros p; eapply preserves_nonNull; grows_side].
    eapply preserves_compileCast; grows_side.
  - eapply preserves_bind; grows_side; [|intros p; eapply preserves_nonNull; grows_side].
    eapply preserves_getSpecialForm; grows_side.
  - apply compileLambda_grows.
    + intros key Hkey. right. by exists signature, body.
    + intros key Hkey. by apply subterm_body.
Qed.

Lemma compileRewrittenExpression_grows expr :
  preserves (stackGrows (λ key, subterm key expr) (λ key, subterm key expr))
    (compileRewrittenExpression registry compileExpression expr config
       flatteningCandidates enableConstantFolding).
Proof.
  intros s r s' Hrun. unfold compileRewrittenExpression in Hrun.
  apply bind_inv in Hrun as [(scope & s0 & Hscope & Hrun)|(e & Hscope & _)]; cycle 1.
  { unfold currentScope in Hscope. destruct (scopes s); by simplify_eq. }
  unfold currentScope in Hscope.
  destruct (scopes s) as [|scope0 parents] eqn:Hscopes; [done|]. injection Hscope as <- <-.
  destruct (getAlreadyCompiled expr (visited scope0)) as [alreadyCompiled|] eqn:Hvisited.
  { eapply preserves_reuseCompiled; grows_side; [..|exact Hrun]; grows_side. }
  assert (∀ r12 s12,
            (compileInputs registry compileExpression expr flatteningCandidates
             ≫= λ compiledInputs,
                  compileByKind registry compileExpression expr compiledInputs config) s
            = Some (r12, s12) →
            stackGrows (λ key, properSubterm key expr) (λ key, subterm key expr) s s12)
    as Hbuilt.
  { eapply preserves_bind; grows_side; [apply compileInputs_grows|].
    intros compiledInputs. apply compileByKind_grows. }
  apply bind_inv in Hrun as [(compiledInputs & s1 & Hinputs & Hrun)|(e & Hinputs & _)]; cycle 1.
  { apply stackGrows_proper.
    eapply Hbuilt. erewrite bind_Throws; [done|exact Hinputs]. }
  apply bind_inv in Hrun as [(result & s2 & Hresult & Hrun)|(e & Hresult & _)]; cycle 1.
  { apply stackGrows_proper.
    eapply Hbuilt. erewrite bind_Returns; [|exact Hinputs]. exact Hresult. }
  assert (stackGrows (λ key, properSubterm key expr) (λ key, subterm key expr) s s2)
    as Hgrows.
  { eapply Hbuilt. erewrite bind_Returns; [|exact Hinputs]. exact Hresult. }
  etrans; [apply stackGrows_proper; exact Hgrows|].
  destruct Hgrows as [Hstack _]. rewrite Hscopes in Hstack.
  inversion Hstack as [|? scope2 ? parents2 [Hvisited2 _] _ Hnew Hscopes2].
  eapply finishCompilation_grows; [done| |apply subterm_refl|exact Hrun].
  specialize (Hvisited2 expr). rewrite Hvisited in Hvisited2.
  destruct (getAlreadyCompiled expr (visited scope2)) eqn:Hkey; [|done].
  apply properSubterm_size in Hvisited2; [lia|by eexists].
Qed.

End Recursion.

Context (Hrewrites : expressionRewrites registry = []).

Lemma compileExpression_grows depth config flatteningCandidates enableConstantFolding expr :
  preserves (stackGrows (λ key, subterm key expr) (λ key, subterm key expr))
    (compileExpression registry depth expr config flatteningCandidates
       enableConstantFolding).
Proof.
  revert expr. induction depth as [|depth IH]; intros expr; [by intros s r s' Hrun|].
  cbn [compileExpression]. unfold rewriteExpression. rewrite Hrewrites. cbn [default].
  eapply preserves_bind; grows_side; [eapply preserves_ret; grows_side|]. intros _.
  by apply compileRewrittenExpression_grows.
Qed.

End GrowthWalk.

(** ** Common subexpressions, end to end *)

Lemma exampleRegistry_metadataOnly : metadataOnly exampleRegistry.
Proof.
  intros p h. split; apply map_eq; intros q; rewrite !lookup_fmap; cbn.
  - unfold exampleComputeMetadata. destruct (h !! p) as [e|] eqn:Hp; [|done].
    destruct (metaDataComputed_ e); [done|].
    destruct (decide (p = q)) as [<-|]; [|by rewrite lookup_insert_ne].
    by rewrite lookup_insert_eq, Hp.
  - unfold exampleClearMetaData.
    destruct (decide (p = q)) as [<-|]; [|by rewrite lookup_alter_ne].
    rewrite lookup_alter_eq. by destruct (h !! p).
Qed.

(** * The cast kernels over a selection *)

Section Selections.

Context {T L : Type}.

Lemma applyToSelectedNoThrowLocal_guarded self rows func (s : CastState T L) :
  applyToSelectedNoThrowLocal self rows func s
  = applyToSelected rows (guardedRow self func) s.
Proof.
  unfold applyToSelectedNoThrowLocal, guardedRow.
  destruct (setNullInResultAtError self); revert s;
    induction rows as [|row rows IH]; intros s; try reflexivity;
    cbn [applyToSelected]; unfold mbind, Exec_bind, tryCatch;
    destruct (func row s) as [[[]|[m|m|m]] s1]; cbn; rewrite <- ?IH; reflexivity.
Qed.

Lemma applyToSelected_app {S} rows1 rows2 (func : vector_size_t → Exec S unit) s :
  applyToSelected (rows1 ++ rows2) func s
  = (applyToSelected rows1 func ;; applyToSelected rows2 func) s.
Proof.
  revert s. induction rows1 as [|row rows1 IH]; intros s; [reflexivity|].
  cbn [app applyToSelected]. unfold mbind, Exec_bind in *.
  destruct (func row s) as [[[]|e] s1]; [|reflexivity]. apply IH.
Qed.

Lemma applyToSelected_throws {S} rows (func : vector_size_t → Exec S unit) s e s' :
  applyToSelected rows func s = (Throws e, s') →
  ∃ before row after s0,
    rows = before ++ row :: after
    ∧ applyToSelected before func s = (Returns tt, s0)
    ∧ func row s0 = (Throws e, s').
Proof.
  revert s. induction rows as [|row rows IH]; intros s Hrun; [done|].
  cbn [applyToSelected] in Hrun. unfold mbind, Exec_bind in Hrun.
  destruct (func row s) as [[[]|e1] s1] eqn:Hrow.
  - destruct (IH _ Hrun) as (before & row' & after & s0 & -> & Hbefore & Hrow').
    exists (row :: before), row', after, s0. split; [done|]. split; [|done].
    cbn [applyToSelected]. unfold mbind, Exec_bind. by rewrite Hrow.
  - injection Hrun as -> ->. by exists [], row, rows, s.
Qed.

Lemma guardedRow_throws self func row (s s' : CastState T L) e :
  guardedRow self func row s = (Throws e, s') →
  func row s = (Throws e, s') ∧ ∃ m, e = VeloxRuntimeError m.
Proof.
  unfold guardedRow, tryCatch.
  destruct (func row s) as [[[]|[m|m|m]] s1]; [done| | |];
    destruct (setNullInResultAtError self); unfold throw; cbn; intros ?;
    simplify_eq; eauto.
Qed.

(** X1. The loop that guards a kernel lets no failure of a row out but an
    engine exception that is no user error: when the loop throws, the rows
    before some selected row have gone through, the kernel has thrown that
    very exception at this row, the state is as the kernel left it there,
    and the exception is an engine exception that is no user error. *)
Theorem only_system_errors_escape (self : CastExpr) (rows : SelectivityVector)
    (func : vector_size_t → Exec (CastState T L) unit) (s s' : CastState T L)
    (e : Thrown) :
  applyToSelectedNoThrowLocal self rows func s = (Throws e, s') →
  ∃ before row after s0 m,
    rows = before ++ row :: after
    ∧ applyToSelectedNoThrowLocal self before func s = (Returns tt, s0)
    ∧ func row s0 = (Throws e, s')
    ∧ e = VeloxRuntimeError m.
Proof.
  rewrite applyToSelectedNoThrowLocal_guarded. intros Hrun.
  apply applyToSelected_throws in Hrun
    as (before & row & after & s0 & -> & Hbefore & Hrow).
  apply guardedRow_throws in Hrow as [Hrow [m ->]].
  exists before, row, after, s0, m.
  by rewrite applyToSelectedNoThrowLocal_guarded.
Qed.

(** X2. A user error or a foreign exception thrown for a row stops neither
    the loop nor the rows after it: when no selected row can throw an
    engine exception that is no user error, the loop returns. *)
Theorem user_errors_are_contained (self : CastExpr) (rows : SelectivityVector)
    (func : vector_size_t → Exec (CastState T L) unit) (s : CastState T L) :
  (∀ row s0 s1 m, row ∈ rows → func row s0 ≠ (Throws (VeloxRuntimeError m), s1)) →
  ∃ s', applyToSelectedNoThrowLocal self rows func s = (Returns tt, s').
Proof.
  intros Hfunc.
  destruct (applyToSelectedNoThrowLocal self rows func s) as [[[]|e] s'] eqn:Hrun;
    [by eauto|].
  rewrite applyToSelectedNoThrowLocal_guarded in Hrun.
  apply applyToSelected_throws in Hrun
    as (before & row & after & s0 & -> & _ & Hrow).
  apply guardedRow_throws in Hrow as [Hrow [m ->]].
  destruct (Hfunc row s0 s' m); [|done].
  apply elem_of_app. right. apply elem_of_cons. by left.
Qed.

End Selections.

Section CastRows.

Context {L : Type}.

Lemma guardedRow_kernel (self : CastExpr) (converter : Converter)
    ToKind FromKind TPolicy (input : SimpleVector (NativeType FromKind)) row
    (s : CastState (NativeType ToKind) L) :
  guardedRow self
    (λ row, applyCastKernel self converter ToKind FromKind TPolicy row input) row s
  = errorPolicy self input row
      (classify (rowConversion (hooks_ self) converter ToKind FromKind TPolicy
                   (valueAt input row))) s.
Proof.
  rewrite <- (applyCastKernel_refines self converter ToKind FromKind TPolicy row input
                (λ row, applyCastKernel self converter ToKind FromKind TPolicy row input))
    by reflexivity.
  rewrite applyToSelectedNoThrowLocal_guarded. cbn [applyToSelected].
  unfold mbind, Exec_bind, mret, Exec_ret.
  by destruct (guardedRow _ _ _ _) as [[[]|e] s1].
Qed.

Lemma applyToSelected_ext {S} rows (f g : vector_size_t → Exec S unit) s :
  (∀ row s, f row s = g row s) →
  applyToSelected rows f s = applyToSelected rows g s.
Proof.
  intros Hfg. revert s. induction rows as [|row rows IH]; intros s; [done|].
  cbn [applyToSelected]. unfold mbind, Exec_bind. rewrite Hfg.
  destruct (g row s) as [[[]|e] s1]; [apply IH|done].
Qed.

Lemma applyCastPrimitives_rows (self : CastExpr) (converter : Converter)
    ToKind FromKind rows (input : SimpleVector (NativeType FromKind))
    (s : CastState (NativeType ToKind) L) :
  applyCastPrimitives self converter ToKind FromKind rows input s
  = applyToSelected rows (policyRow self converter ToKind FromKind input) s.
Proof.
  unfold applyCastPrimitives, policyRow.
  destruct (getPolicy (hooks_ self));
    rewrite applyToSelectedNoThrowLocal_guarded;
    apply applyToSelected_ext; intros row s0; apply guardedRow_kernel.
Qed.

(** The cells of another row are beyond the reach of the error policy. *)
Lemma errorPolicy_other {T F} (self : CastExpr) (input : SimpleVector F)
    (row other : vector_size_t) (o : RowOutcome T) (s : CastState T L) :
  other ≠ row →
  rowView other (errorPolicy self input row o s).2 = rowView other s
  ∧ captureErrorDetails (context (errorPolicy self input row o s).2)
    = captureErrorDetails (context s).
Proof.
  intros Hne. unfold errorPolicy.
  destruct o as [v| |detail|e]; [| |destruct (setNullInResultAtError self)|];
    unfold modifyState, throw; cbn [snd];
    rewrite ?rowView_setNull, ?rowView_recordError, ?decide_False by done;
    try done.
  split; [|done]. unfold rowView. cbn.
  rewrite lookup_insert_ne by done. do 2 f_equal.
  apply bool_decide_ext. set_solver.
Qed.

Lemma applyToSelected_other {S V} (view : S → V)
    (func : vector_size_t → Exec S unit) rows s :
  Forall (λ row, ∀ s, view (func row s).2 = view s) rows →
  view (applyToSelected rows func s).2 = view s.
Proof.
  intros Hrows. revert s. induction Hrows as [|row rows Hrow _ IH]; intros s; [done|].
  cbn [applyToSelected]. unfold mbind, Exec_bind.
  specialize (Hrow s). destruct (func row s) as [[[]|e] s1]; cbn [snd] in *.
  - by rewrite IH.
  - done.
Qed.

(** X3. A cast over a selection is the error policy of the specification
    applied to the conversion of each selected row, in the order of the
    rows; the first row whose conversion ends in a system error ends the
    cast, and the rows after it are not converted. *)
Theorem cast_of_a_selection (self : CastExpr) (converter : Converter)
    (ToKind FromKind : TypeKind) (rows : SelectivityVector)
    (input : SimpleVector (NativeType FromKind))
    (s : CastState (NativeType ToKind) L) :
  applyCastPrimitives self converter ToKind FromKind rows input s
  = applyToSelected rows (λ row,
      errorPolicy self input row
        (classify (rowConversion (hooks_ self) converter ToKind FromKind
                     (getPolicy (hooks_ self)) (valueAt input row)))) s
  ∧ ∀ before row after e,
      rows = before ++ row :: after →
      Forall (λ r, ∀ e', classify (rowConversion (hooks_ self) converter ToKind
                                     FromKind (getPolicy (hooks_ self))
                                     (valueAt input r)) ≠ SystemError e') before →
      classify (rowConversion (hooks_ self) converter ToKind FromKind
                  (getPolicy (hooks_ self)) (valueAt input row)) = SystemError e →
      applyCastPrimitives self converter ToKind FromKind rows input s
      = (Throws e,
         (applyCastPrimitives self converter ToKind FromKind before input s).2).
Proof.
  split; [apply applyCastPrimitives_rows|].
  intros before row after e -> Hbefore Hrow.
  rewrite !applyCastPrimitives_rows, applyToSelected_app.
  unfold mbind, Exec_bind.
  assert (∃ s0, applyToSelected before
                  (policyRow self converter ToKind FromKind input) s
                = (Returns tt, s0)) as [s0 Hs0].
  { clear Hrow. revert s. induction Hbefore as [|r before Hr _ IH]; intros s.
    - by eexists.
    - cbn [applyToSelected]. unfold mbind, Exec_bind.
      assert (∃ s1, policyRow self converter ToKind FromKind input r s
                    = (Returns tt, s1)) as [s1 ->].
      { unfold policyRow, errorPolicy.
        destruct (classify _) as [v| |detail|e']; [| | |by destruct (Hr e')];
          try destruct (setNullInResultAtError self); by eexists. }
      apply IH. }
  rewrite Hs0. cbn [snd applyToSelected]. unfold mbind, Exec_bind.
  unfold policyRow at 1. by rewrite Hrow.
Qed.

(** X4. A cast writes to the cells of the rows it is given and to no
    other: whether it returns or throws, a row outside the selection keeps
    its value, its null bit and its entry in the error column, and the
    context keeps its details flag. *)
Theorem cast_leaves_other_rows (self : CastExpr) (converter : Converter)
    (ToKind FromKind : TypeKind) (rows : SelectivityVector)
    (input : SimpleVector (NativeType FromKind))
    (s : CastState (NativeType ToKind) L) (other : vector_size_t) :
  other ∉ rows →
  let s' := (applyCastPrimitives self converter ToKind FromKind rows input s).2 in
  rawValues (result s') !! other = rawValues (result s) !! other
  ∧ (other ∈ nulls (result s') ↔ other ∈ nulls (result s))
  ∧ errors (context s') !! other = errors (context s) !! other
  ∧ flatType (result s') = flatType (result s)
  ∧ captureErrorDetails (context s') = captureErrorDetails (context s).
Proof.
  intros Hother s'. subst s'. rewrite applyCastPrimitives_rows.
  pose proof (applyToSelected_other
    (λ s : CastState (NativeType ToKind) L,
       (rowView other s, captureErrorDetails (context s)))
    (policyRow self converter ToKind FromKind input) rows s) as Hview.
  cbn beta in Hview.
  assert (Hrows : Forall (λ row, ∀ s0 : CastState (NativeType ToKind) L,
            (rowView other (policyRow self converter ToKind FromKind input row s0).2,
             captureErrorDetails
               (context (policyRow self converter ToKind FromKind input row s0).2))
            = (rowView other s0, captureErrorDetails (context s0))) rows).
  { apply Forall_forall. intros row Hrow s0.
    assert (other ≠ row) as Hne by (intros ->; done).
    destruct (errorPolicy_other self input row other
                (classify (rowConversion (hooks_ self) converter ToKind FromKind
                             (getPolicy (hooks_ self)) (valueAt input row))) s0 Hne)
      as [H1 H2].
    unfold policyRow. by rewrite H1, H2. }
  specialize (Hview Hrows). unfold rowView in Hview.
  injection Hview as Htype Hvalue Hnull Herror Hdetails.
  split_and!; try done.
  split; intros Hin.
  - apply (bool_decide_eq_true_2 _) in Hin. rewrite Hnull in Hin.
    by apply bool_decide_eq_true in Hin.
  - apply (bool_decide_eq_true_2 _) in Hin. rewrite <- Hnull in Hin.
    by apply bool_decide_eq_true in Hin.
Qed.

End CastRows.

Lemma only_system_errors_escape_witness :
  let self :=
    {| hooks_ := exampleHooks PrestoCastPolicy false; setNullInResultAtError := true |} in
  let func := λ row,
    applyCastKernel (L := unit) self exampleConverter DOUBLE VARCHAR PrestoCastPolicy
      row (exampleStrings ["  "; "1.5"; "2.5"]) in
  ∃ before row after s0 m,
    [0; 1; 2] = before ++ row :: after
    ∧ applyToSelectedNoThrowLocal self before func (emptyState "DOUBLE" true)
      = (Returns tt, s0)
    ∧ func row s0
      = (Throws (VeloxRuntimeError "Out of memory"),
         onResult (setNull 0) (emptyState "DOUBLE" true))
    ∧ VeloxRuntimeError "Out of memory" = VeloxRuntimeError m.
Proof.
  intros self func.
  apply (only_system_errors_escape self [0; 1; 2] func (emptyState "DOUBLE" true)
           (onResult (setNull 0) (emptyState "DOUBLE" true))
           (VeloxRuntimeError "Out of memory")).
  reflexivity.
Defined.

Lemma user_errors_are_contained_witness :
  let self :=
    {| hooks_ := exampleHooks PrestoCastPolicy false; setNullInResultAtError := false |} in
  let func := λ row : vector_size_t,
    if Nat.even row then throw (S := CastState Z unit) (VeloxUserError "An even row")
    else modifyState (onResult (setRaw row 1%Z)) in
  ∃ s', applyToSelectedNoThrowLocal self [0; 1; 2] func (emptyState "BIGINT" true)
        = (Returns tt, s').
Proof.
  intros self func.
  apply (user_errors_are_contained self [0; 1; 2] func (emptyState "BIGINT" true)).
  intros row s0 s1 m _. unfold func, throw, modifyState.
  destruct (Nat.even row); discriminate.
Defined.

Lemma cast_leaves_other_rows_witness :
  let self :=
    {| hooks_ := exampleHooks PrestoCastPolicy false; setNullInResultAtError := false |} in
  let s' :=
    (applyCastPrimitives (L := unit) self exampleConverter INTEGER VARCHAR [0; 1]
       (exampleStrings ["12"; "1x"; "7"]) (emptyState "INTEGER" true)).2 in
  rawValues (result s') !! 2 = None
  ∧ (2 ∈ nulls (result s') ↔ 2 ∈ nulls (result (emptyState (T := Z) "INTEGER" true)))
  ∧ errors (context s') !! 2 = None
  ∧ flatType (result s') = "INTEGER"
  ∧ captureErrorDetails (context s') = true.
Proof.
  intros self.
  apply (cast_leaves_other_rows (L := unit) self exampleConverter INTEGER VARCHAR [0; 1]
           (exampleStrings ["12"; "1x"; "7"]) (emptyState "INTEGER" true) 2).
  set_solver.
Defined.

(** * Strings that are no numbers, and timestamps that are none *)

Section StringEdges.

Context {L : Type}.

(** X5. Under a policy that rejects Unicode, a string cast to an integral
    type whose stripped text is not empty and has a byte outside ASCII
    fails with the message of the rejection, under the error policy: the
    row is nulled by a try-cast and gets a user error from a strict cast.
    This holds for every converter, which is not consulted. *)
Theorem unicode_is_rejected (self : CastExpr) (converter : Converter)
    (TPolicy : CastPolicy) (ToKind : TypeKind) (row : vector_size_t)
    (input : SimpleVector string) (s : CastState (NativeType ToKind) L) :
  throwOnUnicode TPolicy = true →
  ToKind ∈ [TINYINT; SMALLINT; INTEGER; BIGINT; HUGEINT] →
  let stripped := removeWhiteSpaces (hooks_ self) (valueAt input row) in
  String.length stripped ≠ 0 →
  isAscii stripped = false →
  applyCastKernel self converter ToKind VARCHAR TPolicy row input s
  = errorPolicy self input row
      (Failed "Unicode characters are not supported for conversion to integer types") s
  ∧ applyCastKernel self converter ToKind VARBINARY TPolicy row input s
    = errorPolicy self input row
        (Failed "Unicode characters are not supported for conversion to integer types") s.
Proof.
  intros Hunicode Hkind stripped Hlength Hascii.
  assert (Nat.eqb (String.length stripped) 0 = false) as Hempty
    by by apply Nat.eqb_neq.
  assert (∀ tryCast,
    kernelOf self row input
      (castFromString self TPolicy ToKind row input tryCast (valueAt input row)) s
    = errorPolicy self input row
        (Failed "Unicode characters are not supported for conversion to integer types") s)
    as Hkernel.
  { intros tryCast. unfold kernelOf, kernelCatch, castFromString.
    fold stripped.
    repeat (apply elem_of_cons in Hkind as [->|Hkind]);
      [..|by apply elem_of_nil in Hkind];
      cbn [isPrimitiveType isFixedWidth andb]; fold stripped;
      rewrite Hempty, Hunicode, Hascii;
      destruct self as [hooks []], s as [[[] errs] res cap]; reflexivity. }
  split; apply Hkernel.
Qed.

(** X6. A floating point value cast to a timestamp for which the hook
    answers with no timestamp makes the row null whether the cast nulls on
    error or not; nothing is recorded in the context, and no value is
    written. *)
Theorem timestamp_hook_may_answer_null (self : CastExpr) (converter : Converter)
    (TPolicy : CastPolicy) (row : vector_size_t)
    (input : SimpleVector Floating) (s : CastState Timestamp L) :
  castDoubleToTimestamp (hooks_ self) (valueAt input row) = Returns (HasValue None) →
  applyCastKernel self converter TIMESTAMP DOUBLE TPolicy row input s
  = (Returns tt, onResult (setNull row) s)
  ∧ applyCastKernel self converter TIMESTAMP REAL TPolicy row input s
    = (Returns tt, onResult (setNull row) s).
Proof.
  intros Hhook. unfold applyCastKernel, castRow. exec_simpl. rewrite Hhook.
  by destruct s.
Qed.

End StringEdges.

Lemma unicode_is_rejected_witness :
  let self :=
    {| hooks_ := exampleHooks SparkCastPolicy false; setNullInResultAtError := false |} in
  let input :=
    exampleStrings [String (Ascii.ascii_of_nat 195) (String (Ascii.ascii_of_nat 169) "1")] in
  applyCastKernel (L := unit) self exampleConverter BIGINT VARCHAR SparkCastPolicy 0
    input (emptyState "BIGINT" false)
  = (Returns tt,
     onContext (recordError 0 (StatusUserError None)) (emptyState "BIGINT" false)).
Proof.
  intros self input.
  apply (unicode_is_rejected (L := unit) self exampleConverter SparkCastPolicy BIGINT 0
           input (emptyState "BIGINT" false)).
  - reflexivity.
  - set_solver.
  - vm_compute. discriminate.
  - reflexivity.
Defined.

Lemma timestamp_hook_may_answer_null_witness :
  let self :=
    {| hooks_ := exampleHooks PrestoCastPolicy false; setNullInResultAtError := false |} in
  applyCastKernel (L := unit) self exampleConverter TIMESTAMP DOUBLE PrestoCastPolicy 0
    (exampleFloats [(0x7FF8000000000000%Z, "NaN")]) (emptyState "TIMESTAMP" true)
  = (Returns tt, onResult (setNull 0) (emptyState "TIMESTAMP" true)).
Proof.
  intros self.
  apply (timestamp_hook_may_answer_null (L := unit) self exampleConverter
           PrestoCastPolicy 0 (exampleFloats [(0x7FF8000000000000%Z, "NaN")])
           (emptyState "TIMESTAMP" true)).
  reflexivity.
Defined.

(** * The kernels to decimals *)

Section StoreOrFail.

Context {T L : Type}.

Lemma rowView_storeOrFail (self : CastExpr) row status exn (s : CastState T L) :
  rowView row (storeOrFail self row status exn s)
  = match status with
    | HasValue output =>
        (flatType (result s), Some output, bool_decide (row ∈ nulls (result s)),
         errors (context s) !! row)
    | HasError statusMessage =>
        if setNullInResultAtError self then
          (flatType (result s), rawValues (result s) !! row, true,
           errors (context s) !! row)
        else
          (flatType (result s), rawValues (result s) !! row,
           bool_decide (row ∈ nulls (result s)),
           Some (ExceptionError (exn statusMessage)))
    end.
Proof.
  unfold storeOrFail. destruct status as [output|statusMessage].
  - by rewrite rowView_setRaw, decide_True.
  - destruct (setNullInResultAtError self).
    + by rewrite rowView_setNull, decide_True.
    + by rewrite rowView_recordError, decide_True.
Qed.

Lemma rowView_storeOrFail_other (self : CastExpr) r row status exn (s : CastState T L) :
  r ≠ row → rowView row (storeOrFail self r status exn s) = rowView row s.
Proof.
  intros Hne. unfold storeOrFail. destruct status as [output|statusMessage].
  - by rewrite rowView_setRaw, decide_False.
  - destruct (setNullInResultAtError self).
    + by rewrite rowView_setNull, decide_False.
    + by rewrite rowView_recordError, decide_False.
Qed.

(** The cells of a selected row once every selected row has been stored or
    has failed. *)
Lemma storeOrFail_rows (self : CastExpr) (status : vector_size_t → Expected T)
    (exn : vector_size_t → string → Thrown) rows row (s : CastState T L) :
  NoDup rows → row ∈ rows →
  rowView row (foldl (λ s r, storeOrFail self r (status r) (exn r) s) s rows)
  = rowView row (storeOrFail self row (status row) (exn row) s).
Proof.
  intros Hnodup Hin.
  apply (foldl_rowView (λ r s, storeOrFail self r (status r) (exn r) s)); [| |done..].
  - intros r s0 Hne. by apply rowView_storeOrFail_other.
  - intros s1 s2 Hs. rewrite !rowView_storeOrFail.
    unfold rowView in Hs. injection Hs as -> -> -> ->. done.
Qed.

End StoreOrFail.

Section DecimalKernelFacts.

Context (getDecimalPrecisionScale : string → nat * nat).
Context (rescaleWithRoundUp : Z → nat → nat → nat → nat → Expected Z).
Context (rescaleInt : Z → nat → nat → option Z).
Context (rescaleFloatingPoint : Floating → nat → nat → Expected Z).
Context (decimalFromString : string → nat → nat → Expected Z).

#[local] Unset Default Proof Using.

(** X7. A decimal cast to a decimal of another precision and scale, over a
    selection: the cast returns, and a selected row whose value rescales
    has the rescaled value in the values buffer, its null bit left as it
    was; a row whose value does not rescale is null under a try-cast, and
    under a strict cast has a user error in the context whose message is
    the message of the status as it is, without the text that names the
    value and the types. *)
Theorem decimal_to_decimal (self : CastExpr) (rows : SelectivityVector)
    (input : SimpleVector Z) (fromType toType : string)
    (s : CastState Z unit) (row : vector_size_t) :
  NoDup rows → row ∈ rows →
  let fromPrecisionScale := getDecimalPrecisionScale fromType in
  let toPrecisionScale := getDecimalPrecisionScale toType in
  ∃ s',
    applyDecimalCastKernel getDecimalPrecisionScale rescaleWithRoundUp
      self rows input fromType toType s = (Returns tt, s')
    ∧ rowView row s'
      = match rescaleWithRoundUp (valueAt input row)
                fromPrecisionScale.1 fromPrecisionScale.2
                toPrecisionScale.1 toPrecisionScale.2 with
        | HasValue rescaledValue =>
            (flatType (result s), Some rescaledValue,
             bool_decide (row ∈ nulls (result s)), errors (context s) !! row)
        | HasError statusMessage =>
            if setNullInResultAtError self then
              (flatType (result s), rawValues (result s) !! row, true,
               errors (context s) !! row)
            else
              (flatType (result s), rawValues (result s) !! row,
               bool_decide (row ∈ nulls (result s)),
               Some (ExceptionError (VeloxUserError statusMessage)))
        end.
Proof.
  intros Hnodup Hin fromPrecisionScale toPrecisionScale.
  unfold applyDecimalCastKernel. eexists. split.
  - apply applyToSelectedNoThrowLocal_total
      with (step := λ r s,
              storeOrFail self r
                (rescaleWithRoundUp (valueAt input r)
                   fromPrecisionScale.1 fromPrecisionScale.2
                   toPrecisionScale.1 toPrecisionScale.2)
                VeloxUserError s).
    intros r s0. cbv zeta. unfold storeOrFail.
    destruct (rescaleWithRoundUp _ _ _ _ _); [done|].
    by destruct (setNullInResultAtError self).
  - rewrite (storeOrFail_rows self _ (λ _, VeloxUserError)) by done.
    apply rowView_storeOrFail.
Qed.

(** X8. An integer cast to a decimal, over a selection: the cast returns
    and leaves the context as it was, so that no error is recorded for any
    row, whether the cast nulls on error or not; a selected row whose value
    fits has the rescaled value in the values buffer, its null bit left as
    it was, and a row whose value does not fit is null. *)
Theorem integer_to_decimal (self : CastExpr) (rows : SelectivityVector)
    (input : SimpleVector Z) (toType : string)
    (s : CastState Z unit) :
  let toPrecisionScale := getDecimalPrecisionScale toType in
  ∃ s',
    applyIntToDecimalCastKernel getDecimalPrecisionScale rescaleInt
      self rows input toType s = (Returns tt, s')
    ∧ context s' = context s
    ∧ flatType (result s') = flatType (result s)
    ∧ ∀ row,
        match (if bool_decide (row ∈ rows)
               then Some (rescaleInt (valueAt input row)
                            toPrecisionScale.1 toPrecisionScale.2)
               else None) with
        | Some (Some rescaledValue) =>
            rawValues (result s') !! row = Some rescaledValue
            ∧ (row ∈ nulls (result s') ↔ row ∈ nulls (result s))
        | Some None =>
            row ∈ nulls (result s')
            ∧ rawValues (result s') !! row = rawValues (result s) !! row
        | None =>
            rawValues (result s') !! row = rawValues (result s) !! row
            ∧ (row ∈ nulls (result s') ↔ row ∈ nulls (result s))
        end.
Proof.
  intros toPrecisionScale. unfold applyIntToDecimalCastKernel.
  set (step := λ (r : vector_size_t) (s : CastState Z unit),
         match rescaleInt (valueAt input r) toPrecisionScale.1 toPrecisionScale.2 with
         | Some value => onResult (setRaw r value) s
         | None => onResult (setNull r) s
         end).
  exists (foldl (λ s r, step r s) s rows). split.
  { apply applyToSelectedNoThrowLocal_total. intros r s0. cbv zeta. unfold step.
    by destruct (rescaleInt _ _ _). }
  revert s. induction rows as [|r rows IH]; intros s.
  { split_and!; [done..|]. intros row.
    rewrite bool_decide_eq_false_2 by apply not_elem_of_nil. done. }
  cbn [foldl]. destruct (IH (step r s)) as (Hcontext & Htype & Hrows). clear IH.
  assert (context (step r s) = context s) as Hc
    by (unfold step; by destruct (rescaleInt (valueAt input r) _ _)).
  assert (flatType (result (step r s)) = flatType (result s)) as Ht
    by (unfold step; by destruct (rescaleInt (valueAt input r) _ _)).
  split_and!; [congruence..|].
  intros row. specialize (Hrows row).
  destruct (decide (r = row)) as [->|Hne].
  - rewrite (bool_decide_eq_true_2 (row ∈ row :: rows))
      by (apply elem_of_cons; by left).
    destruct (rescaleInt (valueAt input row) toPrecisionScale.1 toPrecisionScale.2)
      as [value|] eqn:Hvalue.
    + assert (step row s = onResult (setRaw row value) s) as Hs
        by (unfold step; by rewrite Hvalue).
      rewrite Hs in *. cbn in Hrows.
      destruct (bool_decide (row ∈ rows)).
      * exact Hrows.
      * destruct Hrows as [Hraw Hnull]. rewrite lookup_insert_eq in Hraw. done.
    + assert (step row s = onResult (setNull row) s) as Hs
        by (unfold step; by rewrite Hvalue).
      rewrite Hs in *. cbn in Hrows.
      destruct (bool_decide (row ∈ rows)).
      * exact Hrows.
      * destruct Hrows as [Hraw Hnull]. split; [|done].
        apply Hnull. apply elem_of_union. left. by apply elem_of_singleton.
  - assert (rawValues (result (step r s)) !! row = rawValues (result s) !! row
            ∧ (row ∈ nulls (result (step r s)) ↔ row ∈ nulls (result s)))
      as [Hraw Hnull].
    { unfold step. destruct (rescaleInt (valueAt input r) _ _); cbn.
      - by rewrite lookup_insert_ne.
      - split; [done|]. rewrite elem_of_union, elem_of_singleton.
        split; [intros [?|?]; [congruence|done] | by right]. }
    rewrite (bool_decide_ext (row ∈ r :: rows) (row ∈ rows)); cycle 1.
    { rewrite elem_of_cons. split; [intros [?|?]; [congruence|done] | by right]. }
    destruct (bool_decide (row ∈ rows));
      [destruct (rescaleInt (valueAt input row) _ _)|];
      destruct Hrows as [H1 H2]; split;
      first [exact H1 | exact H2 | by rewrite <- Hraw | by rewrite <- Hnull].
Qed.

(** X9. A floating point value cast to a decimal, over a selection: the
    cast returns; a selected row whose value rescales has the output in
    the values buffer, its null bit left as it was; a row whose value does
    not rescale is null under a try-cast, and under a strict cast has a
    user error in the context whose message names the value, its type and
    the target type before the message of the status. *)
Theorem floating_point_to_decimal (self : CastExpr) (rows : SelectivityVector)
    (input : SimpleVector Floating) (toType : string)
    (s : CastState Z unit) (row : vector_size_t) :
  NoDup rows → row ∈ rows →
  let toPrecisionScale := getDecimalPrecisionScale toType in
  ∃ s',
    applyFloatingPointToDecimalCastKernel getDecimalPrecisionScale rescaleFloatingPoint
      self rows input toType s = (Returns tt, s')
    ∧ rowView row s'
      = match rescaleFloatingPoint (valueAt input row)
                toPrecisionScale.1 toPrecisionScale.2 with
        | HasValue output =>
            (flatType (result s), Some output,
             bool_decide (row ∈ nulls (result s)), errors (context s) !! row)
        | HasError statusMessage =>
            if setNullInResultAtError self then
              (flatType (result s), rawValues (result s) !! row, true,
               errors (context s) !! row)
            else
              (flatType (result s), rawValues (result s) !! row,
               bool_decide (row ∈ nulls (result s)),
               Some (ExceptionError (VeloxUserError
                 ("Cannot cast " +:+ typeString input +:+ " '" +:+ toString input row
                  +:+ "' to " +:+ toType +:+ ". " +:+ statusMessage))))
        end.
Proof.
  intros Hnodup Hin toPrecisionScale.
  unfold applyFloatingPointToDecimalCastKernel. eexists. split.
  - apply applyToSelectedNoThrowLocal_total
      with (step := λ r s,
              storeOrFail self r
                (rescaleFloatingPoint (valueAt input r)
                   toPrecisionScale.1 toPrecisionScale.2)
                (makeBadCastException toType input r) s).
    intros r s0. cbv zeta. unfold storeOrFail.
    destruct (rescaleFloatingPoint _ _ _); [done|].
    by destruct (setNullInResultAtError self).
  - rewrite (storeOrFail_rows self _ (makeBadCastException toType input)) by done.
    apply rowView_storeOrFail.
Qed.

(** X10. A string cast to a decimal, over a selection: the text that is
    parsed is the value of the row with the white space of the hooks
    removed; the cast returns; a selected row whose text parses has the
    decimal in the values buffer, its null bit left as it was; a row whose
    text does not parse is null under a try-cast, and under a strict cast
    has a user error in the context whose message names the row as the
    input renders it, its type and the target type before the message of
    the status. *)
Theorem varchar_to_decimal (self : CastExpr) (rows : SelectivityVector)
    (input : SimpleVector string) (toType : string)
    (s : CastState Z unit) (row : vector_size_t) :
  NoDup rows → row ∈ rows →
  let toPrecisionScale := getDecimalPrecisionScale toType in
  ∃ s',
    applyVarcharToDecimalCastKernel getDecimalPrecisionScale decimalFromString
      self rows input toType s = (Returns tt, s')
    ∧ rowView row s'
      = match decimalFromString
                (removeWhiteSpaces (hooks_ self) (valueAt input row))
                toPrecisionScale.1 toPrecisionScale.2 with
        | HasValue decimalValue =>
            (flatType (result s), Some decimalValue,
             bool_decide (row ∈ nulls (result s)), errors (context s) !! row)
        | HasError statusMessage =>
            if setNullInResultAtError self then
              (flatType (result s), rawValues (result s) !! row, true,
               errors (context s) !! row)
            else
              (flatType (result s), rawValues (result s) !! row,
               bool_decide (row ∈ nulls (result s)),
               Some (ExceptionError (VeloxUserError
                 ("Cannot cast " +:+ typeString input +:+ " '" +:+ toString input row
                  +:+ "' to " +:+ toType +:+ ". " +:+ statusMessage))))
        end.
Proof.
  intros Hnodup Hin toPrecisionScale.
  unfold applyVarcharToDecimalCastKernel. eexists. split.
  - apply applyToSelected_total
      with (step := λ r s,
              storeOrFail self r
                (decimalFromString (removeWhiteSpaces (hooks_ self) (valueAt input r))
                   toPrecisionScale.1 toPrecisionScale.2)
                (makeBadCastException toType input r) s).
    intros r s0. cbv zeta. unfold storeOrFail.
    destruct (decimalFromString _ _ _); [done|].
    by destruct (setNullInResultAtError self).
  - rewrite (storeOrFail_rows self _ (makeBadCastException toType input)) by done.
    apply rowView_storeOrFail.
Qed.

End DecimalKernelFacts.


(** X11. A decimal cast to BOOLEAN: the cast returns a vector of type
    BOOLEAN in which every selected row is true exactly when its unscaled
    value is not zero, no other row has a value, and no row is null; the
    context is left as it was, so that no row fails. *)
Theorem decimal_to_boolean (self : CastExpr) (rows : SelectivityVector)
    (input : SimpleVector Z) (ctx : EvalCtx) :
  ∃ v,
    applyDecimalToBooleanCast self rows input ctx = (Returns v, ctx)
    ∧ flatType v = "BOOLEAN"
    ∧ nulls v = ∅
    ∧ ∀ row,
        rawValues v !! row
        = if bool_decide (row ∈ rows)
          then Some (negb (valueAt input row =? 0)%Z)
          else None.
Proof.
  unfold applyDecimalToBooleanCast.
  set (step := λ (r : vector_size_t) (s : CastState bool unit),
         onResult (setRaw r (negb (valueAt input r =? 0)%Z)) s).
  rewrite (applyToSelectedNoThrowLocal_total (L := unit) self rows _ step)
    by reflexivity.
  assert (∀ (s : CastState bool unit),
    context (foldl (λ s r, step r s) s rows) = context s
    ∧ flatType (result (foldl (λ s r, step r s) s rows)) = flatType (result s)
    ∧ nulls (result (foldl (λ s r, step r s) s rows)) = nulls (result s)
    ∧ ∀ row,
        rawValues (result (foldl (λ s r, step r s) s rows)) !! row
        = if bool_decide (row ∈ rows)
          then Some (negb (valueAt input row =? 0)%Z)
          else rawValues (result s) !! row) as Hfold.
  { induction rows as [|r rows IH]; intros s.
    { split_and!; [done..|]. intros row.
      by rewrite bool_decide_eq_false_2 by apply not_elem_of_nil. }
    cbn [foldl]. destruct (IH (step r s)) as (Hc & Ht & Hn & Hrows). clear IH.
    split_and!; [done..|]. intros row. rewrite Hrows.
    destruct (decide (row ∈ rows)) as [Hin|Hnotin].
    - rewrite (bool_decide_eq_true_2 _ Hin).
      by rewrite bool_decide_eq_true_2 by (apply elem_of_cons; by right).
    - rewrite (bool_decide_eq_false_2 _ Hnotin). unfold step. cbn.
      destruct (decide (r = row)) as [->|Hne].
      + rewrite lookup_insert_eq.
        by rewrite bool_decide_eq_true_2 by (apply elem_of_cons; by left).
      + rewrite lookup_insert_ne by done.
        rewrite bool_decide_eq_false_2; [done|].
        rewrite elem_of_cons. intros [?|?]; [congruence|done]. }
  destruct (Hfold {| context := ctx;
                     result := clearNulls rows (ensureWritable rows "BOOLEAN");
                     captured := tt |}) as (Hc & Ht & Hn & Hrows).
  eexists. split; [by rewrite Hc|]. split_and!.
  - by rewrite Ht.
  - rewrite Hn. cbn. apply empty_difference_L.
  - intros row. rewrite Hrows. by destruct (bool_decide (row ∈ rows)).
Qed.

Lemma decimal_to_decimal_witness :
  let self :=
    {| hooks_ := exampleHooks PrestoCastPolicy false; setNullInResultAtError := false |} in
  let input :=
    exampleDecimals "DECIMAL(5, 2)" [(12345%Z, "123.45"); (99999%Z, "999.99")] in
  ∃ s',
    applyDecimalCastKernel examplePrecisionScale exampleRescale self [0; 1] input
      "DECIMAL(5, 2)" "DECIMAL(4, 1)" (emptyState "DECIMAL(4, 1)" true)
    = (Returns tt, s')
    ∧ rowView 1 s'
      = ("DECIMAL(4, 1)", None, false,
         Some (ExceptionError (VeloxUserError "Decimal overflow"))).
Proof.
  intros self input.
  apply (decimal_to_decimal examplePrecisionScale exampleRescale self [0; 1] input
           "DECIMAL(5, 2)" "DECIMAL(4, 1)" (emptyState "DECIMAL(4, 1)" true) 1).
  - repeat constructor; set_solver.
  - set_solver.
Defined.

Lemma floating_point_to_decimal_witness :
  let self :=
    {| hooks_ := exampleHooks PrestoCastPolicy false; setNullInResultAtError := false |} in
  let input := exampleFloats [(0%Z, "0.0"); (0x7FF0000000000000%Z, "Infinity")] in
  ∃ s',
    applyFloatingPointToDecimalCastKernel examplePrecisionScale
      exampleRescaleFloatingPoint self [0; 1] input "DECIMAL(4, 1)"
      (emptyState "DECIMAL(4, 1)" false)
    = (Returns tt, s')
    ∧ rowView 1 s'
      = ("DECIMAL(4, 1)", None, false,
         Some (ExceptionError (VeloxUserError
           "Cannot cast DOUBLE 'Infinity' to DECIMAL(4, 1). The input value should be finite."))).
Proof.
  intros self input.
  apply (floating_point_to_decimal examplePrecisionScale exampleRescaleFloatingPoint
           self [0; 1] input "DECIMAL(4, 1)" (emptyState "DECIMAL(4, 1)" false) 1).
  - repeat constructor; set_solver.
  - set_solver.
Defined.

Lemma varchar_to_decimal_witness :
  let self :=
    {| hooks_ := exampleHooks PrestoCastPolicy false; setNullInResultAtError := false |} in
  let input := exampleStrings [" 12 "; " 1x "] in
  (∃ s',
     applyVarcharToDecimalCastKernel examplePrecisionScale exampleDecimalFromString
       self [0; 1] input "DECIMAL(4, 1)" (emptyState "DECIMAL(4, 1)" false)
     = (Returns tt, s')
     ∧ rowView 0 s' = ("DECIMAL(4, 1)", Some 120%Z, false, None))
  ∧ (∃ s',
       applyVarcharToDecimalCastKernel examplePrecisionScale exampleDecimalFromString
         self [0; 1] input "DECIMAL(4, 1)" (emptyState "DECIMAL(4, 1)" false)
       = (Returns tt, s')
       ∧ rowView 1 s'
         = ("DECIMAL(4, 1)", None, false,
            Some (ExceptionError (VeloxUserError
              "Cannot cast VARCHAR ' 1x ' to DECIMAL(4, 1). Value is not a number.")))).
Proof.
  intros self input. split.
  - apply (varchar_to_decimal examplePrecisionScale exampleDecimalFromString
             self [0; 1] input "DECIMAL(4, 1)" (emptyState "DECIMAL(4, 1)" false) 0).
    + repeat constructor; set_solver.
    + set_solver.
  - apply (varchar_to_decimal examplePrecisionScale exampleDecimalFromString
             self [0; 1] input "DECIMAL(4, 1)" (emptyState "DECIMAL(4, 1)" false) 1).
    + repeat constructor; set_solver.
    + set_solver.
Defined.

(** The kernels to decimals and to BOOLEAN at work: 1234 does not fit
    DECIMAL(3, 0), and the row is null with no error recorded although the
    cast is a strict one; a decimal is true unless it is zero. *)
Example decimal_kernels_at_work :
  (let self :=
     {| hooks_ := exampleHooks PrestoCastPolicy false; setNullInResultAtError := false |} in
   let run :=
     applyIntToDecimalCastKernel examplePrecisionScale exampleRescaleInt self [0; 1]
       (exampleDecimals "BIGINT" [(12%Z, "12"); (1234%Z, "1234")]) "DECIMAL(3, 0)"
       (emptyState "DECIMAL(3, 0)" true) in
   run.1 = Returns tt
   ∧ rowView 0 run.2 = ("DECIMAL(3, 0)", Some 12%Z, false, None)
   ∧ rowView 1 run.2 = ("DECIMAL(3, 0)", None, true, None))
  ∧ (let self :=
       {| hooks_ := exampleHooks PrestoCastPolicy false; setNullInResultAtError := false |} in
     let run :=
       applyDecimalToBooleanCast self [0; 2]
         (exampleDecimals "DECIMAL(5, 2)" [(0%Z, "0.00"); (1%Z, "0.01"); ((-5)%Z, "-0.05")])
         (emptyContext true) in
     cellAt 0 run = Some (Some false, false, None)
     ∧ cellAt 1 run = Some (None, false, None)
     ∧ cellAt 2 run = Some (Some true, false, None)).
Proof. repeat split; vm_compute; reflexivity. Qed.

(** * Flattening, from the candidates to the inputs *)

Section FlatteningFacts.

Context (registry : Registry).

Lemma calls_inv name expr :
  calls name expr ↔
    (∃ t ins, expr = CallTypedExpr t name ins)
    ∨ (∃ input, input ∈ inputs expr ∧ calls name input).
Proof.
  split.
  - intros [t ins|e input Hin Hcalls]; [left|right]; eauto.
  - intros [(t & ins & ->)|(input & Hin & Hcalls)].
    + apply calls_here.
    + by eapply calls_input.
Qed.

(** The loop of [collectCallNames] over the inputs. *)
Lemma collectCallNames_inputs (ins : list ITypedExpr) :
  Forall (λ input, ∀ names name,
            name ∈ collectCallNames input names ↔ name ∈ names ∨ calls name input) ins →
  ∀ names name,
    name ∈ (fix each (inputs : list ITypedExpr) (names : gset string) :=
              match inputs with
              | [] => names
              | input :: inputs' => each inputs' (collectCallNames input names)
              end) ins names
    ↔ name ∈ names ∨ ∃ input, input ∈ ins ∧ calls name input.
Proof.
  induction 1 as [|input ins Hinput _ IH]; intros names name.
  - split; [by left|]. intros [?|(input & Hin & _)]; [done|].
    by apply elem_of_nil in Hin.
  - rewrite IH, Hinput. split.
    + intros [[?|?]|(input' & Hin & Hcalls)]; [by left| |].
      * right. exists input. split; [apply elem_of_cons; by left|done].
      * right. exists input'. split; [apply elem_of_cons; by right|done].
    + intros [?|(input' & Hin & Hcalls)]; [by left; left|].
      apply elem_of_cons in Hin as [->|Hin]; [by left; right|].
      right. by exists input'.
Qed.

Lemma collectCallNames_calls expr :
  ∀ names name,
    name ∈ collectCallNames expr names ↔ name ∈ names ∨ calls name expr.
Proof.
  induction expr as [t v|t|t field ins IH|t index ins IH|t name' ins IH
                     |t ins isTry IH|t ins IH|signature body _]
    using ITypedExpr_ind'; intros names name; cbn [collectCallNames].
  - split; [by left|]. intros [?|Hcalls]; [done|].
    apply calls_inv in Hcalls as [(? & ? & ?)|(input & Hin & _)]; [done|].
    by apply elem_of_nil in Hin.
  - split; [by left|]. intros [?|Hcalls]; [done|].
    apply calls_inv in Hcalls as [(? & ? & ?)|(input & Hin & _)]; [done|].
    by apply elem_of_nil in Hin.
  - rewrite (collectCallNames_inputs ins IH), calls_inv. cbn [inputs].
    split; [intros [?|?]; [by left|by right; right]|].
    intros [?|[(? & ? & ?)|?]]; [by left|done|by right].
  - rewrite (collectCallNames_inputs ins IH), calls_inv. cbn [inputs].
    split; [intros [?|?]; [by left|by right; right]|].
    intros [?|[(? & ? & ?)|?]]; [by left|done|by right].
  - rewrite (collectCallNames_inputs ins IH), calls_inv. cbn [inputs].
    rewrite elem_of_union, elem_of_singleton. split.
    + intros [[->|?]|?]; [right; left; by eauto|by left|by right; right].
    + intros [?|[(? & ? & Heq)|?]]; [by left; right| |by right].
      injection Heq as _ -> _. by left; left.
  - rewrite (collectCallNames_inputs ins IH), calls_inv. cbn [inputs].
    split; [intros [?|?]; [by left|by right; right]|].
    intros [?|[(? & ? & ?)|?]]; [by left|done|by right].
  - rewrite (collectCallNames_inputs ins IH), calls_inv. cbn [inputs].
    split; [intros [?|?]; [by left|by right; right]|].
    intros [?|[(? & ? & ?)|?]]; [by left|done|by right].
  - split; [by left|]. intros [?|Hcalls]; [done|].
    apply calls_inv in Hcalls as [(? & ? & ?)|(input & Hin & _)]; [done|].
    by apply elem_of_nil in Hin.
Qed.

Lemma collectCallNames_sources (exprs : list ITypedExpr) names name :
  name ∈ foldl (λ names expr, collectCallNames expr names) names exprs
  ↔ name ∈ names ∨ ∃ expr, expr ∈ exprs ∧ calls name expr.
Proof.
  revert names. induction exprs as [|expr exprs IH]; intros names; cbn [foldl].
  - split; [by left|]. intros [?|(expr & Hin & _)]; [done|].
    by apply elem_of_nil in Hin.
  - rewrite IH, collectCallNames_calls. split.
    + intros [[?|?]|(expr' & Hin & Hcalls)]; [by left| |].
      * right. exists expr. split; [apply elem_of_cons; by left|done].
      * right. exists expr'. split; [apply elem_of_cons; by right|done].
    + intros [?|(expr' & Hin & Hcalls)]; [by left; left|].
      apply elem_of_cons in Hin as [->|Hin]; [by left; right|].
      right. by exists expr'.
Qed.

Lemma collectFlatteningCandidates_calls (sources : list ITypedExpr) name :
  name ∈ collectFlatteningCandidates registry sources
  ↔ (∃ source, source ∈ sources ∧ calls name source)
    ∧ ∃ metadata,
        vectorFunctionFactories registry name = Some metadata
        ∧ supportsFlattening metadata = true.
Proof.
  unfold collectFlatteningCandidates. rewrite elem_of_filter, collectCallNames_sources.
  split.
  - intros [Hflattens [Hempty|Hcalls]]; [by apply elem_of_empty in Hempty|].
    split; [done|].
    destruct (vectorFunctionFactories registry name) as [metadata|]; [|done].
    by exists metadata.
  - intros [Hcalls (metadata & -> & Hflattens)]. split; [done|by right].
Qed.

(** X12. The names that [compileExpressions] takes for candidates of
    flattening are those of the functions that are called somewhere in the
    sources, as far as [inputs()] reaches, and that the registry of vector
    functions has with [supportsFlattening]; so a call in the sources is
    flattened exactly when it is an AND or an OR, or when its function is
    registered with [supportsFlattening] and its inputs are of equivalent
    types. *)
Theorem flattening_candidates (sources : list ITypedExpr) :
  (∀ name,
     name ∈ collectFlatteningCandidates registry sources
     ↔ (∃ source, source ∈ sources ∧ calls name source)
       ∧ ∃ metadata,
           vectorFunctionFactories registry name = Some metadata
           ∧ supportsFlattening metadata = true)
  ∧ (∀ source t name ins,
       source ∈ sources → calls name source →
       (shouldFlatten registry (CallTypedExpr t name ins)
          (collectFlatteningCandidates registry sources) = Some name
        ↔ name = kAnd ∨ name = kOr
          ∨ ((∃ metadata,
                vectorFunctionFactories registry name = Some metadata
                ∧ supportsFlattening metadata = true)
             ∧ allInputTypesEquivalent registry (CallTypedExpr t name ins) = true)))
  ∧ (∀ expr candidates, isCallKind expr = false →
       shouldFlatten registry expr candidates = None).
Proof.
  split_and!.
  - apply collectFlatteningCandidates_calls.
  - intros source t name ins Hsource Hcalls. unfold shouldFlatten. cbn [callName].
    pose proof (collectFlatteningCandidates_calls sources name) as Hcandidate.
    destruct (bool_decide (name = kAnd)) eqn:Hand.
    { apply bool_decide_eq_true in Hand. split; [by left|done]. }
    destruct (bool_decide (name = kOr)) eqn:Hor.
    { apply bool_decide_eq_true in Hor. split; [by right; left|done]. }
    apply bool_decide_eq_false in Hand, Hor. cbn [orb].
    destruct (bool_decide (name ∈ collectFlatteningCandidates registry sources))
      eqn:Hin; cbn [andb].
    + apply bool_decide_eq_true in Hin. apply Hcandidate in Hin as [_ Hregistered].
      destruct (allInputTypesEquivalent registry _).
      * split; [by right; right|done].
      * split; [done|]. by intros [?|[?|[_ ?]]].
    + apply bool_decide_eq_false in Hin. split; [done|].
      intros [?|[?|[Hregistered _]]]; [done..|].
      destruct Hin. apply Hcandidate. split; [by exists source|done].
  - intros expr candidates Hkind. unfold shouldFlatten.
    by destruct expr.
Qed.

(** The loop of [flattenInput] over the inputs of a nested call. *)
Lemma flattenInput_inputs (name : string) (ins : list ITypedExpr) (flat : list ITypedExpr) :
  (fix each (children : list ITypedExpr) (flat : list ITypedExpr) :=
     match children with
     | [] => flat
     | child :: children' =>
         each children' (flattenInput registry child name flat)
     end) ins flat
  = flat ++ concat ((λ input, flattenInput registry input name []) <$> ins).
Proof.
  revert flat. induction ins as [|input ins IH]; intros flat.
  - cbn. by rewrite app_nil_r.
  - rewrite IH. cbn [fmap list_fmap concat].
    rewrite (flattenInput_spliced registry name input flat).
    rewrite (flattenInput_spliced registry name input []).
    cbn [app]. by rewrite app_assoc.
Qed.

Lemma flattenInput_call t name ins :
  allInputTypesEquivalent registry (CallTypedExpr t name ins) = true →
  flattenInput registry (CallTypedExpr t name ins) name []
  = concat ((λ input, flattenInput registry input name []) <$> ins).
Proof.
  intros Hequivalent. cbn [flattenInput]. unfold isCall. cbn [callName].
  rewrite bool_decide_eq_true_2 by done. rewrite Hequivalent. cbn [andb].
  by rewrite flattenInput_inputs.
Qed.

Lemma flattenInput_other name input :
  isCall input name && allInputTypesEquivalent registry input = false →
  flattenInput registry input name [] = [input].
Proof.
  intros Hother. destruct input; cbn [flattenInput]; by rewrite Hother.
Qed.

Lemma flattenInput_stops name input :
  Forall (λ part,
            isCall part name && allInputTypesEquivalent registry part = false
            ∧ subterm part input)
    (flattenInput registry input name []).
Proof.
  induction input as [t v|t|t field ins IH|t index ins IH|t name' ins IH
                      |t ins isTry IH|t ins IH|signature body _]
    using ITypedExpr_ind';
    try (rewrite flattenInput_other by done; constructor; [|done];
         split; [done|apply subterm_refl]).
  destruct (isCall (CallTypedExpr t name' ins) name
            && allInputTypesEquivalent registry (CallTypedExpr t name' ins))
    eqn:Hflat; cycle 1.
  { rewrite flattenInput_other by done. constructor; [|done].
    split; [done|apply subterm_refl]. }
  apply andb_true_iff in Hflat as [Hname Hequivalent].
  unfold isCall in Hname. cbn [callName] in Hname.
  apply bool_decide_eq_true in Hname as ->.
  rewrite flattenInput_call by done.
  apply Forall_concat, Forall_fmap, Forall_forall. intros input Hinput. cbn.
  rewrite Forall_forall in IH. specialize (IH input Hinput).
  eapply Forall_impl; [exact IH|]. cbn. intros part [Hstops Hpart].
  split; [done|]. by eapply subterm_input.
Qed.

(** X13. What flattening leaves: no entry of the flattened list is a call
    of the flattened name with inputs of equivalent types, every entry is a
    part of the input it comes from, and flattening the entries once more
    gives the same list. A call of the flattened name that has no inputs
    leaves no entry. *)
Theorem flattening_is_complete (name : string) (input : ITypedExpr) :
  let flat := flattenInput registry input name [] in
  Forall (λ part,
            isCall part name && allInputTypesEquivalent registry part = false
            ∧ subterm part input) flat
  ∧ concat ((λ part, flattenInput registry part name []) <$> flat) = flat
  ∧ (∀ t, flattenInput registry (CallTypedExpr t name []) name [] = []).
Proof.
  intros flat. split_and!.
  - apply flattenInput_stops.
  - pose proof (flattenInput_stops name input) as Hstops. fold flat in Hstops.
    induction Hstops as [|part parts [Hpart _] _ IH]; [done|].
    cbn [fmap list_fmap concat]. rewrite IH.
    by rewrite flattenInput_other.
  - intros t. by rewrite flattenInput_call.
Qed.

End FlatteningFacts.

(** The candidates at work: concat is registered with
    [supportsFlattening] and plus is not; a call in the body of a lambda is
    not among the inputs of the lambda, and is not collected. *)
Example flattening_candidates_at_work :
  let nested :=
    concatCall [arrayColumn "a"; concatCall [arrayColumn "b"; arrayColumn "c"]] in
  let sum := plus (column (Scalar BIGINT) "x") (bigint 1) in
  bool_decide ("concat" ∈ collectFlatteningCandidates exampleRegistry [sum; nested]) = true
  ∧ bool_decide ("plus" ∈ collectFlatteningCandidates exampleRegistry [sum; nested]) = false
  ∧ bool_decide
      ("concat" ∈ collectFlatteningCandidates exampleRegistry
                    [LambdaTypedExpr [("x", ARRAY (Scalar BIGINT))] nested]) = false.
Proof. repeat split; vm_compute; reflexivity. Qed.

(** * The inputs of an expression *)

Section CompileInputsFacts.

Context (registry : Registry).
Context (compileExpression : ITypedExpr → Compile ExprPtr).

#[local] Unset Default Proof Using.

Lemma compileInputs_from expr flatteningCandidates :
  compileInputs registry compileExpression expr flatteningCandidates
  = compileInputsFrom registry compileExpression expr flatteningCandidates
      (inputs expr) [].
Proof. reflexivity. Qed.

Lemma compileInputsFrom_fieldAccess t name ins0 flatteningCandidates ins acc s :
  compileInputsFrom registry compileExpression (FieldAccessTypedExpr t name ins0)
    flatteningCandidates ins acc s
  = (compiled ← mapM compileExpression
                  (filter (λ input, isInputKind input = false) ins);
     mret (acc ++ compiled)) s.
Proof.
  revert acc s. induction ins as [|input ins IH]; intros acc s.
  - cbn. unfold mbind, Compile_bind, mret, Compile_ret. cbn. by rewrite app_nil_r.
  - cbn [compileInputsFrom]. destruct (isInputKind input) eqn:Hkind.
    + rewrite filter_cons_False by (by rewrite Hkind).
      assert (isFieldAccessKind (FieldAccessTypedExpr t name ins0) = true) as ->
        by reflexivity.
      unfold VELOX_CHECK.
      rewrite (bind_Returns _ _ s tt s) by done. apply IH.
    + rewrite filter_cons_True by done. cbn [shouldFlatten callName mapM].
      unfold mbind, Compile_bind, mret, Compile_ret in *.
      destruct (compileExpression input s) as [[[p|e] s1]|]; [|done..].
      rewrite IH.
      destruct (mapM (M := Compile) compileExpression _ s1) as [[[ps|e] s2]|];
        [|done..].
      by rewrite <- app_assoc.
Qed.

Lemma compileInputsFrom_input expr flatteningCandidates ins input acc s r s' :
  isFieldAccessKind expr = false →
  input ∈ ins → isInputKind input = true →
  compileInputsFrom registry compileExpression expr flatteningCandidates ins acc s
  = Some (r, s') →
  ∃ e, r = Throws e.
Proof.
  intros Hexpr Hin Hkind. revert acc s.
  induction ins as [|first ins IH]; intros acc s Hrun;
    [by apply elem_of_nil in Hin|].
  cbn [compileInputsFrom] in Hrun.
  destruct (isInputKind first) eqn:Hfirst.
  - rewrite Hexpr in Hrun. unfold VELOX_CHECK in Hrun.
    erewrite bind_Throws in Hrun by done. injection Hrun as <- <-. by eexists.
  - apply elem_of_cons in Hin as [->|Hin]; [congruence|].
    destruct (shouldFlatten registry expr flatteningCandidates) as [name|].
    + apply bind_inv in Hrun as [(compiled & s1 & _ & Hrun)|(e & _ & ->)];
        [by eapply IH|by eexists].
    + apply bind_inv in Hrun as [(compiled & s1 & _ & Hrun)|(e & _ & ->)];
        [by eapply IH|by eexists].
Qed.

(** X14. The reference to the input row among the inputs of an
    expression: under a field access it is passed over, so that the inputs
    compiled for a field access are its inputs other than input references,
    one by one and in their order; under any other expression it ends the
    compilation of the inputs, which then never returns, and when it is the
    first input nothing has been compiled or changed by then. *)
Theorem input_references (flatteningCandidates : gset string) :
  (∀ t name ins s,
     compileInputs registry compileExpression (FieldAccessTypedExpr t name ins)
       flatteningCandidates s
     = mapM compileExpression (filter (λ input, isInputKind input = false) ins) s)
  ∧ (∀ expr input s r s',
       isFieldAccessKind expr = false →
       input ∈ inputs expr → isInputKind input = true →
       compileInputs registry compileExpression expr flatteningCandidates s
       = Some (r, s') →
       ∃ e, r = Throws e)
  ∧ (∀ expr input rest s,
       isFieldAccessKind expr = false →
       inputs expr = input :: rest → isInputKind input = true →
       compileInputs registry compileExpression expr flatteningCandidates s
       = Some (Throws (VeloxRuntimeError
                 "An InputReference can only occur under a FieldReference"), s)).
Proof.
  split_and!.
  - intros t name ins s. rewrite compileInputs_from, compileInputsFrom_fieldAccess.
    cbn [inputs app]. unfold mbind, Compile_bind, mret, Compile_ret.
    by destruct (mapM (M := Compile) compileExpression _ s) as [[[ps|e] s1]|].
  - intros expr input s r s' Hexpr Hin Hkind Hrun.
    rewrite compileInputs_from in Hrun. by eapply compileInputsFrom_input.
  - intros expr input rest s Hexpr Hinputs Hkind.
    rewrite compileInputs_from, Hinputs. cbn [compileInputsFrom].
    by rewrite Hkind, Hexpr.
Qed.

End CompileInputsFacts.

Lemma input_references_witness :
  let compile :=
    λ expr, compileExpression exampleRegistry 3 expr exampleConfig ∅ true in
  compileInputs exampleRegistry compile
    (plus (InputTypedExpr (ROW ["x"] [Scalar BIGINT])) (column (Scalar BIGINT) "x"))
    ∅ (initialState (exampleExprSet true))
  = Some (Throws (VeloxRuntimeError
            "An InputReference can only occur under a FieldReference"),
          initialState (exampleExprSet true)).
Proof.
  intros compile.
  apply (proj2 (proj2 (input_references exampleRegistry compile ∅))
           (plus (InputTypedExpr (ROW ["x"] [Scalar BIGINT])) (column (Scalar BIGINT) "x"))
           (InputTypedExpr (ROW ["x"] [Scalar BIGINT])) [column (Scalar BIGINT) "x"]
           (initialState (exampleExprSet true))); reflexivity.
Defined.

(** * Calls *)

Lemma mapM_read {A} (f : Expr → A) (ps : list ExprPtr) (es : list Expr)
    (s : CompilerState) :
  Forall2 (λ p e, heap s !! p = Some e) ps es →
  mapM (M := Compile) (λ p, e ← getExpr p; mret (f e)) ps s
  = Some (Returns (f <$> es), s).
Proof.
  induction 1 as [|p e ps es Hp _ IH]; [done|].
  cbn [mapM fmap list_fmap].
  rewrite (bind_Returns _ _ s (f e) s); cycle 1.
  { rewrite (bind_Returns _ _ s e s); [done|]. unfold getExpr. by rewrite Hp. }
  by rewrite (bind_Returns _ _ s (f <$> es) s).
Qed.

Section CompileCallFacts.

Context (registry : Registry).

(** X15. What compiling a call over compiled inputs comes to: either it
    fails with a user error and leaves the state as it was, which happens
    only to a name that is no special form; or it makes exactly one node,
    of the type the call has, over the compiled inputs as they are, and
    changes nothing else: the special form of that name when one is
    registered, whatever functions there are of the same name, and else a
    call of a function of that name. *)
Theorem call_compiles_to_one_node (expr : ITypedExpr) (name : string)
    (inputs : list ExprPtr) (nodes : list Expr) (trackCpuUsage : bool)
    (config : QueryConfig) (s : CompilerState)
    (r : Outcome ExprPtr) (s' : CompilerState) :
  Forall2 (λ p e, heap s !! p = Some e) inputs nodes →
  compileCall registry expr name inputs trackCpuUsage config s = Some (r, s') →
  (∃ m, r = Throws (VeloxUserError m) ∧ s' = s
        ∧ isFunctionCallToSpecialFormRegistered registry name = false)
  ∨ (∃ n,
       r = Returns (nextPtr s)
       ∧ s' = {| heap := <[nextPtr s := makeExpr n (type expr) inputs trackCpuUsage]>
                           (heap s);
                 nextPtr := S (nextPtr s); scopes := scopes s; exprSet := exprSet s |}
       ∧ if isFunctionCallToSpecialFormRegistered registry name
         then n = SpecialForm name
         else ∃ function metadata, n = FunctionCall name function metadata).
Proof.
  intros Hinputs Hrun. unfold compileCall in Hrun.
  unfold getTypes in Hrun. rewrite (bind_Returns _ _ s _ s (mapM_read type_ _ _ _ Hinputs)) in Hrun.
  destruct (isFunctionCallToSpecialFormRegistered registry name) eqn:Hspecial.
  { unfold newExpr in Hrun. injection Hrun as <- <-. right.
    by exists (SpecialForm name). }
  unfold getConstantInputs in Hrun.
  rewrite (bind_Returns _ _ s _ s
             (mapM_read (λ e, match node e with
                              | ConstantExpr value => Some value
                              | _ => None
                              end) _ _ _ Hinputs)) in Hrun.
  destruct (getVectorFunctionWithMetadata registry name _ _) as [[function metadata]|].
  { unfold newExpr in Hrun. injection Hrun as <- <-. right.
    exists (FunctionCall name function metadata). by eauto. }
  destruct (resolveSimpleFunction registry name _) as [entry|].
  - unfold VELOX_USER_CHECK in Hrun.
    destruct (equivalent registry (type expr) (entryType entry)).
    + rewrite (bind_Returns _ _ s tt s) in Hrun by done.
      unfold newExpr in Hrun. injection Hrun as <- <-. right.
      eexists (FunctionCall name _ _). by eauto.
    + erewrite bind_Throws in Hrun by done. injection Hrun as <- <-.
      left. by eauto.
  - destruct (_ <$> _) in Hrun; unfold raise in Hrun; injection Hrun as <- <-;
      left; by eauto.
Qed.

End CompileCallFacts.

Lemma call_compiles_to_one_node_witness :
  match compileCall exampleRegistry
          (plus (column (Scalar BIGINT) "x") (column (Scalar BIGINT) "x")) "plus"
          [0; 0] false exampleConfig columnState with
  | Some (r, s') =>
      (∃ m, r = Throws (VeloxUserError m) ∧ s' = columnState
            ∧ isFunctionCallToSpecialFormRegistered exampleRegistry "plus" = false)
      ∨ (∃ n,
           r = Returns 1
           ∧ s' = {| heap := <[1 := makeExpr n (Scalar BIGINT) [0; 0] false]>
                               (heap columnState);
                     nextPtr := 2; scopes := scopes columnState;
                     exprSet := exprSet columnState |}
           ∧ ∃ function metadata, n = FunctionCall "plus" function metadata)
  | None => False
  end.
Proof.
  destruct (compileCall _ _ _ _ _ _ _) as [[r s']|] eqn:Hrun;
    [|by vm_compute in Hrun].
  apply (call_compiles_to_one_node exampleRegistry
           (plus (column (Scalar BIGINT) "x") (column (Scalar BIGINT) "x")) "plus"
           [0; 0]
           [makeExpr (FieldReference "x") (Scalar BIGINT) [] false;
            makeExpr (FieldReference "x") (Scalar BIGINT) [] false]
           false exampleConfig columnState r s'); [|exact Hrun].
  by repeat constructor.
Defined.

(** * The scopes across a compilation *)

Lemma captureFieldReference_last field reference fieldAccess stack :
  last (captureFieldReference field reference fieldAccess stack) = last stack.
Proof.
  induction stack as [|scope [|parent grandparents] IH]; [done..|].
  rewrite captureFieldReference_cons. destruct (_ || _); [done|].
  pose proof (captureFieldReference_length field reference fieldAccess
                (parent :: grandparents)) as Hlength.
  destruct (captureFieldReference field reference fieldAccess (parent :: grandparents))
    as [|parent' grandparents'] eqn:Hparents; [done|].
  exact IH.
Qed.

Lemma last_fmap_cons {A B} (f : A → B) (x y : A) (l l' : list A) :
  length l = length l' →
  last (f <$> x :: l) = last (f <$> y :: l') →
  last (f <$> l) = last (f <$> l').
Proof.
  destruct l as [|a l], l' as [|a' l']; [done..|]. intros _ Hlast. exact Hlast.
Qed.

(** The outermost scope captures nothing along a run. *)
Lemma ScopeTrace_last (P : list (list string) → string → Prop) scopes scopes' :
  ScopeTrace P scopes scopes' →
  last (capture <$> scopes') = last (capture <$> scopes).
Proof.
  induction 1 as [| s1 s2 s3 _ IH1 _ IH2 | scope scope' parents _ Hcapture
                  | field reference fieldAccess scopes _
                  | names scopes lambdaScope parents Htrace IH].
  - done.
  - by rewrite IH2.
  - cbn. by rewrite Hcapture.
  - by rewrite !fmap_last, captureFieldReference_last.
  - apply ScopeTrace_length in Htrace. cbn in Htrace.
    eapply last_fmap_cons; [|exact IH]. lia.
Qed.

Lemma mapM_traces {A B} (P : list (list string) → string → Prop)
    (f : A → Compile B) (l : list A) s r s' :
  (∀ x s r s', f x s = Some (r, s') → ScopeTrace P (scopes s) (scopes s')) →
  mapM f l s = Some (r, s') →
  ScopeTrace P (scopes s) (scopes s').
Proof.
  intros Hf. revert s r s'. induction l as [|x l IH]; intros s r s' Hrun.
  - cbn in Hrun. injection Hrun as <- <-. apply trace_refl.
  - cbn [mapM] in Hrun.
    apply bind_inv in Hrun as [(y & s1 & Hx & Hrun)|(e & Hx & _)];
      [|by eapply Hf].
    eapply trace_trans; [by eapply Hf|].
    apply bind_inv in Hrun as [(ys & s2 & Hl & Hrun)|(e & Hl & _)];
      [|by eapply IH].
    injection Hrun as <- <-. by eapply IH.
Qed.

(** X16. However the compilation of a list of expressions ends, with the
    compiled nodes or with an exception, the scopes are those it began
    with: as many, with the same parameters, every scope of a lambda that
    was entered having been left; and the outermost scope has captured
    nothing. From the state in which [compileExpressions] starts, there is
    in the end the top level scope alone, without parameters and without
    captures. *)
Theorem scopes_are_restored (registry : Registry) (depth : nat)
    (sources : list ITypedExpr) (execCtx : ExecCtx) (enableConstantFolding : bool)
    (s : CompilerState) (r : Outcome (list ExprPtr)) (s' : CompilerState) :
  compileExpressions registry depth sources execCtx enableConstantFolding s
  = Some (r, s') →
  locals <$> scopes s' = locals <$> scopes s
  ∧ last (capture <$> scopes s') = last (capture <$> scopes s)
  ∧ (∀ exprSet, s = initialState exprSet →
       ∃ scope, scopes s' = [scope] ∧ locals scope = [] ∧ capture scope = []).
Proof.
  intros Hrun. unfold compileExpressions in Hrun.
  apply (mapM_traces (λ _ _, True)) in Hrun; cycle 1.
  { intros source s0 r0 s0' Hsource. by eapply compileExpression_scopes. }
  pose proof (ScopeTrace_locals _ _ _ Hrun) as Hlocals.
  pose proof (ScopeTrace_last _ _ _ Hrun) as Hlast.
  split_and!; [done..|].
  intros exprSet ->. cbn in Hlocals, Hlast.
  destruct (scopes s') as [|scope [|parent grandparents]]; [done| |done].
  exists scope. cbn in Hlocals, Hlast. by simplify_eq.
Qed.

Lemma scopes_are_restored_witness :
  match exampleRun
          [lambda "x" (plus (column (Scalar BIGINT) "c") (column (Scalar BIGINT) "x"));
           InputTypedExpr (ROW ["c"] [Scalar BIGINT])] true true with
  | Some (r, s') =>
      ∃ e scope,
        r = Throws e ∧ scopes s' = [scope] ∧ locals scope = [] ∧ capture scope = []
  | None => False
  end.
Proof.
  unfold exampleRun.
  destruct (compileExpressions _ _ _ _ _ _) as [[r s']|] eqn:Hrun;
    [|by vm_compute in Hrun].
  destruct (proj2 (proj2 (scopes_are_restored _ _ _ _ _ _ _ _ Hrun))
              (exampleExprSet true) eq_refl) as (scope & Hscopes & Hlocals & Hcapture).
  destruct r as [ps|e]; [by vm_compute in Hrun|].
  by exists e, scope.
Defined.

(** X17. What a scope has recorded is kept. While an expression is
    compiled (no rewrite being registered, and the metadata pass writing
    metadata only), however that ends: every node there was is still
    there; in every scope, an expression that had a compiled node recorded
    still has that very node recorded, and an expression that has one
    recorded only now is a part of the expression compiled. *)
Theorem recorded_nodes_are_kept (registry : Registry) (depth : nat)
    (expr : ITypedExpr) (config : QueryConfig) (flatteningCandidates : gset string)
    (enableConstantFolding : bool) (s : CompilerState) (r : Outcome ExprPtr)
    (s' : CompilerState) :
  metadataOnly registry →
  expressionRewrites registry = [] →
  compileExpression registry depth expr config flatteningCandidates
    enableConstantFolding s = Some (r, s') →
  (∀ p, is_Some (heap s !! p) → is_Some (heap s' !! p))
  ∧ Forall2 (λ scope scope',
       (∀ key compiled,
          getAlreadyCompiled key (visited scope) = Some compiled →
          getAlreadyCompiled key (visited scope') = Some compiled)
       ∧ (∀ key,
            getAlreadyCompiled key (visited scope) = None →
            is_Some (getAlreadyCompiled key (visited scope')) →
            subterm key expr))
      (scopes s) (scopes s').
Proof.
  intros Hmetadata Hrewrites Hrun.
  apply (compileExpression_grows registry Hmetadata Hrewrites) in Hrun
    as [Hstack Hnodes].
  split; [exact Hnodes|].
  eapply Forall2_impl; [exact Hstack|]. cbn.
  intros scope scope' [Hvisited _]. split.
  - intros key compiled Hkey. specialize (Hvisited key). by rewrite Hkey in Hvisited.
  - intros key Hkey Hnew. specialize (Hvisited key). rewrite Hkey in Hvisited. auto.
Qed.

Lemma recorded_nodes_are_kept_witness :
  match compileExpression exampleRegistry 4
          (plus (column (Scalar BIGINT) "x") (bigint 1)) exampleConfig ∅ false
          columnState with
  | Some (r, s') =>
      getAlreadyCompiled (column (Scalar BIGINT) "x")
        (visited (default (newScope []) (head (scopes s')))) = Some 1
      ∧ is_Some (heap s' !! 0)
  | None => False
  end.
Proof.
  destruct (compileExpression _ _ _ _ _ _ _) as [[r s']|] eqn:Hrun;
    [|by vm_compute in Hrun].
  destruct (recorded_nodes_are_kept exampleRegistry 4
              (plus (column (Scalar BIGINT) "x") (bigint 1)) exampleConfig ∅ false
              columnState r s' exampleRegistry_metadataOnly eq_refl Hrun)
    as [Hnodes Hscopes].
  split; [|apply Hnodes; by eexists].
  vm_compute in Hrun. by injection Hrun as <- <-.
Defined.

(** * The types of compiled nodes *)

Lemma typesKept_refl s : typesKept s s.
Proof. by intros p t. Qed.

Lemma typesKept_trans s1 s2 s3 : typesKept s1 s2 → typesKept s2 s3 → typesKept s1 s3.
Proof. intros H12 H23 p t Hp. by apply H23, H12. Qed.

Lemma scopeTyped_mono s s' scope :
  typesKept s s' → scopeTyped s scope → scopeTyped s' scope.
Proof.
  intros Hkept (Hvisited & Hlength & Hlength' & Hcaptures). split_and!; [|done..|].
  - intros key compiled Hkey. by apply Hkept, Hvisited.
  - intros i fieldAccess reference H1 H2. by eapply Hkept, Hcaptures.
Qed.

#[local] Instance typedRun_reflexive : Reflexive typedRun.
Proof. intros s Hs. split; [done|apply typesKept_refl]. Qed.

#[local] Instance typedRun_transitive : Transitive typedRun.
Proof.
  intros s1 s2 s3 H12 H23 Hs. destruct (H12 Hs) as [Hs2 Hk12].
  destruct (H23 Hs2) as [Hs3 Hk23]. split; [done|by eapply typesKept_trans].
Qed.

(** A write to the graph that keeps the type of every node. *)
Lemma typedRun_heap (f : gmap ExprPtr Expr → gmap ExprPtr Expr) s :
  (∀ q, type_ <$> (f (heap s) !! q) = type_ <$> (heap s !! q)) →
  typedRun s (setHeap (f (heap s)) s).
Proof.
  intros Hf [Hfresh Hscopes].
  assert (typesKept s (setHeap (f (heap s)) s)) as Hkept.
  { intros p t Hp. unfold typedAt in *. cbn. by rewrite Hf. }
  split; [|done]. split.
  - intros p Hp. cbn in *. apply Hfresh.
    apply (fmap_is_Some type_). rewrite <- Hf. by apply fmap_is_Some.
  - cbn. eapply Forall_impl; [exact Hscopes|]. intros scope. by apply scopeTyped_mono.
Qed.

Lemma typedRun_new e s :
  typedRun s
    {| heap := <[nextPtr s := e]> (heap s); nextPtr := S (nextPtr s);
       scopes := scopes s; exprSet := exprSet s |}.
Proof.
  intros [Hfresh Hscopes].
  assert (heap s !! nextPtr s = None) as Hnone.
  { destruct (heap s !! nextPtr s) eqn:Hp; [|done].
    specialize (Hfresh (nextPtr s) ltac:(by eexists)). lia. }
  assert (typesKept s
            {| heap := <[nextPtr s := e]> (heap s); nextPtr := S (nextPtr s);
               scopes := scopes s; exprSet := exprSet s |}) as Hkept.
  { intros p t Hp. unfold typedAt in *. cbn.
    destruct (decide (nextPtr s = p)) as [<-|Hne]; [by rewrite Hnone in Hp|].
    by rewrite lookup_insert_ne. }
  split; [|done]. split.
  - intros p Hp. cbn in *. destruct (decide (nextPtr s = p)) as [<-|Hne]; [lia|].
    rewrite lookup_insert_ne in Hp by done. specialize (Hfresh p Hp). lia.
  - cbn. eapply Forall_impl; [exact Hscopes|]. intros scope. by apply scopeTyped_mono.
Qed.

Lemma typedRun_exprSet set s : typedRun s (setExprSet set s).
Proof. intros Hs. split; [exact Hs|by intros p t]. Qed.

Lemma typedRun_scopes stack s :
  (wellTyped s → Forall (scopeTyped s) stack) → typedRun s (setScopes stack s).
Proof.
  intros Hstack Hs. split; [|by intros p t].
  split; [apply Hs|]. cbn. by apply Hstack.
Qed.

Lemma typedAt_new e s :
  typedAt {| heap := <[nextPtr s := e]> (heap s); nextPtr := S (nextPtr s);
             scopes := scopes s; exprSet := exprSet s |} (nextPtr s) (type_ e).
Proof. unfold typedAt. cbn. by rewrite lookup_insert_eq. Qed.

Section TypedSteps.

Context (registry : Registry).
Context (Hmetadata : metadataOnly registry).

#[local] Unset Default Proof Using.

Lemma typed_onHeap f :
  (∀ h q, type_ <$> (f h !! q) = type_ <$> (h !! q)) →
  preserves typedRun (onHeap f).
Proof.
  intros Hf s r s' Hrun. unfold onHeap, modify in Hrun. injection Hrun as <- <-.
  by apply typedRun_heap.
Qed.

Lemma alter_type (g : Expr → Expr) p (h : gmap ExprPtr Expr) q :
  (∀ e, type_ (g e) = type_ e) →
  type_ <$> (alter g p h !! q) = type_ <$> (h !! q).
Proof.
  intros Hg. destruct (decide (p = q)) as [->|Hne].
  - rewrite lookup_alter_eq. destruct (h !! q); [|done]. cbn. by rewrite Hg.
  - by rewrite lookup_alter_ne.
Qed.

Lemma typed_updateExpr p g :
  (∀ e, type_ (g e) = type_ e) → preserves typedRun (updateExpr p g).
Proof. intros Hg. apply typed_onHeap. intros h q. by apply alter_type. Qed.

Lemma withoutMetadata_type (x y : option Expr) :
  withoutMetadata <$> x = withoutMetadata <$> y → type_ <$> x = type_ <$> y.
Proof.
  destruct x as [e|], y as [e'|]; try done. cbn. intros [= _ Htype _ _ _ _].
  by rewrite Htype.
Qed.

Lemma typed_computeMetadata p : preserves typedRun (onHeap (computeMetadata registry p)).
Proof.
  apply typed_onHeap. intros h q. apply withoutMetadata_type.
  apply (metadataOnly_lookup (computeMetadata registry)).
  intros p' h'. apply Hmetadata.
Qed.

Lemma typed_clearMetaData p : preserves typedRun (onHeap (clearMetaData registry p)).
Proof.
  apply typed_onHeap. intros h q. apply withoutMetadata_type.
  apply (metadataOnly_lookup (clearMetaData registry)).
  intros p' h'. apply Hmetadata.
Qed.

Lemma typed_exprSet f : preserves typedRun (modify (λ s, setExprSet (f (exprSet s)) s)).
Proof. apply preserves_modify. intros s. apply typedRun_exprSet. Qed.

Lemma markSkipped_type evaluation (h : gmap ExprPtr Expr) q :
  type_ <$> (markSkipped evaluation h !! q) = type_ <$> (h !! q).
Proof.
  rewrite markSkipped_lookup. case_bool_decide; [|done]. by destruct (h !! q).
Qed.

Lemma typed_getTypes exprs : preserves typedRun (getTypes exprs).
Proof.
  apply preserves_mapM; [apply _..|]. apply Forall_forall. intros p _.
  apply preserves_bind; [apply _..|apply preserves_getExpr; apply _|intros e].
  apply preserves_ret; apply _.
Qed.

Lemma typed_getConstantInputs exprs : preserves typedRun (getConstantInputs exprs).
Proof.
  apply preserves_mapM; [apply _..|]. apply Forall_forall. intros p _.
  apply preserves_bind; [apply _..|apply preserves_getExpr; apply _|intros e].
  apply preserves_ret; apply _.
Qed.

End TypedSteps.

Section TypedFrom.

#[local] Unset Default Proof Using.

Lemma stable_True : stable (λ _, True).
Proof. done. Qed.

Lemma stable_typedAt p t : stable (λ s, typedAt s p t).
Proof. intros s s' Hkept Hp. by apply Hkept. Qed.

Lemma stable_scopeTyped scope : stable (λ s, scopeTyped s scope).
Proof. intros s s' Hkept Hscope. by eapply scopeTyped_mono. Qed.

Lemma stable_and P Q : stable P → stable Q → stable (λ s, P s ∧ Q s).
Proof. intros HP HQ s s' Hkept [? ?]. split; [by eapply HP|by eapply HQ]. Qed.

Lemma stable_Forall {A} (P : A → CompilerState → Prop) (l : list A) :
  (∀ x, stable (P x)) → stable (λ s, Forall (λ x, P x s) l).
Proof.
  intros HP s s' Hkept Hl. eapply Forall_impl; [exact Hl|].
  intros x. by apply HP.
Qed.

Lemma typedFrom_weaken {A} (pre pre' : CompilerState → Prop) (m : Compile A)
    (post post' : A → CompilerState → Prop) :
  typedFrom pre m post →
  (∀ s, pre' s → pre s) → (∀ a s, post a s → post' a s) →
  typedFrom pre' m post'.
Proof.
  intros Hm Hpre Hpost s r s' Hrun Hs Hp.
  destruct (Hm s r s' Hrun Hs (Hpre s Hp)) as [Hrun' Hr]. split; [done|].
  intros a Ha. by apply Hpost, Hr.
Qed.

Lemma typedFrom_preserves {A} pre (m : Compile A) :
  preserves typedRun m → typedFrom pre m (λ _ _, True).
Proof. intros Hm s r s' Hrun Hs _. split; [by eapply Hm|done]. Qed.

Lemma typedFrom_ret {A} pre (a : A) (post : A → CompilerState → Prop) :
  (∀ s, pre s → post a s) → typedFrom pre (mret a) post.
Proof.
  intros Hpost s r s' Hrun Hs Hp. unfold mret, Compile_ret in Hrun.
  injection Hrun as <- <-. split; [split; [done|apply typesKept_refl]|].
  intros a' [= <-]. by apply Hpost.
Qed.

Lemma typedFrom_raise {A} pre (e : Thrown) (post : A → CompilerState → Prop) :
  typedFrom pre (raise e) post.
Proof.
  intros s r s' Hrun Hs Hp. unfold raise in Hrun. injection Hrun as <- <-.
  split; [split; [done|apply typesKept_refl]|done].
Qed.

Lemma typedFrom_bind {A B} pre (m : Compile A) (f : A → Compile B)
    (mid : A → CompilerState → Prop) (post : B → CompilerState → Prop) :
  stable pre →
  typedFrom pre m mid →
  (∀ a, typedFrom (λ s, pre s ∧ mid a s) (f a) post) →
  typedFrom pre (m ≫= f) post.
Proof.
  intros Hstable Hm Hf s r s' Hrun Hs Hp.
  apply bind_inv in Hrun as [(a & s1 & Hrun1 & Hrun2)|(e & Hrun & ->)].
  - destruct (Hm s _ s1 Hrun1 Hs Hp) as [[Hs1 Hkept1] Hmid].
    destruct (Hf a s1 r s' Hrun2 Hs1) as [[Hs' Hkept2] Hpost].
    { split; [by eapply Hstable|by apply Hmid]. }
    split; [|done]. split; [done|by eapply typesKept_trans].
  - destruct (Hm s _ s' Hrun Hs Hp) as [Hrun' _]. by split.
Qed.

Lemma typedFrom_then {A B} pre (m : Compile A) (f : A → Compile B)
    (mid : A → CompilerState → Prop) (post : B → CompilerState → Prop) :
  typedFrom pre m mid →
  (∀ a, typedFrom (mid a) (f a) post) →
  typedFrom pre (m ≫= f) post.
Proof.
  intros Hm Hf s r s' Hrun Hs Hp.
  apply bind_inv in Hrun as [(a & s1 & Hrun1 & Hrun2)|(e & Hrun & ->)].
  - destruct (Hm s _ s1 Hrun1 Hs Hp) as [[Hs1 Hkept1] Hmid].
    destruct (Hf a s1 r s' Hrun2 Hs1) as [[Hs' Hkept2] Hpost]; [by apply Hmid|].
    split; [|done]. split; [done|by eapply typesKept_trans].
  - destruct (Hm s _ s' Hrun Hs Hp) as [Hrun' _]. by split.
Qed.

Lemma typedFrom_any {A} pre (m : Compile A) (post : A → CompilerState → Prop) :
  typedFrom (λ _, True) m post → typedFrom pre m post.
Proof. intros Hm. eapply typedFrom_weaken; [exact Hm|done..]. Qed.

Lemma typedFrom_seq {A B} pre (m : Compile A) (f : A → Compile B)
    (post : B → CompilerState → Prop) :
  stable pre →
  preserves typedRun m →
  (∀ a, typedFrom pre (f a) post) →
  typedFrom pre (m ≫= f) post.
Proof.
  intros Hstable Hm Hf.
  apply (typedFrom_bind pre m f (λ _ _, True)); [done|by apply typedFrom_preserves|].
  intros a. eapply typedFrom_weaken; [apply Hf|by intros s [? _]|done].
Qed.

Lemma typedFrom_getExpr pre p :
  typedFrom pre (getExpr p) (λ e s, typedAt s p (type_ e)).
Proof.
  intros s r s' Hrun Hs Hp. unfold getExpr in Hrun.
  destruct (heap s !! p) as [e|] eqn:He; injection Hrun as <- <-;
    (split; [split; [done|apply typesKept_refl]|]); [|done].
  intros a [= <-]. unfold typedAt. by rewrite He.
Qed.

Lemma typedFrom_currentScope pre :
  typedFrom pre currentScope (λ scope s, scopeTyped s scope).
Proof.
  intros s r s' Hrun Hs Hp. unfold currentScope in Hrun.
  destruct (scopes s) as [|scope parents] eqn:Hscopes; injection Hrun as <- <-;
    (split; [split; [done|apply typesKept_refl]|]); [done|].
  intros a [= <-]. destruct Hs as [_ Hstack]. rewrite Hscopes in Hstack.
  by apply Forall_cons_1 in Hstack as [? _].
Qed.

Lemma typedFrom_newExpr pre e :
  typedFrom pre (newExpr e) (λ p s, typedAt s p (type_ e)).
Proof.
  intros s r s' Hrun Hs Hp. unfold newExpr in Hrun. injection Hrun as <- <-.
  split; [by apply typedRun_new|]. intros a [= <-]. apply typedAt_new.
Qed.

Lemma typedFrom_updateScope pre (f : Scope → Scope) :
  (∀ s scope, wellTyped s → pre s → scopeTyped s scope → scopeTyped s (f scope)) →
  typedFrom pre (updateScope f) (λ _ _, True).
Proof.
  intros Hf s r s' Hrun Hs Hp. unfold updateScope, modify in Hrun.
  injection Hrun as <- <-. split; [|done].
  destruct (scopes s) as [|scope parents] eqn:Hscopes;
    [split; [done|apply typesKept_refl]|].
  apply typedRun_scopes; [|done]. intros _. destruct Hs as [Hfresh Hstack].
  rewrite Hscopes in Hstack. apply Forall_cons_1 in Hstack as [Hscope Hparents].
  constructor; [|done]. apply Hf; [|done..]. split; [done|]. rewrite Hscopes.
  by constructor.
Qed.

Lemma typedFrom_catchUserError {A} pre (body : Compile A) (fallback : A)
    (post : A → CompilerState → Prop) :
  stable (λ s, post fallback s) →
  typedFrom pre body post →
  (∀ s, pre s → post fallback s) →
  typedFrom pre (catchUserError body fallback) post.
Proof.
  intros Hstable Hbody Hfallback s r s' Hrun Hs Hp. unfold catchUserError in Hrun.
  destruct (body s) as [[[a|e] s1]|] eqn:Hrun1; [| |done].
  - injection Hrun as <- <-. by eapply Hbody.
  - destruct (Hbody s _ s1 Hrun1 Hs Hp) as [[Hs1 Hkept] _].
    destruct e; injection Hrun as <- <-; (split; [done|]); [|done..].
    intros a [= <-]. eapply Hstable; [done|]. by apply Hfallback.
Qed.

Lemma typedFrom_pure {A} (pre : CompilerState → Prop) (fact : Prop) (m : Compile A)
    (post : A → CompilerState → Prop) :
  (∀ s, pre s → fact) → (fact → typedFrom pre m post) → typedFrom pre m post.
Proof. intros Hfact Hm s r s' Hrun Hs Hp. eapply Hm; eauto. Qed.

Lemma typedAt_agree s p t t' : typedAt s p t → typedAt s p t' → t = t'.
Proof. unfold typedAt. intros -> [= ->]. done. Qed.

End TypedFrom.

Section TypedCompiler.

Context (registry : Registry).
Context (Hmetadata : metadataOnly registry).

#[local] Unset Default Proof Using.

Lemma typedFrom_getSpecialForm pre config name type compiledChildren trackCpuUsage :
  typedFrom pre
    (getSpecialForm registry config name type compiledChildren trackCpuUsage)
    (λ p s, ∀ q, p = Some q → typedAt s q type).
Proof.
  unfold getSpecialForm. destruct (isFunctionCallToSpecialFormRegistered _ _).
  - eapply typedFrom_then.
    + apply (typedFrom_newExpr pre (makeExpr (SpecialForm name) type _ _)).
    + intros p. apply typedFrom_ret. by intros s Hp q [= <-].
  - by apply typedFrom_ret.
Qed.

Lemma typedFrom_nonNull t p :
  typedFrom (λ s, ∀ q, p = Some q → typedAt s q t) (nonNull p) (λ q s, typedAt s q t).
Proof.
  destruct p as [p|]; [|apply typedFrom_raise].
  apply typedFrom_ret. intros s Hp. by apply Hp.
Qed.

Lemma typedFrom_compileCall pre expr name inputs trackCpuUsage config :
  typedFrom pre (compileCall registry expr name inputs trackCpuUsage config)
    (λ p s, typedAt s p (type expr)).
Proof.
  apply typedFrom_any. unfold compileCall.
  apply typedFrom_seq; [apply stable_True|apply typed_getTypes|]. intros inputTypes.
  destruct (isFunctionCallToSpecialFormRegistered _ _).
  { apply (typedFrom_newExpr _ (makeExpr _ (type expr) _ _)). }
  apply typedFrom_seq; [apply stable_True|apply typed_getConstantInputs|].
  intros constantInputs.
  destruct (getVectorFunctionWithMetadata _ _ _ _) as [functionWithMetadata|].
  { apply (typedFrom_newExpr _ (makeExpr _ (type expr) _ _)). }
  destruct (resolveSimpleFunction _ _ _) as [simpleFunctionEntry|].
  - apply typedFrom_seq;
      [apply stable_True|apply preserves_VELOX_USER_CHECK; apply _|].
    intros _. apply (typedFrom_newExpr _ (makeExpr _ (type expr) _ _)).
  - destruct (_ <$> _); apply typedFrom_raise.
Qed.

Lemma typedFrom_compileCast pre expr isTryCast inputs trackCpuUsage config :
  typedFrom pre (compileCast registry expr isTryCast inputs trackCpuUsage config)
    (λ p s, ∀ q, p = Some q → typedAt s q (type expr)).
Proof.
  apply typedFrom_any. unfold compileCast.
  apply typedFrom_seq; [apply stable_True|apply preserves_VELOX_CHECK; apply _|].
  intros _. destruct inputs as [|input inputs]; [apply typedFrom_raise|].
  eapply typedFrom_then; [apply typedFrom_getExpr|]. intros inputExpr. cbn beta.
  case_bool_decide as Htype.
  - apply typedFrom_ret. intros s Hinput q [= <-]. by rewrite Htype.
  - apply typedFrom_getSpecialForm.
Qed.

Lemma typedFrom_tryFoldIfConstant t expr :
  typedFrom (λ s, typedAt s expr t) (tryFoldIfConstant registry expr)
    (λ p s, typedAt s p t).
Proof.
  unfold tryFoldIfConstant.
  apply typedFrom_seq; [apply stable_typedAt|apply preserves_get; apply _|].
  intros s0. destruct (_ && _); [|by apply typedFrom_ret].
  apply typedFrom_catchUserError; [apply stable_typedAt| |done].
  apply typedFrom_seq; [apply stable_typedAt| |intros _].
  { apply preserves_modify. intros s.
    etrans; [apply (typedRun_heap (markSkipped (eval registry (heap s0) expr)))|].
    - intros q. apply markSkipped_type.
    - apply typedRun_exprSet. }
  destruct (evaluated _) as [constantVector|e]; [|apply typedFrom_raise].
  eapply typedFrom_bind; [apply stable_typedAt|apply typedFrom_getExpr|].
  intros e. cbn beta.
  apply (typedFrom_pure _ (t = type_ e)); [by intros s [? ?]; eapply typedAt_agree|].
  intros ->.
  eapply typedFrom_then.
  { apply (typedFrom_newExpr _ (makeExpr _ (type_ e) _ _)). }
  intros resultExpr. cbn beta.
  apply typedFrom_seq; [apply stable_typedAt| |intros inputs].
  { apply preserves_mapM; [apply _..|]. apply Forall_forall. intros i _.
    apply preserves_getExpr; apply _. }
  apply typedFrom_seq; [apply stable_typedAt| |intros _].
  { destruct (_ || _); [|apply preserves_ret; apply _].
    by apply typed_updateExpr. }
  by apply typedFrom_ret.
Qed.

Lemma typedFrom_reuseCompiled t alreadyCompiled :
  typedFrom (λ s, typedAt s alreadyCompiled t) (reuseCompiled registry alreadyCompiled)
    (λ p s, typedAt s p t).
Proof.
  unfold reuseCompiled.
  apply typedFrom_seq; [apply stable_typedAt|apply preserves_getExpr; apply _|].
  intros e.
  apply typedFrom_seq; [apply stable_typedAt| |intros _; by apply typedFrom_ret].
  destruct (negb _); [|apply preserves_ret; apply _].
  apply preserves_bind; [apply _..|apply (typed_exprSet (addToReset alreadyCompiled))|].
  intros _. apply preserves_bind; [apply _..|by apply typed_updateExpr|].
  intros _. apply preserves_bind; [apply _..|by apply typed_clearMetaData|].
  intros _. by apply typed_computeMetadata.
Qed.

Lemma scopeTyped_assign s scope expr compiled :
  typedAt s compiled (type expr) → scopeTyped s scope →
  scopeTyped s (setVisited (assign expr compiled (visited scope)) scope).
Proof.
  intros Hcompiled (Hvisited & Hlength & Hlength' & Hcaptures).
  split_and!; [|done..]. cbn [visited setVisited]. intros key compiled' Hkey.
  destruct (decide (key = expr)) as [->|Hne].
  - rewrite getAlreadyCompiled_assign in Hkey. by injection Hkey as <-.
  - rewrite getAlreadyCompiled_assign_ne in Hkey by done. by apply Hvisited.
Qed.

Lemma typedFrom_finishCompilation expr result enableConstantFolding :
  typedFrom (λ s, typedAt s result (type expr))
    (finishCompilation registry expr result enableConstantFolding)
    (λ p s, typedAt s p (type expr)).
Proof.
  unfold finishCompilation.
  apply typedFrom_seq; [apply stable_typedAt|by apply typed_computeMetadata|].
  intros _.
  apply typedFrom_seq; [apply stable_typedAt|apply preserves_getExpr; apply _|].
  intros resultExpr.
  eapply (typedFrom_then _ _ _ (λ p s, typedAt s p (type expr))).
  - destruct (_ && _); [|by apply typedFrom_ret].
    eapply typedFrom_then; [apply typedFrom_tryFoldIfConstant|].
    intros compiled. cbn beta.
    apply typedFrom_seq; [apply stable_typedAt|apply (typed_exprSet clear)|].
    intros _. by apply typedFrom_ret.
  - intros compiled. cbn beta.
    apply typedFrom_bind with (mid := λ _ _, True); [apply stable_typedAt| |].
    + apply typedFrom_updateScope. intros s scope _ Hcompiled Hscope.
      by apply scopeTyped_assign.
    + intros _. apply typedFrom_ret. by intros s [? _].
Qed.

Lemma typedFrom_compileCaptures (captures : list (ITypedExpr * ExprPtr)) :
  typedFrom (λ s, Forall (λ c, typedAt s c.2 (type c.1)) captures)
    (compileCaptures captures) (λ _ _, True).
Proof.
  induction captures as [|[expr inner] captures IH]; cbn [compileCaptures];
    [by apply typedFrom_ret|].
  assert (stable (λ s, Forall (λ c : ITypedExpr * ExprPtr, typedAt s c.2 (type c.1))
                         ((expr, inner) :: captures))) as Hstable.
  { apply (stable_Forall (λ c s, typedAt s c.2 (type c.1))).
    intros c. apply stable_typedAt. }
  apply typedFrom_seq; [done|apply preserves_currentScope; apply _|]. intros scope.
  apply typedFrom_bind with (mid := λ _ _, True); [done| |].
  - destruct (getAlreadyCompiled expr (visited scope)) as [reference|];
      [by apply typedFrom_ret|].
    eapply typedFrom_bind; [done|apply typedFrom_getExpr|]. intros innerExpr. cbn beta.
    apply (typedFrom_pure _ (type_ innerExpr = type expr)).
    { intros s [Hcaptures Hinner]. apply Forall_cons_1 in Hcaptures as [Hcapture _].
      cbn in Hcapture. by eapply typedAt_agree. }
    intros Htype.
    apply typedFrom_weaken
      with (pre := λ _, True) (post := λ _ _, True); [|done..].
    eapply typedFrom_then.
    { apply (typedFrom_newExpr _ (makeExpr _ (type_ innerExpr) _ _)). }
    intros reference. cbn beta.
    apply typedFrom_bind with (mid := λ _ _, True); [apply stable_typedAt| |].
    + apply typedFrom_updateScope. intros s sc _ Hreference Hsc.
      apply scopeTyped_assign; [|done]. by rewrite <- Htype.
    + intros _. by apply typedFrom_ret.
  - intros reference.
    apply typedFrom_bind with (mid := λ _ _, True); [by apply stable_and| |].
    + eapply typedFrom_weaken; [exact IH| |done].
      intros s [Hcaptures _]. by apply Forall_cons_1 in Hcaptures as [_ ?].
    + intros references. by apply typedFrom_ret.
Qed.

Lemma scopeTyped_addCapture s scope field reference fieldAccess :
  typedAt s reference (type fieldAccess) → scopeTyped s scope →
  scopeTyped s (addCapture field reference fieldAccess scope).
Proof.
  intros Hreference (Hvisited & Hlength & Hlength' & Hcaptures).
  split_and!; cbn; [done|by rewrite !length_app, Hlength
                   |by rewrite !length_app, Hlength'|].
  intros i access ref Haccess Href.
  apply lookup_app_Some in Haccess as [Haccess|[Hi Haccess]];
    apply lookup_app_Some in Href as [Href|[Hj Href]].
  - by eapply Hcaptures.
  - apply lookup_lt_Some in Haccess. lia.
  - apply lookup_lt_Some in Href. lia.
  - rewrite Hlength in Haccess.
    destruct (i - length (captureReferences scope)) as [|n]; [|done].
    cbn in Haccess, Href. by simplify_eq.
Qed.

Lemma captureFieldReference_typed s field reference fieldAccess stack :
  typedAt s reference (type fieldAccess) →
  Forall (scopeTyped s) stack →
  Forall (scopeTyped s) (captureFieldReference field reference fieldAccess stack).
Proof.
  intros Hreference.
  induction stack as [|scope [|parent grandparents] IH]; intros Hstack; [done..|].
  rewrite captureFieldReference_cons. destruct (_ || _); [done|].
  apply Forall_cons_1 in Hstack as [Hscope Hparents].
  constructor; [by apply scopeTyped_addCapture|by apply IH].
Qed.

End TypedCompiler.

Section TypedWalk.

Context (registry : Registry).
Context (Hmetadata : metadataOnly registry).
Context (Hrewrites : rewritesKeepTypes registry).

#[local] Unset Default Proof Using.

Lemma typedFrom_run {A} (m : Compile A) (post : A → CompilerState → Prop) :
  typedFrom (λ _, True) m post → preserves typedRun m.
Proof. intros Hm s r s' Hrun Hs. by eapply Hm. Qed.

Section Recursion.

Context (config : QueryConfig) (flatteningCandidates : gset string)
  (enableConstantFolding : bool).
Context (compileExpression : ITypedExpr → Compile ExprPtr).
Context (IH : ∀ expr,
           typedFrom (λ _, True) (compileExpression expr)
             (λ p s, typedAt s p (type expr))).

Lemma typedFrom_compileInputs expr :
  preserves typedRun
    (compileInputs registry compileExpression expr flatteningCandidates).
Proof.
  rewrite compileInputs_from. generalize (@nil ExprPtr).
  induction (inputs expr) as [|input ins IHins]; intros acc;
    cbn [compileInputsFrom]; [apply preserves_ret; apply _|].
  destruct (isInputKind input).
  { apply preserves_bind; [apply _..|apply preserves_VELOX_CHECK; apply _|].
    intros _. apply IHins. }
  destruct (shouldFlatten registry expr flatteningCandidates) as [name|].
  - apply preserves_bind; [apply _..| |intros compiled; apply IHins].
    apply preserves_mapM; [apply _..|]. apply Forall_forall. intros part _.
    eapply typedFrom_run, IH.
  - apply preserves_bind; [apply _..| |intros compiled; apply IHins].
    eapply typedFrom_run, IH.
Qed.

Lemma scopeTyped_newScope s names : scopeTyped s (newScope names).
Proof. by split_and!. Qed.

(** The body of a lambda, compiled in the scope of the lambda, which is
    gone afterwards. *)
Lemma typedFrom_lambdaBody lambdaBody :
  typedFrom (λ _, True)
    ((λ s, match compileExpression lambdaBody s with
           | Some (r, s') =>
               match scopes s' with
               | lambdaScope :: parents =>
                   match r with
                   | Returns body =>
                       Some (Returns (body, lambdaScope), setScopes parents s')
                   | Throws e => Some (Throws e, setScopes parents s')
                   end
               | [] => Some (Throws (VeloxRuntimeError "no scope"), s')
               end
           | None => None
           end) : Compile (ExprPtr * Scope))
    (λ '(body, lambdaScope) s,
       typedAt s body (type lambdaBody) ∧ scopeTyped s lambdaScope).
Proof.
  intros s r s' Hrun Hs _.
  destruct (compileExpression lambdaBody s) as [[r1 s1]|] eqn:Hbody; [|done].
  destruct (IH lambdaBody _ _ _ Hbody Hs I) as [[Hs1 Hkept] Htyped].
  destruct (scopes s1) as [|lambdaScope parents] eqn:Hscopes.
  { injection Hrun as <- <-. split; [|done]. by split. }
  assert (wellTyped (setScopes parents s1)) as Hs'.
  { destruct Hs1 as [Hfresh Hstack]. split; [done|]. cbn. rewrite Hscopes in Hstack.
    by apply Forall_cons_1 in Hstack as [_ ?]. }
  assert (scopeTyped (setScopes parents s1) lambdaScope) as Hlambda.
  { destruct Hs1 as [_ Hstack]. rewrite Hscopes in Hstack.
    by apply Forall_cons_1 in Hstack as [? _]. }
  destruct r1 as [body|e]; injection Hrun as <- <-; (split; [by split|]); [|done].
  intros [body' lambdaScope'] [= <- <-]. split; [|done]. by apply (Htyped body).
Qed.

Lemma typedFrom_compileLambda signature lambdaBody :
  typedFrom (λ _, True)
    (compileLambda compileExpression signature lambdaBody config)
    (λ p s, typedAt s p (type (LambdaTypedExpr signature lambdaBody))).
Proof.
  unfold compileLambda.
  apply typedFrom_seq; [apply stable_True| |intros _].
  { apply preserves_modify. intros s. apply typedRun_scopes. intros [_ Hstack].
    constructor; [apply scopeTyped_newScope|done]. }
  eapply typedFrom_then; [apply typedFrom_lambdaBody|].
  intros [body lambdaScope]. cbn beta iota.
  assert (stable (λ s, typedAt s body (type lambdaBody) ∧ scopeTyped s lambdaScope))
    as Hstable by (apply stable_and; [apply stable_typedAt|apply stable_scopeTyped]).
  apply typedFrom_bind with (mid := λ _ _, True); [done| |].
  { eapply typedFrom_weaken; [apply typedFrom_compileCaptures| |done].
    intros s [_ (_ & Hlength & Hlength' & Hcaptures)].
    apply Forall_lookup. intros i [access reference] Hi.
    apply lookup_zip_with_Some in Hi as (access' & reference' & [= <- <-] & Haccess & Href).
    apply lookup_take_Some in Haccess as [Haccess _]. by eapply Hcaptures. }
  intros captureReferences.
  eapply typedFrom_bind with (mid := λ e s, typedAt s body (type_ e)).
  { apply stable_and; [done|apply stable_True]. }
  { apply typedFrom_getExpr. }
  intros bodyExpr. cbn beta.
  apply (typedFrom_pure _ (type_ bodyExpr = type lambdaBody)).
  { intros s [[[Hbody _] _] Hexpr]. by eapply typedAt_agree. }
  intros Htype. cbn [type]. rewrite <- Htype.
  apply (typedFrom_newExpr _ (makeExpr _ (FUNCTION _ (type_ bodyExpr)) _ _)).
Qed.

Lemma typedFrom_compileByKind expr compiledInputs :
  typedFrom (λ _, True)
    (compileByKind registry compileExpression expr compiledInputs config)
    (λ p s, typedAt s p (type expr)).
Proof.
  destruct expr as [t v|t|t name ins|t index ins|t name ins|t ins isTry|t ins
                    |signature body]; cbn [compileByKind].
  - apply (typedFrom_newExpr _ (makeExpr _ _ _ _)).
  - apply typedFrom_raise.
  - eapply typedFrom_then.
    { apply (typedFrom_newExpr _ (makeExpr _ (type (FieldAccessTypedExpr t name ins)) _ _)). }
    intros fieldReference. cbn beta.
    apply typedFrom_bind with (mid := λ _ _, True); [apply stable_typedAt| |].
    + destruct (isInputColumn registry _); [|by apply typedFrom_ret].
      intros s r s' Hrun Hs Hreference. unfold modify in Hrun.
      injection Hrun as <- <-. split; [|done].
      apply typedRun_scopes; [|done]. intros [_ Hstack].
      by apply captureFieldReference_typed.
    + intros _. apply typedFrom_ret. by intros s [? _].
  - apply (typedFrom_newExpr _ (makeExpr _ _ _ _)).
  - apply typedFrom_compileCall.
  - eapply typedFrom_then; [by apply typedFrom_compileCast|].
    intros p. apply typedFrom_nonNull.
  - eapply typedFrom_then; [apply typedFrom_getSpecialForm|].
    intros p. apply typedFrom_nonNull.
  - apply typedFrom_compileLambda.
Qed.

Lemma typedFrom_compileRewrittenExpression expr :
  typedFrom (λ _, True)
    (compileRewrittenExpression registry compileExpression expr config
       flatteningCandidates enableConstantFolding)
    (λ p s, typedAt s p (type expr)).
Proof.
  unfold compileRewrittenExpression.
  eapply typedFrom_then; [apply typedFrom_currentScope|]. intros scope. cbn beta.
  destruct (getAlreadyCompiled expr (visited scope)) as [alreadyCompiled|] eqn:Hvisited.
  - eapply typedFrom_weaken;
      [exact (typedFrom_reuseCompiled registry Hmetadata (type expr) alreadyCompiled)
      | |done].
    intros s (Hscope & _). by apply Hscope.
  - apply typedFrom_any.
    apply typedFrom_seq; [apply stable_True|apply typedFrom_compileInputs|].
    intros compiledInputs.
    eapply typedFrom_then; [apply typedFrom_compileByKind|].
    intros result. by apply typedFrom_finishCompilation.
Qed.

End Recursion.

Lemma typedFrom_compileExpression depth config flatteningCandidates
    enableConstantFolding expr :
  typedFrom (λ _, True)
    (compileExpression registry depth expr config flatteningCandidates
       enableConstantFolding)
    (λ p s, typedAt s p (type expr)).
Proof.
  revert expr. induction depth as [|depth IH]; intros expr;
    [by intros s r s' Hrun|].
  cbn [compileExpression].
  apply typedFrom_bind with (mid := λ _ _, True); [apply stable_True| |].
  - destruct (rewriteExpression registry expr) as [rewritten|];
      [|by apply typedFrom_ret].
    apply typedFrom_updateScope. by intros s scope _ _ Hscope.
  - intros _. apply typedFrom_any.
    destruct (rewriteExpression registry expr) as [rewritten|] eqn:Hrewrite;
      cbn [default]; [|by apply typedFrom_compileRewrittenExpression].
    apply rewriteExpression_elem in Hrewrite as (rewrite & Helem & Hrewrite).
    rewrite <- (Hrewrites rewrite Helem expr rewritten Hrewrite).
    by apply typedFrom_compileRewrittenExpression.
Qed.

End TypedWalk.


Lemma wellTyped_initialState exprSet : wellTyped (initialState exprSet).
Proof.
  split.
  - intros p [e He]. cbn in He. by rewrite lookup_empty in He.
  - cbn. constructor; [by split_and!|done].
Qed.

Lemma typedFrom_sources (f : ITypedExpr → Compile ExprPtr) (sources : list ITypedExpr) :
  (∀ source, typedFrom (λ _, True) (f source) (λ p s, typedAt s p (type source))) →
  typedFrom (λ _, True) (mapM f sources)
    (λ ps s, Forall2 (λ source p, typedAt s p (type source)) sources ps).
Proof.
  intros Hf. induction sources as [|source sources IH]; cbn [mapM].
  - apply typedFrom_ret. by constructor.
  - eapply typedFrom_then; [apply Hf|]. intros p. cbn beta.
    eapply typedFrom_bind; [apply stable_typedAt| |].
    + eapply typedFrom_weaken; [exact IH|done|]. intros ps s Hps. exact Hps.
    + intros ps. apply typedFrom_ret. intros s [Hp Hps]. by constructor.
Qed.


Lemma exampleRegistry_rewritesKeepTypes : rewritesKeepTypes exampleRegistry.
Proof. intros rewrite Hrewrite. by apply elem_of_nil in Hrewrite. Qed.



(** * What a lambda captures *)

(** The loop over the captures: every field access ends with its reference
    in the visited map of the scope the loop runs in, and a field access
    that scope had a node for is given that node. *)
Lemma compileCaptures_shared (captures : list (ITypedExpr * ExprPtr)) s references s' :
  compileCaptures captures s = Some (Returns references, s') →
  Forall2 (λ access reference,
             (∃ scope' parents',
                scopes s' = scope' :: parents'
                ∧ getAlreadyCompiled access (visited scope') = Some reference)
             ∧ ∀ scope parents found,
                 scopes s = scope :: parents →
                 getAlreadyCompiled access (visited scope) = Some found →
                 reference = found)
    captures.*1 references.
Proof.
  revert s references.
  induction captures as [|[expr inner] captures IH]; intros s references Hrun.
  { cbn in Hrun. injection Hrun as <- <-. constructor. }
  cbn [compileCaptures] in Hrun.
  apply bind_inv in Hrun as [(scope & s0 & Hscope & Hrun)|(e & _ & ?)]; [|done].
  unfold currentScope in Hscope.
  destruct (scopes s) as [|scope0 parents] eqn:Hscopes; [done|].
  injection Hscope as <- <-.
  apply bind_inv in Hrun as [(reference & s1 & Href & Hrun)|(e & _ & ?)]; [|done].
  assert (∃ scope1, scopes s1 = scope1 :: parents
                    ∧ getAlreadyCompiled expr (visited scope1) = Some reference
                    ∧ visitedGrows (λ _, True) (visited scope0) (visited scope1))
    as (scope1 & Hscopes1 & Hrecorded & Hgrows).
  { destruct (getAlreadyCompiled expr (visited scope0)) as [found|] eqn:Hvisited.
    - unfold mret, Compile_ret in Href. injection Href as <- <-. exists scope0.
      split_and!; [done..|]. apply visitedGrows_refl.
    - apply bind_inv in Href as [(innerExpr & s2 & Hinner & Href)|(e & _ & ?)]; [|done].
      unfold getExpr in Hinner. destruct (heap s !! inner); [|done].
      injection Hinner as <- <-.
      compile_unfold. rewrite Hscopes in Href. injection Href as <- <-.
      eexists. split; [done|]. cbn [visited setVisited].
      split; [apply getAlreadyCompiled_assign|by apply visitedGrows_assign]. }
  apply bind_inv in Hrun as [(rest & s2 & Hrest & Hrun)|(e & _ & ?)]; [|done].
  unfold mret, Compile_ret in Hrun. injection Hrun as <- <-.
  cbn [fmap list_fmap fst]. constructor.
  - split.
    + destruct (compileCaptures_grows (λ _, True) (λ _, True) captures
                  ltac:(by apply Forall_true) s1 _ s2 Hrest) as [Hstack _].
      rewrite Hscopes1 in Hstack.
      inversion Hstack as [|? scope2 ? parents2 [Hvisited2 _] _ Heq1 Heq2].
      exists scope2, parents2. split; [done|].
      specialize (Hvisited2 expr). by rewrite Hrecorded in Hvisited2.
    + intros scope parents' found [= <- <-] Hfound.
      specialize (Hgrows expr). rewrite Hfound in Hgrows. congruence.
  - eapply Forall2_impl; [by eapply IH|]. cbn. intros access reference' [Hshared Hreused].
    split; [done|]. intros scope parents' found [= <- <-] Hfound.
    apply (Hreused scope1 parents); [done|].
    specialize (Hgrows access). by rewrite Hfound in Hgrows.
Qed.

(** X20. What a compiled lambda captures it shares with the scope around
    it. The body of the lambda is compiled in a scope of the lambda's own;
    [lambdaScope] is that scope as the body leaves it. The node of the
    lambda then holds one reference for each of the field accesses the
    loop of [compileLambda] visits, which are the first
    [lambdaScope.capture.size()] entries of
    [lambdaScope.captureFieldAccesses], as far as
    [lambdaScope.captureReferences] reaches, in their order: the reference
    is the node the enclosing scope has recorded for the field access when
    the lambda is compiled, and it is the node the enclosing scope had for
    the field access when there was one. When the three vectors of the
    lambda's scope are of one length, these are all the field accesses
    the scope has captured. *)
Theorem lambda_captures_are_shared (compileExpression : ITypedExpr → Compile ExprPtr)
    (signature : list (string * TypePtr)) (lambdaBody : ITypedExpr)
    (config : QueryConfig) (s : CompilerState) (body : ExprPtr) (s1 : CompilerState)
    (lambdaScope : Scope) (enclosing : list Scope) (p : ExprPtr) (s' : CompilerState) :
  compileExpression lambdaBody (setScopes (newScope signature.*1 :: scopes s) s)
  = Some (Returns body, s1) →
  scopes s1 = lambdaScope :: enclosing →
  compileLambda compileExpression signature lambdaBody config s
  = Some (Returns p, s') →
  let accesses :=
    (zip (take (length (capture lambdaScope)) (captureFieldAccesses lambdaScope))
         (captureReferences lambdaScope)).*1 in
  (∃ captures,
     node <$> heap s' !! p = Some (LambdaExpr signature captures body)
     ∧ Forall2 (λ access reference,
                  (∃ scope' parents',
                     scopes s' = scope' :: parents'
                     ∧ getAlreadyCompiled access (visited scope') = Some reference)
                  ∧ ∀ scope parents found,
                      enclosing = scope :: parents →
                      getAlreadyCompiled access (visited scope) = Some found →
                      reference = found)
         accesses captures)
  ∧ (length (capture lambdaScope) = length (captureFieldAccesses lambdaScope) →
     length (captureFieldAccesses lambdaScope) = length (captureReferences lambdaScope) →
     accesses = captureFieldAccesses lambdaScope).
Proof.
  intros Hbody Hscopes1 Hrun accesses. split; cycle 1.
  { intros Hcapture Hreferences. unfold accesses.
    rewrite Hcapture, firstn_all. apply fst_zip. lia. }
  unfold compileLambda in Hrun.
  apply bind_inv in Hrun as [([] & s0 & Hpush & Hrun)|(e & _ & ?)]; [|done].
  unfold modify in Hpush. injection Hpush as <-.
  apply bind_inv in Hrun as [([body' lambdaScope'] & s2 & Hpop & Hrun)|(e & _ & ?)];
    [|done].
  rewrite Hbody, Hscopes1 in Hpop. injection Hpop as <- <- <-.
  apply bind_inv in Hrun as [(captures & s2 & Hcaptures & Hrun)|(e & _ & ?)]; [|done].
  apply bind_inv in Hrun as [(bodyExpr & s3 & Hnode & Hrun)|(e & _ & ?)]; [|done].
  unfold getExpr in Hnode. destruct (heap s2 !! body); [|done].
  injection Hnode as <- <-.
  unfold newExpr in Hrun. injection Hrun as <- <-.
  exists captures. split.
  - cbn. by rewrite lookup_insert_eq.
  - cbn [scopes]. by apply compileCaptures_shared in Hcaptures.
Qed.

Lemma lambda_captures_are_shared_witness :
  let compile := λ expr, compileExpression exampleRegistry 4 expr exampleConfig ∅ true in
  let lambdaBody := plus (column (Scalar BIGINT) "c") (column (Scalar BIGINT) "x") in
  let s := initialState (exampleExprSet true) in
  match compile lambdaBody (setScopes (newScope ["x"] :: scopes s) s),
        compileLambda compile [("x", Scalar BIGINT)] lambdaBody exampleConfig s with
  | Some (Returns body, s1), Some (Returns p, s') =>
      captureFieldAccesses <$> head (scopes s1) = Some [column (Scalar BIGINT) "c"]
      ∧ ∃ reference,
          node <$> heap s' !! p
          = Some (LambdaExpr [("x", Scalar BIGINT)] [reference] body)
          ∧ ∃ scope' parents',
              scopes s' = scope' :: parents'
              ∧ getAlreadyCompiled (column (Scalar BIGINT) "c") (visited scope')
                = Some reference
  | _, _ => False
  end.
Proof.
  intros compile lambdaBody s.
  destruct (compile lambdaBody _) as [[[body|e] s1]|] eqn:Hbody;
    [|by vm_compute in Hbody..].
  destruct (compileLambda _ _ _ _ _) as [[[p|e] s']|] eqn:Hrun;
    [|by vm_compute in Hrun..].
  destruct (scopes s1) as [|lambdaScope enclosing] eqn:Hscopes1.
  { vm_compute in Hbody. injection Hbody as <- <-. done. }
  destruct (lambda_captures_are_shared compile [("x", Scalar BIGINT)] lambdaBody
              exampleConfig s body s1 lambdaScope enclosing p s' Hbody Hscopes1 Hrun)
    as [(captures & Hnode & Hshared) _].
  assert (lambdaScope
          = {| locals := ["x"]; capture := ["c"]; captureReferences := [0];
               captureFieldAccesses := [column (Scalar BIGINT) "c"];
               visited := visited lambdaScope;
               rewrittenExpressions := rewrittenExpressions lambdaScope |}) as Hscope.
  { vm_compute in Hbody. injection Hbody as <- <-. by injection Hscopes1 as <- <-. }
  rewrite Hscope in Hshared. cbn in Hshared.
  inversion Hshared as [|access reference accesses' captures' [Hrecorded _] Hrest];
    subst. inversion Hrest; subst.
  split; [by rewrite Hscope|]. exists reference. split; [done|exact Hrecorded].
Defined.

(** A column compiled before a lambda that captures it: the lambda
    captures the node of the column. *)
Example lambda_captures_at_work :
  match exampleRun
          [column (Scalar BIGINT) "c";
           lambda "x" (plus (column (Scalar BIGINT) "c") (column (Scalar BIGINT) "x"))]
          true true with
  | Some (Returns [c; p], s) =>
      ∃ body, node <$> heap s !! p = Some (LambdaExpr [("x", Scalar BIGINT)] [c] body)
  | _ => False
  end.
Proof. vm_compute. by eexists. Qed.

(** * Flattening, as the compiler decides on it *)

Section Unflattened.

Context (registry : Registry).
Context (compileExpression : ITypedExpr → Compile ExprPtr).

#[local] Unset Default Proof Using.

(** An expression that is not flattened has its inputs compiled as they
    stand. *)
Lemma compileInputs_unflattened expr flatteningCandidates s :
  shouldFlatten registry expr flatteningCandidates = None →
  Forall (λ input, isInputKind input = false) (inputs expr) →
  compileInputs registry compileExpression expr flatteningCandidates s
  = mapM compileExpression (inputs expr) s.
Proof.
  intros Hflat. rewrite compileInputs_from. generalize (inputs expr). intros ins Hins.
  enough (∀ acc s,
            compileInputsFrom registry compileExpression expr flatteningCandidates
              ins acc s
            = (compiled ← mapM compileExpression ins; mret (acc ++ compiled)) s) as Hgen.
  { rewrite Hgen. unfold mbind, Compile_bind, mret, Compile_ret.
    by destruct (mapM (M := Compile) _ _ s) as [[[ys|e] s']|]. }
  clear s. induction Hins as [|input ins Hinput _ IH]; intros acc s.
  - cbn. unfold mbind, Compile_bind, mret, Compile_ret. cbn. by rewrite app_nil_r.
  - cbn [compileInputsFrom mapM]. rewrite Hinput, Hflat.
    unfold mbind, Compile_bind, mret, Compile_ret in *.
    destruct (compileExpression input s) as [[[p|e] s1]|]; [|done..].
    rewrite IH.
    destruct (mapM (M := Compile) compileExpression ins s1) as [[[ps|e] s2]|]; [|done..].
    by rewrite <- app_assoc.
Qed.

End Unflattened.




(** * Common subexpressions *)

Section Kept.

Context (registry : Registry).
Context (Hmetadata : metadataOnly registry).

#[local] Unset Default Proof Using.
#[local] Existing Instances stackGrows_reflexive stackGrows_transitive
  graphGrows_reflexive graphGrows_transitive.

Ltac keeps_side :=
  lazymatch goal with
  | |- Reflexive _ => apply _
  | |- Transitive _ => apply _
  | |- ∀ s s', graphStep _ s s' → graphGrows s s' => by apply graphGrows_graph
  | |- ∀ s s', graphStep _ s s' → stackGrows _ _ s s' => by apply stackGrows_graph
  | |- _ => idtac
  end.

Lemma keeps_records s s' key compiled :
  recordsKept s s' → records s key compiled → records s' key compiled.
Proof.
  intros [Hstack Hnodes] (scope & parents & Hscopes & Hvisited & Hnode).
  rewrite Hscopes in Hstack.
  inversion Hstack as [|? scope' ? parents' [Hvisited' _] _ Heq1 Heq2].
  exists scope', parents'. split_and!; [done| |by apply Hnodes].
  specialize (Hvisited' key). by rewrite Hvisited in Hvisited'.
Qed.

Lemma keeps_head s scope scope' parents :
  scopes s = scope :: parents →
  visitedGrows (λ _, True) (visited scope) (visited scope') →
  captureFieldAccesses scope' = captureFieldAccesses scope →
  recordsKept s (setScopes (scope' :: parents) s).
Proof.
  intros Hscopes Hvisited Haccesses. split; [|by intros p]. cbn. rewrite Hscopes.
  constructor.
  - split; [done|]. exists []. by rewrite app_nil_r.
  - apply Forall2_same_length_lookup. split; [done|].
    intros i sc sc' H1 H2. simplify_eq. apply scopeGrows_refl.
Qed.

(** Where [finishCompilation] leaves the scopes: as they were, or with the
    node it returns assigned to the expression in the current scope. *)
Lemma finishCompilation_shape expr result enableConstantFolding s scope parents r s' :
  scopes s = scope :: parents →
  finishCompilation registry expr result enableConstantFolding s = Some (r, s') →
  nodesKept s s'
  ∧ (scopes s' = scopes s
     ∨ ∃ compiled,
         r = Returns compiled
         ∧ scopes s' = setVisited (assign expr compiled (visited scope)) scope :: parents).
Proof.
  intros Hscopes Hrun. unfold finishCompilation in Hrun.
  assert (preserves graphGrows
            (onHeap (computeMetadata registry result) ≫= λ _,
             getExpr result ≫= λ resultExpr,
             if enableConstantFolding && negb (isConstant resultExpr)
             then tryFoldIfConstant registry result ≫= λ compiled,
                  modify (λ s, setExprSet (clear (exprSet s)) s) ≫= λ _, mret compiled
             else mret result)) as Hprefix.
  { eapply preserves_bind; keeps_side; [eapply preserves_computeMetadata; keeps_side|].
    intros _. eapply preserves_bind; keeps_side; [eapply preserves_getExpr; keeps_side|].
    intros resultExpr. destruct (_ && _); [|eapply preserves_ret; keeps_side].
    eapply preserves_bind; keeps_side; [eapply preserves_tryFoldIfConstant; keeps_side|].
    intros compiled.
    eapply preserves_bind; keeps_side; [eapply preserves_exprSet with (f := clear); keeps_side|].
    intros _. eapply preserves_ret; keeps_side. }
  apply bind_inv in Hrun as [([] & s1 & Hmeta & Hrun)|(e & Hmeta & _)]; [|done].
  apply bind_inv in Hrun as [(resultExpr & s2 & Hresult & Hrun)|(e & Hresult & _)]; cycle 1.
  { destruct (Hprefix s (Throws e) s') as [Hsame Hkept].
    { erewrite bind_Returns; [|exact Hmeta]. erewrite bind_Throws; [done|exact Hresult]. }
    split; [done|by left]. }
  apply bind_inv in Hrun as [(compiled & s3 & Hfold & Hrun)|(e & Hfold & _)]; cycle 1.
  { destruct (Hprefix s (Throws e) s') as [Hsame Hkept].
    { erewrite bind_Returns; [|exact Hmeta]. erewrite bind_Returns; [|exact Hresult].
      exact Hfold. }
    split; [done|by left]. }
  assert (graphGrows s s3) as [Hscopes3 Hnodes3].
  { eapply Hprefix.
    erewrite bind_Returns; [|exact Hmeta]. erewrite bind_Returns; [|exact Hresult].
    exact Hfold. }
  compile_unfold. rewrite Hscopes3, Hscopes in Hrun. injection Hrun as <- <-.
  split; [done|]. right. by exists compiled.
Qed.

Section Recursion.

Context (config : QueryConfig) (flatteningCandidates : gset string)
  (enableConstantFolding : bool).
Context (compileExpression : ITypedExpr → Compile ExprPtr).
Context (IH : ∀ expr, preserves recordsKept (compileExpression expr)).

Lemma compileInputs_keeps expr :
  preserves recordsKept (compileInputs registry compileExpression expr flatteningCandidates).
Proof.
  rewrite compileInputs_from. generalize (inputs expr) (@nil ExprPtr).
  intros ins. induction ins as [|input ins IHins]; intros acc; cbn [compileInputsFrom];
    [eapply preserves_ret; keeps_side|].
  destruct (isInputKind input).
  { eapply preserves_bind; keeps_side; [eapply preserves_VELOX_CHECK; keeps_side|].
    intros _. apply IHins. }
  destruct (shouldFlatten registry expr flatteningCandidates) as [name|].
  - eapply preserves_bind; keeps_side; [|intros compiled; apply IHins].
    eapply preserves_mapM; keeps_side. apply Forall_forall. intros part _. apply IH.
  - eapply preserves_bind; keeps_side; [apply IH|intros compiled; apply IHins].
Qed.

Lemma compileLambda_keeps signature lambdaBody :
  preserves recordsKept (compileLambda compileExpression signature lambdaBody config).
Proof.
  intros s r s' Hrun. unfold compileLambda in Hrun.
  apply bind_inv in Hrun as [([] & s0 & Hpush & Hrun)|(e & Hpush & _)];
    [|by unfold modify in Hpush].
  unfold modify in Hpush. injection Hpush as <-.
  assert (∀ r1 s1,
            match compileExpression lambdaBody (setScopes (newScope signature.*1 :: scopes s) s) with
            | Some (r, s') =>
                match scopes s' with
                | lambdaScope :: parents =>
                    match r with
                    | Returns body => Some (Returns (body, lambdaScope), setScopes parents s')
                    | Throws e => Some (Throws e, setScopes parents s')
                    end
                | [] => Some (Throws (VeloxRuntimeError "no scope"), s')
                end
            | None => None
            end = Some (r1, s1) →
            recordsKept s s1) as Hbody.
  { intros r1 s1 Hbody.
    destruct (compileExpression lambdaBody _) as [[r2 s2]|] eqn:Hcompile; [|done].
    apply IH in Hcompile as [Hstack Hnodes]. cbn [scopes setScopes] in Hstack.
    inversion Hstack as [|new lambdaScope ? parents Hlambda Hparents Hnew Hscopes2].
    rewrite <- Hscopes2 in Hbody.
    assert (s1 = setScopes parents s2) as -> by (destruct r2; by simplify_eq).
    by split. }
  apply bind_inv in Hrun as [([body lambdaScope] & s1 & Hrun1 & Hrun)|(e & Hrun & _)];
    [|by eapply Hbody].
  etrans; [exact (Hbody _ _ Hrun1)|].
  assert (preserves recordsKept
    (compileCaptures (zip (take (length (capture lambdaScope)) (captureFieldAccesses lambdaScope))
                          (captureReferences lambdaScope))
     ≫= λ captureReferences, getExpr body
     ≫= λ bodyExpr, newExpr (makeExpr (LambdaExpr signature captureReferences body)
                               (FUNCTION (signature.*2) (type_ bodyExpr)) []
                               (exprTrackCpuUsage config)))) as Hrest.
  { eapply preserves_bind; keeps_side; [ |intros captureReferences].
    { apply compileCaptures_grows. by apply Forall_true. }
    eapply preserves_bind; keeps_side; [eapply preserves_getExpr; keeps_side|intros bodyExpr].
    eapply preserves_newExpr; keeps_side. }
  exact (Hrest _ _ _ Hrun).
Qed.

Lemma compileByKind_keeps expr compiledInputs :
  preserves recordsKept (compileByKind registry compileExpression expr compiledInputs config).
Proof.
  unfold compileByKind.
  destruct expr as [t v|t|t name ins|t index ins|t name ins|t ins isTry|t ins|signature body].
  - eapply preserves_newExpr; keeps_side.
  - eapply preserves_raise; keeps_side.
  - eapply preserves_bind; keeps_side; [eapply preserves_newExpr; keeps_side|].
    intros fieldReference.
    eapply preserves_bind; keeps_side; [|intros _; eapply preserves_ret; keeps_side].
    destruct (isInputColumn _ _); [|eapply preserves_ret; keeps_side].
    eapply preserves_modify; keeps_side. intros s. split; [|by intros p].
    cbn [scopes setScopes]. by apply captureFieldReference_grows.
  - eapply preserves_newExpr; keeps_side.
  - eapply preserves_compileCall; keeps_side.
  - eapply preserves_bind; keeps_side; [|intros p; eapply preserves_nonNull; keeps_side].
    eapply preserves_compileCast; keeps_side.
  - eapply preserves_bind; keeps_side; [|intros p; eapply preserves_nonNull; keeps_side].
    eapply preserves_getSpecialForm; keeps_side.
  - apply compileLambda_keeps.
Qed.

(** The run of [compileRewrittenExpression] on an expression the scope has
    no node for, in its three parts. What the scope has recorded when the
    inputs are compiled is kept to the end, but for the entry of the
    expression, which is assigned last. *)
Lemma compileRewrittenExpression_parts expr s scope parents compiled s' :
  scopes s = scope :: parents →
  getAlreadyCompiled expr (visited scope) = None →
  compileRewrittenExpression registry compileExpression expr config
    flatteningCandidates enableConstantFolding s = Some (Returns compiled, s') →
  ∃ compiledInputs s1,
    compileInputs registry compileExpression expr flatteningCandidates s
    = Some (Returns compiledInputs, s1)
    ∧ recordsKept s s1
    ∧ ∀ key q, records s1 key q →
               records s' key (if bool_decide (key = expr) then compiled else q).
Proof.
  intros Hscopes Hvisited Hrun. unfold compileRewrittenExpression in Hrun.
  erewrite bind_Returns in Hrun by (unfold currentScope; by rewrite Hscopes).
  rewrite Hvisited in Hrun.
  apply bind_inv in Hrun as [(compiledInputs & s1 & Hinputs & Hrun)|(? & ? & ?)]; [|done].
  apply bind_inv in Hrun as [(result & s2 & Hresult & Hrun)|(? & ? & ?)]; [|done].
  exists compiledInputs, s1. split; [done|].
  split; [by eapply compileInputs_keeps|].
  intros key q Hrecorded.
  apply compileByKind_keeps in Hresult.
  apply (keeps_records _ _ _ _ Hresult) in Hrecorded
    as (scope2 & parents2 & Hscopes2 & Hvisited2 & Hnode2).
  destruct (finishCompilation_records registry _ _ _ _ _ _ _ _ Hscopes2 Hrun)
    as (scope' & Hscopes' & Hcompiled & Hnode').
  destruct (finishCompilation_shape _ _ _ _ _ _ _ _ Hscopes2 Hrun)
    as [Hkept [Hsame|(compiled' & [= <-] & Hassigned)]].
  - rewrite Hsame, Hscopes2 in Hscopes'. injection Hscopes' as <-.
    exists scope2, parents2. rewrite Hsame. split; [done|].
    case_bool_decide as Hkey; [subst key; by split|].
    split; [done|by apply Hkept].
  - exists scope', parents2. split; [done|].
    rewrite Hscopes' in Hassigned. injection Hassigned as ->.
    case_bool_decide as Hkey; [subst key; by split|].
    split; [|by apply Hkept]. cbn [visited setVisited].
    by rewrite getAlreadyCompiled_assign_ne.
Qed.

Lemma compileRewrittenExpression_keeps expr :
  preserves recordsKept
    (compileRewrittenExpression registry compileExpression expr config
       flatteningCandidates enableConstantFolding).
Proof.
  intros s r s' Hrun. unfold compileRewrittenExpression in Hrun.
  apply bind_inv in Hrun as [(scope & s0 & Hscope & Hrun)|(e & Hscope & _)]; cycle 1.
  { unfold currentScope in Hscope. destruct (scopes s); by simplify_eq. }
  unfold currentScope in Hscope.
  destruct (scopes s) as [|scope0 parents] eqn:Hscopes; [done|]. injection Hscope as <- <-.
  destruct (getAlreadyCompiled expr (visited scope0)) as [alreadyCompiled|] eqn:Hvisited.
  { eapply preserves_reuseCompiled; keeps_side; [..|exact Hrun]; keeps_side. }
  assert (preserves recordsKept
            (compileInputs registry compileExpression expr flatteningCandidates
             ≫= λ compiledInputs,
                  compileByKind registry compileExpression expr compiledInputs config))
    as Hbuilt.
  { eapply preserves_bind; keeps_side; [apply compileInputs_keeps|].
    intros compiledInputs. apply compileByKind_keeps. }
  apply bind_inv in Hrun as [(compiledInputs & s1 & Hinputs & Hrun)|(e & Hinputs & _)]; cycle 1.
  { eapply Hbuilt. erewrite bind_Throws; [done|exact Hinputs]. }
  apply bind_inv in Hrun as [(result & s2 & Hresult & Hrun)|(e & Hresult & _)]; cycle 1.
  { eapply Hbuilt. erewrite bind_Returns; [|exact Hinputs]. exact Hresult. }
  assert (recordsKept s s2) as [Hstack Hnodes].
  { eapply Hbuilt. erewrite bind_Returns; [|exact Hinputs]. exact Hresult. }
  rewrite Hscopes in Hstack.
  inversion Hstack as [|? scope2 ? parents2 [Hvisited2 Haccesses2] Hparents Hnew Hscopes2].
  symmetry in Hscopes2.
  destruct (finishCompilation_shape _ _ _ _ _ _ _ _ Hscopes2 Hrun)
    as [Hkept [Hsame|(compiled & _ & Hassigned)]].
  - split; [|intros p Hp; by apply Hkept, Hnodes].
    rewrite Hscopes, Hsame, Hscopes2. by constructor.
  - split; [|intros p Hp; by apply Hkept, Hnodes].
    rewrite Hscopes, Hassigned. constructor; [|done].
    split; [|done]. cbn [visited setVisited]. intros key.
    specialize (Hvisited2 key).
    destruct (getAlreadyCompiled key (visited scope0)) as [q|] eqn:Hkey; [|done].
    rewrite getAlreadyCompiled_assign_ne by congruence. done.
Qed.

End Recursion.

Lemma rewriteNoted_run expr s :
  (match rewriteExpression registry expr with
   | Some rewritten => updateScope (addRewritten rewritten)
   | None => mret tt
   end) s = Some (Returns tt, rewriteNoted registry expr s).
Proof.
  unfold rewriteNoted. destruct (rewriteExpression registry expr); [|done].
  compile_unfold. by destruct (scopes s).
Qed.

Lemma rewriteNoted_keeps expr s : recordsKept s (rewriteNoted registry expr s).
Proof.
  unfold rewriteNoted. destruct (rewriteExpression registry expr); [|reflexivity].
  destruct (scopes s) as [|scope parents] eqn:Hscopes; [reflexivity|].
  apply (keeps_head s scope); [done| |done]. apply visitedGrows_refl.
Qed.

Lemma compileExpression_unfold depth expr config flatteningCandidates
    enableConstantFolding s :
  compileExpression registry (S depth) expr config flatteningCandidates
    enableConstantFolding s
  = compileRewrittenExpression registry
      (λ e, compileExpression registry depth e config flatteningCandidates
              enableConstantFolding)
      (rewritten registry expr) config flatteningCandidates enableConstantFolding
      (rewriteNoted registry expr s).
Proof.
  cbn [compileExpression]. by erewrite bind_Returns by apply rewriteNoted_run.
Qed.

Lemma compileExpression_keeps depth config flatteningCandidates enableConstantFolding expr :
  preserves recordsKept
    (compileExpression registry depth expr config flatteningCandidates
       enableConstantFolding).
Proof.
  revert expr. induction depth as [|depth IH]; intros expr; [by intros s r s' Hrun|].
  intros s r s' Hrun. rewrite compileExpression_unfold in Hrun.
  etrans; [apply (rewriteNoted_keeps expr)|].
  exact (compileRewrittenExpression_keeps config flatteningCandidates
           enableConstantFolding _ IH _ _ _ _ Hrun).
Qed.

Lemma rewriteNoted_records expr s key q :
  records (rewriteNoted registry expr s) key q ↔ records s key q.
Proof.
  unfold rewriteNoted. destruct (rewriteExpression registry expr); [|done].
  destruct (scopes s) as [|scope parents] eqn:Hscopes; [done|].
  unfold records. cbn. rewrite Hscopes. split.
  - intros (scope' & parents' & [= <- <-] & Hvisited & Hnode). by exists scope, parents.
  - intros (scope' & parents' & [= <- <-] & Hvisited & Hnode). by eexists _, _.
Qed.

(** A compilation that returns leaves the node under the rewritten
    expression. *)
Lemma compileExpression_records depth expr config flatteningCandidates
    enableConstantFolding s compiled s' :
  compileExpression registry depth expr config flatteningCandidates
    enableConstantFolding s = Some (Returns compiled, s') →
  records s' (rewritten registry expr) compiled.
Proof.
  destruct depth as [|depth]; [done|]. rewrite compileExpression_unfold. intros Hrun.
  apply compileRewrittenExpression_records in Hrun
    as (scope' & parents' & ? & ? & ?); [|done].
  by exists scope', parents'.
Qed.

(** An expression the scope has a node for compiles to that node. *)
Lemma compileExpression_recorded depth expr config flatteningCandidates
    enableConstantFolding s q :
  records s (rewritten registry expr) q →
  ∃ e,
    heap s !! q = Some e
    ∧ compileExpression registry (S depth) expr config flatteningCandidates
        enableConstantFolding s
      = Some (Returns q,
              if isMultiplyReferenced_ e then rewriteNoted registry expr s
              else reusedState registry q (rewriteNoted registry expr s)).
Proof.
  intros Hrecorded. pose proof Hrecorded as (_ & _ & _ & _ & [e He]).
  apply (rewriteNoted_records expr) in Hrecorded
    as (scope & parents & Hscopes & Hvisited & Hnode).
  exists e. split; [done|]. rewrite compileExpression_unfold.
  eapply compileRewrittenExpression_reuse; [done..|].
  unfold rewriteNoted. destruct (rewriteExpression registry expr); [|done].
  by destruct (scopes s).
Qed.

(** The expressions compiled one after the other: each has its node
    recorded in the end, and one the scope had a node for compiles to that
    node. *)
Lemma mapM_compileExpression_records depth config flatteningCandidates
    enableConstantFolding parts s compiledParts' s' :
  mapM (λ part, compileExpression registry depth part config flatteningCandidates
                  enableConstantFolding) parts s
  = Some (Returns compiledParts', s') →
  recordsKept s s'
  ∧ Forall2 (λ part q,
               records s' (rewritten registry part) q
               ∧ ∀ q0, records s (rewritten registry part) q0 → q = q0)
      parts compiledParts'.
Proof.
  revert s compiledParts'.
  induction parts as [|part parts IH]; intros s compiledParts' Hrun.
  { cbn in Hrun. injection Hrun as <- <-. split; [reflexivity|constructor]. }
  cbn [mapM] in Hrun.
  apply bind_inv in Hrun as [(q & s1 & Hpart & Hrun)|(? & ? & ?)]; [|done].
  apply bind_inv in Hrun as [(qs & s2 & Hparts & Hrun)|(? & ? & ?)]; [|done].
  unfold mret, Compile_ret in Hrun. injection Hrun as <- <-.
  destruct (IH _ _ Hparts) as [Hkeeps Hrecords].
  pose proof (compileExpression_keeps _ _ _ _ _ _ _ _ Hpart) as Hkeeps1.
  split; [by etrans|].
  constructor.
  - split.
    + eapply keeps_records; [exact Hkeeps|]. by eapply compileExpression_records.
    + intros q0 Hq0. destruct depth as [|depth]; [done|].
      destruct (compileExpression_recorded depth part config flatteningCandidates
                  enableConstantFolding s q0 Hq0) as (e & _ & Hagain).
      rewrite Hagain in Hpart. by injection Hpart.
  - eapply Forall2_impl; [exact Hrecords|]. cbn. intros part' q' [Hrecorded Hreused].
    split; [done|]. intros q0 Hq0. apply Hreused. by eapply keeps_records.
Qed.

(** What [compileInputs] returns is what [compileExpression] makes of the
    parts, one after the other. *)
Lemma compileInputs_parts (compileExpression : ITypedExpr → Compile ExprPtr)
    expr flatteningCandidates s compiledInputs s' :
  compileInputs registry compileExpression expr flatteningCandidates s
  = Some (Returns compiledInputs, s') →
  mapM compileExpression (compiledParts registry expr flatteningCandidates) s
  = Some (Returns compiledInputs, s').
Proof.
  rewrite compileInputs_from. unfold compiledParts.
  enough (∀ ins acc s compiledInputs,
            compileInputsFrom registry compileExpression expr flatteningCandidates
              ins acc s = Some (Returns compiledInputs, s') →
            ∃ compiled,
              compiledInputs = acc ++ compiled
              ∧ mapM compileExpression
                  (concat ((λ input,
                     if isInputKind input then []
                     else
                       match shouldFlatten registry expr flatteningCandidates with
                       | Some name => flattenInput registry input name []
                       | None => [input]
                       end) <$> ins)) s
                = Some (Returns compiled, s')) as Hgen.
  { intros Hrun. apply Hgen in Hrun as (compiled & -> & Hrun). done. }
  clear s compiledInputs. intros ins.
  induction ins as [|input ins IH]; intros acc s compiledInputs Hrun.
  { cbn in Hrun. injection Hrun as <- <-. exists []. by rewrite app_nil_r. }
  cbn [compileInputsFrom] in Hrun. cbn [fmap list_fmap concat].
  destruct (isInputKind input).
  { apply bind_inv in Hrun as [([] & s1 & Hcheck & Hrun)|(? & ? & ?)]; [|done].
    unfold VELOX_CHECK in Hcheck. destruct (isFieldAccessKind expr); [|done].
    injection Hcheck as <-. cbn [app]. by apply IH. }
  destruct (shouldFlatten registry expr flatteningCandidates) as [name|].
  - apply bind_inv in Hrun as [(compiled & s1 & Hflat & Hrun)|(? & ? & ?)]; [|done].
    apply IH in Hrun as (rest & -> & Hrest).
    exists (compiled ++ rest). split; [by rewrite app_assoc|].
    rewrite mapM_app. erewrite bind_Returns by exact Hflat.
    by erewrite bind_Returns by exact Hrest.
  - apply bind_inv in Hrun as [(compiled & s1 & Hinput & Hrun)|(? & ? & ?)]; [|done].
    apply IH in Hrun as (rest & -> & Hrest).
    exists (compiled :: rest). split; [by rewrite <- app_assoc|].
    cbn [app mapM]. erewrite bind_Returns by exact Hinput.
    by erewrite bind_Returns by exact Hrest.
Qed.

End Kept.

(** C4. An expression that has a compiled node in the visited map of the
    current scope, keys being compared structurally, compiles to that very
    node; when the node was not multiply referenced before, it is marked
    so, appended to the nodes to reset and its metadata is cleared and
    computed again, and otherwise nothing changes. So when an expression a
    has been compiled to a node, compiling a structurally equal b in the
    same scope returns that node, marked multiply referenced (the metadata
    pass writing metadata only), at once and after any other expressions
    have been compiled in that scope, whatever rewrites are registered.
    The same holds of a and b below different parents: an expression the
    scope has no node for has its inputs compiled one after the other, as
    [compileInputs] lists them, an input the scope has a node for compiles
    to that node, and when the expression is compiled every input is
    recorded with the node it compiled to (the entry of the expression
    itself being assigned last); no compilation changes what the scope has
    recorded, a compilation that returns leaves its node recorded, and an
    expression the scope has a node for compiles to that node. In the
    examples x + 1 is compiled twice, the second time after x + 2, and
    x + 1 is shared by (x + 1) / y and (x + 1) / z, by x + 1 and
    (x + 1) / z, and by (x + 1) / z and x + 1. *)
Theorem common_subexpressions :
  (∀ registry compileExpression expr config flatteningCandidates enableConstantFolding
     s scope parents alreadyCompiled e,
     scopes s = scope :: parents →
     getAlreadyCompiled expr (visited scope) = Some alreadyCompiled →
     heap s !! alreadyCompiled = Some e →
     compileRewrittenExpression registry compileExpression expr config
       flatteningCandidates enableConstantFolding s
     = Some (Returns alreadyCompiled,
             if isMultiplyReferenced_ e then s
             else reusedState registry alreadyCompiled s))
  ∧ (∀ registry depth depth' a b config flatteningCandidates enableConstantFolding
       s compiled s1,
       metadataOnly registry →
       a = b →
       compileExpression registry (S depth) a config flatteningCandidates
         enableConstantFolding s = Some (Returns compiled, s1) →
       ∃ e s2,
         heap s1 !! compiled = Some e
         ∧ compileExpression registry (S depth') b config flatteningCandidates
             enableConstantFolding s1 = Some (Returns compiled, s2)
         ∧ (if isMultiplyReferenced_ e
            then heap s2 = heap s1 ∧ exprSet s2 = exprSet s1
            else heap s2 = computeMetadata registry compiled
                             (clearMetaData registry compiled
                                (alter setMultiplyReferenced compiled (heap s1)))
                 ∧ toReset (exprSet s2) = toReset (exprSet s1) ++ [compiled])
         ∧ ∃ e', heap s2 !! compiled = Some e' ∧ isMultiplyReferenced_ e' = true)
  ∧ (∀ registry depth depth' depth'' a b others config flatteningCandidates
       enableConstantFolding s compiled s1 compiledOthers s2,
       metadataOnly registry →
       a = b →
       compileExpression registry (S depth) a config flatteningCandidates
         enableConstantFolding s = Some (Returns compiled, s1) →
       mapM (λ other, compileExpression registry depth' other config
                        flatteningCandidates enableConstantFolding) others s1
       = Some (Returns compiledOthers, s2) →
       ∃ e,
         heap s2 !! compiled = Some e
         ∧ compileExpression registry (S depth'') b config flatteningCandidates
             enableConstantFolding s2
           = Some (Returns compiled,
                   if isMultiplyReferenced_ e then rewriteNoted registry b s2
                   else reusedState registry compiled (rewriteNoted registry b s2))
         ∧ (expressionRewrites registry = [] → rewriteNoted registry b s2 = s2))
  ∧ (∀ registry depth expr config flatteningCandidates enableConstantFolding
       s scope parents compiled s',
       metadataOnly registry →
       scopes s = scope :: parents →
       getAlreadyCompiled expr (visited scope) = None →
       compileRewrittenExpression registry
         (λ e, compileExpression registry depth e config flatteningCandidates
                 enableConstantFolding)
         expr config flatteningCandidates enableConstantFolding s
       = Some (Returns compiled, s') →
       ∃ compiledInputs s1,
         compileInputs registry
           (λ e, compileExpression registry depth e config flatteningCandidates
                   enableConstantFolding)
           expr flatteningCandidates s
         = Some (Returns compiledInputs, s1)
         ∧ Forall2 (λ part q,
                      (∀ q0, records s (rewritten registry part) q0 → q = q0)
                      ∧ records s' (rewritten registry part)
                          (if bool_decide (rewritten registry part = expr)
                           then compiled else q))
             (compiledParts registry expr flatteningCandidates) compiledInputs
         ∧ records s' expr compiled)
  ∧ (∀ registry depth expr config flatteningCandidates enableConstantFolding s r s',
       metadataOnly registry →
       compileExpression registry depth expr config flatteningCandidates
         enableConstantFolding s = Some (r, s') →
       (∀ key q, records s key q → records s' key q)
       ∧ ∀ compiled, r = Returns compiled →
                     records s' (rewritten registry expr) compiled)
  ∧ (∀ registry depth b config flatteningCandidates enableConstantFolding s q,
       records s (rewritten registry b) q →
       ∃ e,
         heap s !! q = Some e
         ∧ compileExpression registry (S depth) b config flatteningCandidates
             enableConstantFolding s
           = Some (Returns q,
                   if isMultiplyReferenced_ e then rewriteNoted registry b s
                   else reusedState registry q (rewriteNoted registry b s)))
  ∧ match exampleRun [plus (column (Scalar BIGINT) "x") (bigint 1);
                      plus (column (Scalar BIGINT) "x") (bigint 2);
                      plus (column (Scalar BIGINT) "x") (bigint 1)] true true with
    | Some (Returns [p; _; q], s) =>
        p = q
        ∧ isMultiplyReferenced_ <$> heap s !! p = Some true
        ∧ last (toReset (exprSet s)) = Some p
    | _ => False
    end
  ∧ match exampleRun [plus (column (Scalar BIGINT) "x") (bigint 1);
                      plus (column (Scalar BIGINT) "x") (bigint 1)] true true with
    | Some (Returns [p; q], s) =>
        p = q
        ∧ isMultiplyReferenced_ <$> heap s !! p = Some true
        ∧ toReset (exprSet s) = [p]
    | _ => False
    end
  ∧ match exampleRun
            [CallTypedExpr (Scalar BIGINT) "divide"
               [plus (column (Scalar BIGINT) "x") (bigint 1); column (Scalar BIGINT) "y"];
             CallTypedExpr (Scalar BIGINT) "divide"
               [plus (column (Scalar BIGINT) "x") (bigint 1); column (Scalar BIGINT) "z"]]
            true true with
    | Some (Returns [p; q], s) =>
        ∃ sum y z,
          inputs_ <$> heap s !! p = Some [sum; y]
          ∧ inputs_ <$> heap s !! q = Some [sum; z]
          ∧ p ≠ q ∧ y ≠ z
          ∧ isMultiplyReferenced_ <$> heap s !! sum = Some true
          ∧ toReset (exprSet s) = [sum]
    | _ => False
    end
  ∧ match exampleRun
            [plus (column (Scalar BIGINT) "x") (bigint 1);
             CallTypedExpr (Scalar BIGINT) "divide"
               [plus (column (Scalar BIGINT) "x") (bigint 1); column (Scalar BIGINT) "z"]]
            true true with
    | Some (Returns [sum; q], s) =>
        ∃ z,
          inputs_ <$> heap s !! q = Some [sum; z]
          ∧ isMultiplyReferenced_ <$> heap s !! sum = Some true
          ∧ toReset (exprSet s) = [sum]
    | _ => False
    end
  ∧ match exampleRun
            [CallTypedExpr (Scalar BIGINT) "divide"
               [plus (column (Scalar BIGINT) "x") (bigint 1); column (Scalar BIGINT) "z"];
             plus (column (Scalar BIGINT) "x") (bigint 1)]
            true true with
    | Some (Returns [q; sum], s) =>
        ∃ z,
          inputs_ <$> heap s !! q = Some [sum; z]
          ∧ isMultiplyReferenced_ <$> heap s !! sum = Some true
          ∧ toReset (exprSet s) = [sum]
    | _ => False
    end.
Proof.
  split_and!.
  - intros. by eapply compileRewrittenExpression_reuse.
  - intros registry depth depth' a b config flatteningCandidates enableConstantFolding
      s compiled s1 Hmetadata <- Hrun.
    by eapply compileExpression_again.
  - intros registry depth depth' depth'' a b others config flatteningCandidates
      enableConstantFolding s compiled s1 compiledOthers s2 Hmetadata <-
      Hrun Hothers.
    apply compileExpression_records in Hrun; [|done].
    apply mapM_compileExpression_records in Hothers as [Hkeeps _]; [|done].
    apply (keeps_records _ _ _ _ Hkeeps) in Hrun.
    destruct (compileExpression_recorded registry depth'' a config flatteningCandidates
                enableConstantFolding s2 compiled Hrun) as (e & He & Hagain).
    exists e. split_and!; [done..|].
    intros Hrewrites. unfold rewriteNoted, rewriteExpression. by rewrite Hrewrites.
  - intros registry depth expr config flatteningCandidates enableConstantFolding
      s scope parents compiled s' Hmetadata Hscopes Hvisited Hrun.
    destruct (compileRewrittenExpression_parts registry Hmetadata config
                flatteningCandidates enableConstantFolding _
                (λ e, compileExpression_keeps registry Hmetadata depth config
                        flatteningCandidates enableConstantFolding e)
                expr s scope parents compiled s' Hscopes Hvisited Hrun)
      as (compiledInputs & s1 & Hinputs & _ & Hrest).
    exists compiledInputs, s1. split; [done|]. split.
    + apply compileInputs_parts in Hinputs.
      apply mapM_compileExpression_records in Hinputs as [_ Hrecords]; [|done].
      eapply Forall2_impl; [exact Hrecords|]. cbn. intros part q [Hrecorded Hreused].
      split; [done|]. by apply Hrest.
    + apply compileRewrittenExpression_records in Hrun
        as (scope' & parents' & ? & ? & ?); [|done].
      by exists scope', parents'.
  - intros registry depth expr config flatteningCandidates enableConstantFolding
      s r s' Hmetadata Hrun. split.
    + intros key q. apply keeps_records. by eapply compileExpression_keeps.
    + intros compiled ->. by eapply compileExpression_records.
  - intros registry depth b config flatteningCandidates enableConstantFolding s q.
    apply compileExpression_recorded.
  - vm_compute. done.
  - vm_compute. done.
  - vm_compute. by exists 2, 3, 5.
  - vm_compute. by exists 3.
  - vm_compute. by exists 3.
Qed.

Lemma common_subexpressions_witness :
  match compileExpression exampleRegistry 3
          (plus (column (Scalar BIGINT) "x") (bigint 1)) exampleConfig ∅ true
          (initialState (exampleExprSet true)) with
  | Some (Returns compiled, s1) =>
      ∃ s2,
        compileExpression exampleRegistry 3
          (plus (column (Scalar BIGINT) "x") (bigint 1)) exampleConfig ∅ true s1
        = Some (Returns compiled, s2)
        ∧ ∃ e', heap s2 !! compiled = Some e' ∧ isMultiplyReferenced_ e' = true
  | _ => False
  end.
Proof.
  destruct (compileExpression _ _ _ _ _ _ _) as [[[compiled|e] s1]|] eqn:Hrun;
    [|by vm_compute in Hrun..].
  destruct (proj1 (proj2 common_subexpressions) exampleRegistry 2 2
              (plus (column (Scalar BIGINT) "x") (bigint 1))
              (plus (column (Scalar BIGINT) "x") (bigint 1))
              exampleConfig ∅ true (initialState (exampleExprSet true)) compiled s1
              exampleRegistry_metadataOnly eq_refl Hrun)
    as (e & s2 & _ & Hagain & _ & Hmarked).
  by exists s2.
Defined.
